(** * Graph traversal and animation-trace engine of the s-ai route planner

    A shallow embedding of the React component [App] (graph store, adjacency
    builder, the five search strategies, the animation step fold and the
    mutation handlers), followed by the properties of its specification.

    Conventions of the embedding.
    - Node ids are [string]s.  JavaScript treats the empty string as falsy,
      and the component uses it as its "no selection" marker; the tests
      [truthy] below reproduce the conditions [if (x)] and [!x] on ids.
    - A [Record<string, T>] is a [gmap string T]; reading a missing key is
      [None] (JavaScript [undefined]).
    - A [Set<string>] that is only queried is a [gset string]; the set
      [unvisited] of Dijkstra, which is iterated in insertion order, is a
      duplicate-free list.
    - A [number] is an integer, one of the two infinities or NaN; the value
      [Undefined] stands for the [undefined] that a read of a missing key
      yields where the program expects a number.  Edge weights entered through
      the dialog come from [parseInt], so integers are the finite numbers that
      matter; the embedding does not model rounding of doubles.
    - A thrown [TypeError] is the outcome [Crash]; loops and recursion take
      fuel computed from the input and report [Diverge] when it is exhausted.
*)

From Stdlib Require Import ZArith.
From stdpp Require Import gmap strings list sorting.

#[local] Set Warnings "-clear-no-such-hyp".

Local Open Scope string_scope.
Local Open Scope list_scope.
Local Open Scope Z_scope.

(** ** Numbers *)

Inductive number :=
  | Num (z : Z)
  | Infinity
  | NegInfinity
  | NaN
  | Undefined.

#[global] Instance number_eq_dec : EqDecision number.
Proof. solve_decision. Defined.

(** [a + b] *)
Definition num_add (a b : number) : number :=
  match a, b with
  | Num x, Num y => Num (x + y)
  | Num _, Infinity | Infinity, Num _ | Infinity, Infinity => Infinity
  | Num _, NegInfinity | NegInfinity, Num _ | NegInfinity, NegInfinity => NegInfinity
  | _, _ => NaN
  end.

(** [a < b] *)
Definition num_lt (a b : number) : bool :=
  match a, b with
  | Num x, Num y => bool_decide (x < y)
  | Num _, Infinity | NegInfinity, Num _ | NegInfinity, Infinity => true
  | _, _ => false
  end.

(** [a <= b] *)
Definition num_le (a b : number) : bool :=
  match a, b with
  | Num x, Num y => bool_decide (x <= y)
  | Num _, Infinity | NegInfinity, Num _ | NegInfinity, Infinity
  | Infinity, Infinity | NegInfinity, NegInfinity => true
  | _, _ => false
  end.

(** [isNaN(a)] *)
Definition isNaN (a : number) : bool :=
  match a with
  | NaN | Undefined => true
  | _ => false
  end.

(** [a === Infinity] *)
Definition is_Infinity (a : number) : bool :=
  match a with
  | Infinity => true
  | _ => false
  end.

(** Truthiness of a string: only the empty string is falsy. *)
Definition truthy (s : string) : bool := negb (bool_decide (s = "")).

(** ** Outcomes of a computation *)

Inductive outcome (A : Type) :=
  | Ok (a : A)
  | Crash
  | Diverge.
Arguments Ok {A} a.
Arguments Crash {A}.
Arguments Diverge {A}.

Definition obind {A B} (m : outcome A) (f : A -> outcome B) : outcome B :=
  match m with
  | Ok a => f a
  | Crash => Crash
  | Diverge => Diverge
  end.

Notation "x ←! m ; k" := (obind m (fun x => k))
  (at level 20, m at level 100, k at level 200, right associativity,
   format "x  ←!  m ;  '/' k").
Notation "' p ←! m ; k" := (obind m (fun x => match x with p => k end))
  (at level 20, p pattern, m at level 100, k at level 200, right associativity).

(** ** Data model *)

Record GraphLink := mkLink {
  source : string;
  target : string;
  distance : number;
  directed : bool;
}.

(** The [Connections] records of the data module mirror the links. *)
Record Connection := mkConn {
  city1 : string;
  city2 : string;
  cdistance : number;
  cdirected : bool;
}.

Record GraphNode := mkNode {
  id : string;
  x : Z;
  y : Z;
}.

Record PathResult := mkPath {
  path : list string;
  totalDistance : number;
}.

Record AnimationStep := mkStep {
  currentNode : string;
  visitedEdge : option (string * string);
  currentPath : list string;
  isBacktrack : bool;
  waveNodes : option (list string);
  waveEdges : option (list (string * string));
  nextWaveNodes : option (list string);
  waveNumber : option nat;
  isBackwardWave : bool;
}.

(** A step of DFS, BFS and Dijkstra: no wave fields. *)
Definition plainStep (cur : string) (e : option (string * string))
    (p : list string) (back : bool) : AnimationStep :=
  mkStep cur e p back None None None None false.

Inductive Algorithm := DFS | BFS | Dijkstra | Wave | BidirectionalWave.

(** The key [`${a}-${b}`] under which an edge is stored in the edge sets. *)
Definition edgeKey (a b : string) : string := a +:+ "-" +:+ b.

(** The component state that the engine and the mutation handlers read and
    write, grouped by concern: the graph store, the selection, the result of
    the last search, and the highlight state folded by the trace player. *)
Record Graph := mkGraph {
  cities : list string;
  connections : list Connection;
  nodes : list GraphNode;
  links : list GraphLink;
}.

Record Selection := mkSelection {
  selectedCity : option string;
  algorithm : Algorithm;
  startCity : string;
  endCity : string;
  reverseTraversal : bool;
}.

Record Search := mkSearch {
  dfsPath : option PathResult;
  pathNodes : gset string;
  pathEdges : gset string;
  animationSteps : list AnimationStep;
  currentStepIndex : Z;
}.

Record Highlight := mkHighlight {
  isAnimating : bool;
  hlCurrentNode : option string;
  hlCurrentEdge : option (string * string);
  visitedNodes : gset string;
  visitedEdges : gset string;
  currentPathAnimation : list string;
  isBacktracking : bool;
  edgeToWaveMap : gmap string (option nat * bool);
}.

Record App := mkApp {
  graph : Graph;
  selection : Selection;
  search : Search;
  highlight : Highlight;
}.

(** ** Shared helpers *)

(** A bounded [while] loop: [body] either continues with a new state or
    stops with a result. *)
Fixpoint while {S R : Type} (body : S -> outcome (S + R)) (fuel : nat) (s : S)
    : outcome R :=
  match fuel with
  | O => Diverge
  | S fuel' =>
      match body s with
      | Ok (inl s') => while body fuel' s'
      | Ok (inr r) => Ok r
      | Crash => Crash
      | Diverge => Diverge
      end
  end.

(** [previous[k]] read as a condition or an id: a missing key and [null] are
    both falsy. *)
Definition prevOf (previous : gmap string (option string)) (k : string)
    : option string :=
  mjoin (previous !! k).

(** [distances[k]] *)
Definition numOf (m : gmap string number) (k : string) : number :=
  default Undefined (m !! k).

(** The two keys added to an edge set for the edge between [a] and [b]. *)
Definition bothKeys (a b : string) : gset string :=
  {[ edgeKey a b ]} ∪ {[ edgeKey b a ]}.

(** The keys of the consecutive pairs of a path, as the loop
    [for (i = 0; i < p.length - 1; i++)] adds them. *)
Fixpoint pathEdgeKeys (p : list string) : gset string :=
  match p with
  | a :: (b :: _) as rest => bothKeys a b ∪ pathEdgeKeys rest
  | _ => ∅
  end.

(** ** Adjacency builder *)

Abbreviation adjacency := (gmap string (list (string * number))).

(** [adjacencyList[k].push(e)]; throws when [adjacencyList[k]] is undefined. *)
Definition adjPush (k : string) (e : string * number) (adj : adjacency)
    : outcome adjacency :=
  match adj !! k with
  | Some l => Ok (<[k := l ++ [e]]> adj)
  | None => Crash
  end.

Definition addLink (reverseTraversal : bool) (adj : adjacency) (link : GraphLink)
    : outcome adjacency :=
  if reverseTraversal then
    if directed link then
      adjPush (target link) (source link, distance link) adj
    else
      adj1 ←! adjPush (source link) (target link, distance link) adj;
      adjPush (target link) (source link, distance link) adj1
  else
    adj1 ←! adjPush (source link) (target link, distance link) adj;
    if negb (directed link) then
      adjPush (target link) (source link, distance link) adj1
    else Ok adj1.

Fixpoint addLinks (reverseTraversal : bool) (ls : list GraphLink) (adj : adjacency)
    : outcome adjacency :=
  match ls with
  | [] => Ok adj
  | link :: ls' =>
      adj1 ←! addLink reverseTraversal adj link;
      addLinks reverseTraversal ls' adj1
  end.

Definition emptyAdjacency (cs : list string) : adjacency :=
  foldl (fun adj city => <[city := []]> adj) ∅ cs.

Definition buildAdjacencyList (cs : list string) (ls : list GraphLink)
    (reverseTraversal : bool) : outcome adjacency :=
  addLinks reverseTraversal ls (emptyAdjacency cs).

(** [[...adjacencyList[current]]], reversed under reverse traversal; the
    spread throws when the entry is undefined. *)
Definition neighborsOf (adj : adjacency) (reverseTraversal : bool)
    (current : string) : outcome (list (string * number)) :=
  match adj !! current with
  | Some l => Ok (if reverseTraversal then reverse l else l)
  | None => Crash
  end.

(** [reconstructCurrentPath]; the same loop is written out again at the end
    of Dijkstra and for the forward half of the bidirectional wave. *)
Fixpoint reconstructLoop (fuel : nat) (previous : gmap string (option string))
    (currentNode : string) (path : list string) : outcome (list string) :=
  match fuel with
  | O => Diverge
  | S fuel' =>
      if truthy currentNode then
        match prevOf previous currentNode with
        | Some next =>
            if truthy next then
              reconstructLoop fuel' previous next (currentNode :: path)
            else Ok (currentNode :: path)
        | None => Ok (currentNode :: path)
        end
      else Ok path
  end.

Definition reconstructCurrentPath (previous : gmap string (option string))
    (current : string) : outcome (list string) :=
  reconstructLoop (S (size previous)) previous current [].

(** ** Writing the result of a search into the state *)

Definition resetAnimationState (h : Highlight) : Highlight :=
  mkHighlight false None None ∅ ∅ [] false ∅.

Definition noResult (s : App) : App :=
  mkApp (graph s) (selection s) (mkSearch None ∅ ∅ [] (-1))
        (resetAnimationState (highlight s)).

Definition foundResult (s : App) (r : PathResult) (steps : list AnimationStep)
    : App :=
  mkApp (graph s) (selection s)
        (mkSearch (Some r) (list_to_set (path r)) (pathEdgeKeys (path r)) steps (-1))
        (resetAnimationState (highlight s)).

(** The guard [!startCity || !endCity || startCity === endCity]. *)
Definition invalidSelection (s : App) : bool :=
  negb (truthy (startCity (selection s)))
  || negb (truthy (endCity (selection s)))
  || bool_decide (startCity (selection s) = endCity (selection s)).

(** ** DFS *)

Record DfsState := mkDfs {
  dfs_visited : gset string;
  dfs_currentPath : list string;
  dfs_distanceMap : gmap string number;
  dfs_animSteps : list AnimationStep;
  dfs_pathStack : list string;
}.

Section dfs.
Context (adjacencyList : adjacency) (reverseTraversal : bool) (target : string).

Fixpoint dfsNeighbors
      (rec : string -> number -> DfsState -> outcome (bool * DfsState))
      (current : string) (currentDistance : number)
      (neighbors : list (string * number)) (st : DfsState)
      : outcome (bool * DfsState) :=
    match neighbors with
    | [] => Ok (false, st)
    | (city, d) :: rest =>
        if decide (city ∈ dfs_visited st) then
          dfsNeighbors rec current currentDistance rest st
        else
          let tempDistance := num_add currentDistance d in
          let st1 :=
            mkDfs (dfs_visited st) (dfs_currentPath st)
                  (<[city := tempDistance]> (dfs_distanceMap st))
                  (dfs_animSteps st ++
                     [plainStep current (Some (current, city)) (dfs_currentPath st) false])
                  (dfs_pathStack st) in
          '(found, st2) ←! rec city tempDistance st1;
          if (found : bool) then Ok (true, st2)
          else dfsNeighbors rec current currentDistance rest st2
    end.

Fixpoint dfs (fuel : nat) (current : string) (currentDistance : number)
      (st : DfsState) : outcome (bool * DfsState) :=
    match fuel with
    | O => Diverge
    | S fuel' =>
        if decide (current = target) then
          Ok (true,
              mkDfs (dfs_visited st) (dfs_currentPath st) (dfs_distanceMap st)
                    (dfs_animSteps st)
                    (dfs_pathStack st ++ dfs_currentPath st ++ [current]))
        else
          let st1 :=
            mkDfs ({[current]} ∪ dfs_visited st)
                  (dfs_currentPath st ++ [current])
                  (dfs_distanceMap st)
                  (dfs_animSteps st ++
                     [plainStep current None (dfs_currentPath st) false])
                  (dfs_pathStack st) in
          neighbors ←! neighborsOf adjacencyList reverseTraversal current;
          '(found, st2) ←! dfsNeighbors (dfs fuel') current currentDistance neighbors st1;
          if (found : bool) then Ok (true, st2)
          else
            Ok (false,
                mkDfs (dfs_visited st2) (removelast (dfs_currentPath st2))
                      (dfs_distanceMap st2)
                      (dfs_animSteps st2 ++
                         [plainStep current None (dfs_currentPath st2) true])
                      (dfs_pathStack st2))
    end.
End dfs.

Definition dfsInit (cs : list string) : DfsState :=
  mkDfs ∅ [] (foldl (fun m city => <[city := Num 0]> m) ∅ cs) [] [].

Definition performDFS (s : App) : outcome App :=
  if invalidSelection s then Ok (noResult s)
  else
    let cs := cities (graph s) in
    let startCity := startCity (selection s) in
    let endCity := endCity (selection s) in
    let rev := reverseTraversal (selection s) in
    adjacencyList ←! buildAdjacencyList cs (links (graph s)) rev;
    '(_, st) ←! dfs adjacencyList rev endCity (S (length cs)) startCity (Num 0)
                    (dfsInit cs);
    match dfs_pathStack st with
    | [] => Ok (noResult s)
    | _ :: _ =>
        Ok (foundResult s
              (mkPath (dfs_pathStack st) (numOf (dfs_distanceMap st) endCity))
              (dfs_animSteps st))
    end.

(** ** BFS *)

Record BfsEntry := mkEntry {
  e_node : string;
  e_path : list string;
  e_distance : number;
}.

Record BfsState := mkBfs {
  bfs_queue : list BfsEntry;
  bfs_visited : gset string;
  bfs_animSteps : list AnimationStep;
}.

Fixpoint bfsNeighbors (node : string) (currentPath : list string)
    (dist : number) (neighbors : list (string * number)) (st : BfsState)
    : BfsState :=
  match neighbors with
  | [] => st
  | (city, d) :: rest =>
      if decide (city ∈ bfs_visited st) then
        bfsNeighbors node currentPath dist rest st
      else
        bfsNeighbors node currentPath dist rest
          (mkBfs (bfs_queue st ++ [mkEntry city currentPath (num_add dist d)])
                 ({[city]} ∪ bfs_visited st)
                 (bfs_animSteps st ++
                    [plainStep node (Some (node, city)) currentPath false;
                     plainStep city None currentPath false]))
  end.

(** One iteration of [while (queue.length > 0)]; the result is the path found
    with the trace, or [None] when the queue is empty. *)
Definition bfsBody (adjacencyList : adjacency) (reverseTraversal : bool)
    (endCity : string) (st : BfsState)
    : outcome (BfsState + option (PathResult * list AnimationStep)) :=
  match bfs_queue st with
  | [] => Ok (inr None)
  | e :: queue =>
      let currentPath := e_path e ++ [e_node e] in
      if decide (e_node e = endCity) then
        Ok (inr (Some (mkPath currentPath (e_distance e), bfs_animSteps st)))
      else
        neighbors ←! neighborsOf adjacencyList reverseTraversal (e_node e);
        Ok (inl (bfsNeighbors (e_node e) currentPath (e_distance e) neighbors
                   (mkBfs queue (bfs_visited st) (bfs_animSteps st))))
  end.

Definition bfsInit (startCity : string) : BfsState :=
  mkBfs [mkEntry startCity [] (Num 0)] {[startCity]}
        [plainStep startCity None [] false].

Definition performBFS (s : App) : outcome App :=
  if invalidSelection s then Ok (noResult s)
  else
    let cs := cities (graph s) in
    let startCity := startCity (selection s) in
    let endCity := endCity (selection s) in
    let rev := reverseTraversal (selection s) in
    adjacencyList ←! buildAdjacencyList cs (links (graph s)) rev;
    r ←! while (bfsBody adjacencyList rev endCity) (S (length cs))
               (bfsInit startCity);
    match r with
    | Some (p, steps) => Ok (foundResult s p steps)
    | None => Ok (noResult s)
    end.

(** ** Dijkstra *)

Record DijkstraState := mkDijkstra {
  dj_distances : gmap string number;
  dj_previous : gmap string (option string);
  dj_unvisited : list string;
  dj_animSteps : list AnimationStep;
}.

(** [unvisited.add(city)] on an insertion-ordered set. *)
Definition orderedAdd (city : string) (l : list string) : list string :=
  if decide (city ∈ l) then l else l ++ [city].

(** [unvisited.delete(city)] *)
Definition orderedDelete (city : string) (l : list string) : list string :=
  filter (fun c => c ≠ city) l.

Definition dijkstraInit (cs : list string) (startCity : string) : DijkstraState :=
  let st :=
    foldl (fun st city =>
             mkDijkstra
               (<[city := if decide (city = startCity) then Num 0 else Infinity]>
                  (dj_distances st))
               (<[city := None]> (dj_previous st))
               (orderedAdd city (dj_unvisited st))
               [])
          (mkDijkstra ∅ ∅ [] []) cs in
  mkDijkstra (dj_distances st) (dj_previous st) (dj_unvisited st)
             [plainStep startCity None [] false].

(** The scan [unvisited.forEach] for the closest unvisited city. *)
Definition selectMin (distances : gmap string number) (unvisited : list string)
    : option string * number :=
  foldl (fun '(current, minDistance) city =>
           if num_lt (numOf distances city) minDistance
           then (Some city, numOf distances city)
           else (current, minDistance))
        (None, Infinity) unvisited.

Fixpoint relaxNeighbors (current : string) (neighbors : list (string * number))
    (st : DijkstraState) : outcome DijkstraState :=
  match neighbors with
  | [] => Ok st
  | (city, d) :: rest =>
      if negb (bool_decide (city ∈ dj_unvisited st)) || negb (truthy current)
      then relaxNeighbors current rest st
      else
        let potentialDistance := num_add (numOf (dj_distances st) current) d in
        p1 ←! reconstructCurrentPath (dj_previous st) current;
        let steps1 :=
          dj_animSteps st ++ [plainStep current (Some (current, city)) p1 false] in
        if num_lt potentialDistance (numOf (dj_distances st) city) then
          let previous := <[city := Some current]> (dj_previous st) in
          p2 ←! reconstructCurrentPath previous city;
          relaxNeighbors current rest
            (mkDijkstra (<[city := potentialDistance]> (dj_distances st))
                        previous (dj_unvisited st)
                        (steps1 ++ [plainStep city None p2 false]))
        else
          relaxNeighbors current rest
            (mkDijkstra (dj_distances st) (dj_previous st) (dj_unvisited st) steps1)
  end.

(** One iteration of [while (unvisited.size > 0)]; both [break]s and the
    loop condition leave with the state reached. *)
Definition dijkstraBody (adjacencyList : adjacency) (endCity : string)
    (st : DijkstraState) : outcome (DijkstraState + DijkstraState) :=
  match dj_unvisited st with
  | [] => Ok (inr st)
  | _ :: _ =>
      match selectMin (dj_distances st) (dj_unvisited st) with
      | (None, _) => Ok (inr st)
      | (Some current, _) =>
          if is_Infinity (numOf (dj_distances st) current) then Ok (inr st)
          else if decide (current = endCity) then Ok (inr st)
          else
            match adjacencyList !! current with
            | None => Crash
            | Some neighbors =>
                st' ←! relaxNeighbors current neighbors
                         (mkDijkstra (dj_distances st) (dj_previous st)
                                     (orderedDelete current (dj_unvisited st))
                                     (dj_animSteps st));
                Ok (inl st')
            end
      end
  end.

Definition performDijkstra (s : App) : outcome App :=
  if invalidSelection s then Ok (noResult s)
  else
    let cs := cities (graph s) in
    let startCity := startCity (selection s) in
    let endCity := endCity (selection s) in
    adjacencyList ←! buildAdjacencyList cs (links (graph s))
                       (reverseTraversal (selection s));
    st ←! while (dijkstraBody adjacencyList endCity) (S (length cs))
                (dijkstraInit cs startCity);
    if negb (bool_decide (dj_previous st !! endCity = Some None))
       || bool_decide (startCity = endCity)
    then
      p ←! reconstructCurrentPath (dj_previous st) endCity;
      Ok (foundResult s (mkPath p (numOf (dj_distances st) endCity))
                      (dj_animSteps st))
    else Ok (noResult s).

(** ** Wave *)

Record WaveState := mkWave {
  w_queue : list string;
  w_visited : gset string;
  w_previous : gmap string (option string);
  w_distances : gmap string number;
  w_animSteps : list AnimationStep;
  w_waveCounter : nat;
  w_foundPath : bool;
}.

(** The loop that shifts the current wave out of the queue, stopping at the
    target: the wave, the rest of the queue and [foundPath]. *)
Fixpoint waveDequeue (previous : gmap string (option string)) (endCity : string)
    (queue : list string) : outcome (list string * list string * bool) :=
  match queue with
  | [] => Ok ([], [], false)
  | current :: rest =>
      _ ←! reconstructCurrentPath previous current;
      if decide (current = endCity) then Ok ([current], rest, true)
      else
        '(wave, rest', found) ←! waveDequeue previous endCity rest;
        Ok (current :: wave, rest', found)
  end.

(** What the expansion of a wave accumulates. *)
Record Expansion := mkExpansion {
  x_queue : list string;
  x_visited : gset string;
  x_previous : gmap string (option string);
  x_distances : gmap string number;
  x_waveEdges : list (string * string);
  x_nextWaveNodes : list string;
}.

Fixpoint waveNeighbors (current : string) (neighbors : list (string * number))
    (ex : Expansion) : Expansion :=
  match neighbors with
  | [] => ex
  | (city, d) :: rest =>
      if decide (city ∈ x_visited ex) then waveNeighbors current rest ex
      else
        waveNeighbors current rest
          (mkExpansion (x_queue ex ++ [city])
                       ({[city]} ∪ x_visited ex)
                       (<[city := Some current]> (x_previous ex))
                       (<[city := num_add (numOf (x_distances ex) current) d]>
                          (x_distances ex))
                       (x_waveEdges ex ++ [(current, city)])
                       (x_nextWaveNodes ex ++ [city]))
  end.

Fixpoint waveExpand (adjacencyList : adjacency) (reverseTraversal : bool)
    (wave : list string) (ex : Expansion) : outcome Expansion :=
  match wave with
  | [] => Ok ex
  | current :: rest =>
      neighbors ←! neighborsOf adjacencyList reverseTraversal current;
      waveExpand adjacencyList reverseTraversal rest
                 (waveNeighbors current neighbors ex)
  end.

Definition waveStep (cur : string) (e : option (string * string))
    (p wave : list string) (edges : list (string * string))
    (next : list string) (n : option nat) (backward : bool) : AnimationStep :=
  mkStep cur e p false (Some wave) (Some edges) (Some next) n backward.

(** One iteration of [while (queue.length > 0 && !foundPath)]. *)
Definition waveBody (adjacencyList : adjacency) (reverseTraversal : bool)
    (endCity : string) (st : WaveState) : outcome (WaveState + WaveState) :=
  match w_queue st with
  | [] => Ok (inr st)
  | _ :: _ =>
      if w_foundPath st then Ok (inr st)
      else
        '(currentWave, queue, found) ←!
           waveDequeue (w_previous st) endCity (w_queue st);
        ex ←! waveExpand adjacencyList reverseTraversal currentWave
                (mkExpansion queue (w_visited st) (w_previous st)
                             (w_distances st) [] []);
        match x_waveEdges ex with
        | [] =>
            Ok (inl (mkWave (x_queue ex) (x_visited ex) (x_previous ex)
                            (x_distances ex) (w_animSteps st)
                            (w_waveCounter st) found))
        | e0 :: _ =>
            compositePath ←!
              match currentWave with
              | c0 :: _ => reconstructCurrentPath (x_previous ex) c0
              | [] => Ok []
              end;
            Ok (inl (mkWave (x_queue ex) (x_visited ex) (x_previous ex)
                            (x_distances ex)
                            (w_animSteps st ++
                               [waveStep (hd "" currentWave) (Some e0) compositePath
                                         currentWave (x_waveEdges ex)
                                         (x_nextWaveNodes ex)
                                         (Some (w_waveCounter st)) false])
                            (S (w_waveCounter st)) found))
        end
  end.

Definition waveInit (cs : list string) (startCity : string) : WaveState :=
  mkWave [startCity] {[startCity]}
         (foldl (fun m city => <[city := None]> m) ∅ cs)
         (foldl (fun m city =>
                   <[city := if decide (city = startCity) then Num 0 else Infinity]> m)
                ∅ cs)
         [plainStep startCity None [] false] 0 false.

Definition performWave (s : App) : outcome App :=
  if invalidSelection s then Ok (noResult s)
  else
    let cs := cities (graph s) in
    let startCity := startCity (selection s) in
    let endCity := endCity (selection s) in
    let rev := reverseTraversal (selection s) in
    adjacencyList ←! buildAdjacencyList cs (links (graph s)) rev;
    st ←! while (waveBody adjacencyList rev endCity) (S (length cs))
                (waveInit cs startCity);
    if w_foundPath st then
      p ←! reconstructCurrentPath (w_previous st) endCity;
      Ok (foundResult s (mkPath p (numOf (w_distances st) endCity))
                      (w_animSteps st))
    else Ok (noResult s).

(** ** Bidirectional wave *)

(** The state one direction of the search owns.  The source writes the
    forward and the backward phase out twice, with the roles of the two
    sides exchanged; the embedding shares one definition of a phase. *)
Record Side := mkSide {
  sd_queue : list string;
  sd_visited : gset string;
  sd_previous : gmap string (option string);
  sd_distances : gmap string number;
}.

Record BiState := mkBi {
  bi_forward : Side;
  bi_backward : Side;
  bi_animSteps : list AnimationStep;
  bi_forwardWaveCounter : nat;
  bi_backwardWaveCounter : nat;
  bi_meetingNode : option string;
  bi_foundPath : bool;
}.

(** Shifting the current wave out, stopping at a node the other side has
    visited: the wave, the rest of the queue and the meeting node. *)
Fixpoint biDequeue (otherVisited : gset string) (queue : list string)
    : list string * list string * option string :=
  match queue with
  | [] => ([], [], None)
  | current :: rest =>
      if decide (current ∈ otherVisited) then ([current], rest, Some current)
      else
        let '(wave, rest', m) := biDequeue otherVisited rest in
        (current :: wave, rest', m)
  end.

Fixpoint biNeighbors (otherVisited : gset string) (current : string)
    (neighbors : list (string * number)) (ex : Expansion)
    : Expansion * option string :=
  match neighbors with
  | [] => (ex, None)
  | (city, d) :: rest =>
      if decide (city ∈ x_visited ex) then
        biNeighbors otherVisited current rest ex
      else
        let ex' :=
          mkExpansion (x_queue ex ++ [city])
                      ({[city]} ∪ x_visited ex)
                      (<[city := Some current]> (x_previous ex))
                      (<[city := num_add (numOf (x_distances ex) current) d]>
                         (x_distances ex))
                      (x_waveEdges ex ++ [(current, city)])
                      (x_nextWaveNodes ex ++ [city]) in
        if decide (city ∈ otherVisited) then (ex', Some city)
        else biNeighbors otherVisited current rest ex'
  end.

Fixpoint biExpand (adjacencyList : adjacency) (reverseTraversal : bool)
    (otherVisited : gset string) (wave : list string) (ex : Expansion)
    : outcome (Expansion * option string) :=
  match wave with
  | [] => Ok (ex, None)
  | current :: rest =>
      neighbors ←! neighborsOf adjacencyList reverseTraversal current;
      match biNeighbors otherVisited current neighbors ex with
      | (ex', Some m) => Ok (ex', Some m)
      | (ex', None) =>
          biExpand adjacencyList reverseTraversal otherVisited rest ex'
      end
  end.

(** The outcome of one phase on a non-empty queue: the side after it, the
    step it emits (if any) and the meeting node (if found). *)
Definition biPhase (adjacencyList : adjacency) (reverseTraversal : bool)
    (own : Side) (otherVisited : gset string) (counter : nat) (backward : bool)
    : outcome (Side * option AnimationStep * option string) :=
  let '(wave, queue, met) := biDequeue otherVisited (sd_queue own) in
  match met with
  | Some m =>
      Ok (mkSide queue (sd_visited own) (sd_previous own) (sd_distances own),
          None, Some m)
  | None =>
      '(ex, met') ←! biExpand adjacencyList reverseTraversal otherVisited wave
                       (mkExpansion queue (sd_visited own) (sd_previous own)
                                    (sd_distances own) [] []);
      let own' := mkSide (x_queue ex) (x_visited ex) (x_previous ex)
                         (x_distances ex) in
      match x_waveEdges ex with
      | [] => Ok (own', None, met')
      | _ :: _ =>
          Ok (own',
              Some (waveStep "" None [] wave (x_waveEdges ex)
                             (x_nextWaveNodes ex) (Some counter) backward),
              met')
      end
  end.

Definition pushStep (steps : list AnimationStep) (o : option AnimationStep)
    : list AnimationStep :=
  match o with
  | Some st => steps ++ [st]
  | None => steps
  end.

Definition bumpCounter (n : nat) (o : option AnimationStep) : nat :=
  match o with
  | Some _ => S n
  | None => n
  end.

(** The forward half of an iteration: [if (queueForward.length > 0) { ... }]. *)
Definition biForward (adjacencyList : adjacency) (reverseTraversal : bool)
    (st : BiState) : outcome BiState :=
  match sd_queue (bi_forward st) with
  | [] => Ok st
  | _ :: _ =>
      '(fw, step, met) ←!
         biPhase adjacencyList reverseTraversal (bi_forward st)
                 (sd_visited (bi_backward st))
                 (bi_forwardWaveCounter st) false;
      Ok (mkBi fw (bi_backward st) (pushStep (bi_animSteps st) step)
               (bumpCounter (bi_forwardWaveCounter st) step)
               (bi_backwardWaveCounter st)
               (match met with Some m => Some m | None => bi_meetingNode st end)
               (bool_decide (is_Some met)))
  end.

(** The backward half: [if (queueBackward.length > 0) { ... }]. *)
Definition biBackward (adjacencyList : adjacency) (reverseTraversal : bool)
    (st : BiState) : outcome BiState :=
  match sd_queue (bi_backward st) with
  | [] => Ok st
  | _ :: _ =>
      '(bw, step, met) ←!
         biPhase adjacencyList reverseTraversal (bi_backward st)
                 (sd_visited (bi_forward st))
                 (bi_backwardWaveCounter st) true;
      Ok (mkBi (bi_forward st) bw (pushStep (bi_animSteps st) step)
               (bi_forwardWaveCounter st)
               (bumpCounter (bi_backwardWaveCounter st) step)
               (match met with Some m => Some m | None => bi_meetingNode st end)
               (bool_decide (is_Some met)))
  end.

(** One iteration of
    [while ((queueForward.length > 0 || queueBackward.length > 0) && !foundPath)];
    each [if (foundPath) break] leaves the loop with the state reached. *)
Definition biBody (adjacencyList : adjacency) (reverseTraversal : bool)
    (st : BiState) : outcome (BiState + BiState) :=
  if bi_foundPath st then Ok (inr st)
  else
    match sd_queue (bi_forward st), sd_queue (bi_backward st) with
    | [], [] => Ok (inr st)
    | _, _ =>
        st1 ←! biForward adjacencyList reverseTraversal st;
        if bi_foundPath st1 then Ok (inr st1)
        else
          st2 ←! biBackward adjacencyList reverseTraversal st1;
          if bi_foundPath st2 then Ok (inr st2) else Ok (inl st2)
    end.

(** The loop that collects the backward half by [push]. *)
Fixpoint backwardLoop (fuel : nat) (previous : gmap string (option string))
    (current : string) (path : list string) : outcome (list string) :=
  match fuel with
  | O => Diverge
  | S fuel' =>
      if truthy current then
        match prevOf previous current with
        | Some next =>
            if truthy next then
              backwardLoop fuel' previous next (path ++ [current])
            else Ok (path ++ [current])
        | None => Ok (path ++ [current])
        end
      else Ok path
  end.

(** [links.find] for an edge between two nodes, in either endpoint order. *)
Definition findLink (ls : list GraphLink) (a b : string) : option GraphLink :=
  List.find (fun l =>
               (bool_decide (source l = a) && bool_decide (target l = b))
               || (bool_decide (source l = b) && bool_decide (target l = a)))
            ls.

(** The body of the loop that recomputes the total distance: the link
    between [fullPath[i]] and [fullPath[i + 1]], if there is one, adds its
    distance. *)
Definition addLinkDistance (ls : list GraphLink) (fullPath : list string)
    (totalDistance : number) (i : nat) : number :=
  match fullPath !! i, fullPath !! S i with
  | Some a, Some b =>
      match findLink ls a b with
      | Some link => num_add totalDistance (distance link)
      | None => totalDistance
      end
  | _, _ => totalDistance
  end.

(** The loop [for (i = 0; i < fullPath.length - 1; i++)]. *)
Definition sumPathDistance (ls : list GraphLink) (fullPath : list string)
    : number :=
  foldl (addLinkDistance ls fullPath) (Num 0) (seq 0 (length fullPath - 1)).

Definition biInit (cs : list string) (startCity endCity : string) : BiState :=
  let nulls := foldl (fun m city => <[city := None]> m) ∅ cs in
  let dist root :=
    foldl (fun m city =>
             <[city := if decide (city = root) then Num 0 else Infinity]> m)
          ∅ cs in
  mkBi (mkSide [startCity] {[startCity]} nulls (dist startCity))
       (mkSide [endCity] {[endCity]} nulls (dist endCity))
       [waveStep startCity None [startCity] [startCity] [] [] None false;
        waveStep endCity None [endCity] [endCity] [] [] None false]
       0 0 None false.

Definition performBidirectionalWave (s : App) : outcome App :=
  if invalidSelection s then Ok (noResult s)
  else
    let cs := cities (graph s) in
    let startCity := startCity (selection s) in
    let endCity := endCity (selection s) in
    let rev := reverseTraversal (selection s) in
    adjacencyList ←! buildAdjacencyList cs (links (graph s)) rev;
    st ←! while (biBody adjacencyList rev) (S (length cs + length cs))
                (biInit cs startCity endCity);
    match bi_meetingNode st with
    | Some meetingNode =>
        if bi_foundPath st && truthy meetingNode then
          let pf := sd_previous (bi_forward st) in
          let pb := sd_previous (bi_backward st) in
          forwardPath ←! reconstructLoop (S (size pf)) pf meetingNode [];
          backwardPath ←!
            match prevOf pb meetingNode with
            | Some c => backwardLoop (S (size pb)) pb c []
            | None => Ok []
            end;
          let fullPath := forwardPath ++ backwardPath in
          Ok (foundResult s
                (mkPath fullPath (sumPathDistance (links (graph s)) fullPath))
                (bi_animSteps st ++
                   [waveStep meetingNode None [] [meetingNode] [] [] None false;
                    waveStep "" None fullPath [] [] [] None false]))
        else Ok (noResult s)
    | None => Ok (noResult s)
    end.

Definition findPath (s : App) : outcome App :=
  match algorithm (selection s) with
  | DFS => performDFS s
  | BFS => performBFS s
  | Dijkstra => performDijkstra s
  | Wave => performWave s
  | BidirectionalWave => performBidirectionalWave s
  end.

(** ** Trace player *)

Definition edgeListKeys (es : list (string * string)) : gset string :=
  foldl (fun acc '(a, b) => acc ∪ bothKeys a b) ∅ es.

(** The body of the timer callback of the animation effect: how one step is
    folded into the highlight state.  The effect also clears [pathNodes]
    and, when the step carries a path, replaces [pathEdges]. *)
Definition applyStep (s : App) (step : AnimationStep) : App :=
  let h := highlight s in
  let h' :=
    match waveNodes step, waveEdges step with
    | Some wn, Some we =>
        mkHighlight (isAnimating h) None None
          (visitedNodes h ∪ list_to_set wn)
          (visitedEdges h ∪ edgeListKeys we)
          (currentPath step) (isBacktrack step)
          (foldl (fun m '(a, b) =>
                    <[edgeKey b a := (waveNumber step, isBackwardWave step)]>
                      (<[edgeKey a b := (waveNumber step, isBackwardWave step)]> m))
                 (edgeToWaveMap h) we)
    | _, _ =>
        mkHighlight (isAnimating h) (Some (currentNode step)) (visitedEdge step)
          (visitedNodes h ∪ {[currentNode step]})
          (match visitedEdge step with
           | Some (a, b) => visitedEdges h ∪ bothKeys a b
           | None => visitedEdges h
           end)
          (currentPath step) (isBacktrack step) (edgeToWaveMap h)
    end in
  let pe :=
    match currentPath step with
    | [] => pathEdges (search s)
    | _ :: _ =>
        pathEdgeKeys (currentPath step)
        ∪ match visitedEdge step with
          | Some (a, b) => bothKeys a b
          | None => ∅
          end
    end in
  mkApp (graph s) (selection s)
        (mkSearch (dfsPath (search s)) ∅ pe (animationSteps (search s))
                  (currentStepIndex (search s) + 1))
        h'.

Definition startAnimation (s : App) : App :=
  match animationSteps (search s) with
  | [] => s
  | _ :: _ =>
      let h := highlight s in
      mkApp (graph s) (selection s)
            (mkSearch (dfsPath (search s)) (pathNodes (search s))
                      (pathEdges (search s)) (animationSteps (search s)) 0)
            (mkHighlight true (hlCurrentNode h) (hlCurrentEdge h) (visitedNodes h)
                         (visitedEdges h) (currentPathAnimation h)
                         (isBacktracking h) (edgeToWaveMap h))
  end.

(** One firing of the animation effect. *)
Definition animationTick (s : App) : outcome App :=
  let i := currentStepIndex (search s) in
  if isAnimating (highlight s) && bool_decide (0 <= i) then
    match animationSteps (search s) !! Z.to_nat i with
    | Some step => Ok (applyStep s step)
    | None =>
        let h := highlight s in
        findPath (mkApp (graph s) (selection s) (search s)
                        (mkHighlight false (hlCurrentNode h) (hlCurrentEdge h)
                                     (visitedNodes h) (visitedEdges h)
                                     (currentPathAnimation h) (isBacktracking h)
                                     (edgeToWaveMap h)))
    end
  else Ok s.

(** ** Mutation handlers *)

Definition clearSearch (s : App) (g : Graph) (sel : Selection) : App :=
  mkApp g sel (mkSearch None ∅ ∅ [] (-1)) (resetAnimationState (highlight s)).

Definition deleteNode (nodeId : string) (s : App) : App :=
  let g := graph s in
  let sel := selection s in
  let remaining := filter (fun city => city ≠ nodeId) (cities g) in
  let g' :=
    mkGraph remaining
      (filter (fun conn => city1 conn ≠ nodeId ∧ city2 conn ≠ nodeId) (connections g))
      (filter (fun node => id node ≠ nodeId) (nodes g))
      (filter (fun link => source link ≠ nodeId ∧ target link ≠ nodeId) (links g)) in
  let selected :=
    if decide (selectedCity sel = Some nodeId) then None else selectedCity sel in
  if decide (startCity sel = nodeId ∨ endCity sel = nodeId) then
    let first := hd "" remaining in
    clearSearch s g'
      (mkSelection selected (algorithm sel)
         (if decide (startCity sel = nodeId) then first else startCity sel)
         (if decide (endCity sel = nodeId) then first else endCity sel)
         (reverseTraversal sel))
  else
    mkApp g'
      (mkSelection selected (algorithm sel) (startCity sel) (endCity sel)
                   (reverseTraversal sel))
      (search s) (highlight s).

Definition deleteEdge (src tgt : string) (s : App) : App :=
  let g := graph s in
  let g' :=
    mkGraph (cities g)
      (filter (fun conn => ¬ (city1 conn = src ∧ city2 conn = tgt)
                           ∧ ¬ (city1 conn = tgt ∧ city2 conn = src))
              (connections g))
      (nodes g)
      (filter (fun link => ¬ (source link = src ∧ target link = tgt)
                           ∧ ¬ (source link = tgt ∧ target link = src))
              (links g)) in
  if decide (edgeKey src tgt ∈ pathEdges (search s)
             ∨ edgeKey tgt src ∈ pathEdges (search s))
  then clearSearch s g' (selection s)
  else mkApp g' (selection s) (search s) (highlight s).

Definition addNewNode (name : string) (pos : Z * Z) (s : App) : App :=
  let g := graph s in
  mkApp (mkGraph (cities g ++ [name]) (connections g)
                 (nodes g ++ [mkNode name (fst pos) (snd pos)]) (links g))
        (selection s) (search s) (highlight s).

(** The test both [some] and [map] apply to a link in [addNewEdge]. *)
Definition sameEdge (src tgt : string) (dir : bool) (a b : string) : bool :=
  (bool_decide (a = src) && bool_decide (b = tgt))
  || (negb dir && bool_decide (a = tgt) && bool_decide (b = src)).

Definition addNewEdge (src tgt : string) (dist : number) (dir : bool) (s : App)
    : App :=
  let g := graph s in
  let edgeExists :=
    existsb (fun link => sameEdge src tgt dir (source link) (target link)) (links g) in
  let g' :=
    if edgeExists then
      mkGraph (cities g)
        (map (fun conn =>
                if sameEdge src tgt dir (city1 conn) (city2 conn)
                then mkConn (city1 conn) (city2 conn) dist dir else conn)
             (connections g))
        (nodes g)
        (map (fun link =>
                if sameEdge src tgt dir (source link) (target link)
                then mkLink (source link) (target link) dist dir else link)
             (links g))
    else
      mkGraph (cities g) (connections g ++ [mkConn src tgt dist dir]) (nodes g)
              (links g ++ [mkLink src tgt dist dir]) in
  mkApp g' (selection s) (search s) (highlight s).

(** [confirmAddEdge]: the dialog's source and target are passed along.  The
    flag tells whether the weight was rejected (the alert branch, which
    returns before any setter is called). *)
Definition confirmAddEdge (edgeSource edgeTarget : string) (dist : number)
    (dir : bool) (s : App) : bool * App :=
  if isNaN dist || num_le dist (Num 0) then (true, s)
  else (false, addNewEdge edgeSource edgeTarget dist dir s).

(** * Specification vocabulary *)

(** A link can be followed from [u] to [v]: a directed link from its source
    to its target (from its target to its source under reverse traversal),
    an undirected one either way. *)
Definition canTraverse (reverseTraversal : bool) (u v : string) (l : GraphLink)
    : Prop :=
  if directed l then
    if reverseTraversal then target l = u ∧ source l = v
    else source l = u ∧ target l = v
  else (source l = u ∧ target l = v) ∨ (source l = v ∧ target l = u).

#[global] Instance canTraverse_dec rev u v l : Decision (canTraverse rev u v l).
Proof. unfold canTraverse. destruct (directed l), rev; apply _. Defined.

(** Some live link can be followed from [u] to [v], carrying weight [w]. *)
Definition traversableW (reverseTraversal : bool) (ls : list GraphLink)
    (u v : string) (w : number) : Prop :=
  Exists (fun l => canTraverse reverseTraversal u v l ∧ distance l = w) ls.

Definition traversable (reverseTraversal : bool) (ls : list GraphLink)
    (u v : string) : Prop :=
  Exists (canTraverse reverseTraversal u v) ls.

(** Every consecutive pair of [p] is related by [R]. *)
Fixpoint chain (R : string -> string -> Prop) (p : list string) : Prop :=
  match p with
  | a :: (b :: _) as rest => R a b ∧ chain R rest
  | _ => True
  end.

#[global] Instance chain_dec R `{!∀ a b, Decision (R a b)} p : Decision (chain R p).
Proof.
  induction p as [|a [|b rest] IH]; simpl; try apply _.
Defined.

(** [p] leads from [a] to [b] along links that can be followed. *)
Definition validPath (reverseTraversal : bool) (ls : list GraphLink)
    (a b : string) (p : list string) : Prop :=
  head p = Some a ∧ last p = Some b ∧ chain (traversable reverseTraversal ls) p.

#[global] Instance validPath_dec rev ls a b p : Decision (validPath rev ls a b p).
Proof. unfold validPath, traversable. apply _. Defined.

(** The number of edges of a path. *)
Definition hops (p : list string) : nat := Nat.pred (length p).

(** The search found a path. *)
Definition found (o : outcome App) (r : PathResult) : Prop :=
  ∃ s', o = Ok s' ∧ dfsPath (search s') = Some r.

(** The search ended with "no result" and an empty trace. *)
Definition noResultOutcome (o : outcome App) : Prop :=
  ∃ s', o = Ok s' ∧ dfsPath (search s') = None ∧ animationSteps (search s') = [].

(** The state in which a search is requested. *)
Definition request (g : Graph) (alg : Algorithm) (a b : string) (rev : bool) : App :=
  mkApp g (mkSelection None alg a b rev) (mkSearch None ∅ ∅ [] (-1))
        (mkHighlight false None None ∅ ∅ [] false ∅).

(** [computePath]: the search of the chosen strategy on a fresh request. *)
Definition computePath (g : Graph) (a b : string) (alg : Algorithm) (rev : bool)
    : outcome App :=
  findPath (request g alg a b rev).

(** The visited-node set after the whole trace has been replayed. *)
Definition replay (s : App) : App :=
  foldl applyStep s (animationSteps (search s)).



(** The adjacency index has an entry [(v, w)] under [u]. *)
Definition edgeOf (adj : adjacency) (u v : string) (w : number) : Prop :=
  ∃ l, adj !! u = Some l ∧ (v, w) ∈ l.

Definition stepOf (adj : adjacency) (u v : string) : Prop :=
  ∃ w, edgeOf adj u v w.

(** [walkW adj p d]: [p] is a non-empty walk along entries of the adjacency
    index whose weights, added from the start, give [d]. *)
Inductive walkW (adj : adjacency) : list string -> number -> Prop :=
  | walkW_one a : walkW adj [a] (Num 0)
  | walkW_snoc p u v d w :
      walkW adj (p ++ [u]) d -> edgeOf adj u v w ->
      walkW adj (p ++ [u; v]) (num_add d w).

(** The nodes a step adds to the visited-node set when it is applied. *)
Definition stepVisits (step : AnimationStep) : gset string :=
  match waveNodes step, waveEdges step with
  | Some wn, Some _ => list_to_set wn
  | _, _ => {[currentNode step]}
  end.

Definition traceVisits (steps : list AnimationStep) : gset string :=
  ⋃ (stepVisits <$> steps).

(** Link endpoints are nodes. *)
Definition linksClosed (g : Graph) : Prop :=
  ∀ l, l ∈ links g → source l ∈ cities g ∧ target l ∈ cities g.

(** The graph of the scenarios: three nodes, three undirected edges. *)
Definition scenarioGraph : Graph :=
  mkGraph ["A"; "B"; "C"]
    [mkConn "A" "B" (Num 5) false; mkConn "B" "C" (Num 3) false;
     mkConn "A" "C" (Num 10) false]
    [mkNode "A" 0 0; mkNode "B" 10 0; mkNode "C" 5 10]
    [mkLink "A" "B" (Num 5) false; mkLink "B" "C" (Num 3) false;
     mkLink "A" "C" (Num 10) false].

(** * Mutation service *)

Section mutation.
Implicit Types (s : App) (l : GraphLink).

  (** The endpoint test of the upsert, as a proposition on a link. *)
Definition edgeMatches (src tgt : string) (dir : bool) (l : GraphLink) : Prop :=
    (source l = src ∧ target l = tgt)
    ∨ (dir = false ∧ source l = tgt ∧ target l = src).

Lemma sameEdge_true src tgt dir l :
    sameEdge src tgt dir (source l) (target l) = true ↔ edgeMatches src tgt dir l.
Proof.
    unfold sameEdge, edgeMatches.
    rewrite orb_true_iff, !andb_true_iff, negb_true_iff, !bool_decide_eq_true.
    tauto.
Qed.


Lemma existsb_sameEdge src tgt dir (ls : list GraphLink) :
    existsb (fun l => sameEdge src tgt dir (source l) (target l)) ls = true
    ↔ ∃ l, l ∈ ls ∧ edgeMatches src tgt dir l.
Proof.
    rewrite existsb_exists. split; intros (l & Hl & Hm); exists l.
    - split; [by apply list_elem_of_In | by apply sameEdge_true].
    - split; [by apply list_elem_of_In | by apply sameEdge_true].
Qed.

Lemma rejected_iff_not_positive (w : number) :
    isNaN w || num_le w (Num 0) = negb (num_lt (Num 0) w).
Proof.
    destruct w as [z| | | |]; simpl; try done.
    destruct (decide (z <= 0)).
    - rewrite bool_decide_eq_true_2, bool_decide_eq_false_2 by lia. done.
    - rewrite bool_decide_eq_false_2, bool_decide_eq_true_2 by lia. done.
Qed.
End mutation.





(** * Adjacency builder *)

Section adjacency.
Implicit Types (adj : adjacency) (l : GraphLink).

Lemma adjPush_spec k e adj adj' :
    adjPush k e adj = Ok adj' →
    is_Some (adj !! k)
    ∧ (∀ u, is_Some (adj' !! u) ↔ is_Some (adj !! u))
    ∧ (∀ u v w, edgeOf adj' u v w ↔ edgeOf adj u v w ∨ (u = k ∧ e = (v, w))).
Proof.
    unfold adjPush. destruct (adj !! k) as [l0|] eqn:Hk; [|done].
    intros [= <-]. split; [done|]. split.
    - intros u. destruct (decide (u = k)) as [->|Hne].
      + rewrite lookup_insert_eq, Hk. split; eauto.
      + by rewrite lookup_insert_ne.
    - intros u v w. unfold edgeOf. destruct (decide (u = k)) as [->|Hne].
      + rewrite lookup_insert_eq, Hk. split.
        * intros (l1 & [= <-] & Hin). apply elem_of_app in Hin as [Hin|Hin].
          -- left. eauto.
          -- apply list_elem_of_singleton in Hin. right. done.
        * intros [(l1 & [= <-] & Hin)|[_ ->]]; eexists; split; try done;
            apply elem_of_app; [by left|right; by apply list_elem_of_singleton].
      + rewrite lookup_insert_ne by done. split; [by left|].
        intros [?|[? _]]; done.
Qed.

Lemma addLink_spec rev adj link adj' :
    addLink rev adj link = Ok adj' →
    (∀ u, is_Some (adj' !! u) ↔ is_Some (adj !! u))
    ∧ (∀ u v w, edgeOf adj' u v w
                ↔ edgeOf adj u v w ∨ (canTraverse rev u v link ∧ distance link = w)).
Proof.
    unfold addLink, canTraverse.
    destruct rev, (directed link); simpl.
    - intros (_ & Hd & He)%adjPush_spec. split; [done|].
      intros u v w. rewrite He. naive_solver.
    - destruct (adjPush (source link) _ adj) as [adj1| |] eqn:H1; simpl; try done.
      apply adjPush_spec in H1 as (_ & Hd1 & He1).
      intros (_ & Hd & He)%adjPush_spec. split.
      + intros u. by rewrite Hd, Hd1.
      + intros u v w. rewrite He, He1. naive_solver.
    - destruct (adjPush (source link) _ adj) as [adj1| |] eqn:H1; simpl; try done.
      apply adjPush_spec in H1 as (_ & Hd1 & He1).
      intros [= <-]. split; [done|].
      intros u v w. rewrite He1. naive_solver.
    - destruct (adjPush (source link) _ adj) as [adj1| |] eqn:H1; simpl; try done.
      apply adjPush_spec in H1 as (_ & Hd1 & He1).
      intros (_ & Hd & He)%adjPush_spec. split.
      + intros u. by rewrite Hd, Hd1.
      + intros u v w. rewrite He, He1. naive_solver.
Qed.

Lemma addLinks_spec rev ls adj adj' :
    addLinks rev ls adj = Ok adj' →
    (∀ u, is_Some (adj' !! u) ↔ is_Some (adj !! u))
    ∧ (∀ u v w, edgeOf adj' u v w ↔ edgeOf adj u v w ∨ traversableW rev ls u v w).
Proof.
    revert adj. induction ls as [|link ls IH]; intros adj; simpl.
    - intros [= <-]. split; [done|]. intros u v w. unfold traversableW.
      rewrite Exists_nil. tauto.
    - destruct (addLink rev adj link) as [adj1| |] eqn:H1; simpl; try done.
      apply addLink_spec in H1 as [Hd1 He1].
      intros [Hd He]%IH. split.
      + intros u. by rewrite Hd, Hd1.
      + intros u v w. rewrite He, He1. unfold traversableW.
        rewrite Exists_cons. tauto.
Qed.

Lemma emptyAdjacency_lookup cs u :
    emptyAdjacency cs !! u = if decide (u ∈ cs) then Some [] else None.
Proof.
    unfold emptyAdjacency.
    assert (H : ∀ m : adjacency,
               foldl (fun adj city => <[city := []]> adj) m cs !! u
               = if decide (u ∈ cs) then Some [] else m !! u).
    { induction cs as [|c cs IH]; intros m.
      - done.
      - simpl foldl. rewrite IH. destruct (decide (u ∈ cs)) as [Hin|Hin].
        + rewrite decide_True; [done|]. by right.
        + destruct (decide (u = c)) as [->|Hne].
          * rewrite lookup_insert_eq, decide_True; [done|]. by left.
          * rewrite lookup_insert_ne by done. rewrite decide_False; [done|].
            by intros [?|?]%elem_of_cons. }
    by rewrite H, lookup_empty.
Qed.

  (** What the adjacency index holds: an entry list for each node, and under
      each node exactly the links that can be followed from it. *)
Lemma buildAdjacencyList_spec cs ls rev adj :
    buildAdjacencyList cs ls rev = Ok adj →
    (∀ u, is_Some (adj !! u) ↔ u ∈ cs)
    ∧ (∀ u v w, edgeOf adj u v w ↔ traversableW rev ls u v w).
Proof.
    unfold buildAdjacencyList. intros [Hd He]%addLinks_spec. split.
    - intros u. rewrite Hd, emptyAdjacency_lookup.
      destruct (decide (u ∈ cs)); naive_solver.
    - intros u v w. rewrite He. split; [|by right].
      intros [(l & Hl & Hin)|?]; [|done].
      rewrite emptyAdjacency_lookup in Hl. destruct (decide _); [|done].
      injection Hl as <-. by apply elem_of_nil in Hin.
Qed.

Lemma adjPush_total k e adj :
    is_Some (adj !! k) → ∃ adj', adjPush k e adj = Ok adj'.
Proof. intros [l Hl]. unfold adjPush. rewrite Hl. eauto. Qed.

Lemma addLinks_total rev ls adj :
    (∀ l, l ∈ ls → is_Some (adj !! source l) ∧ is_Some (adj !! target l)) →
    ∃ adj', addLinks rev ls adj = Ok adj'.
Proof.
    revert adj. induction ls as [|link ls IH]; intros adj Hcl; simpl; [eauto|].
    destruct (Hcl link) as [Hs Ht]; [by left|].
    assert (∃ adj1, addLink rev adj link = Ok adj1) as [adj1 H1].
    { unfold addLink.
      destruct (adjPush_total (source link) (target link, distance link) adj Hs)
        as [a1 Ha1].
      destruct (adjPush_total (target link) (source link, distance link) adj Ht)
        as [a2 Ha2].
      assert (is_Some (a1 !! target link)) as Ht1.
      { apply adjPush_spec in Ha1 as (_ & Hd & _). by apply Hd. }
      destruct (adjPush_total (target link) (source link, distance link) a1 Ht1)
        as [a3 Ha3].
      destruct rev, (directed link); simpl; rewrite ?Ha1, ?Ha2; simpl;
        rewrite ?Ha3; eauto. }
    rewrite H1. simpl. apply IH. intros l Hl.
    apply addLink_spec in H1 as [Hd _]. rewrite !Hd. apply Hcl. by right.
Qed.

  (** With link endpoints among the nodes, building the index cannot throw. *)
Lemma buildAdjacencyList_total g rev :
    linksClosed g → ∃ adj, buildAdjacencyList (cities g) (links g) rev = Ok adj.
Proof.
    intros Hcl. apply addLinks_total. intros l Hl.
    rewrite !emptyAdjacency_lookup. destruct (Hcl l Hl) as [Hs Ht].
    rewrite !decide_True by done. eauto.
Qed.

Lemma neighborsOf_spec adj rev u ns :
    neighborsOf adj rev u = Ok ns →
    ∃ es, adj !! u = Some es ∧ ∀ e, e ∈ ns ↔ e ∈ es.
Proof.
    unfold neighborsOf. destruct (adj !! u) as [l|]; [|done].
    intros [= <-]. exists l. split; [done|]. intros e.
    destruct rev; [apply elem_of_reverse|done].
Qed.

Lemma neighborsOf_edge adj rev u ns v w :
    neighborsOf adj rev u = Ok ns → ((v, w) ∈ ns ↔ edgeOf adj u v w).
Proof.
    intros (l & Hl & Hns)%neighborsOf_spec. rewrite Hns. unfold edgeOf.
    rewrite Hl. naive_solver.
Qed.

Lemma neighborsOf_total adj rev u :
    is_Some (adj !! u) → ∃ ns, neighborsOf adj rev u = Ok ns.
Proof. intros [l Hl]. unfold neighborsOf. rewrite Hl. eauto. Qed.
End adjacency.

(** * Walks and traces *)

Section walks.
Context (adj : adjacency).


Lemma walkW_step p u v d w :
    walkW adj (p ++ [u]) d → edgeOf adj u v w →
    walkW adj ((p ++ [u]) ++ [v]) (num_add d w).
Proof. intros H He. rewrite <- app_assoc. simpl. by eapply walkW_snoc. Qed.

Lemma chain_snoc (R : string → string → Prop) p u v :
    chain R (p ++ [u]) → R u v → chain R (p ++ [u; v]).
Proof.
    induction p as [|a [|b p] IH]; simpl; tauto.
Qed.

Lemma walkW_chain p d : walkW adj p d → chain (stepOf adj) p.
Proof.
    induction 1 as [a|p u v d w _ IH He]; simpl; [done|].
    apply chain_snoc; [done|]. by exists w.
Qed.

Lemma chain_mono (R R' : string → string → Prop) p :
    (∀ a b, R a b → R' a b) → chain R p → chain R' p.
Proof.
    intros HR. induction p as [|a [|b p] IH]; simpl; try done.
    intros [? ?]. split; [by apply HR|by apply IH].
Qed.

Lemma last_snoc_eq {A} (l : list A) x : last (l ++ [x]) = Some x.
Proof. apply last_snoc. Qed.

Lemma head_app_snoc {A} (l q : list A) x : head ((l ++ [x]) ++ q) = head (l ++ [x]).
Proof. by destruct l. Qed.
End walks.

Section traces.
Lemma traceVisits_nil : traceVisits [] = ∅.
Proof. done. Qed.

Lemma traceVisits_cons st l : traceVisits (st :: l) = stepVisits st ∪ traceVisits l.
Proof. done. Qed.

Lemma traceVisits_app l1 l2 :
    traceVisits (l1 ++ l2) = traceVisits l1 ∪ traceVisits l2.
Proof.
    unfold traceVisits. rewrite fmap_app. apply leibniz_equiv, union_list_app.
Qed.

Lemma traceVisits_snoc l st : traceVisits (l ++ [st]) = traceVisits l ∪ stepVisits st.
Proof.
    rewrite traceVisits_app. unfold traceVisits at 2. simpl.
    by rewrite (right_id_L ∅ (∪)).
Qed.

Lemma stepVisits_plain c e p b : stepVisits (plainStep c e p b) = {[c]}.
Proof. done. Qed.

Lemma stepVisits_wave c e p wv es nx n b :
    stepVisits (waveStep c e p wv es nx n b) = list_to_set wv.
Proof. done. Qed.

Lemma applyStep_visited s st :
    visitedNodes (highlight (applyStep s st))
    = visitedNodes (highlight s) ∪ stepVisits st.
Proof.
    unfold applyStep, stepVisits.
    destruct (waveNodes st), (waveEdges st); done.
Qed.

Lemma foldl_applyStep_visited steps s :
    visitedNodes (highlight (foldl applyStep s steps))
    = visitedNodes (highlight s) ∪ traceVisits steps.
Proof.
    revert s. induction steps as [|st steps IH]; intros s; simpl.
    - rewrite traceVisits_nil. by rewrite (right_id_L ∅ (∪)).
    - rewrite IH, applyStep_visited.
      change (st :: steps) with ([st] ++ steps).
      rewrite traceVisits_app. unfold traceVisits at 2. simpl.
      rewrite (right_id_L ∅ (∪)). by rewrite (assoc_L (∪)).
Qed.

  (** Replaying the trace stored by a search that found a path. *)
Lemma replay_foundResult s r steps :
    visitedNodes (highlight (replay (foundResult s r steps))) = traceVisits steps.
Proof.
    unfold replay. rewrite foldl_applyStep_visited. simpl.
    by rewrite (left_id_L ∅ (∪)).
Qed.
End traces.

(** * DFS *)

Section dfs_proofs.
Context (adj : adjacency) (rev : bool) (target : string).

  (** What holds of the shared state between calls, as long as the target
      has not been reached. *)
Record DfsInv (st : DfsState) : Prop := mkDfsInv {
    di_nodup : NoDup (dfs_currentPath st);
    di_visited : ∀ u, u ∈ dfs_currentPath st → u ∈ dfs_visited st;
    di_target : target ∉ dfs_visited st;
    di_stack : dfs_pathStack st = [];
    di_trace : dfs_visited st ⊆ traceVisits (dfs_animSteps st);
    di_dom : ∀ u, u ∈ dfs_visited st → is_Some (adj !! u);
  }.

  (** A call [dfs(current, target, currentPath, currentDistance)]. *)
Definition DfsPre (current : string) (cd : number) (st : DfsState) : Prop :=
    DfsInv st
    ∧ (current ∉ dfs_visited st)
    ∧ walkW adj (dfs_currentPath st ++ [current]) cd
    ∧ (current = target → numOf (dfs_distanceMap st) target = cd).

  (** The call returned [true]: the path stack extends the path [pre] the
      call started from. *)
Definition DfsFound (pre : list string) (st' : DfsState) : Prop :=
    (∃ q, dfs_pathStack st' = pre ++ q)
    ∧ NoDup (dfs_pathStack st')
    ∧ last (dfs_pathStack st') = Some target
    ∧ walkW adj (dfs_pathStack st') (numOf (dfs_distanceMap st') target)
    ∧ (∀ u, u ∈ removelast (dfs_pathStack st') → u ∈ traceVisits (dfs_animSteps st')).

  (** The call returned [false]: every node visited during the call has all
      its neighbours visited. *)
Definition DfsFailed (st st' : DfsState) : Prop :=
    DfsInv st'
    ∧ dfs_currentPath st' = dfs_currentPath st
    ∧ dfs_visited st ⊆ dfs_visited st'
    ∧ (∀ u, u ∈ dfs_visited st' → u ∉ dfs_visited st →
         ∀ v, stepOf adj u v → v ∈ dfs_visited st').

Definition DfsPost (current : string) (st : DfsState) (r : bool * DfsState)
      : Prop :=
    if r.1 then DfsFound (dfs_currentPath st ++ [current]) r.2
    else DfsFailed st r.2 ∧ current ∈ dfs_visited r.2.

Definition recSpec (rec : string → number → DfsState → outcome (bool * DfsState))
      : Prop :=
    ∀ city d st r, DfsPre city d st → rec city d st = Ok r → DfsPost city st r.

Lemma dfsNeighbors_spec rec current cd :
    recSpec rec →
    ∀ ns st r,
      DfsInv st →
      current ∈ dfs_currentPath st →
      (∃ cp, dfs_currentPath st = cp ++ [current]) →
      walkW adj (dfs_currentPath st) cd →
      (∀ v w, (v, w) ∈ ns → edgeOf adj current v w) →
      dfsNeighbors rec current cd ns st = Ok r →
      if r.1 then DfsFound (dfs_currentPath st) r.2
      else DfsFailed st r.2 ∧ ∀ v w, (v, w) ∈ ns → v ∈ dfs_visited r.2.
Proof.
    intros Hrec. induction ns as [|[city d] ns IH]; intros st r Hinv Hcur Hcp Hw Hns.
    - simpl. intros [= <-]. simpl. split; [|by intros ?? ?%elem_of_nil].
      split; [done|]. split; [done|]. split; [done|]. done.
    - simpl. destruct (decide (city ∈ dfs_visited st)) as [Hvis|Hvis].
      + intros Hr. apply IH in Hr; try done.
        * destruct r as [[] st']; simpl in *; [done|].
          destruct Hr as [Hf Hall]. split; [done|].
          intros v w [[= -> ->]|?]%elem_of_cons; [|by eapply Hall].
          destruct Hf as (_ & _ & Hsub & _). by apply Hsub.
        * intros v w ?. apply Hns. by right.
      + set (st1 := mkDfs _ _ _ _ _).
        destruct (rec city (num_add cd d) st1) as [[b st2]| |] eqn:Hcall;
          simpl; try done.
        assert (Hinv1 : DfsInv st1).
        { destruct Hinv. split; simpl; try done.
          rewrite traceVisits_snoc. set_solver. }
        assert (He : edgeOf adj current city d) by (apply Hns; by left).
        destruct Hcp as [cp Hcp].
        assert (Hpre : DfsPre city (num_add cd d) st1).
        { split; [done|]. split; [done|]. split.
          - simpl. rewrite Hcp. apply walkW_step; [|done]. by rewrite <- Hcp.
          - intros ->. unfold numOf. simpl. by rewrite lookup_insert_eq. }
        specialize (Hrec _ _ _ _ Hpre Hcall). unfold DfsPost in Hrec.
        simpl in Hrec. destruct b.
        * intros [= <-]. simpl.
          destruct Hrec as ([q Hq] & Hnd & Hl & Hwk & Htr).
          split; [|done]. exists (city :: q). rewrite Hq.
          by rewrite <- app_assoc.
        * destruct Hrec as [(Hinv2 & Hcp2 & Hsub2 & Hcl2) Hcity].
          intros Hr. apply IH in Hr; try done.
          -- destruct r as [[] st']; simpl in *.
             ++ by rewrite Hcp2 in Hr.
             ++ destruct Hr as [(Hinv3 & Hcp3 & Hsub3 & Hcl3) Hall].
                split.
                ** split; [done|]. split; [congruence|].
                   split; [set_solver|].
                   intros u Hu Hnu v Hv.
                   destruct (decide (u ∈ dfs_visited st2)) as [Hu2|Hu2].
                   --- apply Hsub3. by eapply Hcl2.
                   --- by eapply Hcl3.
                ** intros v w [[= -> ->]|?]%elem_of_cons; [|by eapply Hall].
                   by apply Hsub3.
          -- by rewrite Hcp2.
          -- exists cp. by rewrite Hcp2.
          -- by rewrite Hcp2.
          -- intros v w ?. apply Hns. by right.
Qed.

Lemma dfs_spec fuel : recSpec (dfs adj rev target fuel).
Proof.
  induction fuel as [|fuel IH]; intros current cd st r Hpre; [done|].
  destruct Hpre as (Hinv & Hnv & Hw & Hd). simpl.
  destruct (decide (current = target)) as [->|Hne].
  - intros [= <-]. unfold DfsPost, DfsFound. simpl. destruct Hinv.
    rewrite di_stack0. simpl.
    split; [exists []; by rewrite app_nil_r|].
    split.
    { apply NoDup_app. split; [done|]. split; [|apply NoDup_singleton].
      intros u Hu ->%list_elem_of_singleton. by apply di_target0, di_visited0. }
    split; [apply last_snoc|].
    split; [by rewrite Hd|].
    intros u Hu. rewrite removelast_last in Hu.
    by apply di_trace0, di_visited0.
  - set (st1 := mkDfs _ _ _ _ _).
    destruct (neighborsOf adj rev current) as [ns| |] eqn:Hns; simpl; try done.
    destruct (dfsNeighbors _ _ _ _ st1) as [[b st2]| |] eqn:Hloop;
      simpl; try done.
    assert (Hinv1 : DfsInv st1).
    { destruct Hinv. split; simpl.
      - apply NoDup_app. split; [done|]. split; [|apply NoDup_singleton].
        intros u Hu ->%list_elem_of_singleton. by apply Hnv, di_visited0.
      - intros u [?|Hu%list_elem_of_singleton]%elem_of_app; set_solver.
      - set_solver.
      - done.
      - rewrite traceVisits_snoc, stepVisits_plain. set_solver.
      - intros u [Hu%elem_of_singleton|?]%elem_of_union; [|by apply di_dom0].
        subst u. apply neighborsOf_spec in Hns as (es & -> & _). done. }
    apply (dfsNeighbors_spec _ _ _ IH) in Hloop; try done.
    + destruct b; simpl in *.
      * intros [= <-]. unfold DfsPost. simpl. done.
      * intros [= <-]. unfold DfsPost. simpl.
        destruct Hloop as [(Hinv2 & Hcp2 & Hsub2 & Hcl2) Hall].
        split; [|apply Hsub2; set_solver].
        split.
        { destruct Hinv2. split; simpl; try done.
          - rewrite Hcp2. simpl. rewrite removelast_last. by destruct Hinv.
          - rewrite Hcp2. simpl. rewrite removelast_last. intros u Hu.
            apply Hsub2. destruct Hinv. set_solver.
          - rewrite traceVisits_snoc. set_solver. }
        split; [simpl; rewrite Hcp2; simpl; by rewrite removelast_last|].
        split; [simpl in *; set_solver|].
        simpl. intros u Hu Hnu v [w Hv].
        destruct (decide (u = current)) as [->|Hnc].
        -- eapply Hall. by eapply neighborsOf_edge.
        -- eapply Hcl2; [done| |by exists w]. simpl. set_solver.
    + simpl. set_solver.
    + by exists (dfs_currentPath st).
    + intros v w Hin. by eapply neighborsOf_edge.
Qed.

(** Every neighbour in the index is itself a key of the index. *)
Definition adjClosed : Prop :=
  ∀ u v w, edgeOf adj u v w → is_Some (adj !! v).

Lemma size_unvisited_mono (V V' : gset string) :
  V ⊆ V' → (size (dom adj ∖ V') ≤ size (dom adj ∖ V))%nat.
Proof. intros HV. apply subseteq_size. set_solver. Qed.

Lemma size_unvisited_lt (V : gset string) c :
  is_Some (adj !! c) → c ∉ V →
  (size (dom adj ∖ ({[c]} ∪ V)) < size (dom adj ∖ V))%nat.
Proof.
  intros Hc HV. apply subset_size. apply elem_of_dom in Hc.
  apply elem_of_subset. split; [set_solver|].
  intros H. specialize (H c). set_solver.
Qed.

Lemma size_unvisited_step (V : gset string) c :
  is_Some (adj !! c) → c ∉ V →
  size (dom adj ∖ V) = S (size (dom adj ∖ ({[c]} ∪ V))).
Proof.
  intros Hc HV. apply elem_of_dom in Hc.
  assert (dom adj ∖ V = {[c]} ∪ dom adj ∖ ({[c]} ∪ V)) as ->.
  { apply set_eq. intros x. destruct (decide (x = c)); set_solver. }
  rewrite size_union by set_solver. by rewrite size_singleton.
Qed.

Definition recTotal (fuel : nat)
    (rec : string → number → DfsState → outcome (bool * DfsState)) : Prop :=
  ∀ city d st,
    DfsPre city d st → city = target ∨ is_Some (adj !! city) →
    (size (dom adj ∖ dfs_visited st) < fuel)%nat →
    ∃ r, rec city d st = Ok r.

Lemma dfsNeighbors_total fuel rec current cd :
  adjClosed → recSpec rec → recTotal fuel rec →
  ∀ ns st,
    DfsInv st →
    current ∈ dfs_currentPath st →
    (∃ cp, dfs_currentPath st = cp ++ [current]) →
    walkW adj (dfs_currentPath st) cd →
    (∀ v w, (v, w) ∈ ns → edgeOf adj current v w) →
    (size (dom adj ∖ dfs_visited st) < fuel)%nat →
    ∃ r, dfsNeighbors rec current cd ns st = Ok r.
Proof.
  intros Hclosed Hspec Htot.
  induction ns as [|[city d] ns IH]; intros st Hinv Hcur Hcp Hw Hns Hsz; simpl.
  - eauto.
  - destruct (decide (city ∈ dfs_visited st)) as [Hvis|Hvis].
    + apply IH; try done. intros v w ?. apply Hns. by right.
    + set (st1 := mkDfs _ _ _ _ _).
      assert (Hinv1 : DfsInv st1).
      { destruct Hinv. split; simpl; try done.
        rewrite traceVisits_snoc. set_solver. }
      assert (He : edgeOf adj current city d) by (apply Hns; by left).
      destruct Hcp as [cp Hcp].
      assert (Hpre : DfsPre city (num_add cd d) st1).
      { split; [done|]. split; [done|]. split.
        - simpl. rewrite Hcp. apply walkW_step; [|done]. by rewrite <- Hcp.
        - intros ->. unfold numOf. simpl. by rewrite lookup_insert_eq. }
      destruct (Htot city (num_add cd d) st1) as [[b st2] Hcall]; try done.
      { right. by eapply Hclosed. }
      rewrite Hcall. simpl. destruct b; [eauto|].
      specialize (Hspec _ _ _ _ Hpre Hcall). unfold DfsPost in Hspec.
      simpl in Hspec. destruct Hspec as [(Hinv2 & Hcp2 & Hsub2 & Hcl2) Hcity].
      apply IH; try done.
      * by rewrite Hcp2.
      * exists cp. by rewrite Hcp2.
      * by rewrite Hcp2.
      * intros v w ?. apply Hns. by right.
      * eapply Nat.le_lt_trans; [|exact Hsz].
        by apply size_unvisited_mono.
Qed.

Lemma dfs_total fuel : adjClosed → recTotal fuel (dfs adj rev target fuel).
Proof.
  intros Hclosed. induction fuel as [|fuel IH];
    intros current cd st Hpre Hdom Hsz; [lia|].
  simpl. destruct (decide (current = target)) as [->|Hne]; [eauto|].
  destruct Hdom as [?|Hdom]; [done|].
  destruct (neighborsOf_total adj rev current Hdom) as [ns Hns].
  rewrite Hns. simpl. destruct Hpre as (Hinv & Hnv & Hw & Hd).
  set (st1 := mkDfs _ _ _ _ _).
  assert (Hinv1 : DfsInv st1).
  { destruct Hinv. split; simpl.
    - apply NoDup_app. split; [done|]. split; [|apply NoDup_singleton].
      intros u Hu ->%list_elem_of_singleton. by apply Hnv, di_visited0.
    - intros u [?|Hu%list_elem_of_singleton]%elem_of_app; set_solver.
    - set_solver.
    - done.
    - rewrite traceVisits_snoc, stepVisits_plain. set_solver.
    - intros u [Hu%elem_of_singleton|?]%elem_of_union; [|by apply di_dom0].
      by subst u. }
  destruct (dfsNeighbors_total fuel (dfs adj rev target fuel) current cd
              Hclosed (dfs_spec fuel) IH ns st1) as [[b st2] Hloop]; try done.
  - simpl. set_solver.
  - by exists (dfs_currentPath st).
  - intros v w Hin. by eapply neighborsOf_edge.
  - simpl. pose proof (size_unvisited_lt (dfs_visited st) current Hdom Hnv). lia.
  - rewrite Hloop. simpl. destruct b; eauto.
Qed.

End dfs_proofs.

(** ** What a search that found a path guarantees *)

(** The index the searches of state [s] run on. *)
Definition indexOf (s : App) : outcome adjacency :=
  buildAdjacencyList (cities (graph s)) (links (graph s))
                     (reverseTraversal (selection s)).

(** The result leads from the start to the end along entries of the index
    without repeating a node, and its distance is the sum of the weights of
    the entries followed. *)
Definition SoundResult (s : App) (adj : adjacency) (r : PathResult) : Prop :=
  head (path r) = Some (startCity (selection s))
  ∧ last (path r) = Some (endCity (selection s))
  ∧ NoDup (path r)
  ∧ walkW adj (path r) (totalDistance r).

Lemma size_list_to_set_length (cs : list string) :
  (size (list_to_set cs : gset string) ≤ length cs)%nat.
Proof.
  induction cs as [|c cs IH].
  - by rewrite list_to_set_nil, size_empty.
  - rewrite list_to_set_cons, size_union_alt, size_singleton.
    assert (size (list_to_set cs ∖ {[c]} : gset string)
            ≤ size (list_to_set cs : gset string))%nat.
    { apply subseteq_size. set_solver. }
    simpl. lia.
Qed.

Lemma size_dom_le (adj : adjacency) (cs : list string) (V : gset string) :
  (∀ u, is_Some (adj !! u) ↔ u ∈ cs) →
  (size (dom adj ∖ V) ≤ length cs)%nat.
Proof.
  intros Hdom.
  assert (dom adj ∖ V ⊆ list_to_set cs) as Hsub.
  { intros u [Hu%elem_of_dom _]%elem_of_difference.
    apply elem_of_list_to_set. by apply Hdom. }
  apply subseteq_size in Hsub.
  pose proof (size_list_to_set_length cs). lia.
Qed.

Lemma invalidSelection_false s :
  invalidSelection s = false →
  startCity (selection s) ≠ "" ∧ endCity (selection s) ≠ ""
  ∧ startCity (selection s) ≠ endCity (selection s).
Proof.
  unfold invalidSelection, truthy.
  rewrite !orb_false_iff, !negb_false_iff, !negb_true_iff.
  rewrite !bool_decide_eq_false. tauto.
Qed.

Lemma dfsInit_inv adj target cs : DfsInv adj target (dfsInit cs).
Proof. split; simpl; try done; try apply NoDup_nil_2; set_solver. Qed.

Lemma dfsInit_pre adj target cs a :
  a ≠ target → DfsPre adj target a (Num 0) (dfsInit cs).
Proof.
  intros Hne. split; [apply dfsInit_inv|]. split; [set_solver|].
  split; [apply walkW_one|done].
Qed.

Lemma performDFS_sound s s' r :
  performDFS s = Ok s' → dfsPath (search s') = Some r →
  ∃ adj, indexOf s = Ok adj ∧ SoundResult s adj r
         ∧ ∀ u, u ∈ removelast (path r) →
                u ∈ traceVisits (animationSteps (search s')).
Proof.
  unfold performDFS, indexOf.
  destruct (invalidSelection s) eqn:Hsel; [by intros [= <-]|].
  apply invalidSelection_false in Hsel as (Ha & Hb & Hab).
  destruct (buildAdjacencyList _ _ _) as [adj| |]; cbn [obind]; try done.
  destruct (dfs _ _ _ _ _ _ _) as [[b st]| |] eqn:Hdfs; cbn [obind]; try done.
  apply dfs_spec in Hdfs; [|by apply dfsInit_pre].
  unfold DfsPost in Hdfs. simpl in Hdfs.
  destruct (dfs_pathStack st) as [|x p] eqn:Hp; [by intros [= <-]|].
  intros [= <-]. simpl. intros [= <-]. simpl.
  destruct b.
  - destruct Hdfs as ([q Hq] & Hnd & Hl & Hw & Htr). rewrite Hp in *.
    exists adj. split; [done|]. split; [|done].
    split; [|done]. simpl. by injection Hq as -> _.
  - destruct Hdfs as [([] & _) _]. congruence.
Qed.

Lemma performDFS_total s adj :
  indexOf s = Ok adj → adjClosed adj →
  is_Some (adj !! startCity (selection s)) →
  ∃ s', performDFS s = Ok s'.
Proof.
  unfold performDFS, indexOf. intros Hadj Hcl Hstart.
  destruct (invalidSelection s) eqn:Hsel; [eauto|].
  apply invalidSelection_false in Hsel as (Ha & Hb & Hab).
  rewrite Hadj. cbn [obind].
  destruct (dfs_total adj (reverseTraversal (selection s)) (endCity (selection s))
              (S (length (cities (graph s)))) Hcl (startCity (selection s))
              (Num 0) (dfsInit (cities (graph s)))) as [[b st] Hdfs].
  - by apply dfsInit_pre.
  - by right.
  - simpl. apply buildAdjacencyList_spec in Hadj as [Hdom _].
    pose proof (size_dom_le adj (cities (graph s)) ∅ Hdom). lia.
  - rewrite Hdfs. cbn [obind]. destruct (dfs_pathStack st); eauto.
Qed.

Lemma performDFS_complete s adj :
  indexOf s = Ok adj → adjClosed adj → invalidSelection s = false →
  rtc (stepOf adj) (startCity (selection s)) (endCity (selection s)) →
  ∃ s' r, performDFS s = Ok s' ∧ dfsPath (search s') = Some r.
Proof.
  intros Hadj Hcl Hsel Hreach.
  assert (is_Some (adj !! startCity (selection s))) as Hstart.
  { apply invalidSelection_false in Hsel as (_ & _ & Hab).
    inversion Hreach as [|? y ? [w (l & Hl & _)]]; subst; [done|]. by rewrite Hl. }
  destruct (performDFS_total s adj Hadj Hcl Hstart) as [s' Hs'].
  exists s'. revert Hs'. unfold performDFS. unfold indexOf in Hadj.
  rewrite Hsel, Hadj. cbn [obind].
  pose proof Hsel as (Ha & Hb & Hab)%invalidSelection_false.
  destruct (dfs _ _ _ _ _ _ _) as [[b st]| |] eqn:Hdfs; cbn [obind]; try done.
  apply dfs_spec in Hdfs; [|by apply dfsInit_pre].
  unfold DfsPost in Hdfs. simpl in Hdfs. destruct b.
  - destruct Hdfs as ([q Hq] & _). rewrite Hq. simpl. intros [= <-]. eauto.
  - destruct Hdfs as [(Hinv & _ & _ & Hcl') Hin].
    assert (∀ a b, rtc (stepOf adj) a b → a ∈ dfs_visited st → b ∈ dfs_visited st)
      as Hclosure.
    { induction 1 as [|a b c Hab' _ IH]; [done|]. intros Ha'. apply IH.
      eapply Hcl'; [done|set_solver|done]. }
    destruct Hinv. exfalso. apply di_target0. by eapply Hclosure.
Qed.

(** * Predecessor trees

    Dijkstra, Wave and both sides of the bidirectional wave record for each
    discovered node the node it was discovered from.  The lemmas below are
    about such a table [previous] rooted at [root], and about the loops that
    walk it back. *)

Section tree.
Context (adj : adjacency) (root : string).

(** [treePath previous v p]: walking [previous] back from [v] passes
    through [p] (read from the root to [v]) and stops at the root. *)
Inductive treePath (previous : gmap string (option string))
    : string -> list string -> Prop :=
  | treePath_root :
      prevOf previous root = None -> treePath previous root [root]
  | treePath_step v u p :
      prevOf previous v = Some u -> treePath previous u p ->
      treePath previous v (p ++ [v]).

(** The table is a tree below [root]: every node that has a predecessor
    (and the root itself) has a tree path, which repeats no node, runs
    through nodes of [D] before its last node, and whose weights add up to
    the recorded distance.  Predecessors are keys of the index. *)
Record TreeInv (previous : gmap string (option string))
    (distances : gmap string number) (D : gset string) : Prop := mkTreeInv {
  ti_root : prevOf previous root = None;
  ti_parent : ∀ v u, prevOf previous v = Some u → is_Some (adj !! u);
  ti_path : ∀ v, v = root ∨ is_Some (prevOf previous v) →
      ∃ p, treePath previous v p ∧ NoDup p
           ∧ (∀ u, u ∈ removelast p → u ∈ D)
           ∧ walkW adj p (numOf distances v);
}.

Lemma treePath_last previous v p : treePath previous v p → last p = Some v.
Proof. intros [?|???]; [done|apply last_snoc]. Qed.

Lemma treePath_head previous v p : treePath previous v p → head p = Some root.
Proof.
  induction 1 as [?|v u p Hp Ht IH]; [done|].
  destruct p; [done|]. done.
Qed.

Lemma treePath_inv_root previous p :
  prevOf previous root = None → treePath previous root p → p = [root].
Proof. intros Hr Hp. inversion Hp; subst; [done|congruence]. Qed.

Lemma treePath_inv_step previous v u p :
  prevOf previous v = Some u → treePath previous v p →
  ∃ q, p = q ++ [v] ∧ treePath previous u q.
Proof.
  intros Hv Hp. inversion Hp as [Hr|v' u' q Hv' Hq]; subst; [congruence|].
  rewrite Hv in Hv'. injection Hv' as <-. eauto.
Qed.

Lemma treePath_insert previous v p n x :
  treePath previous v p → n ∉ p → n ≠ root →
  treePath (<[n := x]> previous) v p.
Proof.
  unfold prevOf. induction 1 as [Hr|v u p Hv Hp IH]; intros Hn Hnr.
  - apply treePath_root. unfold prevOf. by rewrite lookup_insert_ne.
  - apply treePath_step with u.
    + unfold prevOf. rewrite lookup_insert_ne; [done|]. set_solver.
    + apply IH; [set_solver|done].
Qed.

Lemma removelast_snoc {A} (l : list A) x : removelast (l ++ [x]) = l.
Proof. apply removelast_last. Qed.

Lemma elem_of_removelast_or_last (p : list string) v u :
  last p = Some v → u ∈ p → u ∈ removelast p ∨ u = v.
Proof.
  destruct (decide (p = [])) as [->|Hne]; [done|].
  destruct (exists_last Hne) as (q & y & ->).
  rewrite last_snoc, removelast_last. intros [= ->].
  intros [?|?%list_elem_of_singleton]%elem_of_app; auto.
Qed.

Lemma tree_mono previous distances (D D' : gset string) :
  D ⊆ D' → TreeInv previous distances D → TreeInv previous distances D'.
Proof.
  intros HD [Hr Hpar Hp]. split; [done|done|].
  intros v Hv. destruct (Hp v Hv) as (p & ? & ? & ? & ?).
  exists p. repeat split; try done. set_solver.
Qed.

(** Recording that [n], not yet settled, was reached from the settled node
    [c] along an entry of weight [w]. *)
Lemma tree_update previous distances D n c w :
  TreeInv previous distances D →
  n ∉ D → n ≠ root → c ∈ D →
  c = root ∨ is_Some (prevOf previous c) →
  edgeOf adj c n w →
  TreeInv (<[n := Some c]> previous)
          (<[n := num_add (numOf distances c) w]> distances) D.
Proof.
  intros [Hr Hpar Hp] HnD Hnr HcD Hc He.
  assert (Hcn : c ≠ n) by (intros ->; done).
  assert (Hprev : ∀ v, v ≠ n →
            prevOf (<[n := Some c]> previous) v = prevOf previous v).
  { intros v Hv. unfold prevOf. by rewrite lookup_insert_ne. }
  assert (Hprevn : prevOf (<[n := Some c]> previous) n = Some c).
  { unfold prevOf. by rewrite lookup_insert_eq. }
  assert (Hkeep : ∀ v p, v ≠ n → treePath previous v p →
            (∀ u, u ∈ removelast p → u ∈ D) → n ∉ p).
  { intros v p Hv Htp HD Hin.
    pose proof (treePath_last _ _ _ Htp) as Hl.
    destruct (elem_of_removelast_or_last p v n Hl Hin) as [Hin'| ->];
      [by apply HnD, HD|done]. }
  split.
  - by rewrite Hprev.
  - intros v u. destruct (decide (v = n)) as [->|Hv].
    + rewrite Hprevn. intros [= <-]. destruct He as (l & -> & _). done.
    + rewrite Hprev by done. apply Hpar.
  - intros v Hv. destruct (decide (v = n)) as [->|Hvn].
    + destruct (Hp c Hc) as (pc & Htp & Hnd & HD & Hw).
      assert (n ∉ pc) as Hnpc by (by eapply Hkeep).
      exists (pc ++ [n]). split; [|split; [|split]].
      * apply treePath_step with c; [done|]. by apply treePath_insert.
      * apply NoDup_app. split; [done|]. split; [|apply NoDup_singleton].
        intros u Hu ->%list_elem_of_singleton. done.
      * rewrite removelast_last. intros u Hu.
        pose proof (treePath_last _ _ _ Htp) as Hl.
        destruct (elem_of_removelast_or_last pc c u Hl Hu) as [Hu'| ->];
          [by apply HD|done].
      * unfold numOf at 1. rewrite lookup_insert_eq. simpl.
        pose proof (treePath_last _ _ _ Htp) as Hl.
        destruct (decide (pc = [])) as [->|Hne]; [done|].
        destruct (exists_last Hne) as (q & y & ->).
        rewrite last_snoc in Hl. injection Hl as ->.
        rewrite <- app_assoc. simpl. by apply walkW_snoc.
    + rewrite Hprev in Hv by done.
      destruct (Hp v Hv) as (p & Htp & Hnd & HD & Hw).
      exists p. split; [|split; [done|split; [done|]]].
      * apply treePath_insert; [done| |done]. by eapply Hkeep.
      * unfold numOf. by rewrite lookup_insert_ne.
Qed.

(** The loop of [reconstructCurrentPath] collects a final segment of the
    tree path, which ends in the node it started from unless that is the
    empty id. *)
Lemma reconstructLoop_suffix previous fuel :
  ∀ v tp acc r,
    treePath previous v tp →
    reconstructLoop fuel previous v acc = Ok r →
    ∃ suf, suf `suffix_of` tp ∧ r = suf ++ acc ∧ (v ≠ "" → last suf = Some v).
Proof.
  induction fuel as [|fuel IH]; intros v tp acc r Htp; [done|]. simpl.
  unfold truthy. destruct (decide (v = "")) as [->|Hv].
  - rewrite bool_decide_eq_true_2 by done. simpl. intros [= <-].
    exists []. split; [apply suffix_nil|]. done.
  - rewrite bool_decide_eq_false_2 by done. simpl.
    assert (Hone : [v] `suffix_of` tp).
    { pose proof (treePath_last _ _ _ Htp) as Hl.
      destruct (decide (tp = [])) as [->|Hne]; [done|].
      destruct (exists_last Hne) as (q & y & ->).
      rewrite last_snoc in Hl. injection Hl as ->. by exists q. }
    destruct (prevOf previous v) as [u|] eqn:Hu.
    + destruct (decide (u = "")) as [->|Hut].
      * rewrite bool_decide_eq_true_2 by done. simpl. intros [= <-].
        exists [v]. done.
      * rewrite bool_decide_eq_false_2 by done. simpl. intros Hr.
        destruct (treePath_inv_step _ _ _ _ Hu Htp) as (q & -> & Hq).
        destruct (IH _ _ _ _ Hq Hr) as (suf & Hsuf & -> & Hl).
        exists (suf ++ [v]). split; [by apply suffix_app|].
        split; [by rewrite <- app_assoc|]. intros _. apply last_snoc.
    + intros [= <-]. exists [v]. done.
Qed.

(** With no empty id on the tree path and fuel for its length, the loop
    collects all of it. *)
Lemma reconstructLoop_full previous fuel :
  ∀ v tp acc,
    treePath previous v tp → "" ∉ tp → (length tp ≤ fuel)%nat →
    reconstructLoop fuel previous v acc = Ok (tp ++ acc).
Proof.
  induction fuel as [|fuel IH]; intros v tp acc Htp Hne Hlen.
  - pose proof (treePath_last _ _ _ Htp). destruct tp; [done|simpl in *; lia].
  - simpl. unfold truthy.
    assert (v ∈ tp) as Hvin.
    { pose proof (treePath_last _ _ _ Htp) as Hl.
      destruct (decide (tp = [])) as [->|Hn]; [done|].
      destruct (exists_last Hn) as (q & y & ->).
      rewrite last_snoc in Hl. injection Hl as ->. set_solver. }
    rewrite bool_decide_eq_false_2 by (intros ->; done). simpl.
    destruct (prevOf previous v) as [u|] eqn:Hu.
    + destruct (treePath_inv_step _ _ _ _ Hu Htp) as (q & -> & Hq).
      assert (u ∈ q) as Huq.
      { pose proof (treePath_last _ _ _ Hq) as Hl.
        destruct (decide (q = [])) as [->|Hn]; [done|].
        destruct (exists_last Hn) as (q' & y & ->).
        rewrite last_snoc in Hl. injection Hl as ->. set_solver. }
      rewrite bool_decide_eq_false_2 by (intros ->; set_solver). simpl.
      rewrite (IH u q); [by rewrite <- app_assoc|done|set_solver|].
      rewrite length_app in Hlen. simpl in Hlen. lia.
    + inversion Htp as [Hr|v' u' q Hv' Hq]; subst; [done|congruence].
Qed.

Lemma NoDup_length_le_size (l : list string) (X : gset string) :
  NoDup l → (∀ x, x ∈ l → x ∈ X) → (length l ≤ size X)%nat.
Proof.
  intros Hnd Hsub. rewrite <- (size_list_to_set (C:=gset string) l Hnd).
  apply subseteq_size. set_solver.
Qed.

Lemma treePath_keys previous v p :
  treePath previous v p → ∀ u, u ∈ tail p → is_Some (previous !! u).
Proof.
  induction 1 as [Hr|v u p Hv Hp IH]; [by intros ? ?%elem_of_nil|].
  intros x Hx.
  assert (x ∈ tail p ∨ x = v) as [?| ->].
  { destruct p as [|a p]; [by apply treePath_last in Hp|].
    simpl in *. apply elem_of_app in Hx as [?|?%list_elem_of_singleton]; auto. }
  - by apply IH.
  - unfold prevOf in Hv. destruct (previous !! v); [done|done].
Qed.

Lemma treePath_length previous v p :
  treePath previous v p → NoDup p → (length p ≤ S (size previous))%nat.
Proof.
  intros Htp Hnd.
  destruct p as [|a p]; [simpl; lia|]. simpl.
  apply le_n_S. rewrite <- size_dom.
  apply NoDup_length_le_size; [by apply NoDup_cons in Hnd as [_ ?]|].
  intros x Hx. apply elem_of_dom. by eapply (treePath_keys _ _ _ Htp).
Qed.

End tree.

(** * Bounded loops *)

Section while_rules.
Context {S R : Type} (body : S → outcome (S + R)).

(** An invariant of the body holds of the state the loop leaves with. *)
Lemma while_inv (I : S → Prop) (Q : R → Prop) :
  (∀ s s', I s → body s = Ok (inl s') → I s') →
  (∀ s r, I s → body s = Ok (inr r) → Q r) →
  ∀ fuel s r, I s → while body fuel s = Ok r → Q r.
Proof.
  intros Hstep Hexit. induction fuel as [|fuel IH]; intros s r Hs; [done|].
  simpl. destruct (body s) as [[s'|r']| |] eqn:Hb; try done.
  - apply IH. by eapply Hstep.
  - intros [= <-]. by eapply Hexit.
Qed.

(** With a body that does not fail on states of the invariant and a
    measure that every iteration decreases, fuel above the measure is
    enough. *)
Lemma while_total (I : S → Prop) (m : S → nat) :
  (∀ s, I s → ∃ x, body s = Ok x) →
  (∀ s s', I s → body s = Ok (inl s') → I s' ∧ (m s' < m s)%nat) →
  ∀ fuel s, I s → (m s < fuel)%nat → ∃ r, while body fuel s = Ok r.
Proof.
  intros Hok Hstep. induction fuel as [|fuel IH]; intros s Hs Hm; [lia|].
  simpl. destruct (Hok s Hs) as [[s'|r] Hb]; rewrite Hb; [|eauto].
  destruct (Hstep s s' Hs Hb) as [Hs' Hlt]. apply IH; [done|lia].
Qed.
End while_rules.

(** * BFS *)

Section bfs_proofs.
Context (adj : adjacency) (rev : bool) (startCity endCity : string).

Definition queueNodes (st : BfsState) : list string := e_node <$> bfs_queue st.

(** A queue entry carries a walk from the start to its node. *)
Definition goodEntry (lv : string → nat) (visited : gset string) (e : BfsEntry)
    : Prop :=
  walkW adj (e_path e ++ [e_node e]) (e_distance e)
  ∧ head (e_path e ++ [e_node e]) = Some startCity
  ∧ NoDup (e_path e ++ [e_node e])
  ∧ (∀ u, u ∈ e_path e ++ [e_node e] → u ∈ visited)
  ∧ lv (e_node e) = length (e_path e).

(** The invariant of the loop, also while a node [cur] is being expanded.
    The ghost function [lv] gives the number of hops at which a node was
    discovered; the queue holds nodes of levels [L] then [L + 1]. *)
Record BfsMid (lv : string → nat) (L : nat) (cur : option string)
    (st : BfsState) : Prop := mkBfsMid {
  bm_entries : ∀ e, e ∈ bfs_queue st → goodEntry lv (bfs_visited st) e;
  bm_nodup : NoDup (queueNodes st);
  bm_trace : bfs_visited st ⊆ traceVisits (bfs_animSteps st);
  bm_levels : ∃ lo hi, bfs_queue st = lo ++ hi
      ∧ Forall (fun e => length (e_path e) = L) lo
      ∧ Forall (fun e => length (e_path e) = S L) hi;
  bm_bound : ∀ u, u ∈ bfs_visited st → (lv u ≤ S L)%nat;
  bm_closed : ∀ u, u ∈ bfs_visited st → u ∉ queueNodes st → Some u ≠ cur →
      (lv u ≤ L)%nat ∧ u ≠ endCity
      ∧ ∀ v, stepOf adj u v → v ∈ bfs_visited st ∧ (lv v ≤ S (lv u))%nat;
  bm_cur : ∀ u, cur = Some u →
      u ∈ bfs_visited st ∧ (u ∉ queueNodes st) ∧ lv u = L ∧ u ≠ endCity;
  bm_start : startCity ∈ bfs_visited st ∧ lv startCity = 0%nat;
  bm_dom : adjClosed adj → is_Some (adj !! startCity) →
      ∀ u, u ∈ bfs_visited st → is_Some (adj !! u);
}.

Definition BfsInv (st : BfsState) : Prop := ∃ lv L, BfsMid lv L None st.

Lemma bfsInit_inv : BfsInv (bfsInit startCity).
Proof.
  exists (fun _ => 0%nat), 0%nat. split; simpl.
  - intros e ->%list_elem_of_singleton. split; [apply walkW_one|].
    split; [done|]. split; [apply NoDup_singleton|]. split; [|done].
    simpl. set_solver.
  - apply NoDup_singleton.
  - rewrite traceVisits_cons, stepVisits_plain. set_solver.
  - exists [mkEntry startCity [] (Num 0)], []. split; [done|].
    split; [|done]. by apply Forall_singleton.
  - intros; lia.
  - unfold queueNodes. simpl. set_solver.
  - done.
  - split; [set_solver|done].
  - intros _ Hs u ->%elem_of_singleton. done.
Qed.

(** Taking the head out of the queue to expand it. *)
Lemma bfs_dequeue lv L e queue visited steps :
  BfsMid lv L None (mkBfs (e :: queue) visited steps) →
  e_node e ≠ endCity →
  BfsMid lv (length (e_path e)) (Some (e_node e)) (mkBfs queue visited steps)
  ∧ (L ≤ length (e_path e))%nat.
Proof.
  intros [He Hnd Htr (lo & hi & Hq & Hlo & Hhi) Hb Hcl Hcur Hst Hdom] Hne.
  simpl in *. unfold queueNodes in *. simpl in *.
  apply NoDup_cons in Hnd as [Hnin Hnd].
  assert (HL : (L ≤ length (e_path e))%nat
               ∧ ∃ lo' hi', queue = lo' ++ hi'
                 ∧ Forall (fun e0 => length (e_path e0) = length (e_path e)) lo'
                 ∧ Forall (fun e0 => length (e_path e0) = S (length (e_path e))) hi').
  { destruct lo as [|e0 lo].
    - simpl in Hq. subst hi. apply Forall_cons in Hhi as [Hl Hhi].
      split; [lia|]. exists queue, []. rewrite app_nil_r.
      split; [done|]. split; [|done]. by rewrite Hl.
    - injection Hq as <- ->. apply Forall_cons in Hlo as [Hl Hlo].
      split; [lia|]. exists lo, hi. by rewrite Hl. }
  destruct HL as [HL Hlev]. split; [|done].
  destruct (He e) as (_ & _ & _ & Hvis & Hlv); [by left|].
  split; simpl; try done.
  - intros e0 He0. apply He. by right.
  - intros u Hu. specialize (Hb u Hu). lia.
  - intros u Hu Hnq Hnc.
    destruct (Hcl u Hu) as (Hl & Hend & Hnb); [|done|].
    { intros [->|?]%elem_of_cons; [done|done]. }
    split; [lia|done].
  - intros u [= <-]. split; [apply Hvis; set_solver|]. done.
Qed.

(** Expanding the neighbours of the node taken out. *)
Lemma bfsNeighbors_mid L u cp d :
  walkW adj cp d → head cp = Some startCity → NoDup cp → last cp = Some u →
  length cp = S L →
  ∀ ns st lv,
    BfsMid lv L (Some u) st →
    (∀ x, x ∈ cp → x ∈ bfs_visited st) →
    (∀ v w, (v, w) ∈ ns → edgeOf adj u v w) →
    ∃ lv', BfsMid lv' L (Some u) (bfsNeighbors u cp d ns st)
           ∧ bfs_visited st ⊆ bfs_visited (bfsNeighbors u cp d ns st)
           ∧ ∀ v w, (v, w) ∈ ns → v ∈ bfs_visited (bfsNeighbors u cp d ns st).
Proof.
  intros Hw Hh Hnd Hl Hlen.
  assert (Hcp : ∃ q, cp = q ++ [u]).
  { destruct (decide (cp = [])) as [->|Hne]; [done|].
    destruct (exists_last Hne) as (q & y & ->).
    rewrite last_snoc in Hl. injection Hl as ->. eauto. }
  destruct Hcp as [q ->].
  induction ns as [|[v w] ns IH]; intros st lv Hmid Hcpv Hns; simpl.
  - exists lv. split; [done|]. split; [done|]. by intros ?? ?%elem_of_nil.
  - destruct (decide (v ∈ bfs_visited st)) as [Hv|Hv].
    + destruct (IH st lv) as (lv' & Hmid' & Hsub & Hall); try done.
      { intros ???. apply Hns. by right. }
      exists lv'. split; [done|]. split; [done|].
      intros v' w' [[= -> ->]|?]%elem_of_cons; [by apply Hsub|by eapply Hall].
    + set (st1 := mkBfs _ _ _).
      set (lv1 := fun x => if decide (x = v) then S L else lv x).
      assert (Hlv1 : ∀ x, x ∈ bfs_visited st → lv1 x = lv x).
      { intros x Hx. unfold lv1. rewrite decide_False; [done|]. by intros ->. }
      assert (Hmid1 : BfsMid lv1 L (Some u) st1).
      { destruct Hmid as [He Hnd' Htr (lo & hi & Hq & Hlo & Hhi) Hb Hcl Hcur Hst Hdom].
        unfold queueNodes in *.
        split; simpl; unfold queueNodes; simpl.
        - intros e [He0|Hsg%list_elem_of_singleton]%elem_of_app; [|subst e].
          + destruct (He e He0) as (? & ? & ? & Hvis & Hlv).
            split; [done|]. split; [done|]. split; [done|].
            split; [set_solver|]. rewrite Hlv1; [done|]. apply Hvis. set_solver.
          + unfold goodEntry. cbn [e_path e_node e_distance].
            split; [apply walkW_step; [done|]; apply Hns; by left|].
            split; [by rewrite head_app_snoc|].
            split.
            { apply NoDup_app. split; [done|]. split; [|apply NoDup_singleton].
              intros x Hx ->%list_elem_of_singleton. by apply Hv, Hcpv. }
            split.
            { intros x [?|Hsg%list_elem_of_singleton]%elem_of_app; set_solver. }
            unfold lv1. by rewrite decide_True.
        - rewrite fmap_app. apply NoDup_app. split; [done|].
          split; [|apply NoDup_singleton].
          intros x Hx Hsg%list_elem_of_singleton. simpl in Hsg. subst x.
          apply list_elem_of_fmap in Hx as (e & Heq & He0).
          destruct (He e He0) as (_ & _ & _ & Hvis & _).
          apply Hv, Hvis. rewrite Heq. set_solver.
        - rewrite traceVisits_app, !traceVisits_cons, !stepVisits_plain.
          set_solver.
        - exists lo, (hi ++ [mkEntry v (q ++ [u]) (num_add d w)]).
          split; [by rewrite Hq, app_assoc|]. split; [done|].
          apply Forall_app. split; [done|]. by apply Forall_singleton.
        - intros x [Hsg%elem_of_singleton|Hx]%elem_of_union.
          + subst x. unfold lv1. rewrite decide_True; done.
          + rewrite Hlv1; auto.
        - intros x [Hsg%elem_of_singleton|Hx]%elem_of_union Hnq Hnc.
          { subst x. exfalso. apply Hnq. rewrite fmap_app. set_solver. }
          destruct (Hcl x Hx) as (Hlx & Hend & Hnb); [|done|].
          { intros ?. apply Hnq. rewrite fmap_app. set_solver. }
          rewrite Hlv1 by done. split; [done|]. split; [done|].
          intros y Hy. destruct (Hnb y Hy) as [Hyv Hyl].
          split; [set_solver|]. by rewrite Hlv1.
        - intros x [= <-]. destruct (Hcur u eq_refl) as (Huv & Hunq & Hul & Hue).
          split; [set_solver|]. split.
          { rewrite fmap_app. intros [?|Hsg%list_elem_of_singleton]%elem_of_app;
              [done|]. simpl in Hsg. by subst v. }
          rewrite Hlv1 by done. done.
        - destruct Hst as [Hs1 Hs2]. split; [set_solver|]. by rewrite Hlv1.
        - intros Hc Hs x [Hsg%elem_of_singleton|Hx]%elem_of_union; [|by apply Hdom].
          subst x. eapply Hc. apply Hns. by left. }
      destruct (IH st1 lv1) as (lv' & Hmid' & Hsub & Hall); try done.
      { simpl. set_solver. }
      { intros ???. apply Hns. by right. }
      exists lv'. split; [done|]. simpl in Hsub. split; [set_solver|].
      intros v' w' [[= -> ->]|?]%elem_of_cons; [|by eapply Hall].
      apply Hsub. set_solver.
Qed.

Lemma bfsBody_step st st' :
  BfsInv st → bfsBody adj rev endCity st = Ok (inl st') → BfsInv st'.
Proof.
  intros (lv & L & Hmid). unfold bfsBody.
  destruct st as [[|e queue] visited steps]; simpl; [done|].
  destruct (decide (e_node e = endCity)) as [|Hne]; [done|].
  destruct (neighborsOf adj rev (e_node e)) as [ns| |] eqn:Hns; simpl; try done.
  intros [= <-].
  destruct (bm_entries _ _ _ _ Hmid e) as (Hw & Hh & Hnd & Hvis & Hlv); [by left|].
  apply bfs_dequeue in Hmid as [Hmid HL]; [|done].
  destruct (bfsNeighbors_mid (length (e_path e)) (e_node e)
              (e_path e ++ [e_node e]) (e_distance e) Hw Hh Hnd
              (last_snoc _ _)) with (ns := ns) (st := mkBfs queue visited steps)
              (lv := lv) as (lv' & Hmid' & Hsub & Hall); try done.
  { rewrite length_app. simpl. lia. }
  { intros v w Hin. by eapply neighborsOf_edge. }
  exists lv', (length (e_path e)).
  destruct Hmid' as [He' Hnd' Htr' Hlev' Hb' Hcl' Hcur' Hst' Hdom'].
  destruct (Hcur' _ eq_refl) as (Hu1 & Hu2 & Hu3 & Hu4).
  split; try done.
  intros u Hu Hnq _. destruct (decide (u = e_node e)) as [->|Hnu].
  - split; [lia|]. split; [done|]. intros v [w Hv].
    split; [eapply Hall; by eapply neighborsOf_edge|].
    rewrite Hu3. apply Hb'. eapply Hall. by eapply neighborsOf_edge.
  - apply Hcl'; [done|done|]. by intros [= ->].
Qed.

(** Every node in the queue is at least as deep as the head of the queue. *)
Lemma bfs_head_least lv L e queue visited steps :
  BfsMid lv L None (mkBfs (e :: queue) visited steps) →
  ∀ y, y ∈ e_node <$> (e :: queue) → (lv (e_node e) ≤ lv y)%nat.
Proof.
  intros [He _ _ (lo & hi & Hq & Hlo & Hhi) _ _ _ _ _] y Hy.
  cbn [bfs_queue] in *.
  apply list_elem_of_fmap in Hy as (e' & -> & He').
  destruct (He e) as (_ & _ & _ & _ & ->); [by left|].
  destruct (He e' He') as (_ & _ & _ & _ & ->).
  rewrite Forall_forall in Hlo. rewrite Forall_forall in Hhi.
  destruct lo as [|e0 lo].
  - simpl in Hq. subst hi. rewrite (Hhi e), (Hhi e'); [done|done|by left].
  - injection Hq as <- ->. rewrite (Hlo e) by (by left).
    apply elem_of_cons in He' as [->|He'].
    + by rewrite (Hlo e) by (by left).
    + apply elem_of_app in He' as [He'|He'].
      * rewrite (Hlo e'); [done|]. by right.
      * rewrite (Hhi e'); [lia|done].
Qed.

(** A walk from the start ends in an expanded node no deeper than the walk
    is long, or some node waiting in the queue is no deeper. *)
Lemma bfs_level_bound lv L st :
  BfsMid lv L None st →
  ∀ q d, walkW adj q d → head q = Some startCity →
  ∀ x, last q = Some x →
    (x ∈ bfs_visited st ∧ (x ∉ queueNodes st) ∧ (lv x ≤ hops q)%nat)
    ∨ (∃ y, y ∈ queueNodes st ∧ (lv y ≤ hops q)%nat).
Proof.
  intros Hmid. induction 1 as [a|p u v d w Hw IH He]; intros Hh x Hl.
  - simpl in *. injection Hh as ->. injection Hl as <-.
    destruct (bm_start _ _ _ _ Hmid) as [Hs1 Hs2].
    destruct (decide (startCity ∈ queueNodes st)) as [Hin|Hin].
    + right. exists startCity. split; [done|]. unfold hops. simpl. lia.
    + left. split; [done|]. split; [done|]. unfold hops. simpl. lia.
  - assert (Hl' : x = v).
    { change (p ++ [u; v]) with (p ++ [u] ++ [v]) in Hl.
      rewrite app_assoc, last_snoc in Hl. by injection Hl. }
    subst x.
    assert (Hhops : hops (p ++ [u; v]) = S (hops (p ++ [u]))).
    { unfold hops. rewrite !length_app. simpl. lia. }
    assert (Hh' : head (p ++ [u]) = Some startCity).
    { by destruct p. }
    destruct (IH Hh' u (last_snoc _ _)) as [(Hu1 & Hu2 & Hu3)|(y & Hy1 & Hy2)].
    + destruct (bm_closed _ _ _ _ Hmid u Hu1 Hu2) as (_ & _ & Hnb); [done|].
      destruct (Hnb v) as [Hv1 Hv2]; [by exists w|].
      destruct (decide (v ∈ queueNodes st)) as [Hin|Hin].
      * right. exists v. split; [done|]. lia.
      * left. split; [done|]. split; [done|]. lia.
    + right. exists y. split; [done|]. lia.
Qed.

(** What the loop leaves with. *)
Definition BfsPost (r : option (PathResult * list AnimationStep)) : Prop :=
  match r with
  | Some (p, steps) =>
      head (path p) = Some startCity
      ∧ last (path p) = Some endCity
      ∧ NoDup (path p)
      ∧ walkW adj (path p) (totalDistance p)
      ∧ (∀ u, u ∈ path p → u ∈ traceVisits steps)
      ∧ (∀ q d, walkW adj q d → head q = Some startCity →
           last q = Some endCity → (hops (path p) ≤ hops q)%nat)
  | None => ¬ rtc (stepOf adj) startCity endCity
  end.

Lemma bfsBody_exit st r :
  BfsInv st → bfsBody adj rev endCity st = Ok (inr r) → BfsPost r.
Proof.
  intros (lv & L & Hmid). unfold bfsBody.
  destruct st as [[|e queue] visited steps]; simpl.
  - intros [= <-]. simpl. intros Hreach.
    assert (∀ a b, rtc (stepOf adj) a b → a ∈ visited → b ∈ visited) as Hcl.
    { induction 1 as [|a b c Hab _ IH]; [done|]. intros Ha. apply IH.
      destruct (bm_closed _ _ _ _ Hmid a) as (_ & _ & Hnb); try done.
      - unfold queueNodes. simpl. by intros ?%elem_of_nil.
      - by apply Hnb. }
    destruct (bm_start _ _ _ _ Hmid) as [Hs _]. simpl in Hs.
    destruct (bm_closed _ _ _ _ Hmid endCity) as (_ & Hne & _); try done.
    + by eapply Hcl.
    + unfold queueNodes. simpl. by intros ?%elem_of_nil.
  - destruct (decide (e_node e = endCity)) as [Hend|Hne].
    + intros [= <-]. simpl.
      destruct (bm_entries _ _ _ _ Hmid e) as (Hw & Hh & Hnd & Hvis & Hlv);
        [by left|].
      split; [done|]. split; [by rewrite last_snoc, Hend|].
      split; [done|]. split; [done|]. split.
      { intros u Hu. apply (bm_trace _ _ _ _ Hmid). by apply Hvis. }
      intros q d Hq Hqh Hql.
      assert (hops (e_path e ++ [e_node e]) = lv (e_node e)) as ->.
      { unfold hops. rewrite length_app, Hlv. simpl. lia. }
      destruct (bfs_level_bound _ _ _ Hmid q d Hq Hqh endCity Hql)
        as [(_ & Hnq & _)|(y & Hy1 & Hy2)].
      * exfalso. apply Hnq. unfold queueNodes. simpl. rewrite Hend. by left.
      * etrans; [|exact Hy2]. by eapply bfs_head_least.
    + destruct (neighborsOf adj rev (e_node e)); simpl; done.
Qed.

(** What remains to be done: nodes not yet discovered and nodes waiting. *)
Definition bfsMeasure (st : BfsState) : nat :=
  (size (dom adj ∖ bfs_visited st) + length (bfs_queue st))%nat.

Lemma bfsNeighbors_measure u cp d ns st :
  (∀ v w, (v, w) ∈ ns → is_Some (adj !! v)) →
  bfsMeasure (bfsNeighbors u cp d ns st) = bfsMeasure st.
Proof.
  revert st. induction ns as [|[v w] ns IH]; intros st Hns; simpl; [done|].
  destruct (decide (v ∈ bfs_visited st)) as [Hv|Hv].
  - apply IH. intros ???. eapply Hns. by right.
  - rewrite IH; [|intros ???; eapply Hns; by right].
    unfold bfsMeasure. simpl. rewrite length_app. simpl.
    assert (is_Some (adj !! v)) as Hd by (eapply Hns; by left).
    rewrite (size_unvisited_step adj (bfs_visited st) v Hd Hv). lia.
Qed.

Lemma bfsBody_total st :
  adjClosed adj → is_Some (adj !! startCity) → BfsInv st →
  ∃ x, bfsBody adj rev endCity st = Ok x.
Proof.
  intros Hcl Hs (lv & L & Hmid). unfold bfsBody.
  destruct st as [[|e queue] visited steps]; simpl; [eauto|].
  destruct (decide (e_node e = endCity)); [eauto|].
  destruct (neighborsOf_total adj rev (e_node e)) as [ns ->]; simpl; [|eauto].
  apply (bm_dom _ _ _ _ Hmid Hcl Hs).
  destruct (bm_entries _ _ _ _ Hmid e) as (_ & _ & _ & Hvis & _); [by left|].
  apply Hvis. set_solver.
Qed.

Lemma bfsBody_decreases st st' :
  adjClosed adj → bfsBody adj rev endCity st = Ok (inl st') →
  (bfsMeasure st' < bfsMeasure st)%nat.
Proof.
  intros Hcl. unfold bfsBody.
  destruct st as [[|e queue] visited steps]; simpl; [done|].
  destruct (decide (e_node e = endCity)); [done|].
  destruct (neighborsOf adj rev (e_node e)) as [ns| |] eqn:Hns; simpl; try done.
  intros [= <-]. rewrite bfsNeighbors_measure.
  - unfold bfsMeasure. simpl. lia.
  - intros v w Hin. eapply Hcl. by eapply neighborsOf_edge.
Qed.

End bfs_proofs.

Lemma performBFS_sound s s' r :
  performBFS s = Ok s' → dfsPath (search s') = Some r →
  ∃ adj, indexOf s = Ok adj ∧ SoundResult s adj r
         ∧ (∀ u, u ∈ path r → u ∈ traceVisits (animationSteps (search s')))
         ∧ (∀ q d, walkW adj q d → head q = Some (startCity (selection s)) →
              last q = Some (endCity (selection s)) →
              (hops (path r) ≤ hops q)%nat).
Proof.
  unfold performBFS, indexOf.
  destruct (invalidSelection s) eqn:Hsel; [by intros [= <-]|].
  destruct (buildAdjacencyList _ _ _) as [adj| |]; cbn [obind]; try done.
  destruct (while _ _ _) as [res| |] eqn:Hloop; cbn [obind]; try done.
  eapply (while_inv _ (BfsInv adj (startCity (selection s)) (endCity (selection s)))
            (BfsPost adj (startCity (selection s)) (endCity (selection s))))
    in Hloop.
  - destruct res as [[p steps]|]; intros [= <-]; simpl; [|done].
    intros [= <-]. exists adj. split; [done|].
    destruct Hloop as (? & ? & ? & ? & ? & ?). done.
  - intros st st'. apply bfsBody_step.
  - intros st res'. apply bfsBody_exit.
  - apply bfsInit_inv.
Qed.

Lemma performBFS_total s adj :
  indexOf s = Ok adj → adjClosed adj →
  is_Some (adj !! startCity (selection s)) →
  ∃ s', performBFS s = Ok s'.
Proof.
  unfold performBFS, indexOf. intros Hadj Hcl Hstart.
  destruct (invalidSelection s) eqn:Hsel; [eauto|].
  rewrite Hadj. cbn [obind].
  destruct (while_total
              (bfsBody adj (reverseTraversal (selection s)) (endCity (selection s)))
              (BfsInv adj (startCity (selection s)) (endCity (selection s)))
              (bfsMeasure adj)) with (fuel := S (length (cities (graph s))))
              (s := bfsInit (startCity (selection s))) as [res Hres].
  - intros st. by apply bfsBody_total.
  - intros st st' Hinv Hb. split; [by eapply bfsBody_step|].
    by eapply bfsBody_decreases.
  - apply bfsInit_inv.
  - unfold bfsMeasure. simpl.
    apply buildAdjacencyList_spec in Hadj as [Hdom _].
    pose proof (size_dom_le adj (cities (graph s)) ∅ Hdom) as Hle.
    rewrite (size_unvisited_step adj ∅ (startCity (selection s))) in Hle;
      [|done|set_solver].
    rewrite (right_id_L ∅ (∪)) in Hle. lia.
  - rewrite Hres. cbn [obind]. destruct res as [[??]|]; eauto.
Qed.

Lemma performBFS_complete s adj :
  indexOf s = Ok adj → adjClosed adj → invalidSelection s = false →
  rtc (stepOf adj) (startCity (selection s)) (endCity (selection s)) →
  ∃ s' r, performBFS s = Ok s' ∧ dfsPath (search s') = Some r.
Proof.
  intros Hadj Hcl Hsel Hreach.
  assert (is_Some (adj !! startCity (selection s))) as Hstart.
  { apply invalidSelection_false in Hsel as (_ & _ & Hab).
    inversion Hreach as [|? y ? [w (l & Hl & _)]]; subst; [done|]. by rewrite Hl. }
  destruct (performBFS_total s adj Hadj Hcl Hstart) as [s' Hs'].
  exists s'. revert Hs'. unfold performBFS. unfold indexOf in Hadj.
  rewrite Hsel, Hadj. cbn [obind].
  destruct (while _ _ _) as [res| |] eqn:Hloop; cbn [obind]; try done.
  eapply (while_inv _ (BfsInv adj (startCity (selection s)) (endCity (selection s)))
            (BfsPost adj (startCity (selection s)) (endCity (selection s))))
    in Hloop.
  - destruct res as [[p steps]|]; intros [= <-]; simpl; [eauto|].
    by destruct Hloop.
  - intros st st'. apply bfsBody_step.
  - intros st res'. apply bfsBody_exit.
  - apply bfsInit_inv.
Qed.

(** * Layered expansion (Wave and both sides of the bidirectional wave) *)

Section expansion.
Context (adj : adjacency) (root : string).

(** A node on a tree path, other than the last, is the predecessor of a
    node. *)
Lemma treePath_parents previous v p :
  treePath root previous v p →
  ∀ u, u ∈ removelast p → ∃ x, prevOf previous x = Some u.
Proof.
  induction 1 as [Hr|v u p Hv Hp IH]; [by intros ? ?%elem_of_nil|].
  rewrite removelast_last. intros x Hx.
  pose proof (treePath_last _ _ _ _ Hp) as Hl.
  destruct (elem_of_removelast_or_last p u x Hl Hx) as [Hx'| ->]; eauto.
Qed.

(** The loop of [reconstructCurrentPath] ends within the length of the
    tree path. *)
Lemma reconstructLoop_total previous fuel :
  ∀ v tp acc,
    treePath root previous v tp → (length tp ≤ fuel)%nat →
    ∃ r, reconstructLoop fuel previous v acc = Ok r.
Proof.
  induction fuel as [|fuel IH]; intros v tp acc Htp Hlen.
  - pose proof (treePath_last _ _ _ _ Htp). destruct tp; [done|simpl in *; lia].
  - simpl. destruct (truthy v); [|eauto].
    destruct (prevOf previous v) as [u|] eqn:Hu; [|eauto].
    destruct (truthy u); [|eauto].
    destruct (treePath_inv_step _ _ _ _ _ Hu Htp) as (q & -> & Hq).
    apply (IH u q); [done|]. rewrite length_app in Hlen. simpl in Hlen. lia.
Qed.

(** The state of an expansion.  [wave] is the wave being expanded,
    [pending] its nodes not yet expanded, [steps] the trace so far; nodes
    that have been expanded are not [bad]. *)
Record ExpInv (bad : string → Prop) (wave pending : list string)
    (steps : list AnimationStep) (ex : Expansion) : Prop := mkExpInv {
  ei_tree : TreeInv adj root (x_previous ex) (x_distances ex) (x_visited ex);
  ei_start : root ∈ x_visited ex;
  ei_path : ∀ v, v ∈ x_visited ex → v = root ∨ is_Some (prevOf (x_previous ex) v);
  ei_queue : ∀ v, v ∈ x_queue ex → v ∈ x_visited ex;
  ei_nodup : NoDup (pending ++ x_queue ex);
  ei_pending : ∀ v, v ∈ pending → v ∈ x_visited ex;
  ei_closed : ∀ u, u ∈ x_visited ex → u ∉ x_queue ex → u ∉ pending →
      (∀ v, stepOf adj u v → v ∈ x_visited ex) ∧ ¬ bad u;
  ei_trace : ∀ v u, prevOf (x_previous ex) v = Some u →
      u ∈ traceVisits steps ∨ ∃ b, (u, b) ∈ x_waveEdges ex;
  ei_strace : root ∈ traceVisits steps;
  ei_edges : ∀ a b, (a, b) ∈ x_waveEdges ex → a ∈ wave;
  ei_dom : adjClosed adj → is_Some (adj !! root) →
      ∀ u, u ∈ x_visited ex → is_Some (adj !! u);
}.

(** Discovering the unvisited neighbour [n] of the node [c] being
    expanded. *)
Lemma exp_discover bad wave pend steps ex c n w :
  ExpInv bad wave (c :: pend) steps ex →
  c ∈ wave → edgeOf adj c n w → n ∉ x_visited ex →
  ExpInv bad wave (c :: pend) steps
    (mkExpansion (x_queue ex ++ [n]) ({[n]} ∪ x_visited ex)
       (<[n := Some c]> (x_previous ex))
       (<[n := num_add (numOf (x_distances ex) c) w]> (x_distances ex))
       (x_waveEdges ex ++ [(c, n)]) (x_nextWaveNodes ex ++ [n])).
Proof.
  intros [Htree Hst Hpath Hq Hnd Hpend Hcl Htr Hstr Hed Hdom] Hcw He Hn.
  assert (Hcv : c ∈ x_visited ex) by (apply Hpend; by left).
  assert (Hnr : n ≠ root) by (by intros ->).
  assert (Hprev : ∀ v, v ≠ n →
            prevOf (<[n := Some c]> (x_previous ex)) v = prevOf (x_previous ex) v).
  { intros v Hv. unfold prevOf. by rewrite lookup_insert_ne. }
  assert (Hprevn : prevOf (<[n := Some c]> (x_previous ex)) n = Some c).
  { unfold prevOf. by rewrite lookup_insert_eq. }
  split; simpl.
  - apply (tree_mono _ _ _ _ (x_visited ex)); [set_solver|].
    apply tree_update; auto.
  - set_solver.
  - intros v [Hv%elem_of_singleton|Hv]%elem_of_union.
    + subst v. right. by rewrite Hprevn.
    + destruct (decide (v = n)) as [->|Hvn]; [done|].
      rewrite Hprev by done. auto.
  - intros v [?|Hv%list_elem_of_singleton]%elem_of_app; set_solver.
  - assert (NoDup (((c :: pend) ++ x_queue ex) ++ [n])) as H;
      [|by rewrite <- app_assoc in H].
    apply NoDup_app. split; [done|]. split; [|apply NoDup_singleton].
    intros v Hv Hsg%list_elem_of_singleton. subst v. apply Hn.
    apply elem_of_app in Hv as [Hv|Hv]; auto.
  - intros v Hv. set_solver.
  - intros u [Hu%elem_of_singleton|Hu]%elem_of_union Hnq Hnp.
    { subst u. exfalso. apply Hnq. set_solver. }
    destruct (Hcl u Hu) as [Hnb Hbad]; [set_solver|done|].
    split; [|done]. intros v Hv. set_solver.
  - intros v u. destruct (decide (v = n)) as [->|Hvn].
    + rewrite Hprevn. intros [= <-]. right. exists n. set_solver.
    + rewrite Hprev by done. intros [?|[b Hb]]%Htr; [by left|].
      right. exists b. set_solver.
  - done.
  - intros a b [Hab|Hab%list_elem_of_singleton]%elem_of_app; [by eapply Hed|].
    by injection Hab as -> ->.
  - intros Hc Hs u [Hu%elem_of_singleton|Hu]%elem_of_union; [|by apply Hdom].
    subst u. by eapply Hc.
Qed.

(** A node all of whose neighbours are visited is no longer pending. *)
Lemma exp_done (bad : string → Prop) wave pend steps ex c :
  ExpInv bad wave (c :: pend) steps ex →
  (∀ v, stepOf adj c v → v ∈ x_visited ex) → ¬ bad c →
  ExpInv bad wave pend steps ex.
Proof.
  intros [Htree Hst Hpath Hq Hnd Hpend Hcl Htr Hstr Hed Hdom] Hnb Hbad.
  split; try done.
  - simpl in Hnd. by apply NoDup_cons in Hnd as [_ ?].
  - intros v Hv. apply Hpend. by right.
  - intros u Hu Hnq Hnp. destruct (decide (u = c)) as [->|Hne]; [done|].
    apply Hcl; [done|done|]. by intros [?|?]%elem_of_cons.
Qed.

Lemma waveNeighbors_inv bad wave pend steps c :
  c ∈ wave →
  ∀ ns ex,
    ExpInv bad wave (c :: pend) steps ex →
    (∀ v w, (v, w) ∈ ns → edgeOf adj c v w) →
    ExpInv bad wave (c :: pend) steps (waveNeighbors c ns ex)
    ∧ x_visited ex ⊆ x_visited (waveNeighbors c ns ex)
    ∧ ∀ v w, (v, w) ∈ ns → v ∈ x_visited (waveNeighbors c ns ex).
Proof.
  intros Hcw. induction ns as [|[n w] ns IH]; intros ex Hinv Hns; simpl.
  - split; [done|]. split; [done|]. by intros ?? ?%elem_of_nil.
  - destruct (decide (n ∈ x_visited ex)) as [Hn|Hn].
    + destruct (IH ex Hinv) as (Hinv' & Hsub & Hall).
      { intros ???. apply Hns. by right. }
      split; [done|]. split; [done|].
      intros v' w' [[= -> ->]|?]%elem_of_cons; [by apply Hsub|by eapply Hall].
    + set (ex1 := mkExpansion _ _ _ _ _ _).
      assert (Hinv1 : ExpInv bad wave (c :: pend) steps ex1).
      { apply exp_discover; try done. apply Hns. by left. }
      destruct (IH ex1 Hinv1) as (Hinv' & Hsub & Hall).
      { intros ???. apply Hns. by right. }
      split; [done|]. simpl in Hsub. split; [set_solver|].
      intros v' w' [[= -> ->]|?]%elem_of_cons; [|by eapply Hall].
      apply Hsub. set_solver.
Qed.

Lemma waveExpand_inv bad rev wave steps :
  ∀ pend ex ex',
    ExpInv bad wave pend steps ex →
    (∀ c, c ∈ pend → c ∈ wave ∧ ¬ bad c) →
    waveExpand adj rev pend ex = Ok ex' →
    ExpInv bad wave [] steps ex' ∧ x_visited ex ⊆ x_visited ex'.
Proof.
  induction pend as [|c pend IH]; intros ex ex' Hinv Hpw; simpl.
  - by intros [= <-].
  - destruct (neighborsOf adj rev c) as [ns| |] eqn:Hns; simpl; try done.
    destruct (Hpw c) as [Hcw Hbad]; [by left|].
    destruct (waveNeighbors_inv bad wave pend steps c Hcw ns ex Hinv)
      as (Hinv1 & Hsub & Hall).
    { intros v w Hin. by eapply neighborsOf_edge. }
    intros Hex. apply IH in Hex as [Hinv' Hsub'].
    + split; [done|]. set_solver.
    + eapply exp_done; [done| |done].
      intros v [w Hv]. eapply Hall. by eapply neighborsOf_edge.
    + intros c' Hc'. apply Hpw. by right.
Qed.

(** What an expansion leaves to be done. *)
Definition expMeasure (ex : Expansion) : nat :=
  (size (dom adj ∖ x_visited ex) + length (x_queue ex))%nat.

Lemma waveNeighbors_measure c ns ex :
  (∀ v w, (v, w) ∈ ns → is_Some (adj !! v)) →
  expMeasure (waveNeighbors c ns ex) = expMeasure ex.
Proof.
  revert ex. induction ns as [|[v w] ns IH]; intros ex Hns; simpl; [done|].
  destruct (decide (v ∈ x_visited ex)) as [Hv|Hv].
  - apply IH. intros ???. eapply Hns. by right.
  - rewrite IH; [|intros ???; eapply Hns; by right].
    unfold expMeasure. simpl. rewrite length_app. simpl.
    assert (is_Some (adj !! v)) as Hd by (eapply Hns; by left).
    rewrite (size_unvisited_step adj (x_visited ex) v Hd Hv). lia.
Qed.

Lemma waveExpand_measure rev pend ex ex' :
  adjClosed adj → waveExpand adj rev pend ex = Ok ex' →
  expMeasure ex' = expMeasure ex.
Proof.
  intros Hcl. revert ex. induction pend as [|c pend IH]; intros ex; simpl.
  - by intros [= <-].
  - destruct (neighborsOf adj rev c) as [ns| |] eqn:Hns; simpl; try done.
    intros Hex. rewrite (IH _ Hex). apply waveNeighbors_measure.
    intros v w Hin. eapply Hcl. by eapply neighborsOf_edge.
Qed.

Lemma waveExpand_total bad rev wave steps :
  adjClosed adj → is_Some (adj !! root) →
  ∀ pend ex,
    ExpInv bad wave pend steps ex →
    (∀ c, c ∈ pend → c ∈ wave ∧ ¬ bad c) →
    ∃ ex', waveExpand adj rev pend ex = Ok ex'.
Proof.
  intros Hcl Hroot. induction pend as [|c pend IH]; intros ex Hinv Hpw; simpl.
  - eauto.
  - destruct (neighborsOf_total adj rev c) as [ns Hns].
    { apply (ei_dom _ _ _ _ _ Hinv Hcl Hroot). apply (ei_pending _ _ _ _ _ Hinv).
      by left. }
    rewrite Hns. simpl.
    destruct (Hpw c) as [Hcw Hbad]; [by left|].
    destruct (waveNeighbors_inv bad wave pend steps c Hcw ns ex Hinv)
      as (Hinv1 & Hsub & Hall).
    { intros v w Hin. by eapply neighborsOf_edge. }
    apply IH.
    + eapply exp_done; [done| |done].
      intros v [w Hv]. eapply Hall. by eapply neighborsOf_edge.
    + intros c' Hc'. apply Hpw. by right.
Qed.

Lemma exp_bad_mono (bad bad' : string → Prop) wave pend steps ex :
  (∀ u, bad' u → bad u) →
  ExpInv bad wave pend steps ex → ExpInv bad' wave pend steps ex.
Proof.
  intros Hb [Htree Hst Hpath Hq Hnd Hpend Hcl Htr Hstr Hed Hdom].
  split; try done. intros u Hu Hnq Hnp.
  destruct (Hcl u Hu Hnq Hnp) as [? ?]. split; [done|]. auto.
Qed.

(** Taking a wave out of the queue. *)
Lemma exp_dequeue bad wave rest steps v p d :
  ExpInv bad [] [] steps (mkExpansion (wave ++ rest) v p d [] []) →
  ExpInv bad wave wave steps (mkExpansion rest v p d [] []).
Proof.
  intros [Htree Hst Hpath Hq Hnd Hpend Hcl Htr Hstr Hed Hdom].
  simpl in *. split; simpl; try done.
  - intros x Hx. apply Hq. set_solver.
  - intros x Hx. apply Hq. set_solver.
  - intros u Hu Hnq Hnp. apply Hcl; [done| |by intros ?%elem_of_nil].
    set_solver.
  - by intros ?? ?%elem_of_nil.
Qed.

(** Recording the step of a wave, if it discovered anything. *)
Lemma exp_flush bad wave steps steps' ex :
  ExpInv bad wave [] steps ex →
  (x_waveEdges ex = [] ∧ steps' = steps
   ∨ ∃ st, steps' = steps ++ [st] ∧ stepVisits st = list_to_set wave) →
  ExpInv bad [] [] steps'
    (mkExpansion (x_queue ex) (x_visited ex) (x_previous ex) (x_distances ex) [] []).
Proof.
  intros [Htree Hst Hpath Hq Hnd Hpend Hcl Htr Hstr Hed Hdom] Hsteps.
  split; simpl; try done.
  - intros v u Hvu. left. destruct Hsteps as [[He ->]|(st & -> & Hst')].
    + destruct (Htr v u Hvu) as [?|[b Hb]]; [done|].
      rewrite He in Hb. by apply elem_of_nil in Hb.
    + rewrite traceVisits_snoc, Hst'.
      destruct (Htr v u Hvu) as [?|[b Hb]]; [set_solver|].
      apply elem_of_union_r, elem_of_list_to_set. by eapply Hed.
  - destruct Hsteps as [[_ ->]|(st & -> & _)]; [done|].
    rewrite traceVisits_snoc. set_solver.
  - by intros ?? ?%elem_of_nil.
Qed.

(** The table can be walked back from every visited node. *)
Lemma exp_reconstruct_total bad wave pend steps ex c :
  ExpInv bad wave pend steps ex → c ∈ x_visited ex →
  ∃ r, reconstructCurrentPath (x_previous ex) c = Ok r.
Proof.
  intros Hinv Hc. pose proof (ei_path _ _ _ _ _ Hinv c Hc) as Hc'.
  destruct (ti_path _ _ _ _ _ (ei_tree _ _ _ _ _ Hinv) c Hc')
    as (tp & Htp & Hnd & _ & _).
  eapply reconstructLoop_total; [done|]. by eapply treePath_length.
Qed.

End expansion.

(** * Wave *)

Section wave_proofs.
Context (adj : adjacency) (rev : bool) (startCity endCity : string).

Lemma waveDequeue_spec previous queue wave rest fnd :
  waveDequeue previous endCity queue = Ok (wave, rest, fnd) →
  queue = wave ++ rest
  ∧ (fnd = true → endCity ∈ wave)
  ∧ (fnd = false → endCity ∉ wave)
  ∧ (queue ≠ [] → wave ≠ []).
Proof.
  revert wave rest fnd.
  induction queue as [|c queue IH]; intros wave rest fnd; simpl.
  - intros [= <- <- <-]. split; [done|]. split; [done|]. split; [|done].
    intros _ Hin. by apply elem_of_nil in Hin.
  - destruct (reconstructCurrentPath previous c); simpl; try done.
    destruct (decide (c = endCity)) as [->|Hne].
    + intros [= <- <- <-]. split; [done|]. split; [intros _; by left|].
      split; [done|done].
    + destruct (waveDequeue previous endCity queue) as [[[w r] f]| |];
        simpl; try done.
      intros [= <- <- <-]. destruct (IH w r f eq_refl) as (-> & H1 & H2 & H3).
      split; [done|]. split; [intros Hf; right; auto|]. split; [|done].
      intros Hf [?|?]%elem_of_cons; [done|]. by apply H2.
Qed.

Lemma waveDequeue_total previous queue :
  (∀ c, c ∈ queue → ∃ r, reconstructCurrentPath previous c = Ok r) →
  ∃ x, waveDequeue previous endCity queue = Ok x.
Proof.
  induction queue as [|c queue IH]; intros Hall; simpl; [eauto|].
  destruct (Hall c) as [r ->]; [by left|]. simpl.
  destruct (decide (c = endCity)); [eauto|].
  destruct IH as [[[w r'] f] ->]; [|simpl; eauto].
  intros c' Hc'. apply Hall. by right.
Qed.

Definition waveBad (fnd : bool) (u : string) : Prop := fnd = false ∧ u = endCity.

Definition waveEx (st : WaveState) : Expansion :=
  mkExpansion (w_queue st) (w_visited st) (w_previous st) (w_distances st) [] [].

Definition WaveInv (st : WaveState) : Prop :=
  ExpInv adj startCity (waveBad (w_foundPath st)) [] [] (w_animSteps st) (waveEx st)
  ∧ (w_foundPath st = true → endCity ∈ w_visited st).

Lemma foldl_insert_lookup {V} (f : string → V) cs k :
  foldl (fun m city => <[city := f city]> m) (∅ : gmap string V) cs !! k
  = if decide (k ∈ cs) then Some (f k) else None.
Proof.
  assert (H : ∀ m : gmap string V,
             foldl (fun m city => <[city := f city]> m) m cs !! k
             = if decide (k ∈ cs) then Some (f k) else m !! k).
  { induction cs as [|c cs IH]; intros m.
    - done.
    - simpl foldl. rewrite IH. destruct (decide (k ∈ cs)) as [Hin|Hin].
      + rewrite decide_True; [done|]. by right.
      + destruct (decide (k = c)) as [->|Hne].
        * rewrite lookup_insert_eq, decide_True; [done|]. by left.
        * rewrite lookup_insert_ne by done. rewrite decide_False; [done|].
          by intros [?|?]%elem_of_cons. }
  by rewrite H, lookup_empty.
Qed.

Lemma prevOf_nulls cs k :
  prevOf (foldl (fun m city => <[city := None]> m) ∅ cs) k = None.
Proof.
  unfold prevOf. rewrite (foldl_insert_lookup (fun _ => None)).
  by destruct (decide _).
Qed.

Lemma numOf_rootDist cs root :
  root ∈ cs →
  numOf (foldl (fun m city =>
                  <[city := if decide (city = root) then Num 0 else Infinity]> m)
               ∅ cs) root = Num 0.
Proof.
  intros Hin. unfold numOf.
  rewrite (foldl_insert_lookup
             (fun city => if decide (city = root) then Num 0 else Infinity)).
  rewrite decide_True by done. simpl. by rewrite decide_True.
Qed.

Lemma waveInit_inv cs : startCity ∈ cs → WaveInv (waveInit cs startCity).
Proof.
  intros Hin. split; [|done]. split; simpl.
  - split.
    + apply prevOf_nulls.
    + intros v u. by rewrite prevOf_nulls.
    + intros v [->|Hv]; [|rewrite prevOf_nulls in Hv; by destruct Hv].
      exists [startCity]. split; [apply treePath_root, prevOf_nulls|].
      split; [apply NoDup_singleton|]. split; [by intros ? ?%elem_of_nil|].
      rewrite numOf_rootDist by done. apply walkW_one.
  - set_solver.
  - intros v ->%elem_of_singleton. by left.
  - intros v ->%list_elem_of_singleton. set_solver.
  - apply NoDup_singleton.
  - by intros ? ?%elem_of_nil.
  - intros u ->%elem_of_singleton Hnq. exfalso. apply Hnq. set_solver.
  - intros v u. by rewrite prevOf_nulls.
  - rewrite traceVisits_cons, stepVisits_plain. set_solver.
  - by intros ?? ?%elem_of_nil.
  - intros _ Hs u ->%elem_of_singleton. done.
Qed.

(** The expansion of one wave, from the invariant of the loop. *)
Lemma wave_expansion st wave rest fnd ex :
  WaveInv st → w_foundPath st = false →
  waveDequeue (w_previous st) endCity (w_queue st) = Ok (wave, rest, fnd) →
  waveExpand adj rev wave
    (mkExpansion rest (w_visited st) (w_previous st) (w_distances st) [] []) = Ok ex →
  ExpInv adj startCity (waveBad fnd) wave [] (w_animSteps st) ex
  ∧ w_queue st = wave ++ rest
  ∧ (∀ c, c ∈ wave → c ∈ x_visited ex)
  ∧ (fnd = true → endCity ∈ wave).
Proof.
  intros [Hinv _] Hf Hdq Hex.
  apply waveDequeue_spec in Hdq as (Hq & Hf1 & Hf2 & _).
  assert (Hinv1 : ExpInv adj startCity (waveBad fnd) wave wave (w_animSteps st)
            (mkExpansion rest (w_visited st) (w_previous st) (w_distances st) [] [])).
  { apply exp_dequeue. eapply exp_bad_mono; [|unfold waveEx in Hinv;
      rewrite Hq, Hf in Hinv; exact Hinv].
    intros u [_ ->]. done. }
  apply (waveExpand_inv adj startCity (waveBad fnd) rev wave (w_animSteps st))
    in Hex as [Hinv2 Hsub]; [|done|].
  - split; [done|]. split; [done|]. split; [|done].
    intros c Hc. apply Hsub. simpl. by apply (ei_pending _ _ _ _ _ _ _ Hinv1).
  - intros c Hc. split; [done|]. intros [Hff ->]. by apply Hf2.
Qed.

Lemma waveBody_step st st' :
  WaveInv st → waveBody adj rev endCity st = Ok (inl st') → WaveInv st'.
Proof.
  intros Hinv. unfold waveBody.
  destruct (w_queue st) as [|c0 q0] eqn:Hq; [done|].
  destruct (w_foundPath st) eqn:Hf; [done|].
  destruct (waveDequeue _ _ _) as [[[wave rest] fnd]| |] eqn:Hdq;
    cbn [obind]; try done.
  destruct (waveExpand _ _ _ _) as [ex| |] eqn:Hex; cbn [obind]; try done.
  rewrite <- Hq in Hdq.
  destruct (wave_expansion st wave rest fnd ex Hinv Hf Hdq Hex)
    as (Hinv2 & Hq' & Hwv & Hfe).
  destruct (x_waveEdges ex) as [|e0 es] eqn:Hes.
  - intros [= <-]. split; simpl.
    + unfold waveEx. simpl. eapply exp_flush; [exact Hinv2|]. left. done.
    + intros ->. apply Hwv. by apply Hfe.
  - destruct (match wave with [] => _ | _ => _ end) as [cp| |]; cbn [obind];
      try done.
    intros [= <-]. split; simpl.
    + unfold waveEx. simpl. eapply exp_flush; [exact Hinv2|]. right.
      eexists. split; [done|]. apply stepVisits_wave.
    + intros ->. apply Hwv. by apply Hfe.
Qed.

Lemma waveBody_exit st st' :
  waveBody adj rev endCity st = Ok (inr st') →
  st' = st ∧ (w_queue st = [] ∨ w_foundPath st = true).
Proof.
  unfold waveBody.
  destruct (w_queue st) as [|c0 q0] eqn:Hq; [intros [= <-]; auto|].
  destruct (w_foundPath st) eqn:Hf; [intros [= <-]; auto|].
  destruct (waveDequeue _ _ _) as [[[wave rest] fnd]| |]; cbn [obind]; try done.
  destruct (waveExpand _ _ _ _) as [ex| |]; cbn [obind]; try done.
  destruct (x_waveEdges ex); [done|].
  destruct (match wave with [] => _ | _ => _ end); cbn [obind]; done.
Qed.

Definition waveMeasure (st : WaveState) : nat := expMeasure adj (waveEx st).

Lemma waveBody_total st :
  adjClosed adj → is_Some (adj !! startCity) → WaveInv st →
  ∃ x, waveBody adj rev endCity st = Ok x.
Proof.
  intros Hcl Hs Hinv. unfold waveBody.
  destruct (w_queue st) as [|c0 q0] eqn:Hq; [eauto|].
  destruct (w_foundPath st) eqn:Hf; [eauto|].
  destruct (waveDequeue_total (w_previous st) (c0 :: q0))
    as [[[wave rest] fnd] Hdq].
  { intros c Hc. destruct Hinv as [Hinv _].
    apply (exp_reconstruct_total adj startCity _ _ _ _ (waveEx st) c Hinv).
    apply (ei_queue _ _ _ _ _ _ _ Hinv). simpl. by rewrite Hq. }
  rewrite Hdq. cbn [obind]. rewrite <- Hq in Hdq.
  pose proof Hdq as (Hq' & Hf1 & Hf2 & _)%waveDequeue_spec.
  destruct (waveExpand_total adj startCity (waveBad fnd) rev wave (w_animSteps st)
              Hcl Hs wave
              (mkExpansion rest (w_visited st) (w_previous st) (w_distances st) [] []))
    as [ex Hex].
  { apply exp_dequeue. destruct Hinv as [Hinv _].
    eapply exp_bad_mono; [|unfold waveEx in Hinv; rewrite Hq', Hf in Hinv;
      exact Hinv].
    intros u [_ ->]. done. }
  { intros c Hc. split; [done|]. intros [Hff ->]. by apply Hf2. }
  rewrite Hex. cbn [obind].
  destruct (wave_expansion st wave rest fnd ex Hinv Hf Hdq Hex)
    as (Hinv2 & _ & Hwv & _).
  destruct (x_waveEdges ex); [eauto|].
  destruct wave as [|c1 wave]; cbn [obind]; [eauto|].
  destruct (exp_reconstruct_total adj startCity _ _ _ _ ex c1 Hinv2) as [cp ->].
  { apply Hwv. by left. }
  cbn [obind]. eauto.
Qed.

Lemma waveBody_decreases st st' :
  adjClosed adj → waveBody adj rev endCity st = Ok (inl st') →
  (waveMeasure st' < waveMeasure st)%nat.
Proof.
  intros Hcl. unfold waveBody.
  destruct (w_queue st) as [|c0 q0] eqn:Hq; [done|].
  destruct (w_foundPath st) eqn:Hf; [done|].
  destruct (waveDequeue _ _ _) as [[[wave rest] fnd]| |] eqn:Hdq;
    cbn [obind]; try done.
  destruct (waveExpand _ _ _ _) as [ex| |] eqn:Hex; cbn [obind]; try done.
  apply waveDequeue_spec in Hdq as (Hq' & _ & _ & Hne).
  apply waveExpand_measure in Hex; [|done].
  assert (waveMeasure st = expMeasure adj ex + length wave)%nat as Hm.
  { rewrite Hex. unfold waveMeasure, expMeasure, waveEx. simpl.
    rewrite Hq, Hq', length_app. lia. }
  assert (length wave ≠ 0)%nat as Hlen.
  { destruct wave; [by destruct Hne|done]. }
  destruct (x_waveEdges ex).
  - intros [= <-]. rewrite Hm. unfold waveMeasure, waveEx, expMeasure. simpl. lia.
  - destruct (match wave with [] => _ | _ => _ end); cbn [obind]; try done.
    intros [= <-]. rewrite Hm. unfold waveMeasure, waveEx, expMeasure. simpl. lia.
Qed.

End wave_proofs.

(** ** The path read back from a predecessor tree *)

Section tree_results.
Context (adj : adjacency) (root : string).

(** Walking the table back from a node of the tree gives a path without
    repetition that ends in that node, all of whose earlier nodes are
    predecessors of some node.  When the empty id is not a key of the
    index, it is the whole tree path: it starts at the root and its weights
    add up to the recorded distance. *)
Lemma tree_result previous distances D v p :
  TreeInv adj root previous distances D →
  v = root ∨ is_Some (prevOf previous v) →
  v ≠ "" →
  reconstructLoop (S (size previous)) previous v [] = Ok p →
  NoDup p ∧ last p = Some v
  ∧ (∀ u, u ∈ removelast p → (∃ x, prevOf previous x = Some u) ∧ u ∈ D)
  ∧ (adj !! "" = None →
       head p = Some root ∧ walkW adj p (numOf distances v)).
Proof.
  intros Htree Hv Hne Hrec.
  destruct (ti_path _ _ _ _ _ Htree v Hv) as (tp & Htp & Hnd & HD & Hw).
  destruct (reconstructLoop_suffix root previous _ v tp [] p Htp Hrec)
    as (suf & [k Hk] & Hp & Hl).
  rewrite app_nil_r in Hp. subst suf. specialize (Hl Hne).
  assert (Hrl : ∀ u, u ∈ removelast p → u ∈ removelast tp).
  { intros u Hu. rewrite Hk, removelast_app; [set_solver|].
    intros ->. done. }
  split; [rewrite Hk in Hnd; by apply NoDup_app in Hnd as (_ & _ & ?)|].
  split; [done|]. split.
  { intros u Hu. split; [|by apply HD, Hrl].
    eapply treePath_parents; [done|]. by apply Hrl. }
  intros Hempty.
  assert ("" ∉ tp) as Hnotin.
  { intros Hin. pose proof (treePath_last _ _ _ _ Htp) as Hlt.
    destruct (elem_of_removelast_or_last tp v "" Hlt Hin) as [Hin'|Heq];
      [|by subst v].
    destruct (treePath_parents root _ _ _ Htp "" Hin') as [x Hx].
    apply (ti_parent _ _ _ _ _ Htree) in Hx. rewrite Hempty in Hx.
    by destruct Hx. }
  rewrite (reconstructLoop_full root previous _ v tp []) in Hrec;
    [|done|done|by eapply treePath_length].
  rewrite app_nil_r in Hrec. injection Hrec as <-.
  split; [by eapply treePath_head|done].
Qed.

End tree_results.

Section wave_top.
Context (s : App).
Let cs := cities (graph s).
Let a := startCity (selection s).
Let b := endCity (selection s).
Let rev := reverseTraversal (selection s).

Lemma wave_start_absent adj n st :
  adj !! a = None → a ≠ b →
  while (waveBody adj rev b) n (waveInit cs a) = Ok st → False.
Proof.
  intros Ha Hab. destruct n as [|n]; [done|]. simpl.
  unfold waveBody at 1. simpl.
  destruct (reconstructCurrentPath _ a); cbn [obind]; try done.
  rewrite decide_False by done. simpl.
  unfold neighborsOf. rewrite Ha. done.
Qed.

Lemma performWave_inv adj st :
  indexOf s = Ok adj → a ≠ b →
  while (waveBody adj rev b) (S (length cs)) (waveInit cs a) = Ok st →
  WaveInv adj a b st ∧ (w_queue st = [] ∨ w_foundPath st = true).
Proof.
  intros Hadj Hab Hloop.
  destruct (decide (a ∈ cs)) as [Hin|Hnin].
  - eapply (while_inv _ (WaveInv adj a b)
              (fun st => WaveInv adj a b st
                         ∧ (w_queue st = [] ∨ w_foundPath st = true)))
      in Hloop; [done| | |by apply waveInit_inv].
    + intros st0 st1. apply waveBody_step.
    + intros st0 st1 Hinv [-> ?]%waveBody_exit. done.
  - exfalso. eapply wave_start_absent; [|done|exact Hloop].
    apply buildAdjacencyList_spec in Hadj as [Hdom _].
    apply eq_None_not_Some. by rewrite Hdom.
Qed.

Lemma performWave_sound s' r :
  performWave s = Ok s' → dfsPath (search s') = Some r →
  ∃ adj, indexOf s = Ok adj
    ∧ NoDup (path r) ∧ last (path r) = Some b
    ∧ (∀ u, u ∈ removelast (path r) →
         u ∈ traceVisits (animationSteps (search s')))
    ∧ ("" ∉ cs → SoundResult s adj r).
Proof.
  unfold performWave. fold cs a b rev.
  destruct (invalidSelection s) eqn:Hsel; [by intros [= <-]|].
  apply invalidSelection_false in Hsel as (Ha & Hb & Hab).
  destruct (buildAdjacencyList _ _ _) as [adj| |] eqn:Hadj; cbn [obind];
    try done.
  destruct (while _ _ _) as [st| |] eqn:Hloop; cbn [obind]; try done.
  apply (performWave_inv adj st Hadj Hab) in Hloop as [[Hinv Hend] _].
  destruct (w_foundPath st) eqn:Hf; [|by intros [= <-]].
  destruct (reconstructCurrentPath _ _) as [p| |] eqn:Hp; cbn [obind]; try done.
  intros [= <-]. simpl. intros [= <-]. simpl.
  exists adj. split; [done|].
  specialize (Hend eq_refl).
  destruct (tree_result adj a _ _ _ b p (ei_tree _ _ _ _ _ _ _ Hinv))
    as (Hnd & Hl & Hpar & Hfull); try done.
  { by apply (ei_path _ _ _ _ _ _ _ Hinv). }
  split; [done|]. split; [done|]. split.
  - intros u Hu. destruct (Hpar u Hu) as [[x Hx] _].
    destruct (ei_trace _ _ _ _ _ _ _ Hinv x u Hx) as [?|[? Hb']]; [done|].
    by apply elem_of_nil in Hb'.
  - intros Hempty. destruct Hfull as [Hh Hw].
    { apply buildAdjacencyList_spec in Hadj as [Hdom _].
      apply eq_None_not_Some. by rewrite Hdom. }
    split; [done|]. split; [done|]. split; [done|done].
Qed.

Lemma performWave_total adj :
  indexOf s = Ok adj → adjClosed adj → is_Some (adj !! a) →
  ∃ s', performWave s = Ok s'.
Proof.
  unfold performWave, indexOf. fold cs a b rev. intros Hadj Hcl Hstart.
  destruct (invalidSelection s) eqn:Hsel; [eauto|].
  apply invalidSelection_false in Hsel as (Ha & Hb & Hab).
  rewrite Hadj. cbn [obind].
  assert (a ∈ cs) as Hin.
  { apply buildAdjacencyList_spec in Hadj as [Hdom _]. by apply Hdom. }
  destruct (while_total (waveBody adj rev b) (WaveInv adj a b) (waveMeasure adj))
    with (fuel := S (length cs)) (s := waveInit cs a) as [st Hst].
  - intros st. by apply waveBody_total.
  - intros st st' Hinv Hb'. split; [by eapply waveBody_step|].
    by eapply waveBody_decreases.
  - by apply waveInit_inv.
  - unfold waveMeasure, expMeasure. simpl.
    apply buildAdjacencyList_spec in Hadj as [Hdom _].
    pose proof (size_dom_le adj cs ∅ Hdom) as Hle.
    rewrite (size_unvisited_step adj ∅ a) in Hle; [|done|set_solver].
    rewrite (right_id_L ∅ (∪)) in Hle. lia.
  - rewrite Hst. cbn [obind].
    pose proof Hst as [[Hinv Hend] _]%(performWave_inv adj st Hadj Hab).
    destruct (w_foundPath st); [|eauto].
    destruct (exp_reconstruct_total adj a _ _ _ _ _ b Hinv) as [p Hp];
      [by apply Hend|].
    unfold waveEx in Hp. simpl in Hp. rewrite Hp. cbn [obind]. eauto.
Qed.

Lemma performWave_complete adj :
  indexOf s = Ok adj → adjClosed adj → invalidSelection s = false →
  rtc (stepOf adj) a b →
  ∃ s' r, performWave s = Ok s' ∧ dfsPath (search s') = Some r.
Proof.
  intros Hadj Hcl Hsel Hreach.
  pose proof Hsel as (Ha & Hb & Hab)%invalidSelection_false.
  assert (is_Some (adj !! a)) as Hstart.
  { inversion Hreach as [|? y ? [w (l & Hl & _)]]; subst; [done|]. by rewrite Hl. }
  destruct (performWave_total adj Hadj Hcl Hstart) as [s' Hs'].
  exists s'. revert Hs'. unfold performWave. unfold indexOf in Hadj.
  fold cs a b rev. fold cs rev in Hadj.
  rewrite Hsel, Hadj. cbn [obind].
  destruct (while _ _ _) as [st| |] eqn:Hloop; cbn [obind]; try done.
  apply (performWave_inv adj st Hadj Hab) in Hloop as [[Hinv Hend] Hexit].
  destruct (w_foundPath st) eqn:Hf.
  - destruct (reconstructCurrentPath _ _) as [p| |]; cbn [obind]; try done.
    intros [= <-]. eauto.
  - exfalso. destruct Hexit as [Hq|?]; [|done].
    assert (∀ u v, rtc (stepOf adj) u v → u ∈ w_visited st → v ∈ w_visited st)
      as Hclosure.
    { induction 1 as [|u v w Huv _ IH]; [done|]. intros Hu. apply IH.
      destruct (ei_closed _ _ _ _ _ _ _ Hinv u) as [Hnb _]; try done.
      - simpl. rewrite Hq. by intros ?%elem_of_nil.
      - by intros ?%elem_of_nil.
      - by apply Hnb. }
    destruct (ei_closed _ _ _ _ _ _ _ Hinv b) as [_ Hbad].
    + eapply Hclosure; [done|]. apply (ei_start _ _ _ _ _ _ _ Hinv).
    + simpl. rewrite Hq. by intros ?%elem_of_nil.
    + by intros ?%elem_of_nil.
    + apply Hbad. split; [done|done].
Qed.

End wave_top.

(** * Dijkstra *)

Section numbers.

Lemma num_lt_irrefl a : num_lt a a = false.
Proof. destruct a; simpl; try done. apply bool_decide_eq_false_2. lia. Qed.

Lemma num_lt_below_Infinity a m : num_lt a m = true → num_lt a Infinity = true.
Proof. by destruct a, m. Qed.

Lemma num_lt_false_trans x m m' :
  num_lt x m = false → num_lt m' m = true → num_lt x m' = false.
Proof.
  destruct x, m, m'; simpl; try done.
  rewrite !bool_decide_eq_false, bool_decide_eq_true. lia.
Qed.

(** The distances of a graph with non-negative weights: a non-negative
    integer, or infinity for a node not reached yet. *)
Definition okDist (a : number) : Prop := a = Infinity ∨ ∃ z, a = Num z ∧ 0 <= z.

Definition finDist (a : number) : Prop := ∃ z, a = Num z ∧ 0 <= z.

Lemma finDist_ok a : finDist a → okDist a.
Proof. by right. Qed.

Lemma finDist_add a b : finDist a → finDist b → finDist (num_add a b).
Proof. intros (x & -> & ?) (y & -> & ?). exists (x + y). split; [done|lia]. Qed.

Lemma num_le_refl_ok a : okDist a → num_le a a = true.
Proof.
  intros [->|(z & -> & _)]; [done|]. simpl. apply bool_decide_eq_true_2. lia.
Qed.

Lemma num_le_trans_ok a b c :
  num_le a b = true → num_le b c = true → num_le a c = true.
Proof.
  destruct a, b, c; simpl; try done.
  rewrite !bool_decide_eq_true. lia.
Qed.

Lemma num_le_add_r a b : finDist a → finDist b → num_le a (num_add a b) = true.
Proof.
  intros (x & -> & ?) (y & -> & ?). simpl. apply bool_decide_eq_true_2. lia.
Qed.

Lemma num_le_add_mono a b w :
  num_le a b = true → finDist w → num_le (num_add a w) (num_add b w) = true.
Proof.
  intros Hab (z & -> & ?). destruct a, b; simpl in *; try done.
  rewrite bool_decide_eq_true in Hab. apply bool_decide_eq_true_2. lia.
Qed.

Lemma num_lt_false_le a b : okDist a → okDist b → num_lt a b = false → num_le b a = true.
Proof.
  intros [->|(x & -> & _)] [->|(y & -> & _)]; simpl; try done.
  rewrite bool_decide_eq_false. intros ?. apply bool_decide_eq_true_2. lia.
Qed.

Lemma num_lt_true_le a b : num_lt a b = true → num_le a b = true.
Proof.
  destruct a, b; simpl; try done.
  rewrite !bool_decide_eq_true. lia.
Qed.

Lemma num_lt_Infinity_fin a : okDist a → num_lt a Infinity = true → finDist a.
Proof. intros [->|?]; [done|done]. Qed.

End numbers.

Section selectMin.
Context (distances : gmap string number).

Definition minSoFar (seen : list string) (r : option string * number) : Prop :=
  (∀ x, x ∈ seen → num_lt (numOf distances x) r.2 = false)
  ∧ match r.1 with
    | None => r.2 = Infinity
    | Some c => c ∈ seen ∧ r.2 = numOf distances c ∧ num_lt r.2 Infinity = true
    end.

Lemma selectMin_fold l :
  ∀ seen r,
    minSoFar seen r →
    minSoFar (seen ++ l)
      (foldl (fun '(current, minDistance) city =>
                if num_lt (numOf distances city) minDistance
                then (Some city, numOf distances city)
                else (current, minDistance)) r l).
Proof.
  induction l as [|x l IH]; intros seen [cur m] Hmin; simpl.
  - by rewrite app_nil_r.
  - replace (seen ++ x :: l) with ((seen ++ [x]) ++ l)
      by (by rewrite <- app_assoc).
    apply IH. destruct Hmin as [Hall Hcur]. simpl in *.
    destruct (num_lt (numOf distances x) m) eqn:Hlt; split; simpl.
    + intros y [Hy|Hy%list_elem_of_singleton]%elem_of_app.
      * eapply num_lt_false_trans; [by apply Hall|done].
      * subst y. apply num_lt_irrefl.
    + split; [set_solver|]. split; [done|]. by eapply num_lt_below_Infinity.
    + intros y [Hy|Hy%list_elem_of_singleton]%elem_of_app; [by apply Hall|].
      by subst y.
    + destruct cur as [c|]; [|done]. destruct Hcur as (? & ? & ?).
      split; [set_solver|done].
Qed.

(** The scan returns a closest unvisited node with a distance below
    infinity, or nothing when there is none. *)
Lemma selectMin_spec l :
  minSoFar l (selectMin distances l).
Proof.
  unfold selectMin. apply (selectMin_fold l [] (None, Infinity)).
  split; [by intros ? ?%elem_of_nil|done].
Qed.

End selectMin.

Section dijkstra_proofs.
Context (adj : adjacency) (cs : list string) (startCity endCity : string).

(** The nodes removed from [unvisited] so far. *)
Definition popped (st : DijkstraState) : gset string :=
  list_to_set cs ∖ list_to_set (dj_unvisited st).

Lemma elem_of_popped st u : u ∈ popped st ↔ u ∈ cs ∧ u ∉ dj_unvisited st.
Proof. unfold popped. set_solver. Qed.

Record DjInv (st : DijkstraState) : Prop := mkDjInv {
  dj_tree : TreeInv adj startCity (dj_previous st) (dj_distances st) (popped st);
  dj_keys : ∀ k, is_Some (dj_previous st !! k) ↔ k ∈ cs;
  dj_unv : ∀ u, u ∈ dj_unvisited st → u ∈ cs;
  dj_trace : ∀ v u, prevOf (dj_previous st) v = Some u →
      v ∈ traceVisits (dj_animSteps st) ∧ u ∈ traceVisits (dj_animSteps st);
  dj_strace : startCity ∈ traceVisits (dj_animSteps st);
  dj_first : ∀ u, u ∈ popped st → startCity ∈ popped st;
  dj_unreached : ∀ u, u ≠ startCity → prevOf (dj_previous st) u = None →
      num_lt (numOf (dj_distances st) u) Infinity = false;
  dj_end : endCity ∈ cs → endCity ∈ dj_unvisited st;
}.

Lemma tree_parent_settled previous distances (D : gset string) v u :
  TreeInv adj startCity previous distances D →
  prevOf previous v = Some u → u ∈ D.
Proof.
  intros Htree Hv.
  destruct (ti_path _ _ _ _ _ Htree v) as (p & Htp & _ & HD & _).
  { right. by rewrite Hv. }
  destruct (treePath_inv_step _ _ _ _ _ Hv Htp) as (q & -> & Hq).
  apply HD. rewrite removelast_last.
  pose proof (treePath_last _ _ _ _ Hq) as Hl.
  destruct (decide (q = [])) as [->|Hne]; [done|].
  destruct (exists_last Hne) as (q' & y & ->).
  rewrite last_snoc in Hl. injection Hl as ->. set_solver.
Qed.

Lemma relaxNeighbors_inv current :
  ∀ ns st st',
    DjInv st → current ∈ popped st →
    current = startCity ∨ is_Some (prevOf (dj_previous st) current) →
    (∀ v w, (v, w) ∈ ns → edgeOf adj current v w) →
    relaxNeighbors current ns st = Ok st' →
    DjInv st' ∧ dj_unvisited st' = dj_unvisited st.
Proof.
  induction ns as [|[city d] ns IH]; intros st st' Hinv Hcur Hpath Hns; simpl.
  - by intros [= <-].
  - destruct (negb (bool_decide (city ∈ dj_unvisited st)) || negb (truthy current))
      eqn:Hskip.
    { apply IH; try done. intros ???. apply Hns. by right. }
    apply orb_false_iff in Hskip as [Hcity _].
    apply negb_false_iff, bool_decide_eq_true in Hcity.
    destruct (reconstructCurrentPath (dj_previous st) current) as [p1| |];
      cbn [obind]; try done.
    assert (Hstart : startCity ∈ popped st) by (by eapply dj_first).
    assert (Hcn : current ≠ city).
    { intros ->. apply elem_of_popped in Hcur as [_ ?]. done. }
    destruct (num_lt _ _) eqn:Hlt.
    + destruct (reconstructCurrentPath _ city) as [p2| |]; cbn [obind]; try done.
      intros Hrec. apply IH in Hrec as [Hinv' Hunv]; try done.
      * destruct Hinv as [Htree Hkeys Hunv Htr Hstr Hfirst Hunr Hend].
        assert (Hprev : ∀ v, v ≠ city →
                  prevOf (<[city := Some current]> (dj_previous st)) v
                  = prevOf (dj_previous st) v).
        { intros v Hv. unfold prevOf. by rewrite lookup_insert_ne. }
        assert (Hprevn : prevOf (<[city := Some current]> (dj_previous st)) city
                         = Some current).
        { unfold prevOf. by rewrite lookup_insert_eq. }
        split; simpl.
        -- apply tree_update; try done.
           ++ intros [_ ?]%elem_of_popped. done.
           ++ intros ->. apply elem_of_popped in Hstart as [_ ?]. done.
           ++ apply Hns. by left.
        -- intros k. destruct (decide (k = city)) as [->|Hk].
           ++ rewrite lookup_insert_eq. split; [intros _; by apply Hunv|done].
           ++ rewrite lookup_insert_ne by done. apply Hkeys.
        -- done.
        -- intros v u. rewrite !traceVisits_snoc, !stepVisits_plain.
           destruct (decide (v = city)) as [->|Hv].
           ++ rewrite Hprevn. intros [= <-]. set_solver.
           ++ rewrite Hprev by done. intros [? ?]%Htr. set_solver.
        -- rewrite !traceVisits_snoc. set_solver.
        -- done.
        -- intros u Hu. destruct (decide (u = city)) as [->|Huc].
           ++ by rewrite Hprevn.
           ++ rewrite Hprev by done. unfold numOf.
              rewrite lookup_insert_ne by done. by apply Hunr.
        -- done.
      * simpl. destruct Hpath as [->|Hp]; [by left|]. right.
        unfold prevOf. by rewrite lookup_insert_ne.
      * intros ???. apply Hns. by right.
    + intros Hrec. apply IH in Hrec as [Hinv' Hunv]; try done.
      * destruct Hinv as [Htree Hkeys Hunv Htr Hstr Hfirst Hunr Hend].
        split; simpl; try done.
        -- intros v u [? ?]%Htr. rewrite traceVisits_snoc. set_solver.
        -- rewrite traceVisits_snoc. set_solver.
      * intros ???. apply Hns. by right.
Qed.

Lemma dijkstraInit_fold l st :
  let step := fun st city =>
    mkDijkstra
      (<[city := if decide (city = startCity) then Num 0 else Infinity]>
         (dj_distances st))
      (<[city := None]> (dj_previous st))
      (orderedAdd city (dj_unvisited st)) [] in
  dj_distances (foldl step st l)
  = foldl (fun m city =>
             <[city := if decide (city = startCity) then Num 0 else Infinity]> m)
          (dj_distances st) l
  ∧ dj_previous (foldl step st l)
    = foldl (fun m city => <[city := None]> m) (dj_previous st) l
  ∧ dj_unvisited (foldl step st l)
    = foldl (fun l city => orderedAdd city l) (dj_unvisited st) l.
Proof.
  intros step. revert st.
  induction l as [|c l IH]; intros st; simpl; [done|]. apply IH.
Qed.

Lemma dijkstraInit_fields :
  dj_distances (dijkstraInit cs startCity)
  = foldl (fun m city =>
             <[city := if decide (city = startCity) then Num 0 else Infinity]> m)
          ∅ cs
  ∧ dj_previous (dijkstraInit cs startCity)
    = foldl (fun m city => <[city := None]> m) ∅ cs
  ∧ dj_unvisited (dijkstraInit cs startCity)
    = foldl (fun l city => orderedAdd city l) [] cs
  ∧ dj_animSteps (dijkstraInit cs startCity) = [plainStep startCity None [] false].
Proof.
  destruct (dijkstraInit_fold cs (mkDijkstra ∅ ∅ [] [])) as (H1 & H2 & H3).
  unfold dijkstraInit. cbn [dj_distances dj_previous dj_unvisited dj_animSteps].
  repeat split; assumption.
Qed.

Lemma orderedAdd_fold l :
  ∀ l0, NoDup l0 →
    NoDup (foldl (fun l city => orderedAdd city l) l0 l)
    ∧ ∀ u, u ∈ foldl (fun l city => orderedAdd city l) l0 l ↔ u ∈ l0 ∨ u ∈ l.
Proof.
  induction l as [|c l IH]; intros l0 Hnd; simpl.
  - split; [done|]. intros u. set_solver.
  - assert (NoDup (orderedAdd c l0) ∧ ∀ u, u ∈ orderedAdd c l0 ↔ u ∈ l0 ∨ u = c)
      as [Hnd' Hin'].
    { unfold orderedAdd. destruct (decide (c ∈ l0)).
      - split; [done|]. intros u. set_solver.
      - split; [|intros u; set_solver].
        apply NoDup_app. split; [done|]. split; [|apply NoDup_singleton].
        intros x Hx Hsg%list_elem_of_singleton. by subst x. }
    destruct (IH _ Hnd') as [Hnd'' Hin'']. split; [done|].
    intros u. rewrite Hin'', Hin'. set_solver.
Qed.

Lemma dijkstraInit_inv : startCity ∈ cs → DjInv (dijkstraInit cs startCity).
Proof.
  intros Hin. destruct dijkstraInit_fields as (Hd & Hp & Hu & Hs).
  destruct (orderedAdd_fold cs [] (NoDup_nil_2)) as [Hnd Hmem].
  assert (Hpop : popped (dijkstraInit cs startCity) = ∅).
  { apply set_eq. intros u. rewrite elem_of_popped, Hu, Hmem. set_solver. }
  split.
  - rewrite Hd, Hp, Hpop. split.
    + apply prevOf_nulls.
    + intros v u. by rewrite prevOf_nulls.
    + intros v [->|Hv]; [|rewrite prevOf_nulls in Hv; by destruct Hv].
      exists [startCity]. split; [apply treePath_root, prevOf_nulls|].
      split; [apply NoDup_singleton|]. split; [by intros ? ?%elem_of_nil|].
      rewrite numOf_rootDist by done. apply walkW_one.
  - intros k. rewrite Hp, (foldl_insert_lookup (fun _ => None)).
    destruct (decide (k ∈ cs)); naive_solver.
  - intros u. rewrite Hu, Hmem. set_solver.
  - intros v u. by rewrite Hp, prevOf_nulls.
  - rewrite Hs, traceVisits_cons, stepVisits_plain. set_solver.
  - intros u. rewrite Hpop. set_solver.
  - intros u Hne _. rewrite Hd. unfold numOf.
    rewrite (foldl_insert_lookup
               (fun city => if decide (city = startCity) then Num 0 else Infinity)).
    destruct (decide (u ∈ cs)); simpl; [|done]. by rewrite decide_False.
  - intros He. rewrite Hu, Hmem. by right.
Qed.

Lemma popped_delete st c u :
  u ∈ popped (mkDijkstra (dj_distances st) (dj_previous st)
                (orderedDelete c (dj_unvisited st)) (dj_animSteps st))
  ↔ u ∈ popped st ∨ (u = c ∧ c ∈ cs).
Proof.
  rewrite !elem_of_popped. simpl. unfold orderedDelete.
  rewrite list_elem_of_filter. destruct (decide (u = c)) as [->|Hne]; [tauto|].
  split; [|tauto]. intros [? Hn]. left. split; [done|]. intros ?. apply Hn. done.
Qed.

Lemma dijkstraBody_step st st' :
  DjInv st → dijkstraBody adj endCity st = Ok (inl st') → DjInv st'.
Proof.
  intros Hinv. unfold dijkstraBody.
  destruct (dj_unvisited st) as [|u0 us] eqn:Hunv; [done|].
  pose proof (selectMin_spec (dj_distances st) (dj_unvisited st)) as [_ Hmin].
  rewrite Hunv in Hmin.
  destruct (selectMin _ _) as [[c|] m]; [|done]. simpl in Hmin.
  destruct Hmin as (Hc & -> & Hfin).
  destruct (is_Infinity _); [done|].
  destruct (decide (c = endCity)) as [|Hce]; [done|].
  destruct (adj !! c) as [ns|] eqn:Hns; [|done].
  destruct (relaxNeighbors _ _ _) as [st1| |] eqn:Hrel; cbn [obind]; try done.
  intros [= <-]. rewrite <- Hunv in *.
  set (st0 := mkDijkstra _ _ _ _) in Hrel.
  assert (Hccs : c ∈ cs) by (by eapply dj_unv).
  assert (Hcpath : c = startCity ∨ is_Some (prevOf (dj_previous st) c)).
  { destruct (decide (c = startCity)) as [|Hcs]; [by left|]. right.
    destruct (prevOf (dj_previous st) c) eqn:Hp; [done|].
    rewrite (dj_unreached _ Hinv c Hcs Hp) in Hfin. done. }
  assert (Hinv0 : DjInv st0).
  { destruct Hinv as [Htree Hkeys Hunv' Htr Hstr Hfirst Hunr Hend].
    split; simpl; try done.
    - eapply tree_mono; [|exact Htree]. intros u Hu.
      apply popped_delete. by left.
    - intros u [_ ?]%list_elem_of_filter. by apply Hunv'.
    - intros u [Hu|[-> _]]%popped_delete; apply popped_delete.
      + left. by eapply Hfirst.
      + destruct Hcpath as [->|[x Hx]]; [by right|]. left.
        eapply Hfirst. by eapply tree_parent_settled.
    - intros He. apply list_elem_of_filter. split; [by intros ->|]. by apply Hend. }
  eapply (relaxNeighbors_inv c ns st0 st1) in Hrel as [Hinv1 _]; try done.
  - apply popped_delete. by right.
  - intros v w Hin. exists ns. done.
Qed.

(** How the loop can end: nothing is left, no unvisited node has a distance
    below infinity, or the target is a closest unvisited node. *)
Lemma dijkstraBody_exit st st' :
  dijkstraBody adj endCity st = Ok (inr st') →
  st' = st
  ∧ ((∀ x, x ∈ dj_unvisited st →
        num_lt (numOf (dj_distances st) x) Infinity = false)
     ∨ (endCity ∈ dj_unvisited st
        ∧ num_lt (numOf (dj_distances st) endCity) Infinity = true
        ∧ ∀ x, x ∈ dj_unvisited st →
            num_lt (numOf (dj_distances st) x)
                   (numOf (dj_distances st) endCity) = false)).
Proof.
  unfold dijkstraBody.
  destruct (dj_unvisited st) as [|u0 us] eqn:Hunv.
  { intros [= <-]. split; [done|]. left. by intros ? ?%elem_of_nil. }
  pose proof (selectMin_spec (dj_distances st) (dj_unvisited st)) as [Hall Hmin].
  rewrite Hunv in Hall, Hmin.
  destruct (selectMin _ _) as [[c|] m]; simpl in *.
  - destruct Hmin as (Hc & -> & Hfin).
    destruct (is_Infinity _) eqn:Hinf.
    { destruct (numOf (dj_distances st) c); done. }
    destruct (decide (c = endCity)) as [->|Hce].
    + intros [= <-]. split; [done|]. right. done.
    + destruct (adj !! c); [|done].
      destruct (relaxNeighbors _ _ _); cbn [obind]; done.
  - intros [= <-]. split; [done|]. left. by rewrite <- Hmin.
Qed.

End dijkstra_proofs.

Section dijkstra_total.
Context (adj : adjacency) (cs : list string) (startCity endCity : string).

Lemma tree_reconstruct_total previous distances (D : gset string) v :
  TreeInv adj startCity previous distances D →
  v = startCity ∨ is_Some (prevOf previous v) →
  ∃ r, reconstructCurrentPath previous v = Ok r.
Proof.
  intros Htree Hv.
  destruct (ti_path _ _ _ _ _ Htree v Hv) as (tp & Htp & Hnd & _ & _).
  eapply reconstructLoop_total; [done|]. by eapply treePath_length.
Qed.

Lemma relaxNeighbors_cons current x ns st :
  relaxNeighbors current (x :: ns) st
  = obind (relaxNeighbors current [x] st) (relaxNeighbors current ns).
Proof.
  destruct x as [city d]. simpl.
  destruct (negb (bool_decide (city ∈ dj_unvisited st)) || negb (truthy current));
    [done|].
  destruct (reconstructCurrentPath (dj_previous st) current); cbn [obind];
    try done.
  destruct (num_lt _ _); [|done].
  destruct (reconstructCurrentPath _ city); cbn [obind]; done.
Qed.

Lemma relaxNeighbors_total current :
  ∀ ns st,
    DjInv adj cs startCity endCity st → current ∈ popped cs st →
    current = startCity ∨ is_Some (prevOf (dj_previous st) current) →
    (∀ v w, (v, w) ∈ ns → edgeOf adj current v w) →
    ∃ st', relaxNeighbors current ns st = Ok st'.
Proof.
  induction ns as [|[city d] ns IH]; intros st Hinv Hcur Hpath Hns.
  - simpl. eauto.
  - rewrite relaxNeighbors_cons.
    assert (∃ st1, relaxNeighbors current [(city, d)] st = Ok st1) as [st1 H1].
    { simpl.
      destruct (negb (bool_decide (city ∈ dj_unvisited st)) || negb (truthy current))
        eqn:Hskip; [eauto|].
      apply orb_false_iff in Hskip as [Hcity _].
      apply negb_false_iff, bool_decide_eq_true in Hcity.
      destruct (tree_reconstruct_total _ _ _ current (dj_tree _ _ _ _ _ Hinv) Hpath)
        as [p1 ->]. cbn [obind].
      destruct (num_lt _ _); [|eauto].
      assert (Hstart : startCity ∈ popped cs st) by (by eapply dj_first).
      destruct (tree_reconstruct_total
                  (<[city := Some current]> (dj_previous st))
                  (<[city := num_add (numOf (dj_distances st) current) d]>
                     (dj_distances st))
                  (popped cs st) city) as [p2 ->]; [| |cbn [obind]; eauto].
      - apply tree_update; try done.
        + by apply (dj_tree _ _ _ _ _ Hinv).
        + intros [_ ?]%elem_of_popped. done.
        + intros ->. apply elem_of_popped in Hstart as [_ ?]. done.
        + apply Hns. by left.
      - right. unfold prevOf. by rewrite lookup_insert_eq. }
    rewrite H1. cbn [obind].
    pose proof H1 as [Hinv1 Hunv1]%(relaxNeighbors_inv adj cs startCity endCity);
      try done.
    + apply IH; try done.
      * apply elem_of_popped. rewrite Hunv1. by apply elem_of_popped.
      * destruct Hpath as [->|Hp]; [by left|]. right.
        revert H1. simpl.
        destruct (negb (bool_decide (city ∈ dj_unvisited st))
                  || negb (truthy current)) eqn:Hskip; [by intros [= <-]|].
        apply orb_false_iff in Hskip as [Hcity _].
        apply negb_false_iff, bool_decide_eq_true in Hcity.
        assert (current ≠ city).
        { intros ->. apply elem_of_popped in Hcur as [_ ?]. done. }
        destruct (reconstructCurrentPath (dj_previous st) current); cbn [obind];
          try done.
        destruct (num_lt _ _).
        -- destruct (reconstructCurrentPath _ city); cbn [obind]; try done.
           intros [= <-]. simpl. unfold prevOf. by rewrite lookup_insert_ne.
        -- by intros [= <-].
      * intros ???. apply Hns. by right.
    + intros v w [[= -> ->]|Hin]%elem_of_cons; [apply Hns; by left|].
      by apply elem_of_nil in Hin.
Qed.

Lemma dijkstraBody_total st :
  (∀ u, is_Some (adj !! u) ↔ u ∈ cs) →
  DjInv adj cs startCity endCity st →
  ∃ x, dijkstraBody adj endCity st = Ok x.
Proof.
  intros Hdom Hinv. unfold dijkstraBody.
  destruct (dj_unvisited st) as [|u0 us] eqn:Hunv; [eauto|].
  pose proof (selectMin_spec (dj_distances st) (dj_unvisited st)) as [_ Hmin].
  rewrite Hunv in Hmin.
  destruct (selectMin _ _) as [[c|] m]; [|eauto]. simpl in Hmin.
  destruct Hmin as (Hc & -> & Hfin).
  destruct (is_Infinity _); [eauto|].
  destruct (decide (c = endCity)) as [|Hce]; [eauto|].
  rewrite <- Hunv in *.
  assert (Hccs : c ∈ cs) by (by eapply dj_unv).
  destruct (proj2 (Hdom c) Hccs) as [ns Hns]. rewrite Hns.
  assert (Hcpath : c = startCity ∨ is_Some (prevOf (dj_previous st) c)).
  { destruct (decide (c = startCity)) as [|Hcs]; [by left|]. right.
    destruct (prevOf (dj_previous st) c) eqn:Hp; [done|].
    rewrite (dj_unreached _ _ _ _ _ Hinv c Hcs Hp) in Hfin. done. }
  set (st0 := mkDijkstra _ _ _ _).
  assert (Hinv0 : DjInv adj cs startCity endCity st0).
  { destruct Hinv as [Htree Hkeys Hunv' Htr Hstr Hfirst Hunr Hend].
    split; simpl; try done.
    - eapply tree_mono; [|exact Htree]. intros u Hu.
      apply popped_delete. by left.
    - intros u [_ ?]%list_elem_of_filter. by apply Hunv'.
    - intros u [Hu|[-> _]]%popped_delete; apply popped_delete.
      + left. by eapply Hfirst.
      + destruct Hcpath as [->|[x Hx]]; [by right|]. left.
        eapply Hfirst. by eapply tree_parent_settled.
    - intros He. apply list_elem_of_filter. split; [by intros ->|]. by apply Hend. }
  destruct (relaxNeighbors_total c ns st0) as [st1 ->]; try done.
  - apply popped_delete. by right.
  - intros v w Hin. exists ns. done.
  - cbn [obind]. eauto.
Qed.

Lemma orderedDelete_length c l :
  c ∈ l → (length (orderedDelete c l) < length l)%nat.
Proof.
  unfold orderedDelete. induction l as [|x l IH]; [by intros ?%elem_of_nil|].
  intros Hin. rewrite filter_cons. destruct (decide (x ≠ c)) as [Hne|Heq].
  - simpl. apply elem_of_cons in Hin as [->|Hin]; [done|].
    specialize (IH Hin). lia.
  - simpl. pose proof (length_filter (fun c0 => c0 ≠ c) l). lia.
Qed.

Lemma dijkstraBody_decreases st st' :
  DjInv adj cs startCity endCity st →
  dijkstraBody adj endCity st = Ok (inl st') →
  (length (dj_unvisited st') < length (dj_unvisited st))%nat.
Proof.
  intros Hinv. unfold dijkstraBody.
  destruct (dj_unvisited st) as [|u0 us] eqn:Hunv; [done|].
  pose proof (selectMin_spec (dj_distances st) (dj_unvisited st)) as [_ Hmin].
  rewrite Hunv in Hmin.
  destruct (selectMin _ _) as [[c|] m]; [|done]. simpl in Hmin.
  destruct Hmin as (Hc & -> & Hfin).
  destruct (is_Infinity _); [done|].
  destruct (decide (c = endCity)) as [|Hce]; [done|].
  destruct (adj !! c) as [ns|] eqn:Hns; [|done].
  destruct (relaxNeighbors _ _ _) as [st1| |] eqn:Hrel; cbn [obind]; try done.
  intros [= <-]. rewrite <- Hunv in *.
  set (st0 := mkDijkstra _ _ _ _) in Hrel.
  assert (Hccs : c ∈ cs) by (by eapply dj_unv).
  assert (Hcpath : c = startCity ∨ is_Some (prevOf (dj_previous st) c)).
  { destruct (decide (c = startCity)) as [|Hcs]; [by left|]. right.
    destruct (prevOf (dj_previous st) c) eqn:Hp; [done|].
    rewrite (dj_unreached _ _ _ _ _ Hinv c Hcs Hp) in Hfin. done. }
  assert (Hinv0 : DjInv adj cs startCity endCity st0).
  { destruct Hinv as [Htree Hkeys Hunv' Htr Hstr Hfirst Hunr Hend].
    split; simpl; try done.
    - eapply tree_mono; [|exact Htree]. intros u Hu.
      apply popped_delete. by left.
    - intros u [_ ?]%list_elem_of_filter. by apply Hunv'.
    - intros u [Hu|[-> _]]%popped_delete; apply popped_delete.
      + left. by eapply Hfirst.
      + destruct Hcpath as [->|[x Hx]]; [by right|]. left.
        eapply Hfirst. by eapply tree_parent_settled.
    - intros He. apply list_elem_of_filter. split; [by intros ->|]. by apply Hend. }
  eapply (relaxNeighbors_inv adj cs startCity endCity c ns st0 st1)
    in Hrel as [_ Hun]; try done.
  - rewrite Hun. simpl. by apply orderedDelete_length.
  - apply popped_delete. by right.
  - intros v w Hin. exists ns. done.
Qed.

End dijkstra_total.

(** ** Dijkstra computes shortest distances *)

Section dijkstra_opt.
Context (adj : adjacency) (cs : list string) (startCity endCity : string).

(** The weights of the index are non-negative integers. *)
Definition nonNegative : Prop := ∀ u v w, edgeOf adj u v w → finDist w.

Lemma num_lt_le_trans a b c :
  num_lt a b = true → num_le b c = true → num_le a c = true.
Proof.
  destruct a, b, c; simpl; try done.
  rewrite !bool_decide_eq_true. lia.
Qed.

(** The numeric invariant; [cur] is the node whose neighbours are being
    relaxed, if any. *)
Record DjOpt (cur : option string) (st : DijkstraState) : Prop := mkDjOpt {
  o_start : numOf (dj_distances st) startCity = Num 0;
  o_shape : ∀ u, u ∈ cs → okDist (numOf (dj_distances st) u);
  o_popped : ∀ u, u ∈ popped cs st → finDist (numOf (dj_distances st) u);
  o_relaxed : ∀ u v w, u ∈ popped cs st → cur ≠ Some u → edgeOf adj u v w →
      v ∈ cs →
      num_le (numOf (dj_distances st) v)
             (num_add (numOf (dj_distances st) u) w) = true;
  o_order : ∀ u x, u ∈ popped cs st → x ∈ dj_unvisited st →
      num_le (numOf (dj_distances st) u) (numOf (dj_distances st) x) = true;
  o_reached : ∀ v, is_Some (prevOf (dj_previous st) v) →
      finDist (numOf (dj_distances st) v);
  o_cur : ∀ c, cur = Some c →
      c ∈ popped cs st
      ∧ ∀ u, u ∈ popped cs st →
          num_le (numOf (dj_distances st) u) (numOf (dj_distances st) c) = true;
}.

Lemma relaxNeighbors_opt c :
  nonNegative → "" ∉ cs →
  ∀ ns st st',
    DjOpt (Some c) st →
    (∀ u, u ∈ dj_unvisited st → u ∈ cs) →
    (∀ v w, (v, w) ∈ ns → edgeOf adj c v w) →
    relaxNeighbors c ns st = Ok st' →
    DjOpt (Some c) st'
    ∧ dj_unvisited st' = dj_unvisited st
    ∧ numOf (dj_distances st') c = numOf (dj_distances st) c
    ∧ (∀ v, v ∈ cs →
         num_le (numOf (dj_distances st') v) (numOf (dj_distances st) v) = true)
    ∧ (∀ v w, (v, w) ∈ ns → v ∈ cs →
         num_le (numOf (dj_distances st') v)
                (num_add (numOf (dj_distances st') c) w) = true).
Proof.
  intros Hnn Hempty.
  induction ns as [|[city d] ns IH]; intros st st' Hopt Hunv Hns.
  - simpl. intros [= <-]. split; [done|]. split; [done|]. split; [done|].
    split; [|by intros ?? ?%elem_of_nil].
    intros v Hv. apply num_le_refl_ok. by apply (o_shape _ _ Hopt).
  - destruct (o_cur _ _ Hopt c eq_refl) as [Hcp Hcmax].
    pose proof (o_popped _ _ Hopt c Hcp) as Hcfin.
    assert (Hd : finDist d) by (eapply Hnn, Hns; by left).
    assert (Hpot : finDist (num_add (numOf (dj_distances st) c) d))
      by (by apply finDist_add).
    assert (Hccs : c ∈ cs) by (by apply elem_of_popped in Hcp as [? _]).
    assert (Hctruthy : truthy c = true).
    { unfold truthy. rewrite bool_decide_eq_false_2; [done|]. by intros ->. }
    (* the state after the first neighbour *)
    assert (Hstep : ∀ st1,
              DjOpt (Some c) st1 →
              dj_unvisited st1 = dj_unvisited st →
              numOf (dj_distances st1) c = numOf (dj_distances st) c →
              (∀ v, v ∈ cs →
                 num_le (numOf (dj_distances st1) v)
                        (numOf (dj_distances st) v) = true) →
              (city ∈ cs →
                 num_le (numOf (dj_distances st1) city)
                        (num_add (numOf (dj_distances st1) c) d) = true) →
              relaxNeighbors c ns st1 = Ok st' →
              DjOpt (Some c) st'
              ∧ dj_unvisited st' = dj_unvisited st
              ∧ numOf (dj_distances st') c = numOf (dj_distances st) c
              ∧ (∀ v, v ∈ cs →
                   num_le (numOf (dj_distances st') v)
                          (numOf (dj_distances st) v) = true)
              ∧ (∀ v w, (v, w) ∈ (city, d) :: ns → v ∈ cs →
                   num_le (numOf (dj_distances st') v)
                          (num_add (numOf (dj_distances st') c) w) = true)).
    { intros st1 Hopt1 Hun1 Hc1 Hmono1 Hcity1 Hrel.
      apply IH in Hrel as (Hopt' & Hun' & Hc' & Hmono' & Hall'); try done.
      - split; [done|]. split; [congruence|]. split; [congruence|].
        split.
        + intros v Hv. eapply num_le_trans_ok; [by apply Hmono'|by apply Hmono1].
        + intros v w [[= -> ->]|Hin]%elem_of_cons Hv; [|by apply Hall'].
          eapply num_le_trans_ok; [by apply Hmono'|].
          rewrite Hc'. by apply Hcity1.
      - intros u. rewrite Hun1. apply Hunv.
      - intros ???. apply Hns. by right. }
    simpl.
    destruct (decide (city ∈ dj_unvisited st)) as [Hcu|Hcu].
    + rewrite bool_decide_eq_true_2 by done. rewrite Hctruthy. simpl.
      destruct (reconstructCurrentPath (dj_previous st) c) as [p1| |];
        cbn [obind]; try done.
      assert (Hcne : c ≠ city).
      { intros ->. apply elem_of_popped in Hcp as [_ ?]. done. }
      destruct (num_lt _ _) eqn:Hlt.
      * destruct (reconstructCurrentPath _ city) as [p2| |]; cbn [obind];
          try done.
        apply Hstep; simpl.
        -- destruct Hopt as [Hs Hsh Hpo Hre Hor Hrd Hcur].
           assert (Hnum : ∀ v, v ≠ city →
                     numOf (<[city := num_add (numOf (dj_distances st) c) d]>
                              (dj_distances st)) v
                     = numOf (dj_distances st) v).
           { intros v Hv. unfold numOf. by rewrite lookup_insert_ne. }
           assert (Hnumc :
                     numOf (<[city := num_add (numOf (dj_distances st) c) d]>
                              (dj_distances st)) city
                     = num_add (numOf (dj_distances st) c) d).
           { unfold numOf. by rewrite lookup_insert_eq. }
           assert (Hpc : ∀ u, u ∈ popped cs st → u ≠ city).
           { intros u [_ Hu]%elem_of_popped ->. done. }
           split; simpl.
           ++ destruct (decide (startCity = city)) as [<-|Hsc];
                [|by rewrite Hnum].
              exfalso. rewrite Hs in Hlt.
              destruct Hpot as (z & Hz & Hz0). rewrite Hz in Hlt. simpl in Hlt.
              apply bool_decide_eq_true in Hlt. lia.
           ++ intros u Hu. destruct (decide (u = city)) as [->|Huc].
              ** rewrite Hnumc. by apply finDist_ok.
              ** rewrite Hnum by done. by apply Hsh.
           ++ intros u Hu. rewrite Hnum by (by apply Hpc). by apply Hpo.
           ++ intros u v w Hu Hcu' He Hv.
              rewrite (Hnum u) by (by apply Hpc).
              destruct (decide (v = city)) as [->|Hvc].
              ** rewrite Hnumc. eapply num_lt_le_trans; [exact Hlt|].
                 by eapply Hre.
              ** rewrite Hnum by done. by eapply Hre.
           ++ intros u x Hu Hx. rewrite (Hnum u) by (by apply Hpc).
              destruct (decide (x = city)) as [->|Hxc].
              ** rewrite Hnumc. eapply num_le_trans_ok; [by apply Hcmax|].
                 by apply num_le_add_r.
              ** rewrite Hnum by done. by apply Hor.
           ++ intros v Hv. destruct (decide (v = city)) as [->|Hvc].
              ** by rewrite Hnumc.
              ** rewrite Hnum by done. apply Hrd.
                 unfold prevOf in *. by rewrite lookup_insert_ne in Hv.
           ++ intros c' [= <-]. split; [done|]. intros u Hu.
              rewrite (Hnum u) by (by apply Hpc). rewrite Hnum by done.
              by apply Hcmax.
        -- done.
        -- unfold numOf. by rewrite lookup_insert_ne.
        -- intros v Hv. unfold numOf.
           destruct (decide (v = city)) as [->|Hvc].
           ++ rewrite lookup_insert_eq. simpl. by apply num_lt_true_le.
           ++ rewrite lookup_insert_ne by done.
              apply num_le_refl_ok. by apply (o_shape _ _ Hopt).
        -- intros _. unfold numOf at 1 3. rewrite lookup_insert_eq.
           rewrite lookup_insert_ne by done. simpl.
           apply num_le_refl_ok. by apply finDist_ok.
      * apply Hstep; simpl; try done.
        -- destruct Hopt. split; done.
        -- intros v Hv. apply num_le_refl_ok. by apply (o_shape _ _ Hopt).
        -- intros Hcity. apply num_lt_false_le; [by apply finDist_ok| |done].
           by apply (o_shape _ _ Hopt).
    + rewrite bool_decide_eq_false_2 by done. simpl.
      apply Hstep; try done.
      * intros v Hv. apply num_le_refl_ok. by apply (o_shape _ _ Hopt).
      * intros Hcity. eapply num_le_trans_ok; [|by apply num_le_add_r].
        apply Hcmax. by apply elem_of_popped.
Qed.

Lemma dijkstraInit_opt : startCity ∈ cs → DjOpt None (dijkstraInit cs startCity).
Proof.
  intros Hin. destruct (dijkstraInit_fields cs startCity) as (Hd & Hp & Hu & Hs).
  destruct (orderedAdd_fold cs [] (NoDup_nil_2)) as [Hnd Hmem].
  assert (Hpop : popped cs (dijkstraInit cs startCity) = ∅).
  { apply set_eq. intros u. rewrite elem_of_popped, Hu, Hmem. set_solver. }
  split.
  - rewrite Hd. by apply numOf_rootDist.
  - intros u Hu'. rewrite Hd. unfold numOf.
    rewrite (foldl_insert_lookup
               (fun city => if decide (city = startCity) then Num 0 else Infinity)).
    rewrite decide_True by done. simpl.
    destruct (decide (u = startCity)); [right; by exists 0|by left].
  - intros u. rewrite Hpop. set_solver.
  - intros u v w. rewrite Hpop. set_solver.
  - intros u x. rewrite Hpop. set_solver.
  - intros v. rewrite Hp, prevOf_nulls. by intros [? ?].
  - done.
Qed.

Lemma dijkstraBody_opt st st' :
  nonNegative → "" ∉ cs →
  DjInv adj cs startCity endCity st → DjOpt None st →
  dijkstraBody adj endCity st = Ok (inl st') → DjOpt None st'.
Proof.
  intros Hnn Hempty Hinv Hopt. unfold dijkstraBody.
  destruct (dj_unvisited st) as [|u0 us] eqn:Hunv; [done|].
  pose proof (selectMin_spec (dj_distances st) (dj_unvisited st)) as [Hall Hmin].
  rewrite Hunv in Hall, Hmin.
  destruct (selectMin _ _) as [[c|] m]; [|done]. simpl in Hall, Hmin.
  destruct Hmin as (Hc & -> & Hfin).
  destruct (is_Infinity _); [done|].
  destruct (decide (c = endCity)) as [|Hce]; [done|].
  destruct (adj !! c) as [ns|] eqn:Hns; [|done].
  destruct (relaxNeighbors _ _ _) as [st1| |] eqn:Hrel; cbn [obind]; try done.
  intros [= <-]. rewrite <- Hunv in *.
  set (st0 := mkDijkstra _ _ _ _) in Hrel.
  assert (Hccs : c ∈ cs) by (by eapply dj_unv).
  assert (Hcfin : finDist (numOf (dj_distances st) c)).
  { apply num_lt_Infinity_fin; [|done]. by apply (o_shape _ _ Hopt). }
  assert (Hcmin : ∀ x, x ∈ dj_unvisited st →
            num_le (numOf (dj_distances st) c) (numOf (dj_distances st) x) = true).
  { intros x Hx. apply num_lt_false_le; [| |by apply Hall].
    - apply (o_shape _ _ Hopt). by eapply dj_unv.
    - by apply finDist_ok. }
  assert (Hopt0 : DjOpt (Some c) st0).
  { destruct Hopt as [Hs Hsh Hpo Hre Hor Hrd Hcur].
    split; simpl; try done.
    - intros u [Hu|[-> _]]%popped_delete; [by apply Hpo|done].
    - intros u v w [Hu|[-> _]]%popped_delete Hne He Hv; [|done].
      by eapply Hre.
    - intros u x [Hu|[-> _]]%popped_delete [_ Hx]%list_elem_of_filter.
      + by apply Hor.
      + by apply Hcmin.
    - intros c' [= <-]. split; [apply popped_delete; by right|].
      intros u [Hu|[-> _]]%popped_delete.
      + by apply Hor.
      + apply num_le_refl_ok. by apply finDist_ok. }
  eapply (relaxNeighbors_opt c Hnn Hempty ns st0 st1) in Hrel
    as (Hopt1 & Hun1 & Hc1 & Hmono1 & Hall1); try done.
  - destruct Hopt1 as [Hs Hsh Hpo Hre Hor Hrd Hcur].
    split; try done.
    intros u v w Hu _ He Hv. destruct (decide (u = c)) as [->|Huc].
    + apply Hall1; [|done]. destruct He as (l & Hl & Hin).
      rewrite Hns in Hl. by injection Hl as <-.
    + apply Hre; try done. by intros [= ->].
  - intros u [_ Hu]%list_elem_of_filter. by eapply dj_unv.
  - intros v w Hin. by exists ns.
Qed.

(** The recorded distance of a settled node on a walk from the start, or of
    some unvisited node, is at most the weight of the walk. *)
Lemma dijkstra_walk_bound st :
  nonNegative → (∀ u, is_Some (adj !! u) → u ∈ cs) →
  DjOpt None st → startCity ∈ cs →
  ∀ q d, walkW adj q d → head q = Some startCity →
  ∀ x, last q = Some x → x ∈ cs →
    finDist d
    ∧ ((x ∈ popped cs st ∧ num_le (numOf (dj_distances st) x) d = true)
       ∨ ∃ y, y ∈ dj_unvisited st ∧ num_le (numOf (dj_distances st) y) d = true).
Proof.
  intros Hnn Hdom Hopt Hs.
  induction 1 as [a|p u v d w Hw IH He]; intros Hh x Hl Hx.
  - simpl in *. injection Hh as ->. injection Hl as <-.
    split; [by exists 0|].
    rewrite <- (o_start _ _ Hopt).
    destruct (decide (startCity ∈ dj_unvisited st)) as [Hin|Hin].
    + right. exists startCity. split; [done|].
      apply num_le_refl_ok. by apply (o_shape _ _ Hopt).
    + left. split; [by apply elem_of_popped|].
      apply num_le_refl_ok. by apply (o_shape _ _ Hopt).
  - assert (Hl' : x = v).
    { change (p ++ [u; v]) with (p ++ [u] ++ [v]) in Hl.
      rewrite app_assoc, last_snoc in Hl. by injection Hl. }
    subst x.
    assert (Hh' : head (p ++ [u]) = Some startCity) by (by destruct p).
    assert (Hu : u ∈ cs).
    { apply Hdom. destruct He as (l & -> & _). done. }
    assert (Hwf : finDist w) by (by eapply Hnn).
    destruct (IH Hh' u (last_snoc _ _) Hu) as [Hd [[Hup Hud]|(y & Hy1 & Hy2)]].
    + split; [by apply finDist_add|].
      assert (num_le (numOf (dj_distances st) v) (num_add d w) = true) as Hvd.
      { eapply num_le_trans_ok; [by eapply (o_relaxed _ _ Hopt u v w)|].
        by apply num_le_add_mono. }
      destruct (decide (v ∈ dj_unvisited st)) as [Hin|Hin].
      * right. by exists v.
      * left. split; [by apply elem_of_popped|done].
    + split; [by apply finDist_add|]. right. exists y. split; [done|].
      eapply num_le_trans_ok; [exact Hy2|]. by apply num_le_add_r.
Qed.

(** When the target is a closest unvisited node, its recorded distance is
    at most the weight of every walk from the start to it. *)
Lemma dijkstra_optimal st :
  nonNegative → (∀ u, is_Some (adj !! u) → u ∈ cs) →
  DjInv adj cs startCity endCity st → DjOpt None st →
  startCity ∈ cs → endCity ∈ cs →
  (∀ x, x ∈ dj_unvisited st →
     num_lt (numOf (dj_distances st) x) (numOf (dj_distances st) endCity) = false) →
  ∀ q d, walkW adj q d → head q = Some startCity → last q = Some endCity →
    num_le (numOf (dj_distances st) endCity) d = true.
Proof.
  intros Hnn Hdom Hinv Hopt Hs He Hmin q d Hq Hh Hl.
  destruct (dijkstra_walk_bound st Hnn Hdom Hopt Hs q d Hq Hh endCity Hl He)
    as [Hd [[Hp _]|(y & Hy1 & Hy2)]].
  - apply elem_of_popped in Hp as [_ Hp]. destruct Hp. by eapply dj_end.
  - eapply num_le_trans_ok; [|exact Hy2].
    apply num_lt_false_le; [| |by apply Hmin].
    + apply (o_shape _ _ Hopt). by eapply dj_unv.
    + by apply (o_shape _ _ Hopt).
Qed.

End dijkstra_opt.

Section dijkstra_top.
Context (s : App).
Let cs := cities (graph s).
Let a := startCity (selection s).
Let b := endCity (selection s).

Lemma reconstructLoop_leaf previous v n :
  prevOf previous v = None → v ≠ "" →
  reconstructLoop (S n) previous v [] = Ok [v].
Proof.
  intros Hp Hv. simpl. unfold truthy.
  rewrite bool_decide_eq_false_2 by done. simpl. by rewrite Hp.
Qed.

Lemma dijkstra_start_absent adj :
  a ∉ cs →
  dijkstraBody adj b (dijkstraInit cs a) = Ok (inr (dijkstraInit cs a)).
Proof.
  intros Hna. unfold dijkstraBody.
  destruct (dijkstraInit_fields cs a) as (Hd & Hp & Hu & Hs).
  destruct (orderedAdd_fold cs [] (NoDup_nil_2)) as [Hnd Hmem].
  destruct (dj_unvisited (dijkstraInit cs a)) as [|u0 us] eqn:Hunv; [done|].
  pose proof (selectMin_spec (dj_distances (dijkstraInit cs a))
                (dj_unvisited (dijkstraInit cs a))) as [_ Hmin].
  rewrite Hunv in Hmin.
  destruct (selectMin _ _) as [[c|] m]; [|done]. cbn [fst snd] in Hmin.
  destruct Hmin as (Hc & -> & Hfin). exfalso.
  rewrite Hu in Hc. apply Hmem in Hc as [Hc|Hc]; [by apply elem_of_nil in Hc|].
  rewrite Hd in Hfin. unfold numOf in Hfin.
  rewrite (foldl_insert_lookup
             (fun city => if decide (city = a) then Num 0 else Infinity)) in Hfin.
  rewrite decide_True in Hfin by done. simpl in Hfin.
  rewrite decide_False in Hfin; [done|]. by intros ->.
Qed.

(** The invariant of the loop of [performDijkstra]; when the start is not a
    node, the loop ends at once. *)
Definition DjLoop (adj : adjacency) (st : DijkstraState) : Prop :=
  (a ∈ cs ∧ DjInv adj cs a b st
   ∧ (nonNegative adj → "" ∉ cs → DjOpt adj cs a None st))
  ∨ ((a ∉ cs) ∧ st = dijkstraInit cs a).

Lemma DjLoop_init adj : DjLoop adj (dijkstraInit cs a).
Proof.
  destruct (decide (a ∈ cs)) as [Hin|Hnin]; [left|by right].
  split; [done|]. split; [by apply dijkstraInit_inv|].
  intros _ _. by apply dijkstraInit_opt.
Qed.

Lemma DjLoop_step adj st st' :
  DjLoop adj st → dijkstraBody adj b st = Ok (inl st') → DjLoop adj st'.
Proof.
  intros [(Hin & Hinv & Hopt)|[Hnin ->]] Hb.
  - left. split; [done|]. split; [by eapply dijkstraBody_step|].
    intros Hnn He. eapply dijkstraBody_opt; eauto.
  - by rewrite dijkstra_start_absent in Hb.
Qed.

Lemma orderedAdd_fold_length l :
  ∀ l0, (length (foldl (fun l city => orderedAdd city l) l0 l)
         ≤ length l0 + length l)%nat.
Proof.
  induction l as [|c l IH]; intros l0; simpl; [lia|].
  etrans; [apply IH|]. unfold orderedAdd. destruct (decide (c ∈ l0)); [lia|].
  rewrite length_app. simpl. lia.
Qed.

Lemma performDijkstra_total adj :
  indexOf s = Ok adj → ∃ s', performDijkstra s = Ok s'.
Proof.
  unfold performDijkstra, indexOf. fold cs a b. intros Hadj.
  destruct (invalidSelection s) eqn:Hsel; [eauto|].
  apply invalidSelection_false in Hsel as (Ha & Hb & Hab).
  rewrite Hadj. cbn [obind].
  pose proof Hadj as [Hdom _]%buildAdjacencyList_spec.
  destruct (while_total (dijkstraBody adj b) (DjLoop adj)
              (fun st => length (dj_unvisited st)))
    with (fuel := S (length cs)) (s := dijkstraInit cs a) as [st Hst].
  - intros st [(Hin & Hinv & _)|[Hnin ->]].
    + by eapply dijkstraBody_total.
    + rewrite dijkstra_start_absent by done. eauto.
  - intros st st' Hl Hb'. split; [by eapply DjLoop_step|].
    destruct Hl as [(Hin & Hinv & _)|[Hnin ->]].
    + by eapply dijkstraBody_decreases.
    + by rewrite dijkstra_start_absent in Hb'.
  - apply DjLoop_init.
  - destruct (dijkstraInit_fields cs a) as (_ & _ & -> & _).
    pose proof (orderedAdd_fold_length cs []). simpl in *. lia.
  - rewrite Hst. cbn [obind].
    eapply (while_inv _ (DjLoop adj) (DjLoop adj)) in Hst;
      [|apply DjLoop_step| |apply DjLoop_init].
    2:{ intros st0 st1 Hl [-> _]%dijkstraBody_exit. done. }
    destruct (negb _ || _); [|eauto].
    assert (∃ p, reconstructCurrentPath (dj_previous st) b = Ok p) as [p ->];
      [|cbn [obind]; eauto].
    destruct (prevOf (dj_previous st) b) as [u|] eqn:Hp.
    + destruct Hst as [(Hin & Hinv & _)|[Hnin ->]].
      * eapply tree_reconstruct_total; [by apply (dj_tree _ _ _ _ _ Hinv)|].
        right. by rewrite Hp.
      * destruct (dijkstraInit_fields cs a) as (_ & Hpn & _ & _).
        by rewrite Hpn, prevOf_nulls in Hp.
    + exists [b]. by apply reconstructLoop_leaf.
Qed.

Lemma performDijkstra_sound s' r :
  performDijkstra s = Ok s' → dfsPath (search s') = Some r →
  ∃ adj, indexOf s = Ok adj
    ∧ NoDup (path r) ∧ last (path r) = Some b
    ∧ (∀ u, u ∈ removelast (path r) →
         u ∈ traceVisits (animationSteps (search s')))
    ∧ (b ∈ cs →
         (∀ u, u ∈ path r → u ∈ traceVisits (animationSteps (search s')))
         ∧ ("" ∉ cs →
              SoundResult s adj r
              ∧ (nonNegative adj →
                 ∀ q d, walkW adj q d → head q = Some a → last q = Some b →
                   num_le (totalDistance r) d = true))).
Proof.
  unfold performDijkstra. fold cs a b.
  destruct (invalidSelection s) eqn:Hsel; [by intros [= <-]|].
  apply invalidSelection_false in Hsel as (Ha & Hb & Hab).
  destruct (buildAdjacencyList _ _ _) as [adj| |] eqn:Hadj; cbn [obind];
    try done.
  pose proof Hadj as [Hdom _]%buildAdjacencyList_spec.
  destruct (while _ _ _) as [st| |] eqn:Hloop; cbn [obind]; try done.
  eapply (while_inv _ (DjLoop adj)
            (fun st => DjLoop adj st
               ∧ ((∀ x, x ∈ dj_unvisited st →
                     num_lt (numOf (dj_distances st) x) Infinity = false)
                  ∨ (b ∈ dj_unvisited st
                     ∧ num_lt (numOf (dj_distances st) b) Infinity = true
                     ∧ ∀ x, x ∈ dj_unvisited st →
                         num_lt (numOf (dj_distances st) x)
                                (numOf (dj_distances st) b) = false))))
    in Hloop; [|apply DjLoop_step| |apply DjLoop_init].
  2:{ intros st0 st1 Hl [-> Hex]%dijkstraBody_exit. done. }
  destruct Hloop as [Hl Hexit].
  destruct (negb _ || _) eqn:Hcond; [|by intros [= <-]].
  destruct (reconstructCurrentPath _ _) as [p| |] eqn:Hp; cbn [obind]; try done.
  intros [= <-]. simpl. intros [= <-]. simpl.
  exists adj. split; [done|].
  apply orb_true_iff in Hcond as [Hcond|Hcond];
    [|by apply bool_decide_eq_true in Hcond].
  apply negb_true_iff, bool_decide_eq_false in Hcond.
  destruct (prevOf (dj_previous st) b) as [u|] eqn:Hpb.
  - destruct Hl as [(Hin & Hinv & Hopt)|[Hnin ->]].
    2:{ destruct (dijkstraInit_fields cs a) as (_ & Hpn & _ & _).
        by rewrite Hpn, prevOf_nulls in Hpb. }
    destruct (tree_result adj a _ _ _ b p (dj_tree _ _ _ _ _ Hinv))
      as (Hnd & Hlast & Hpar & Hfull); try done.
    { right. by rewrite Hpb. }
    assert (Hrl : ∀ x, x ∈ removelast p → x ∈ traceVisits (dj_animSteps st)).
    { intros x Hx. destruct (Hpar x Hx) as [[y Hy] _].
      by apply (dj_trace _ _ _ _ _ Hinv y x). }
    split; [done|]. split; [done|]. split; [done|].
    intros Hbcs. split.
    { intros x Hx.
      destruct (elem_of_removelast_or_last p b x Hlast Hx) as [?| ->]; [auto|].
      by apply (dj_trace _ _ _ _ _ Hinv b u). }
    intros Hempty. destruct Hfull as [Hh Hw].
    { apply eq_None_not_Some. by rewrite Hdom. }
    split; [done|].
    intros Hnn q d Hq Hqh Hql. specialize (Hopt Hnn Hempty).
    eapply (dijkstra_optimal adj cs a b st); try done.
    + intros x. apply Hdom.
    + destruct Hexit as [Hnone|(_ & _ & Hmin)]; [|done].
      exfalso. pose proof (dj_end _ _ _ _ _ Hinv Hbcs) as Hbu.
      specialize (Hnone b Hbu).
      destruct (o_reached _ _ _ _ _ Hopt b) as (z & Hz & _); [by rewrite Hpb|].
      by rewrite Hz in Hnone.
  - unfold reconstructCurrentPath in Hp.
    rewrite (reconstructLoop_leaf _ b _ Hpb Hb) in Hp. injection Hp as <-.
    split; [apply NoDup_singleton|]. split; [done|].
    split; [by intros ? ?%elem_of_nil|].
    intros Hbcs. exfalso. apply Hcond.
    destruct Hl as [(Hin & Hinv & _)|[Hnin ->]].
    + unfold prevOf in Hpb.
      destruct (proj2 (dj_keys _ _ _ _ _ Hinv b) Hbcs) as [[x|] Hx];
        rewrite Hx in *; done.
    + destruct (dijkstraInit_fields cs a) as (_ & -> & _ & _).
      rewrite (foldl_insert_lookup (fun _ => None)). by rewrite decide_True.
Qed.

End dijkstra_top.

(** * Bidirectional wave *)

Section bi_expansion.
Context (adj : adjacency) (root : string) (other : gset string).

(** What is left of the invariant of an expansion once the search has
    stopped: the tree, and the trace of the nodes that discovered others. *)
Record SideTree (steps : list AnimationStep) (sd : Side) : Prop := mkSideTree {
  st_tree : TreeInv adj root (sd_previous sd) (sd_distances sd) (sd_visited sd);
  st_root : root ∈ sd_visited sd;
  st_path : ∀ v, v ∈ sd_visited sd →
      v = root ∨ is_Some (prevOf (sd_previous sd) v);
  st_trace : ∀ v u, prevOf (sd_previous sd) v = Some u → u ∈ traceVisits steps;
  st_strace : root ∈ traceVisits steps;
}.

Definition sideEx (sd : Side) : Expansion :=
  mkExpansion (sd_queue sd) (sd_visited sd) (sd_previous sd) (sd_distances sd) [] [].

Definition exSide (ex : Expansion) : Side :=
  mkSide (x_queue ex) (x_visited ex) (x_previous ex) (x_distances ex).

Lemma exp_steps_mono bad wave pend steps steps' ex :
  traceVisits steps ⊆ traceVisits steps' →
  ExpInv adj root bad wave pend steps ex → ExpInv adj root bad wave pend steps' ex.
Proof.
  intros Hsub [Htree Hst Hpath Hq Hnd Hpend Hcl Htr Hstr Hed Hdom].
  split; try done.
  - intros v u Hvu. destruct (Htr v u Hvu) as [?|?]; [left; set_solver|by right].
  - set_solver.
Qed.

Lemma sideTree_steps_mono steps steps' sd :
  traceVisits steps ⊆ traceVisits steps' →
  SideTree steps sd → SideTree steps' sd.
Proof.
  intros Hsub [Htree Hr Hpath Htr Hstr]. split; try done.
  - intros v u Hvu. apply Hsub. by eapply Htr.
  - by apply Hsub.
Qed.

(** The tree of an expansion whose step, if any, has been recorded. *)
Lemma exp_sideTree bad wave pend steps steps' ex :
  ExpInv adj root bad wave pend steps ex →
  (x_waveEdges ex = [] ∧ steps' = steps
   ∨ ∃ st, steps' = steps ++ [st] ∧ stepVisits st = list_to_set wave) →
  SideTree steps' (exSide ex).
Proof.
  intros [Htree Hst Hpath Hq Hnd Hpend Hcl Htr Hstr Hed Hdom] Hsteps.
  split; simpl; try done.
  - intros v u Hvu. destruct Hsteps as [[He ->]|(st & -> & Hst')].
    + destruct (Htr v u Hvu) as [?|[b Hb]]; [done|].
      rewrite He in Hb. by apply elem_of_nil in Hb.
    + rewrite traceVisits_snoc, Hst'.
      destruct (Htr v u Hvu) as [?|[b Hb]]; [set_solver|].
      apply elem_of_union_r, elem_of_list_to_set. by eapply Hed.
  - destruct Hsteps as [[_ ->]|(st & -> & _)]; [done|].
    rewrite traceVisits_snoc. set_solver.
Qed.

Lemma exp_inv_sideTree bad steps sd :
  ExpInv adj root bad [] [] steps (sideEx sd) → SideTree steps sd.
Proof.
  intros Hinv. destruct sd as [q v p d].
  apply (exp_sideTree bad [] [] steps steps _ Hinv). by left.
Qed.

(** No node waiting in the queue has been visited by the other side. *)
Lemma biDequeue_disjoint queue :
  (∀ c, c ∈ queue → c ∉ other) → biDequeue other queue = (queue, [], None).
Proof.
  induction queue as [|c queue IH]; intros Hdis; simpl; [done|].
  rewrite decide_False by (apply Hdis; by left).
  rewrite IH; [done|]. intros c' Hc'. apply Hdis. by right.
Qed.

(** What the search knows about the meeting node. *)
Definition meets (visited : gset string) (met : option string) : Prop :=
  match met with
  | None => visited ## other
  | Some m => m ∈ visited ∧ m ∈ other ∧ ∀ x, x ∈ visited → x ∈ other → x = m
  end.

Lemma biNeighbors_inv bad wave pend steps c :
  c ∈ wave →
  ∀ ns ex ex' met,
    ExpInv adj root bad wave (c :: pend) steps ex →
    (∀ v w, (v, w) ∈ ns → edgeOf adj c v w) →
    x_visited ex ## other →
    biNeighbors other c ns ex = (ex', met) →
    ExpInv adj root bad wave (c :: pend) steps ex'
    ∧ x_visited ex ⊆ x_visited ex'
    ∧ meets (x_visited ex') met
    ∧ (met = None → ∀ v w, (v, w) ∈ ns → v ∈ x_visited ex').
Proof.
  intros Hcw. induction ns as [|[n w] ns IH]; intros ex ex' met Hinv Hns Hdis; simpl.
  - intros [= <- <-]. split; [done|]. split; [done|]. split; [done|].
    by intros _ ?? ?%elem_of_nil.
  - destruct (decide (n ∈ x_visited ex)) as [Hn|Hn].
    + intros Hrec. apply IH in Hrec as (Hinv' & Hsub & Hm & Hall); try done.
      * split; [done|]. split; [done|]. split; [done|].
        intros Hnone v' w' [[= -> ->]|?]%elem_of_cons;
          [by apply Hsub|by eapply Hall].
      * intros ???. apply Hns. by right.
    + set (ex1 := mkExpansion _ _ _ _ _ _).
      assert (Hinv1 : ExpInv adj root bad wave (c :: pend) steps ex1).
      { apply exp_discover; try done. apply Hns. by left. }
      destruct (decide (n ∈ other)) as [Hno|Hno].
      * intros [= <- <-]. split; [done|]. split; [simpl; set_solver|].
        split; [|done]. simpl. split; [set_solver|]. split; [done|].
        intros x [Hx%elem_of_singleton|Hx]%elem_of_union Hxo; [done|].
        exfalso. set_solver.
      * intros Hrec. apply IH in Hrec as (Hinv' & Hsub & Hm & Hall); try done.
        -- split; [done|]. simpl in Hsub. split; [set_solver|]. split; [done|].
           intros Hnone v' w' [[= -> ->]|?]%elem_of_cons; [|by eapply Hall].
           apply Hsub. set_solver.
        -- intros ???. apply Hns. by right.
        -- simpl. set_solver.
Qed.

Lemma biNeighbors_measure c ns ex ex' met :
  (∀ v w, (v, w) ∈ ns → is_Some (adj !! v)) →
  biNeighbors other c ns ex = (ex', met) →
  expMeasure adj ex' = expMeasure adj ex.
Proof.
  revert ex. induction ns as [|[v w] ns IH]; intros ex Hns; simpl.
  - by intros [= <- <-].
  - destruct (decide (v ∈ x_visited ex)) as [Hv|Hv].
    + apply IH. intros ???. eapply Hns. by right.
    + assert (is_Some (adj !! v)) as Hd by (eapply Hns; by left).
      assert (Hone : expMeasure adj
                (mkExpansion (x_queue ex ++ [v]) ({[v]} ∪ x_visited ex)
                   (<[v := Some c]> (x_previous ex))
                   (<[v := num_add (numOf (x_distances ex) c) w]> (x_distances ex))
                   (x_waveEdges ex ++ [(c, v)]) (x_nextWaveNodes ex ++ [v]))
              = expMeasure adj ex).
      { unfold expMeasure. simpl. rewrite length_app. simpl.
        rewrite (size_unvisited_step adj (x_visited ex) v Hd Hv). lia. }
      destruct (decide (v ∈ other)).
      * by intros [= <- <-].
      * intros Hrec. apply IH in Hrec; [|intros ???; eapply Hns; by right].
        by rewrite Hrec.
Qed.

Lemma biExpand_inv bad rev wave steps :
  ∀ pend ex ex' met,
    ExpInv adj root bad wave pend steps ex →
    (∀ c, c ∈ pend → c ∈ wave ∧ ¬ bad c) →
    x_visited ex ## other →
    biExpand adj rev other pend ex = Ok (ex', met) →
    ∃ pend',
      ExpInv adj root bad wave pend' steps ex'
      ∧ x_visited ex ⊆ x_visited ex'
      ∧ meets (x_visited ex') met
      ∧ (met = None → pend' = []).
Proof.
  induction pend as [|c pend IH]; intros ex ex' met Hinv Hpw Hdis; simpl.
  - intros [= <- <-]. exists []. done.
  - destruct (neighborsOf adj rev c) as [ns| |] eqn:Hns; simpl; try done.
    destruct (Hpw c) as [Hcw Hbad]; [by left|].
    destruct (biNeighbors other c ns ex) as [ex1 [m|]] eqn:Hbn.
    + intros [= <- <-].
      apply (biNeighbors_inv bad wave pend steps c Hcw) in Hbn
        as (Hinv1 & Hsub & Hm & _); try done.
      * exists (c :: pend). done.
      * intros v w Hin. by eapply neighborsOf_edge.
    + apply (biNeighbors_inv bad wave pend steps c Hcw) in Hbn
        as (Hinv1 & Hsub & Hm & Hall); try done.
      2:{ intros v w Hin. by eapply neighborsOf_edge. }
      intros Hrec. apply IH in Hrec as (pend' & Hinv' & Hsub' & Hm' & Hp'); try done.
      * exists pend'. split; [done|]. split; [set_solver|]. done.
      * eapply exp_done; [done| |done].
        intros v [w Hv]. eapply Hall; [done|]. by eapply neighborsOf_edge.
      * intros c' Hc'. apply Hpw. by right.
Qed.

Lemma biExpand_measure rev pend ex ex' met :
  adjClosed adj → biExpand adj rev other pend ex = Ok (ex', met) →
  expMeasure adj ex' = expMeasure adj ex.
Proof.
  intros Hcl. revert ex. induction pend as [|c pend IH]; intros ex; simpl.
  - by intros [= <- <-].
  - destruct (neighborsOf adj rev c) as [ns| |] eqn:Hns; simpl; try done.
    destruct (biNeighbors other c ns ex) as [ex1 [m|]] eqn:Hbn.
    + intros [= <- <-]. eapply biNeighbors_measure; [|done].
      intros v w Hin. eapply Hcl. by eapply neighborsOf_edge.
    + intros Hrec. rewrite (IH _ Hrec). eapply biNeighbors_measure; [|done].
      intros v w Hin. eapply Hcl. by eapply neighborsOf_edge.
Qed.

Lemma biExpand_total bad rev wave steps :
  adjClosed adj → is_Some (adj !! root) →
  ∀ pend ex,
    ExpInv adj root bad wave pend steps ex →
    (∀ c, c ∈ pend → c ∈ wave ∧ ¬ bad c) →
    x_visited ex ## other →
    ∃ r, biExpand adj rev other pend ex = Ok r.
Proof.
  intros Hcl Hroot. induction pend as [|c pend IH]; intros ex Hinv Hpw Hdis; simpl.
  - eauto.
  - destruct (neighborsOf_total adj rev c) as [ns Hns].
    { apply (ei_dom _ _ _ _ _ _ _ Hinv Hcl Hroot).
      apply (ei_pending _ _ _ _ _ _ _ Hinv). by left. }
    rewrite Hns. simpl.
    destruct (Hpw c) as [Hcw Hbad]; [by left|].
    destruct (biNeighbors other c ns ex) as [ex1 [m|]] eqn:Hbn; [eauto|].
    apply (biNeighbors_inv bad wave pend steps c Hcw) in Hbn
      as (Hinv1 & Hsub & Hm & Hall); try done.
    2:{ intros v w Hin. by eapply neighborsOf_edge. }
    apply IH; try done.
    + eapply exp_done; [done| |done].
      intros v [w Hv]. eapply Hall; [done|]. by eapply neighborsOf_edge.
    + intros c' Hc'. apply Hpw. by right.
Qed.

Definition noBad (u : string) : Prop := False.

(** One phase of one side. *)
Lemma biPhase_spec rev own counter backward own' step met steps :
  ExpInv adj root noBad [] [] steps (sideEx own) →
  sd_visited own ## other →
  biPhase adj rev own other counter backward = Ok (own', step, met) →
  traceVisits steps ⊆ traceVisits (pushStep steps step)
  ∧ sd_visited own ⊆ sd_visited own'
  ∧ meets (sd_visited own') met
  ∧ match met with
    | None => ExpInv adj root noBad [] [] (pushStep steps step) (sideEx own')
    | Some _ => SideTree (pushStep steps step) own'
    end.
Proof.
  intros Hinv Hdis. unfold biPhase.
  rewrite biDequeue_disjoint.
  2:{ intros c Hc. apply (ei_queue _ _ _ _ _ _ _ Hinv) in Hc. set_solver. }
  destruct (biExpand _ _ _ _ _) as [[ex met']| |] eqn:Hex; cbn [obind]; try done.
  assert (Hinv0 : ExpInv adj root noBad (sd_queue own) (sd_queue own) steps
            (mkExpansion [] (sd_visited own) (sd_previous own)
                         (sd_distances own) [] [])).
  { apply exp_dequeue. by rewrite app_nil_r. }
  apply (biExpand_inv noBad rev (sd_queue own) steps) in Hex
    as (pend' & Hinv1 & Hsub & Hm & Hp'); try done.
  2:{ intros c Hc. split; [done|]. by intros []. }
  assert (Hres : ∀ steps',
            (x_waveEdges ex = [] ∧ steps' = steps
             ∨ ∃ st, steps' = steps ++ [st]
                     ∧ stepVisits st = list_to_set (sd_queue own)) →
            match met' with
            | None => ExpInv adj root noBad [] [] steps' (sideEx (exSide ex))
            | Some _ => SideTree steps' (exSide ex)
            end).
  { intros steps' Hs. destruct met' as [m|].
    - by eapply exp_sideTree.
    - rewrite (Hp' eq_refl) in Hinv1. by eapply exp_flush. }
  destruct (x_waveEdges ex) as [|e0 es] eqn:Hes.
  - intros [= <- <- <-]. simpl. split; [done|]. split; [done|]. split; [done|].
    apply Hres. by left.
  - intros [= <- <- <-]. simpl. rewrite traceVisits_snoc.
    split; [set_solver|]. split; [done|]. split; [done|].
    apply Hres. right. eexists. split; [done|]. apply stepVisits_wave.
Qed.

Lemma biPhase_total rev own counter backward steps :
  adjClosed adj → is_Some (adj !! root) →
  ExpInv adj root noBad [] [] steps (sideEx own) →
  sd_visited own ## other →
  ∃ r, biPhase adj rev own other counter backward = Ok r.
Proof.
  intros Hcl Hroot Hinv Hdis. unfold biPhase.
  rewrite biDequeue_disjoint.
  2:{ intros c Hc. apply (ei_queue _ _ _ _ _ _ _ Hinv) in Hc. set_solver. }
  destruct (biExpand_total noBad rev (sd_queue own) steps Hcl Hroot (sd_queue own)
              (mkExpansion [] (sd_visited own) (sd_previous own)
                           (sd_distances own) [] [])) as [[ex met'] ->]; try done.
  - apply exp_dequeue. by rewrite app_nil_r.
  - intros c Hc. split; [done|]. by intros [].
  - cbn [obind]. destruct (x_waveEdges ex); eauto.
Qed.

Lemma biPhase_measure rev own counter backward own' step met :
  adjClosed adj →
  (∀ c, c ∈ sd_queue own → c ∉ other) →
  biPhase adj rev own other counter backward = Ok (own', step, met) →
  (expMeasure adj (sideEx own') + length (sd_queue own)
   = expMeasure adj (sideEx own))%nat.
Proof.
  intros Hcl Hdis. unfold biPhase. rewrite biDequeue_disjoint by done.
  destruct (biExpand _ _ _ _ _) as [[ex met']| |] eqn:Hex; cbn [obind]; try done.
  apply biExpand_measure in Hex; [|done].
  destruct (x_waveEdges ex); intros [= <- <- <-];
    unfold expMeasure in *; simpl in *; lia.
Qed.

End bi_expansion.

Section bi_proofs.
Context (adj : adjacency) (rev : bool) (a b : string).

(** The invariant of the loop: no meeting yet, and the two sides have
    visited disjoint sets of nodes. *)
Definition BiInv (st : BiState) : Prop :=
  bi_foundPath st = false
  ∧ ExpInv adj a noBad [] [] (bi_animSteps st) (sideEx (bi_forward st))
  ∧ ExpInv adj b noBad [] [] (bi_animSteps st) (sideEx (bi_backward st))
  ∧ sd_visited (bi_forward st) ## sd_visited (bi_backward st).

(** The two sides have met in exactly one node. *)
Definition BiDone (st : BiState) : Prop :=
  bi_foundPath st = true
  ∧ ∃ m, bi_meetingNode st = Some m
      ∧ SideTree adj a (bi_animSteps st) (bi_forward st)
      ∧ SideTree adj b (bi_animSteps st) (bi_backward st)
      ∧ m ∈ sd_visited (bi_forward st)
      ∧ m ∈ sd_visited (bi_backward st)
      ∧ ∀ x, x ∈ sd_visited (bi_forward st) → x ∈ sd_visited (bi_backward st) →
          x = m.

Lemma biForward_spec st st1 :
  BiInv st → biForward adj rev st = Ok st1 →
  if bi_foundPath st1 then BiDone st1
  else BiInv st1 ∧ sd_queue (bi_backward st1) = sd_queue (bi_backward st)
       ∧ (sd_queue (bi_forward st) = [] → sd_queue (bi_forward st1) = []).
Proof.
  intros (Hf & HF & HB & Hdis). unfold biForward.
  destruct (sd_queue (bi_forward st)) as [|c q] eqn:Hq.
  { intros [= <-]. rewrite Hf. split; [done|]. done. }
  destruct (biPhase _ _ _ _ _ _) as [[[fw step] met]| |] eqn:Hph; cbn [obind];
    try done.
  intros [= <-]. simpl.
  apply (biPhase_spec adj a _ rev _ _ _ _ _ _ (bi_animSteps st)) in Hph
    as (Hsteps & Hsub & Hm & Hres); try done.
  destruct met as [m|]; simpl.
  - split; [done|]. exists m. simpl in Hm. destruct Hm as (Hm1 & Hm2 & Hm3).
    split; [done|]. split; [done|]. split; [|done].
    eapply sideTree_steps_mono; [exact Hsteps|]. by eapply exp_inv_sideTree.
  - split; [|done]. split; [done|]. split; [done|]. split; [|done].
    by eapply exp_steps_mono.
Qed.

Lemma biBackward_spec st st1 :
  BiInv st → biBackward adj rev st = Ok st1 →
  if bi_foundPath st1 then BiDone st1
  else BiInv st1 ∧ sd_queue (bi_forward st1) = sd_queue (bi_forward st)
       ∧ (sd_queue (bi_backward st) = [] → sd_queue (bi_backward st1) = []).
Proof.
  intros (Hf & HF & HB & Hdis). unfold biBackward.
  destruct (sd_queue (bi_backward st)) as [|c q] eqn:Hq.
  { intros [= <-]. rewrite Hf. split; [done|]. done. }
  destruct (biPhase _ _ _ _ _ _) as [[[bw step] met]| |] eqn:Hph; cbn [obind];
    try done.
  intros [= <-]. simpl.
  apply (biPhase_spec adj b _ rev _ _ _ _ _ _ (bi_animSteps st)) in Hph
    as (Hsteps & Hsub & Hm & Hres); try done.
  destruct met as [m|]; simpl.
  - split; [done|]. exists m. simpl in Hm. destruct Hm as (Hm1 & Hm2 & Hm3).
    split; [done|]. split.
    { eapply sideTree_steps_mono; [exact Hsteps|]. by eapply exp_inv_sideTree. }
    split; [done|]. split; [done|]. split; [done|]. auto.
  - split; [|done]. split; [done|]. split; [by eapply exp_steps_mono|].
    split; [done|]. simpl in Hm. set_solver.
Qed.

(** What one iteration leads to. *)
Lemma biBody_cases st r :
  BiInv st → biBody adj rev st = Ok r →
  match r with
  | inl st' => BiInv st'
  | inr st' =>
      BiDone st'
      ∨ (BiInv st' ∧ sd_queue (bi_forward st') = []
         ∧ sd_queue (bi_backward st') = [])
  end.
Proof.
  intros Hinv. unfold biBody. destruct (Hinv) as (Hf & _). rewrite Hf.
  assert (Hgo :
    (st1 ←! biForward adj rev st;
     if bi_foundPath st1 then Ok (inr st1)
     else st2 ←! biBackward adj rev st1;
          if bi_foundPath st2 then Ok (inr st2) else Ok (inl st2)) = Ok r →
    match r with
    | inl st' => BiInv st'
    | inr st' =>
        BiDone st'
        ∨ (BiInv st' ∧ sd_queue (bi_forward st') = []
           ∧ sd_queue (bi_backward st') = [])
    end).
  { destruct (biForward adj rev st) as [st1| |] eqn:H1; cbn [obind]; try done.
    pose proof (biForward_spec st st1 Hinv H1) as Hs1.
    destruct (bi_foundPath st1) eqn:Hf1.
    - intros [= <-]. by left.
    - destruct Hs1 as (Hinv1 & _).
      destruct (biBackward adj rev st1) as [st2| |] eqn:H2; cbn [obind];
        try done.
      pose proof (biBackward_spec st1 st2 Hinv1 H2) as Hs2.
      destruct (bi_foundPath st2) eqn:Hf2.
      + intros [= <-]. by left.
      + intros [= <-]. by destruct Hs2. }
  destruct (sd_queue (bi_forward st)) as [|cf qf] eqn:HqF;
    destruct (sd_queue (bi_backward st)) as [|cb qb] eqn:HqB; try exact Hgo.
  intros [= <-]. right. done.
Qed.

Definition biMeasure (st : BiState) : nat :=
  (expMeasure adj (sideEx (bi_forward st))
   + expMeasure adj (sideEx (bi_backward st)))%nat.

Lemma biBody_total st :
  adjClosed adj → is_Some (adj !! a) → is_Some (adj !! b) → BiInv st →
  ∃ x, biBody adj rev st = Ok x.
Proof.
  intros Hcl Ha Hb Hinv. unfold biBody. destruct (Hinv) as (Hf & HF & HB & Hdis).
  rewrite Hf.
  assert (Hgo : ∃ x,
    (st1 ←! biForward adj rev st;
     if bi_foundPath st1 then Ok (inr st1)
     else st2 ←! biBackward adj rev st1;
          if bi_foundPath st2 then Ok (inr st2) else Ok (inl st2)) = Ok x).
  { assert (∃ st1, biForward adj rev st = Ok st1) as [st1 H1].
    { unfold biForward. destruct (sd_queue (bi_forward st)); [eauto|].
      destruct (biPhase_total adj a (sd_visited (bi_backward st)) rev
                  (bi_forward st) (bi_forwardWaveCounter st) false
                  (bi_animSteps st) Hcl Ha HF Hdis) as [[[fw step] met] ->].
      cbn [obind]. eauto. }
    rewrite H1. cbn [obind].
    pose proof (biForward_spec st st1 Hinv H1) as Hs1.
    destruct (bi_foundPath st1) eqn:Hf1; [eauto|].
    destruct Hs1 as ((_ & HF1 & HB1 & Hdis1) & _).
    assert (∃ st2, biBackward adj rev st1 = Ok st2) as [st2 H2].
    { unfold biBackward. destruct (sd_queue (bi_backward st1)); [eauto|].
      destruct (biPhase_total adj b (sd_visited (bi_forward st1)) rev
                  (bi_backward st1) (bi_backwardWaveCounter st1) true
                  (bi_animSteps st1) Hcl Hb HB1) as [[[bw step] met] ->];
        [done|]. cbn [obind]. eauto. }
    rewrite H2. cbn [obind]. destruct (bi_foundPath st2); eauto. }
  destruct (sd_queue (bi_forward st)), (sd_queue (bi_backward st)); eauto.
Qed.

Lemma biForward_measure st st1 :
  adjClosed adj → BiInv st → biForward adj rev st = Ok st1 →
  (biMeasure st1 + length (sd_queue (bi_forward st)) = biMeasure st)%nat.
Proof.
  intros Hcl (Hf & HF & HB & Hdis). unfold biForward.
  destruct (sd_queue (bi_forward st)) as [|c q] eqn:Hq.
  { intros [= <-]. simpl. lia. }
  destruct (biPhase _ _ _ _ _ _) as [[[fw step] met]| |] eqn:Hph; cbn [obind];
    try done.
  intros [= <-]. unfold biMeasure. simpl.
  apply biPhase_measure in Hph; [|done|].
  - rewrite Hq in Hph. simpl in Hph. lia.
  - intros x Hx. apply (ei_queue _ _ _ _ _ _ _ HF) in Hx. set_solver.
Qed.

Lemma biBackward_measure st st1 :
  adjClosed adj → BiInv st → biBackward adj rev st = Ok st1 →
  (biMeasure st1 + length (sd_queue (bi_backward st)) = biMeasure st)%nat.
Proof.
  intros Hcl (Hf & HF & HB & Hdis). unfold biBackward.
  destruct (sd_queue (bi_backward st)) as [|c q] eqn:Hq.
  { intros [= <-]. simpl. lia. }
  destruct (biPhase _ _ _ _ _ _) as [[[bw step] met]| |] eqn:Hph; cbn [obind];
    try done.
  intros [= <-]. unfold biMeasure. simpl.
  apply biPhase_measure in Hph; [|done|].
  - rewrite Hq in Hph. simpl in Hph. lia.
  - intros x Hx. apply (ei_queue _ _ _ _ _ _ _ HB) in Hx. set_solver.
Qed.

Lemma biBody_decreases st st' :
  adjClosed adj → BiInv st → biBody adj rev st = Ok (inl st') →
  (biMeasure st' < biMeasure st)%nat.
Proof.
  intros Hcl Hinv. unfold biBody. destruct (Hinv) as (Hf & _). rewrite Hf.
  assert (Hgo :
    sd_queue (bi_forward st) ≠ [] ∨ sd_queue (bi_backward st) ≠ [] →
    (st1 ←! biForward adj rev st;
     if bi_foundPath st1 then Ok (inr st1)
     else st2 ←! biBackward adj rev st1;
          if bi_foundPath st2 then Ok (inr st2) else Ok (inl st2))
    = Ok (inl st') →
    (biMeasure st' < biMeasure st)%nat).
  { intros Hne.
    destruct (biForward adj rev st) as [st1| |] eqn:H1; cbn [obind]; try done.
    pose proof (biForward_spec st st1 Hinv H1) as Hs1.
    pose proof (biForward_measure st st1 Hcl Hinv H1) as Hm1.
    destruct (bi_foundPath st1) eqn:Hf1; [done|].
    destruct Hs1 as (Hinv1 & HqB & _).
    destruct (biBackward adj rev st1) as [st2| |] eqn:H2; cbn [obind];
      try done.
    pose proof (biBackward_measure st1 st2 Hcl Hinv1 H2) as Hm2.
    destruct (bi_foundPath st2); [done|]. intros [= <-].
    rewrite HqB in Hm2.
    destruct Hne as [Hne|Hne].
    - destruct (sd_queue (bi_forward st)); [done|]. simpl in Hm1. lia.
    - destruct (sd_queue (bi_backward st)); [done|]. simpl in Hm2. lia. }
  destruct (sd_queue (bi_forward st)) as [|cf qf] eqn:HqF;
    destruct (sd_queue (bi_backward st)) as [|cb qb] eqn:HqB; try done;
    apply Hgo; auto.
Qed.

End bi_proofs.

(** ** The two halves of the path *)

(** The loop of the backward half collects, in the opposite order, what the
    loop of [reconstructCurrentPath] collects. *)
Lemma backwardLoop_reverse previous fuel :
  ∀ c acc,
    backwardLoop fuel previous c acc
    = (r ←! reconstructLoop fuel previous c (reverse acc); Ok (reverse r)).
Proof.
  induction fuel as [|fuel IH]; intros c acc; [done|]. simpl.
  destruct (truthy c); cbn [obind]; [|by rewrite reverse_involutive].
  assert (reverse (c :: reverse acc) = acc ++ [c]) as Hrev.
  { by rewrite reverse_cons, reverse_involutive. }
  destruct (prevOf previous c) as [next|]; cbn [obind]; [|by rewrite Hrev].
  destruct (truthy next); cbn [obind]; [|by rewrite Hrev].
  rewrite IH. by rewrite reverse_app, reverse_singleton.
Qed.

Lemma walkW_rtc adj p d :
  walkW adj p d → ∀ x y, head p = Some x → last p = Some y →
  rtc (stepOf adj) x y.
Proof.
  induction 1 as [c|p u v d w Hw IH He]; intros x y Hh Hl.
  - simpl in *. by simplify_eq.
  - replace (p ++ [u; v]) with ((p ++ [u]) ++ [v]) in *
      by (by rewrite <- app_assoc).
    rewrite last_snoc in Hl. rewrite head_app_snoc in Hh. simplify_eq.
    eapply rtc_r; [apply IH; [done|apply last_snoc]|]. by exists w.
Qed.

Lemma chain_app (R : string → string → Prop) p q x y :
  chain R (p ++ [x]) → R x y → chain R (y :: q) → chain R (p ++ x :: y :: q).
Proof.
  induction p as [|c [|e p] IH]; simpl; tauto.
Qed.


Section bi_init.
Context (adj : adjacency) (cs : list string).

Lemma sideInit_inv root steps :
  root ∈ cs → root ∈ traceVisits steps →
  ExpInv adj root noBad [] [] steps
    (sideEx
       (mkSide [root] {[root]}
          (foldl (fun m city => <[city := None]> m) ∅ cs)
          (foldl (fun m city =>
                    <[city := if decide (city = root) then Num 0 else Infinity]> m)
                 ∅ cs))).
Proof.
  intros Hin Htr. split; simpl.
  - split.
    + apply prevOf_nulls.
    + intros v u. by rewrite prevOf_nulls.
    + intros v [->|Hv]; [|rewrite prevOf_nulls in Hv; by destruct Hv].
      exists [root]. split; [apply treePath_root, prevOf_nulls|].
      split; [apply NoDup_singleton|]. split; [by intros ? ?%elem_of_nil|].
      rewrite numOf_rootDist by done. apply walkW_one.
  - set_solver.
  - intros v ->%elem_of_singleton. by left.
  - intros v ->%list_elem_of_singleton. set_solver.
  - apply NoDup_singleton.
  - by intros ? ?%elem_of_nil.
  - intros u ->%elem_of_singleton Hnq. exfalso. apply Hnq. set_solver.
  - intros v u. by rewrite prevOf_nulls.
  - done.
  - by intros ?? ?%elem_of_nil.
  - intros _ Hs u ->%elem_of_singleton. done.
Qed.

Lemma biInit_inv a b :
  a ∈ cs → b ∈ cs → a ≠ b → BiInv adj a b (biInit cs a b).
Proof.
  intros Ha Hb Hab. split; [done|]. split; [|split].
  - apply sideInit_inv; [done|]. unfold biInit. cbn [bi_animSteps].
    rewrite !traceVisits_cons, !stepVisits_wave. set_solver.
  - apply sideInit_inv; [done|]. unfold biInit. cbn [bi_animSteps].
    rewrite !traceVisits_cons, !stepVisits_wave. set_solver.
  - simpl. set_solver.
Qed.

End bi_init.

Section bi_result.
Context (adj : adjacency) (a b : string).

(** What holds of the two halves [fp] and [bp] of a path through the
    meeting node [m]: together they repeat no node, every node of them
    other than [m] is in [seen], and [m] is reached from both ends.  When
    the empty id is not a key of the index the halves are the two tree
    paths of [m], the backward one without [m] and turned round. *)
Definition GoodHalves (seen : gset string) (m : string) (fp bp : list string)
    : Prop :=
  NoDup (fp ++ bp)
  ∧ last fp = Some m
  ∧ (m ∉ bp)
  ∧ (∀ u, u ∈ fp ++ bp → u = m ∨ u ∈ seen)
  ∧ rtc (stepOf adj) a m
  ∧ rtc (stepOf adj) b m
  ∧ (adj !! "" = None →
       ∃ dF dB, walkW adj fp dF ∧ head fp = Some a
         ∧ walkW adj (reverse bp ++ [m]) dB
         ∧ head (reverse bp ++ [m]) = Some b).

Lemma bi_halves st m fp bp :
  BiDone adj a b st → bi_meetingNode st = Some m → m ≠ "" →
  reconstructLoop (S (size (sd_previous (bi_forward st))))
                  (sd_previous (bi_forward st)) m [] = Ok fp →
  match prevOf (sd_previous (bi_backward st)) m with
  | Some c => backwardLoop (S (size (sd_previous (bi_backward st))))
                           (sd_previous (bi_backward st)) c []
  | None => Ok []
  end = Ok bp →
  GoodHalves (traceVisits (bi_animSteps st)) m fp bp.
Proof.
  intros (Hf & m' & Hm' & HTF & HTB & HmF & HmB & Huniq) Hm Hne Hfp Hbp.
  unfold GoodHalves.
  rewrite Hm in Hm'. injection Hm' as <-.
  pose proof (st_path _ _ _ _ HTF m HmF) as HpF.
  pose proof (st_path _ _ _ _ HTB m HmB) as HpB.
  destruct (tree_result adj a _ _ _ m fp (st_tree _ _ _ _ HTF) HpF Hne Hfp)
    as (HndF & HlF & HparF & HfullF).
  destruct (ti_path _ _ _ _ _ (st_tree _ _ _ _ HTF) m HpF)
    as (tpF & HtpF & _ & _ & HwF).
  destruct (ti_path _ _ _ _ _ (st_tree _ _ _ _ HTB) m HpB)
    as (tpB & HtpB & HndB & HDB & HwB).
  assert (HrF : rtc (stepOf adj) a m).
  { eapply walkW_rtc; [exact HwF|by eapply treePath_head|by eapply treePath_last]. }
  assert (HrB : rtc (stepOf adj) b m).
  { eapply walkW_rtc; [exact HwB|by eapply treePath_head|by eapply treePath_last]. }
  assert (HinF : ∀ u, u ∈ fp → u ∈ sd_visited (bi_forward st)).
  { intros u Hu. destruct (elem_of_removelast_or_last fp m u HlF Hu) as [Hu'| ->];
      [by apply HparF|done]. }
  assert (HtrF : ∀ u, u ∈ fp → u = m ∨ u ∈ traceVisits (bi_animSteps st)).
  { intros u Hu. destruct (elem_of_removelast_or_last fp m u HlF Hu) as [Hu'| ->];
      [right|by left].
    destruct (HparF u Hu') as [[x Hx] _]. by apply (st_trace _ _ _ _ HTF x u). }
  destruct (prevOf (sd_previous (bi_backward st)) m) as [c|] eqn:Hc.
  - destruct (treePath_inv_step b _ m c tpB Hc HtpB) as (q & -> & Hq).
    rewrite backwardLoop_reverse in Hbp. change (reverse []) with (@nil string) in Hbp.
    destruct (reconstructLoop _ _ c []) as [rp| |] eqn:Hrp; cbn [obind] in Hbp;
      try done.
    injection Hbp as <-.
    destruct (reconstructLoop_suffix b _ _ c q [] rp Hq Hrp)
      as (suf & [k Hk] & Hp & _).
    rewrite app_nil_r in Hp. subst suf.
    apply NoDup_app in HndB as (Hndq & Hmq & _).
    assert (Hmq' : m ∉ q). { intros Hin. apply (Hmq m Hin). by left. }
    assert (Hsub : ∀ u, u ∈ rp → u ∈ q). { intros u Hu. rewrite Hk. set_solver. }
    assert (HinB : ∀ u, u ∈ q → u ∈ sd_visited (bi_backward st)).
    { intros u Hu. apply HDB. by rewrite removelast_snoc. }
    assert (HparB : ∀ u, u ∈ q → ∃ x, prevOf (sd_previous (bi_backward st)) x = Some u).
    { intros u Hu. apply (treePath_parents b _ _ _ HtpB). by rewrite removelast_snoc. }
    split.
    { apply NoDup_app. split; [done|]. split.
      - intros u HuF HuB. rewrite elem_of_reverse in HuB. apply Hmq'.
        assert (u = m) as Hum.
        { apply Huniq; [by apply HinF|by apply HinB, Hsub]. }
        rewrite <- Hum. by apply Hsub.
      - rewrite reverse_Permutation. rewrite Hk in Hndq.
        by apply NoDup_app in Hndq as (_ & _ & ?). }
    split; [done|]. split.
    { intros Hin. rewrite elem_of_reverse in Hin. by apply Hmq', Hsub. }
    split.
    { intros u [Hu|Hu]%elem_of_app; [by apply HtrF|]. right.
      rewrite elem_of_reverse in Hu.
      destruct (HparB u (Hsub u Hu)) as [x Hx].
      by apply (st_trace _ _ _ _ HTB x u). }
    split; [done|]. split; [done|].
    intros Hempty. destruct (HfullF Hempty) as [HhF HwF'].
    exists (numOf (sd_distances (bi_forward st)) m),
           (numOf (sd_distances (bi_backward st)) m).
    split; [done|]. split; [done|].
    assert ("" ∉ q) as Hnq.
    { intros Hin. destruct (HparB "" Hin) as [x Hx].
      apply (ti_parent _ _ _ _ _ (st_tree _ _ _ _ HTB)) in Hx.
      rewrite Hempty in Hx. by destruct Hx. }
    rewrite (reconstructLoop_full b _ _ c q []) in Hrp;
      [|done|done|by eapply treePath_length].
    rewrite app_nil_r in Hrp. injection Hrp as <-.
    rewrite reverse_involutive. split; [done|].
    by apply (treePath_head b _ _ _ HtpB).
  - injection Hbp as <-. rewrite app_nil_r.
    assert (m = b ∧ tpB = [b]) as [-> ->].
    { inversion HtpB; subst; [done|congruence]. }
    split; [done|]. split; [done|]. split; [by intros ?%elem_of_nil|].
    split; [done|]. split; [done|]. split; [done|].
    intros Hempty. destruct (HfullF Hempty) as [HhF HwF'].
    exists (numOf (sd_distances (bi_forward st)) b), (Num 0).
    split; [done|]. split; [done|]. split; [apply walkW_one|done].
Qed.

(** The same when the end is not a node and the forward side has reached
    it: the backward half is empty. *)
Lemma bi_halves_end steps fw pb fp bp :
  SideTree adj a steps fw → b ∈ sd_visited fw → b ≠ "" →
  prevOf pb b = None →
  reconstructLoop (S (size (sd_previous fw))) (sd_previous fw) b [] = Ok fp →
  match prevOf pb b with
  | Some c => backwardLoop (S (size pb)) pb c []
  | None => Ok []
  end = Ok bp →
  GoodHalves (traceVisits steps) b fp bp.
Proof.
  intros HTF HbF Hne Hpb Hfp Hbp. rewrite Hpb in Hbp. injection Hbp as <-.
  pose proof (st_path _ _ _ _ HTF b HbF) as HpF.
  destruct (tree_result adj a _ _ _ b fp (st_tree _ _ _ _ HTF) HpF Hne Hfp)
    as (HndF & HlF & HparF & HfullF).
  destruct (ti_path _ _ _ _ _ (st_tree _ _ _ _ HTF) b HpF)
    as (tpF & HtpF & _ & _ & HwF).
  unfold GoodHalves. rewrite app_nil_r.
  split; [done|]. split; [done|]. split; [by intros ?%elem_of_nil|]. split.
  { intros u Hu. destruct (elem_of_removelast_or_last fp b u HlF Hu) as [Hu'| ->];
      [right|by left].
    destruct (HparF u Hu') as [[x Hx] _]. by apply (st_trace _ _ _ _ HTF x u). }
  split.
  { eapply walkW_rtc; [exact HwF|by eapply treePath_head|by eapply treePath_last]. }
  split; [done|].
  intros Hempty. destruct (HfullF Hempty) as [HhF HwF'].
  exists (numOf (sd_distances fw) b), (Num 0).
  split; [done|]. split; [done|]. split; [apply walkW_one|done].
Qed.

End bi_result.

Section bi_top.
Context (s : App).
Let cs := cities (graph s).
Let a := startCity (selection s).
Let b := endCity (selection s).
Let rev := reverseTraversal (selection s).

(** A start that is not a node: the first forward phase reads the
    neighbours of an id that has no entry. *)
Lemma bi_start_absent adj n st :
  adj !! a = None → a ≠ b →
  while (biBody adj rev) n (biInit cs a b) = Ok st → False.
Proof.
  intros Ha Hab. destruct n as [|n]; [done|]. cbn [while].
  unfold biBody at 1. cbn [biInit bi_foundPath bi_forward bi_backward sd_queue].
  unfold biForward. cbn [biInit bi_forward sd_queue].
  unfold biPhase. cbn [sd_queue biDequeue bi_backward sd_visited].
  rewrite decide_False by set_solver.
  cbn [biExpand]. unfold neighborsOf. rewrite Ha. done.
Qed.

(** An end that is not a node: either the first forward phase reaches it,
    or the first backward phase reads the neighbours of an id that has no
    entry. *)
Lemma bi_end_absent adj n st :
  a ∈ cs → adj !! b = None → a ≠ b →
  while (biBody adj rev) n (biInit cs a b) = Ok st →
  bi_foundPath st = true ∧ bi_meetingNode st = Some b
  ∧ SideTree adj a (bi_animSteps st) (bi_forward st)
  ∧ b ∈ sd_visited (bi_forward st)
  ∧ prevOf (sd_previous (bi_backward st)) b = None.
Proof.
  intros Ha Hb Hab. destruct n as [|n]; [done|]. cbn [while].
  unfold biBody at 1. cbn [biInit bi_foundPath bi_forward bi_backward sd_queue].
  destruct (biForward adj rev (biInit cs a b)) as [st1| |] eqn:H1;
    cbn [obind]; try done.
  unfold biForward in H1. cbn [biInit bi_forward sd_queue] in H1.
  destruct (biPhase _ _ _ _ _ _) as [[[fw step] met]| |] eqn:Hph;
    cbn [obind] in H1; try done.
  injection H1 as <-.
  apply (biPhase_spec adj a _ rev _ _ _ _ _ _
           [waveStep a None [a] [a] [] [] None false;
            waveStep b None [b] [b] [] [] None false]) in Hph
    as (Hsteps & Hsub & Hm & Hres).
  2:{ apply sideInit_inv; [done|].
      rewrite !traceVisits_cons, !stepVisits_wave. set_solver. }
  2:{ cbn [bi_backward sd_visited]. set_solver. }
  cbn [bi_foundPath bi_backward sd_visited] in *.
  destruct met as [m|].
  - rewrite bool_decide_eq_true_2 by done. intros [= <-].
    cbn [bi_foundPath bi_meetingNode bi_forward bi_backward bi_animSteps
         sd_previous].
    destruct Hm as (Hm1 & Hm2 & _). simpl in Hm2.
    apply elem_of_singleton in Hm2. subst m.
    split; [done|]. split; [done|]. split; [done|]. split; [done|].
    apply prevOf_nulls.
  - rewrite bool_decide_eq_false_2 by (by intros [? ?]).
    unfold biBackward. cbn [bi_backward sd_queue].
    unfold biPhase. cbn [sd_queue biDequeue bi_forward sd_visited].
    rewrite decide_False by (simpl in Hm; set_solver).
    cbn [biExpand]. unfold neighborsOf. rewrite Hb. done.
Qed.

(** How the loop ends: both queues drained without a meeting, or a meeting
    node whose two halves are as described. *)
Definition BiExit (adj : adjacency) (st : BiState) : Prop :=
  (bi_foundPath st = false ∧ BiInv adj a b st
   ∧ sd_queue (bi_forward st) = [] ∧ sd_queue (bi_backward st) = [])
  ∨ (bi_foundPath st = true
     ∧ ∃ m, bi_meetingNode st = Some m
         ∧ (m ≠ "" → ∀ fp bp,
              reconstructLoop (S (size (sd_previous (bi_forward st))))
                (sd_previous (bi_forward st)) m [] = Ok fp →
              match prevOf (sd_previous (bi_backward st)) m with
              | Some c => backwardLoop (S (size (sd_previous (bi_backward st))))
                            (sd_previous (bi_backward st)) c []
              | None => Ok []
              end = Ok bp →
              GoodHalves adj a b (traceVisits (bi_animSteps st)) m fp bp)).

Lemma performBi_loop adj n st :
  indexOf s = Ok adj → a ≠ b → b ≠ "" →
  while (biBody adj rev) n (biInit cs a b) = Ok st → BiExit adj st.
Proof.
  intros Hadj Hab Hbne Hloop.
  pose proof Hadj as [Hdom _]%buildAdjacencyList_spec.
  destruct (decide (a ∈ cs)) as [Ha|Ha].
  2:{ exfalso. eapply bi_start_absent; [|done|exact Hloop].
      apply eq_None_not_Some. by rewrite Hdom. }
  destruct (decide (b ∈ cs)) as [Hb|Hb].
  - eapply (while_inv _ (BiInv adj a b) (BiExit adj)) in Hloop;
      [done| | |by apply biInit_inv].
    + intros st0 st1 Hinv Hbody. apply (biBody_cases adj rev a b st0 _ Hinv Hbody).
    + intros st0 st1 Hinv Hbody.
      destruct (biBody_cases adj rev a b st0 _ Hinv Hbody) as [Hdone|Hq].
      * right. split; [apply Hdone|].
        destruct (Hdone) as (_ & m & Hm & _). exists m. split; [done|].
        intros Hne fp bp Hfp Hbp. by eapply bi_halves.
      * left. destruct Hq as (Hinv1 & ? & ?). split; [apply Hinv1|done].
  - apply bi_end_absent in Hloop as (Hf & Hm & HT & HbF & Hpb); try done.
    2:{ apply eq_None_not_Some. by rewrite Hdom. }
    right. split; [done|]. exists b. split; [done|].
    intros _ fp bp Hfp Hbp. by eapply bi_halves_end.
Qed.

Lemma performBi_exit adj n st :
  a ∈ cs → b ∈ cs → a ≠ b →
  while (biBody adj rev) n (biInit cs a b) = Ok st →
  BiDone adj a b st
  ∨ (BiInv adj a b st ∧ sd_queue (bi_forward st) = []
     ∧ sd_queue (bi_backward st) = []).
Proof.
  intros Ha Hb Hab Hloop.
  eapply (while_inv _ (BiInv adj a b)
            (fun st => BiDone adj a b st
                       ∨ (BiInv adj a b st ∧ sd_queue (bi_forward st) = []
                          ∧ sd_queue (bi_backward st) = [])))
    in Hloop; [done| | |by apply biInit_inv].
  - intros st0 st1 Hinv Hbody. apply (biBody_cases adj rev a b st0 _ Hinv Hbody).
  - intros st0 st1 Hinv Hbody.
    apply (biBody_cases adj rev a b st0 _ Hinv Hbody).
Qed.

Lemma performBidirectionalWave_sound s' r :
  performBidirectionalWave s = Ok s' → dfsPath (search s') = Some r →
  ∃ adj m fp bp, indexOf s = Ok adj ∧ path r = fp ++ bp
    ∧ (∃ steps, animationSteps (search s')
                = steps ++ [waveStep m None [] [m] [] [] None false;
                            waveStep "" None (path r) [] [] [] None false])
    ∧ totalDistance r = sumPathDistance (links (graph s)) (path r)
    ∧ (∀ u, u ∈ path r → u ∈ traceVisits (animationSteps (search s')))
    ∧ GoodHalves adj a b (traceVisits (animationSteps (search s'))) m fp bp.
Proof.
  unfold performBidirectionalWave. fold cs a b rev.
  destruct (invalidSelection s) eqn:Hsel; [by intros [= <-]|].
  apply invalidSelection_false in Hsel as (Ha & Hb & Hab).
  destruct (buildAdjacencyList _ _ _) as [adj| |] eqn:Hadj; cbn [obind];
    try done.
  destruct (while _ _ _) as [st| |] eqn:Hloop; cbn [obind]; try done.
  apply (performBi_loop adj _ st Hadj Hab Hb) in Hloop.
  destruct (bi_meetingNode st) as [m|] eqn:Hm; [|by intros [= <-]].
  destruct (bi_foundPath st) eqn:Hf; [|by intros [= <-]].
  destruct (truthy m) eqn:Htm; [|by intros [= <-]]. cbn [andb].
  destruct (reconstructLoop _ _ m []) as [fp| |] eqn:Hfp; cbn [obind]; try done.
  destruct (match prevOf _ m with Some _ => _ | None => _ end) as [bp| |] eqn:Hbp;
    cbn [obind]; try done.
  intros [= <-]. simpl. intros [= <-]. simpl.
  exists adj, m, fp, bp. split; [done|]. split; [done|].
  split; [by eexists|]. split; [done|].
  destruct Hloop as [[? _]|[_ (m' & Hm' & Hgood)]]; [congruence|].
  assert (m' = m) as -> by congruence.
  assert (m ≠ "") as Hne.
  { intros ->. done. }
  destruct (Hgood Hne fp bp Hfp Hbp) as (H1 & H2 & H3 & H4 & H5 & H6 & H7).
  assert (Htr : ∀ u, u ∈ fp ++ bp →
            u ∈ traceVisits
                  (bi_animSteps st ++
                   [waveStep m None [] [m] [] [] None false;
                    waveStep "" None (fp ++ bp) [] [] [] None false])).
  { intros u Hu. rewrite traceVisits_app, !traceVisits_cons, !stepVisits_wave.
    destruct (H4 u Hu) as [->|?]; set_solver. }
  split; [done|]. unfold GoodHalves.
  split; [done|]. split; [done|]. split; [done|]. split; [|done].
  intros u Hu. right. by apply Htr.
Qed.

Lemma performBidirectionalWave_total adj :
  indexOf s = Ok adj → adjClosed adj →
  is_Some (adj !! a) → is_Some (adj !! b) →
  ∃ s', performBidirectionalWave s = Ok s'.
Proof.
  unfold performBidirectionalWave, indexOf. fold cs a b rev.
  intros Hadj Hcl Hstart Hend.
  destruct (invalidSelection s) eqn:Hsel; [eauto|].
  apply invalidSelection_false in Hsel as (Ha & Hb & Hab).
  rewrite Hadj. cbn [obind].
  pose proof Hadj as [Hdom _]%buildAdjacencyList_spec.
  assert (a ∈ cs) as Hina by (by apply Hdom).
  assert (b ∈ cs) as Hinb by (by apply Hdom).
  destruct (while_total (biBody adj rev) (BiInv adj a b) (biMeasure adj))
    with (fuel := S (length cs + length cs)) (s := biInit cs a b) as [st Hst].
  - intros st. by apply biBody_total.
  - intros st st' Hinv Hb'. split.
    + apply (biBody_cases adj rev a b st _ Hinv Hb').
    + by eapply biBody_decreases.
  - by apply biInit_inv.
  - unfold biMeasure, expMeasure. simpl.
    pose proof (size_dom_le adj cs ∅ Hdom) as Hle.
    pose proof Hle as Hle'.
    rewrite (size_unvisited_step adj ∅ a) in Hle; [|done|set_solver].
    rewrite (size_unvisited_step adj ∅ b) in Hle'; [|done|set_solver].
    rewrite (right_id_L ∅ (∪)) in Hle, Hle'. lia.
  - rewrite Hst. cbn [obind].
    destruct (performBi_exit adj _ st Hina Hinb Hab Hst)
      as [(Hf & m & Hm & HTF & HTB & HmF & HmB & _)|[(Hf & _) _]].
    2:{ rewrite Hf. destruct (bi_meetingNode st); eauto. }
    rewrite Hm, Hf. destruct (truthy m); cbn [andb]; [|eauto].
    pose proof (st_path _ _ _ _ HTF m HmF) as HpF.
    pose proof (st_path _ _ _ _ HTB m HmB) as HpB.
    destruct (ti_path _ _ _ _ _ (st_tree _ _ _ _ HTF) m HpF)
      as (tpF & HtpF & HndF & _ & _).
    destruct (ti_path _ _ _ _ _ (st_tree _ _ _ _ HTB) m HpB)
      as (tpB & HtpB & HndB & _ & _).
    destruct (reconstructLoop_total a (sd_previous (bi_forward st))
                (S (size (sd_previous (bi_forward st)))) m tpF [] HtpF)
      as [fp ->]; [by eapply treePath_length|]. cbn [obind].
    destruct (prevOf (sd_previous (bi_backward st)) m) as [c|] eqn:Hc;
      cbn [obind]; [|eauto].
    destruct (treePath_inv_step b _ m c tpB Hc HtpB) as (q & -> & Hq).
    apply NoDup_app in HndB as (Hndq & _ & _).
    rewrite backwardLoop_reverse. change (reverse []) with (@nil string).
    destruct (reconstructLoop_total b (sd_previous (bi_backward st))
                (S (size (sd_previous (bi_backward st)))) c q [] Hq)
      as [rp ->]; [by eapply treePath_length|]. cbn [obind]. eauto.
Qed.

Lemma performBidirectionalWave_complete adj m :
  indexOf s = Ok adj → adjClosed adj → invalidSelection s = false →
  adj !! "" = None → is_Some (adj !! a) → is_Some (adj !! b) →
  rtc (stepOf adj) a m → rtc (stepOf adj) b m →
  ∃ s' r, performBidirectionalWave s = Ok s' ∧ dfsPath (search s') = Some r.
Proof.
  intros Hadj Hcl Hsel Hempty Hstart Hend HrF HrB.
  pose proof Hsel as (Ha & Hb & Hab)%invalidSelection_false.
  destruct (performBidirectionalWave_total adj Hadj Hcl Hstart Hend) as [s' Hs'].
  exists s'. revert Hs'. unfold performBidirectionalWave. unfold indexOf in Hadj.
  fold cs a b rev. fold cs rev in Hadj.
  rewrite Hsel, Hadj. cbn [obind].
  pose proof Hadj as [Hdom _]%buildAdjacencyList_spec.
  assert (a ∈ cs) as Hina by (by apply Hdom).
  assert (b ∈ cs) as Hinb by (by apply Hdom).
  destruct (while _ _ _) as [st| |] eqn:Hloop; cbn [obind]; try done.
  destruct (performBi_exit adj _ st Hina Hinb Hab Hloop)
    as [(Hf & m' & Hm & HTF & HTB & HmF & HmB & _)|[(Hf & HF & HB & Hdis) [HqF HqB]]].
  - rewrite Hm, Hf.
    assert (truthy m' = true) as ->.
    { unfold truthy. rewrite bool_decide_eq_false_2; [done|]. intros ->.
      destruct (st_path _ _ _ _ HTF "" HmF) as [Heq|[u Hu]].
      - by rewrite <- Heq, Hempty in Hstart; destruct Hstart.
      - destruct (ti_path _ _ _ _ _ (st_tree _ _ _ _ HTF) "")
          as (tp & Htp & _ & _ & Hw); [right; by rewrite Hu|].
        destruct (treePath_inv_step a _ "" u tp Hu Htp) as (q & -> & Hq).
        inversion Hw as [c Hc|p' u' v' d' w' Hw' He Hp'].
        + apply treePath_last in Hq. by destruct q as [|x [|y q]].
        + replace (p' ++ [u'; v']) with ((p' ++ [u']) ++ [v']) in Hp'
            by (by rewrite <- app_assoc).
          apply app_inj_tail in Hp' as [_ ->].
          apply Hcl in He. rewrite Hempty in He. by destruct He. }
    cbn [andb].
    destruct (reconstructLoop _ _ m' []) as [fp| |]; cbn [obind]; try done.
    destruct (match prevOf _ m' with Some _ => _ | None => _ end) as [bp| |];
      cbn [obind]; try done.
    intros [= <-]. eauto.
  - exfalso.
    assert (Hclosure : ∀ root sd,
              ExpInv adj root noBad [] [] (bi_animSteps st) (sideEx sd) →
              sd_queue sd = [] →
              ∀ u v, rtc (stepOf adj) u v → u ∈ sd_visited sd → v ∈ sd_visited sd).
    { intros root sd Hinv Hq. induction 1 as [|u v w Huv _ IH]; [done|].
      intros Hu. apply IH.
      destruct (ei_closed _ _ _ _ _ _ _ Hinv u) as [Hnb _]; try done.
      - simpl. rewrite Hq. by intros ?%elem_of_nil.
      - by intros ?%elem_of_nil.
      - by apply Hnb. }
    apply (Hdis m).
    + eapply (Hclosure a); [exact HF|done|exact HrF|].
      apply (ei_start _ _ _ _ _ _ _ HF).
    + eapply (Hclosure b); [exact HB|done|exact HrB|].
      apply (ei_start _ _ _ _ _ _ _ HB).
Qed.

End bi_top.

(** * The distance recomputed by the bidirectional wave *)

Section distance_sum.
Context (ls : list GraphLink).









End distance_sum.

(** * The index and the live links *)

Section index_links.

(** Two nodes are joined by a live link, whatever its direction. *)
Definition connects (l : GraphLink) (u v : string) : Prop :=
  (source l = u ∧ target l = v) ∨ (source l = v ∧ target l = u).

Definition linked (ls : list GraphLink) (u v : string) : Prop :=
  Exists (fun l => connects l u v) ls.

Lemma linked_sym ls u v : linked ls u v → linked ls v u.
Proof.
  unfold linked, connects. intros H. eapply Exists_impl; [exact H|].
  simpl. tauto.
Qed.


Lemma findLink_some ls u v l :
  findLink ls u v = Some l → l ∈ ls ∧ connects l u v.
Proof.
  unfold findLink. intros [Hin Hf]%find_some.
  apply list_elem_of_In in Hin. split; [done|].
  apply orb_true_iff in Hf. unfold connects.
  rewrite !andb_true_iff, !bool_decide_eq_true in Hf. done.
Qed.


Lemma stepOf_traversable cs ls rev adj u v :
  buildAdjacencyList cs ls rev = Ok adj →
  stepOf adj u v ↔ traversable rev ls u v.
Proof.
  intros [_ He]%buildAdjacencyList_spec. unfold stepOf, traversable. split.
  - intros [w Hw%He]. unfold traversableW in Hw.
    eapply Exists_impl; [exact Hw|]. simpl. tauto.
  - intros (l & Hl & Hc)%Exists_exists. exists (distance l). apply He.
    apply Exists_exists. eauto.
Qed.

Lemma chain_snoc_inv (R : string → string → Prop) p u v :
  chain R (p ++ [u; v]) → chain R (p ++ [u]) ∧ R u v.
Proof. induction p as [|c [|e p] IH]; simpl in *; tauto. Qed.


(** A non-empty list whose consecutive nodes are entries of the index is a
    walk. *)
Lemma chain_walkW adj p :
  p ≠ [] → chain (stepOf adj) p → ∃ d, walkW adj p d.
Proof.
  induction p as [|x p IH] using rev_ind; [done|]. intros _ Hc.
  destruct (decide (p = [])) as [->|Hne]; [eexists; apply walkW_one|].
  destruct (exists_last Hne) as (q & u & ->).
  rewrite <- app_assoc in Hc. simpl in Hc.
  apply chain_snoc_inv in Hc as [Hc [w He]].
  destruct (IH Hne Hc) as [d Hd]. exists (num_add d w).
  rewrite <- app_assoc. simpl. by eapply walkW_snoc.
Qed.

(** Walks of the index are the paths along links that can be followed. *)
Lemma walkW_validPath cs ls rev adj p d a b :
  buildAdjacencyList cs ls rev = Ok adj →
  walkW adj p d → head p = Some a → last p = Some b →
  validPath rev ls a b p.
Proof.
  intros Hadj Hw Hh Hl. split; [done|]. split; [done|].
  eapply chain_mono; [|by eapply walkW_chain].
  intros u v. by apply (stepOf_traversable cs ls rev adj).
Qed.

Lemma validPath_walkW cs ls rev adj p a b :
  buildAdjacencyList cs ls rev = Ok adj →
  validPath rev ls a b p → ∃ d, walkW adj p d.
Proof.
  intros Hadj (Hh & Hl & Hc). apply chain_walkW; [by intros ->|].
  eapply chain_mono; [|exact Hc].
  intros u v. by apply (stepOf_traversable cs ls rev adj).
Qed.

(** When the endpoints of the links are nodes, so are the neighbours. *)
Lemma linksClosed_adjClosed g rev adj :
  linksClosed g → buildAdjacencyList (cities g) (links g) rev = Ok adj →
  adjClosed adj.
Proof.
  intros Hcl Hadj u v w He.
  pose proof Hadj as [Hdom Hedge]%buildAdjacencyList_spec.
  apply Hedge in He. apply Exists_exists in He as (l & Hl & Hc & _).
  destruct (Hcl l Hl) as [Hs Ht]. apply Hdom.
  unfold canTraverse in Hc. destruct (directed l), rev; naive_solver.
Qed.

(** ** Graphs all of whose links are undirected *)

Definition undirected (ls : list GraphLink) : Prop :=
  Forall (fun l => directed l = false) ls.

#[global] Instance undirected_dec ls : Decision (undirected ls).
Proof. unfold undirected. apply _. Defined.





End index_links.

(** * The five strategies together *)

Section strategies.
Implicit Types (s : App) (r : PathResult).

Lemma findPath_request g alg a b rev :
  computePath g a b alg rev
  = match alg with
    | DFS => performDFS (request g alg a b rev)
    | BFS => performBFS (request g alg a b rev)
    | Dijkstra => performDijkstra (request g alg a b rev)
    | Wave => performWave (request g alg a b rev)
    | BidirectionalWave => performBidirectionalWave (request g alg a b rev)
    end.
Proof. done. Qed.

(** No strategy returns a path that repeats a node. *)
Lemma findPath_nodup s s' r :
  findPath s = Ok s' → dfsPath (search s') = Some r → NoDup (path r).
Proof.
  unfold findPath. destruct (algorithm (selection s)); intros Hrun Hr.
  - destruct (performDFS_sound s s' r Hrun Hr) as (adj & _ & Hs & _).
    apply Hs.
  - destruct (performBFS_sound s s' r Hrun Hr) as (adj & _ & Hs & _).
    apply Hs.
  - destruct (performDijkstra_sound s s' r Hrun Hr) as (adj & _ & Hnd & _).
    done.
  - destruct (performWave_sound s s' r Hrun Hr) as (adj & _ & Hnd & _).
    done.
  - destruct (performBidirectionalWave_sound s s' r Hrun Hr)
      as (adj & m & fp & bp & _ & -> & _ & _ & _ & Hnd & _).
    done.
Qed.


(** A search that ends without a result leaves an empty trace. *)
Lemma findPath_no_result s s' :
  findPath s = Ok s' → dfsPath (search s') = None →
  animationSteps (search s') = [].
Proof.
  assert (Hend : ∀ (o : outcome App),
            (o = Ok (noResult s) ∨ ∃ r steps, o = Ok (foundResult s r steps)) →
            o = Ok s' → dfsPath (search s') = None →
            animationSteps (search s') = []).
  { intros o [->|(r & steps & ->)] [= <-]; done. }
  unfold findPath. destruct (algorithm (selection s)).
  - unfold performDFS. destruct (invalidSelection s); [apply Hend; auto|].
    destruct (buildAdjacencyList _ _ _); cbn [obind]; try done.
    destruct (dfs _ _ _ _ _ _ _) as [[? st]| |]; cbn [obind]; try done.
    destruct (dfs_pathStack st); apply Hend; eauto.
  - unfold performBFS. destruct (invalidSelection s); [apply Hend; auto|].
    destruct (buildAdjacencyList _ _ _); cbn [obind]; try done.
    destruct (while _ _ _) as [[[p steps]|]| |]; cbn [obind]; try done;
      apply Hend; eauto.
  - unfold performDijkstra. destruct (invalidSelection s); [apply Hend; auto|].
    destruct (buildAdjacencyList _ _ _); cbn [obind]; try done.
    destruct (while _ _ _) as [st| |]; cbn [obind]; try done.
    destruct (_ || _); [|apply Hend; auto].
    destruct (reconstructCurrentPath _ _); cbn [obind]; try done.
    apply Hend; eauto.
  - unfold performWave. destruct (invalidSelection s); [apply Hend; auto|].
    destruct (buildAdjacencyList _ _ _); cbn [obind]; try done.
    destruct (while _ _ _) as [st| |]; cbn [obind]; try done.
    destruct (w_foundPath st); [|apply Hend; auto].
    destruct (reconstructCurrentPath _ _); cbn [obind]; try done.
    apply Hend; eauto.
  - unfold performBidirectionalWave.
    destruct (invalidSelection s); [apply Hend; auto|].
    destruct (buildAdjacencyList _ _ _); cbn [obind]; try done.
    destruct (while _ _ _) as [st| |]; cbn [obind]; try done.
    destruct (bi_meetingNode st) as [m|]; [|apply Hend; auto].
    destruct (_ && _); [|apply Hend; auto].
    destruct (reconstructLoop _ _ _ _); cbn [obind]; try done.
    destruct (match prevOf _ m with Some _ => _ | None => _ end);
      cbn [obind]; try done.
    apply Hend; eauto.
Qed.

(** An empty or degenerate selection gives "no result" at once. *)
Lemma findPath_invalid s :
  invalidSelection s = true → findPath s = Ok (noResult s).
Proof.
  intros H. unfold findPath, performDFS, performBFS, performDijkstra,
    performWave, performBidirectionalWave.
  rewrite H. by destruct (algorithm (selection s)).
Qed.

(** On a state whose link endpoints and selection are nodes every strategy
    returns. *)
Lemma findPath_total s :
  linksClosed (graph s) →
  startCity (selection s) ∈ cities (graph s) →
  endCity (selection s) ∈ cities (graph s) →
  ∃ s', findPath s = Ok s'.
Proof.
  intros Hcl Ha Hb.
  destruct (buildAdjacencyList_total (graph s) (reverseTraversal (selection s)) Hcl)
    as [adj Hadj].
  pose proof (linksClosed_adjClosed _ _ _ Hcl Hadj) as Hac.
  pose proof Hadj as [Hdom _]%buildAdjacencyList_spec.
  apply Hdom in Ha, Hb.
  unfold findPath. destruct (algorithm (selection s)).
  - by apply (performDFS_total s adj).
  - by apply (performBFS_total s adj).
  - by apply (performDijkstra_total s adj).
  - by apply (performWave_total s adj).
  - by apply (performBidirectionalWave_total s adj).
Qed.

Lemma indexOf_request g alg a b rev :
  indexOf (request g alg a b rev)
  = buildAdjacencyList (cities g) (links g) rev.
Proof. done. Qed.

Lemma found_valid_selection s s' r :
  findPath s = Ok s' → dfsPath (search s') = Some r →
  invalidSelection s = false.
Proof.
  intros Hrun Hr. destruct (invalidSelection s) eqn:Hsel; [|done].
  rewrite (findPath_invalid s Hsel) in Hrun. injection Hrun as <-. done.
Qed.

(** A sound result is a path along links that can be followed in the
    traversal mode in force. *)
Lemma soundResult_validPath s adj r :
  indexOf s = Ok adj → SoundResult s adj r →
  validPath (reverseTraversal (selection s)) (links (graph s))
            (startCity (selection s)) (endCity (selection s)) (path r).
Proof.
  intros Hadj (Hh & Hl & _ & Hw). by eapply walkW_validPath.
Qed.



(** ** Results and reachability *)

Lemma rtc_dom adj x y :
  adjClosed adj → rtc (stepOf adj) x y → x ≠ y →
  is_Some (adj !! x) ∧ is_Some (adj !! y).
Proof.
  intros Hcl Hr Hne. split.
  - apply rtc_inv in Hr as [->|(z & [w (l & Hl & _)] & _)]; [done|].
    by rewrite Hl.
  - apply rtc_inv_r in Hr as [->|(z & _ & [w He])]; [done|].
    by eapply Hcl.
Qed.

Lemma performWave_reach s s' r :
  performWave s = Ok s' → dfsPath (search s') = Some r →
  ∃ adj, indexOf s = Ok adj
    ∧ rtc (stepOf adj) (startCity (selection s)) (endCity (selection s)).
Proof.
  unfold performWave.
  destruct (invalidSelection s) eqn:Hsel; [by intros [= <-]|].
  apply invalidSelection_false in Hsel as (Ha & Hb & Hab).
  destruct (buildAdjacencyList _ _ _) as [adj| |] eqn:Hadj; cbn [obind];
    try done.
  destruct (while _ _ _) as [st| |] eqn:Hloop; cbn [obind]; try done.
  apply (performWave_inv s adj st Hadj Hab) in Hloop as [[Hinv Hend] _].
  destruct (w_foundPath st) eqn:Hf; [|by intros [= <-]].
  intros _ _. exists adj. split; [done|].
  specialize (Hend eq_refl).
  pose proof (ei_path _ _ _ _ _ _ _ Hinv _ Hend) as Hp.
  destruct (ti_path _ _ _ _ _ (ei_tree _ _ _ _ _ _ _ Hinv) _ Hp)
    as (tp & Htp & _ & _ & Hw).
  eapply walkW_rtc; [exact Hw|by eapply treePath_head|by eapply treePath_last].
Qed.

(** A result shows that some node is reached from both ends; for the
    one-sided searches it is the end itself. *)
Lemma findPath_reach s s' r :
  findPath s = Ok s' → dfsPath (search s') = Some r →
  algorithm (selection s) ≠ Dijkstra →
  ∃ adj m, indexOf s = Ok adj
    ∧ rtc (stepOf adj) (startCity (selection s)) m
    ∧ rtc (stepOf adj) (endCity (selection s)) m
    ∧ (algorithm (selection s) ≠ BidirectionalWave →
       m = endCity (selection s)).
Proof.
  unfold findPath. destruct (algorithm (selection s)) eqn:Halg;
    intros Hrun Hr Hnd; try done.
  - destruct (performDFS_sound s s' r Hrun Hr)
      as (adj & Hadj & (Hh & Hl & _ & Hw) & _).
    exists adj, (endCity (selection s)). split; [done|].
    split; [by eapply walkW_rtc|]. done.
  - destruct (performBFS_sound s s' r Hrun Hr)
      as (adj & Hadj & (Hh & Hl & _ & Hw) & _).
    exists adj, (endCity (selection s)). split; [done|].
    split; [by eapply walkW_rtc|]. done.
  - destruct (performWave_reach s s' r Hrun Hr) as (adj & Hadj & Hreach).
    exists adj, (endCity (selection s)). done.
  - destruct (performBidirectionalWave_sound s s' r Hrun Hr)
      as (adj & m & fp & bp & Hadj & _ & _ & _ & _ & Hgood).
    destruct Hgood as (_ & _ & _ & _ & HrF & HrB & _).
    exists adj, m. done.
Qed.

(** Conversely, on an index whose neighbours are nodes and without the
    empty id, a node reached from both ends gives a result. *)
Lemma findPath_complete s adj m :
  indexOf s = Ok adj → adjClosed adj → invalidSelection s = false →
  algorithm (selection s) ≠ Dijkstra →
  (algorithm (selection s) = BidirectionalWave → adj !! "" = None) →
  rtc (stepOf adj) (startCity (selection s)) m →
  rtc (stepOf adj) (endCity (selection s)) m →
  (algorithm (selection s) ≠ BidirectionalWave → m = endCity (selection s)) →
  ∃ s' r, findPath s = Ok s' ∧ dfsPath (search s') = Some r.
Proof.
  intros Hadj Hcl Hsel Hnd Hempty HrF HrB Hm.
  unfold findPath. destruct (algorithm (selection s)) eqn:Halg; try done.
  - rewrite Hm in HrF by done. by apply (performDFS_complete s adj).
  - rewrite Hm in HrF by done. by apply (performBFS_complete s adj).
  - rewrite Hm in HrF by done. by apply (performWave_complete s adj).
  - pose proof Hsel as (Ha & Hb & Hab)%invalidSelection_false.
    assert (is_Some (adj !! startCity (selection s))
            ∧ is_Some (adj !! endCity (selection s))) as [Hsa Hsb].
    { destruct (decide (startCity (selection s) = m)) as [Heq|Hne].
      - subst m. destruct (rtc_dom adj _ _ Hcl HrB) as [? ?]; [done|]. done.
      - destruct (rtc_dom adj _ _ Hcl HrF Hne) as [? Hm'].
        split; [done|].
        destruct (decide (endCity (selection s) = m)) as [Heq|Hne'].
        + by subst m.
        + by destruct (rtc_dom adj _ _ Hcl HrB Hne'). }
    apply (performBidirectionalWave_complete s adj m); auto.
Qed.


(** ** Distances *)




End strategies.

(** * BFS: marking and detection *)

(** The states the BFS loop goes through. *)
Inductive bfsReach (adj : adjacency) (rev : bool) (startCity endCity : string)
    : BfsState -> Prop :=
  | bfsReach_init : bfsReach adj rev startCity endCity (bfsInit startCity)
  | bfsReach_step st st' :
      bfsReach adj rev startCity endCity st ->
      bfsBody adj rev endCity st = Ok (inl st') ->
      bfsReach adj rev startCity endCity st'.

Section bfs_marking.
Context (adj : adjacency) (rev : bool) (startCity endCity : string).

Lemma bfsReach_inv st :
  bfsReach adj rev startCity endCity st → BfsInv adj startCity endCity st.
Proof.
  induction 1 as [|st st' _ IH Hstep]; [apply bfsInit_inv|].
  by eapply bfsBody_step.
Qed.

(** Every queued node is already marked, and no node is queued twice. *)
Lemma bfsReach_marked st :
  bfsReach adj rev startCity endCity st →
  NoDup (queueNodes st) ∧ ∀ u, u ∈ queueNodes st → u ∈ bfs_visited st.
Proof.
  intros (lv & L & Hmid)%bfsReach_inv. split; [apply (bm_nodup _ _ _ _ _ _ _ Hmid)|].
  intros u (e & -> & He)%list_elem_of_fmap.
  destruct (bm_entries _ _ _ _ _ _ _ Hmid e He) as (_ & _ & _ & Hvis & _).
  apply Hvis. set_solver.
Qed.

(** The entries an expansion appends: their nodes were unmarked before it
    and are marked by it. *)
Lemma bfsNeighbors_enqueue node cp d ns :
  ∀ st, ∃ added,
    bfs_queue (bfsNeighbors node cp d ns st) = bfs_queue st ++ added
    ∧ bfs_visited (bfsNeighbors node cp d ns st)
      = list_to_set (e_node <$> added) ∪ bfs_visited st
    ∧ (∀ x, x ∈ e_node <$> added → x ∉ bfs_visited st)
    ∧ NoDup (e_node <$> added).
Proof.
  induction ns as [|[city dd] ns IH]; intros st; simpl.
  - exists []. rewrite app_nil_r. simpl. split; [done|].
    split; [set_solver|]. split; [by intros ? ?%elem_of_nil|apply NoDup_nil_2].
  - destruct (decide (city ∈ bfs_visited st)) as [Hin|Hnin]; [apply IH|].
    destruct (IH (mkBfs (bfs_queue st ++ [mkEntry city cp (num_add d dd)])
                        ({[city]} ∪ bfs_visited st)
                        (bfs_animSteps st ++
                           [plainStep node (Some (node, city)) cp false;
                            plainStep city None cp false])))
      as (added & Hq & Hv & Hfresh & Hnd).
    simpl in Hq, Hv, Hfresh.
    exists (mkEntry city cp (num_add d dd) :: added).
    rewrite Hq, Hv, <- app_assoc. simpl. split; [done|].
    split; [set_solver|]. split.
    + intros x [->|Hx]%elem_of_cons; [done|]. apply Hfresh in Hx. set_solver.
    + apply NoDup_cons. split; [|done]. intros Hx%Hfresh. set_solver.
Qed.

(** One iteration that goes on takes the head out of the queue and appends
    entries for nodes that were unmarked, marking them. *)
Lemma bfsBody_enqueue st st' :
  bfsBody adj rev endCity st = Ok (inl st') →
  ∃ e queue added,
    bfs_queue st = e :: queue
    ∧ e_node e ≠ endCity
    ∧ bfs_queue st' = queue ++ added
    ∧ bfs_visited st' = list_to_set (e_node <$> added) ∪ bfs_visited st
    ∧ (∀ x, x ∈ e_node <$> added → x ∉ bfs_visited st)
    ∧ NoDup (e_node <$> added).
Proof.
  unfold bfsBody. destruct (bfs_queue st) as [|e queue] eqn:Hq; [done|].
  destruct (decide (e_node e = endCity)) as [|Hne]; [done|].
  destruct (neighborsOf adj rev (e_node e)) as [ns| |]; cbn [obind]; try done.
  intros [= <-].
  destruct (bfsNeighbors_enqueue (e_node e) (e_path e ++ [e_node e])
              (e_distance e) ns (mkBfs queue (bfs_visited st) (bfs_animSteps st)))
    as (added & H1 & H2 & H3 & H4).
  exists e, queue, added. done.
Qed.

(** The loop stops with a result exactly when the entry at the head of the
    queue is the end. *)
Lemma bfsBody_found st p steps :
  bfsBody adj rev endCity st = Ok (inr (Some (p, steps)))
  ↔ ∃ e queue, bfs_queue st = e :: queue ∧ e_node e = endCity
      ∧ p = mkPath (e_path e ++ [e_node e]) (e_distance e)
      ∧ steps = bfs_animSteps st.
Proof.
  unfold bfsBody. destruct (bfs_queue st) as [|e queue] eqn:Hq.
  - split; [done|]. by intros (? & ? & ? & _).
  - destruct (decide (e_node e = endCity)) as [Heq|Hne].
    + split.
      * intros [= <- <-]. by exists e, queue.
      * intros (e' & q' & [= <- <-] & _ & -> & ->). done.
    + split.
      * destruct (neighborsOf adj rev (e_node e)); cbn [obind]; done.
      * intros (e' & q' & [= <- <-] & ? & _). done.
Qed.

End bfs_marking.

(** * Properties of the returned paths *)

(** The states in which the searches of the scenario graph from [A] to [C]
    end. *)
Definition scenarioSearch (alg : Algorithm) : App :=
  match computePath scenarioGraph "A" "C" alg false with
  | Ok s' => s'
  | _ => request scenarioGraph alg "A" "C" false
  end.

(** C10.  Every path returned by any of the five strategies is simple: no
    node id occurs twice in it.  For the bidirectional wave, whose trace
    ends with the marker of the meeting node and the reveal of the full
    path, the path is a forward half that ends in the meeting node followed
    by a backward half in which the meeting node does not occur. *)
Theorem returned_path_simple g a b alg rev s' r :
  computePath g a b alg rev = Ok s' → dfsPath (search s') = Some r →
  NoDup (path r)
  ∧ (alg = BidirectionalWave →
     ∃ m fp bp steps,
       animationSteps (search s')
       = steps ++ [waveStep m None [] [m] [] [] None false;
                   waveStep "" None (path r) [] [] [] None false]
       ∧ path r = fp ++ bp ∧ last fp = Some m ∧ m ∉ bp).
Proof.
  intros Hrun Hr. split; [by eapply findPath_nodup|].
  intros ->. rewrite findPath_request in Hrun.
  destruct (performBidirectionalWave_sound _ s' r Hrun Hr)
    as (adj & m & fp & bp & _ & Hp & [steps Hsteps] & _ & _ & Hgood).
  exists m, fp, bp, steps. split; [done|]. split; [done|].
  destruct Hgood as (_ & Hl & Hm & _). done.
Qed.

Lemma returned_path_simple_witness : NoDup ["A"; "B"; "C"].
Proof.
  refine (proj1 (returned_path_simple scenarioGraph "A" "C" DFS false
                   (scenarioSearch DFS) (mkPath ["A"; "B"; "C"] (Num 8)) _ _));
    vm_compute; reflexivity.
Defined.









(** * Results of a search *)

(** A decidable proposition that evaluates to true holds. *)
Ltac holds_by_evaluation :=
  match goal with
  | |- ?P => apply (bool_decide_eq_true_1 P); vm_compute; reflexivity
  end.

(** A decidable proposition that evaluates to false does not hold. *)
Ltac refute_by_evaluation :=
  match goal with
  | |- ¬ ?P => apply (bool_decide_eq_false_1 P); vm_compute; reflexivity
  end.

(** The result a search ended with, if it ended with one. *)
Definition resultOf (o : outcome App) : option PathResult :=
  match o with
  | Ok s' => dfsPath (search s')
  | _ => None
  end.

Lemma found_resultOf o r : found o r ↔ resultOf o = Some r.
Proof.
  unfold found, resultOf. split.
  - by intros (s' & -> & Hr).
  - destruct o as [s'| |]; [eauto|done|done].
Qed.


(** Two directed links that lead into [B], from [A] and from [C]. *)
Definition funnelGraph : Graph :=
  mkGraph ["A"; "B"; "C"]
    [mkConn "A" "B" (Num 1) true; mkConn "C" "B" (Num 1) true]
    [mkNode "A" 0 0; mkNode "B" 10 0; mkNode "C" 20 0]
    [mkLink "A" "B" (Num 1) true; mkLink "C" "B" (Num 1) true].

(** A single node. *)
Definition loneGraph : Graph :=
  mkGraph ["A"] [] [mkNode "A" 0 0] [].













(** * Degenerate and absent selections *)

Lemma invalidSelection_request g alg a b rev :
  a = "" ∨ b = "" ∨ a = b → invalidSelection (request g alg a b rev) = true.
Proof.
  unfold invalidSelection, truthy.
  cbn [request selection startCity endCity].
  intros [->|[->| ->]].
  - done.
  - rewrite (bool_decide_eq_true_2 ("" = "")) by done. simpl.
    by rewrite orb_true_r.
  - rewrite (bool_decide_eq_true_2 (b = b)) by done. by rewrite orb_true_r.
Qed.

Lemma linksClosed_intro g :
  Forall (fun l => source l ∈ cities g ∧ target l ∈ cities g) (links g) →
  linksClosed g.
Proof. intros H l Hl. by apply (proj1 (Forall_forall _ _) H). Qed.

(** C6, as stated, fails: with a start that is not a node, DFS reads the
    neighbours of an id that has no entry in the index, and the search ends
    in a [TypeError] instead of "no result". *)
Lemma absent_start_crashes :
  ("Z" ∉ cities loneGraph)
  ∧ computePath loneGraph "Z" "A" DFS false = Crash
  ∧ ¬ noResultOutcome (computePath loneGraph "Z" "A" DFS false).
Proof.
  split; [refute_by_evaluation|].
  assert (computePath loneGraph "Z" "A" DFS false = Crash) as Hc
    by (vm_compute; reflexivity).
  split; [done|]. rewrite Hc. by intros (s' & ? & _).
Qed.

(** C6.  For every strategy: when the start or the end is the empty
    selection, or the start equals the end, the search returns "no result"
    with an empty trace.  On a graph whose link endpoints are nodes, with a
    start and an end that are nodes, the search neither throws nor runs on:
    it returns a state, with a result or with "no result" and an empty
    trace.  On such a graph, with a start that is a node and an end that is
    not, DFS, BFS and the wave return "no result" with an empty trace. *)
Theorem selection_outcomes g a b alg rev :
  (a = "" ∨ b = "" ∨ a = b → noResultOutcome (computePath g a b alg rev))
  ∧ (linksClosed g → a ∈ cities g → b ∈ cities g →
     ∃ s', computePath g a b alg rev = Ok s'
           ∧ (dfsPath (search s') = None → animationSteps (search s') = []))
  ∧ (linksClosed g → a ∈ cities g → b ∉ cities g →
     alg = DFS ∨ alg = BFS ∨ alg = Wave →
     noResultOutcome (computePath g a b alg rev)).
Proof.
  split; [|split].
  - intros Hsel%(invalidSelection_request g alg a b rev).
    unfold computePath. rewrite (findPath_invalid _ Hsel).
    eexists. split; [done|]. done.
  - intros Hcl Ha Hb.
    destruct (findPath_total (request g alg a b rev) Hcl Ha Hb) as [s' Hs'].
    exists s'. split; [done|]. by apply (findPath_no_result _ s' Hs').
  - intros Hcl Ha Hb Halg.
    destruct (buildAdjacencyList_total g rev Hcl) as [adj Hadj].
    pose proof (linksClosed_adjClosed _ _ _ Hcl Hadj) as Hac.
    pose proof Hadj as [Hdom _]%buildAdjacencyList_spec.
    assert (∃ s', computePath g a b alg rev = Ok s') as [s' Hs'].
    { rewrite findPath_request.
      destruct Halg as [->|[->| ->]].
      - apply (performDFS_total _ adj); [done|done|by apply Hdom].
      - apply (performBFS_total _ adj); [done|done|by apply Hdom].
      - apply (performWave_total _ adj); [done|done|by apply Hdom]. }
    exists s'. split; [done|].
    assert (dfsPath (search s') = None) as Hnone.
    { destruct (dfsPath (search s')) as [r|] eqn:Hr; [|done]. exfalso.
      pose proof (found_valid_selection _ s' r Hs' Hr)
        as (_ & _ & Hab)%invalidSelection_false.
      destruct (findPath_reach _ s' r Hs' Hr) as (adj' & m & Hadj' & HrF & _ & Hm).
      { cbn [request selection algorithm]. by destruct Halg as [->|[->| ->]]. }
      rewrite indexOf_request, Hadj in Hadj'. injection Hadj' as <-.
      rewrite Hm in HrF.
      2:{ cbn [request selection algorithm]. by destruct Halg as [->|[->| ->]]. }
      destruct (rtc_dom adj _ _ Hac HrF Hab) as [_ Hbd].
      apply Hb, Hdom, Hbd. }
    split; [done|]. by apply (findPath_no_result _ s' Hs').
Qed.

Lemma selection_outcomes_witness :
  ∃ s', computePath scenarioGraph "A" "C" Dijkstra false = Ok s'
        ∧ (dfsPath (search s') = None → animationSteps (search s') = []).
Proof.
  refine (proj1 (proj2 (selection_outcomes scenarioGraph "A" "C" Dijkstra false))
            _ _ _).
  - apply linksClosed_intro. repeat (apply Forall_cons; split;
      [split; holds_by_evaluation|]). apply Forall_nil_2.
  - holds_by_evaluation.
  - holds_by_evaluation.
Defined.

(** * Reverse traversal of undirected graphs *)







(** * Hop counts *)

(** C4.  BFS marks a node visited when it enqueues it: in every state of
    the loop the queued nodes are marked and no node is queued twice, and
    an iteration appends entries only for nodes that were unmarked, marking
    them.  The target is detected when it is dequeued: the loop stops with
    a result exactly when the entry at the head of the queue is the end.
    The path BFS returns leads from the start to the end along links that
    can be followed in the traversal mode in force and has the least
    number of hops among all such paths; so whenever BFS and DFS both
    return a result for the same graph, start, end and mode, the BFS path
    has at most as many hops as the DFS path. *)
Theorem bfs_minimum_hops :
  (∀ adj rev a b st,
     bfsReach adj rev a b st →
     NoDup (queueNodes st) ∧ ∀ u, u ∈ queueNodes st → u ∈ bfs_visited st)
  ∧ (∀ adj rev b st st',
       bfsBody adj rev b st = Ok (inl st') →
       ∃ e queue added,
         bfs_queue st = e :: queue
         ∧ e_node e ≠ b
         ∧ bfs_queue st' = queue ++ added
         ∧ bfs_visited st' = list_to_set (e_node <$> added) ∪ bfs_visited st
         ∧ (∀ x, x ∈ e_node <$> added → x ∉ bfs_visited st)
         ∧ NoDup (e_node <$> added))
  ∧ (∀ adj rev b st p steps,
       bfsBody adj rev b st = Ok (inr (Some (p, steps)))
       ↔ ∃ e queue, bfs_queue st = e :: queue ∧ e_node e = b
           ∧ p = mkPath (e_path e ++ [e_node e]) (e_distance e)
           ∧ steps = bfs_animSteps st)
  ∧ (∀ g a b rev r,
       found (computePath g a b BFS rev) r →
       validPath rev (links g) a b (path r)
       ∧ ∀ q, validPath rev (links g) a b q → (hops (path r) ≤ hops q)%nat)
  ∧ (∀ g a b rev r r',
       found (computePath g a b BFS rev) r →
       found (computePath g a b DFS rev) r' →
       (hops (path r) ≤ hops (path r'))%nat).
Proof.
  split; [intros adj rev a b st; apply bfsReach_marked|].
  split; [intros adj rev b st st'; apply bfsBody_enqueue|].
  split; [intros adj rev b st p steps; apply bfsBody_found|].
  split.
  - intros g a b rev r (s' & Hrun & Hr). rewrite findPath_request in Hrun.
    destruct (performBFS_sound _ s' r Hrun Hr) as (adj & Hadj & Hs & _ & Hmin).
    split; [exact (soundResult_validPath (request g BFS a b rev) adj r Hadj Hs)|].
    intros q Hq. rewrite indexOf_request in Hadj.
    destruct (validPath_walkW _ _ _ _ _ _ _ Hadj Hq) as [d Hw].
    destruct Hq as (Hh & Hl & _). by apply (Hmin q d).
  - intros g a b rev r r' (s1 & Hrun & Hr) (s2 & Hrun' & Hr').
    rewrite findPath_request in Hrun, Hrun'.
    destruct (performBFS_sound _ s1 r Hrun Hr) as (adj & Hadj & _ & _ & Hmin).
    destruct (performDFS_sound _ s2 r' Hrun' Hr')
      as (adj' & Hadj' & (Hh & Hl & _ & Hw) & _).
    rewrite indexOf_request in Hadj, Hadj'. rewrite Hadj in Hadj'.
    injection Hadj' as <-. by apply (Hmin (path r') (totalDistance r')).
Qed.

Lemma bfs_minimum_hops_witness : (hops ["A"; "C"] ≤ hops ["A"; "B"; "C"])%nat.
Proof.
  refine (proj2 (proj2 (proj2 (proj2 bfs_minimum_hops)))
            scenarioGraph "A" "C" false
            (mkPath ["A"; "C"] (Num 10)) (mkPath ["A"; "B"; "C"] (Num 8)) _ _).
  - exists (scenarioSearch BFS). split; vm_compute; reflexivity.
  - exists (scenarioSearch DFS). split; vm_compute; reflexivity.
Defined.

(** * The adjacency index, entry by entry *)

Section index_entries.

(** The entries a link contributes under the node [u]: towards its target
    when it is pushed under its source (always without reverse traversal,
    and for undirected links), then towards its source when it is pushed
    under its target (always under reverse traversal, and for undirected
    links). *)
Definition entriesOf (reverseTraversal : bool) (u : string) (l : GraphLink)
    : list (string * number) :=
  (if (negb reverseTraversal || negb (directed l)) && bool_decide (source l = u)
   then [(target l, distance l)] else [])
  ++ (if (reverseTraversal || negb (directed l)) && bool_decide (target l = u)
      then [(source l, distance l)] else []).

(** The keys under which a link is pushed, in the order of the pushes. *)
Definition pushedTo (reverseTraversal : bool) (l : GraphLink) : list string :=
  (if negb reverseTraversal || negb (directed l) then [source l] else [])
  ++ (if reverseTraversal || negb (directed l) then [target l] else []).

Lemma adjPush_lookup k e adj adj' u :
  adjPush k e adj = Ok adj' →
  adj' !! u = (fun es => es ++ if bool_decide (k = u) then [e] else [])
                <$> adj !! u.
Proof.
  unfold adjPush. destruct (adj !! k) as [es|] eqn:Hk; [|done].
  intros [= <-]. destruct (decide (k = u)) as [->|Hne].
  - rewrite lookup_insert_eq, Hk, bool_decide_eq_true_2 by done. done.
  - rewrite lookup_insert_ne, bool_decide_eq_false_2 by done.
    destruct (adj !! u); simpl; [by rewrite app_nil_r|done].
Qed.

Lemma addLink_lookup rev adj l adj' u :
  addLink rev adj l = Ok adj' →
  adj' !! u = (fun es => es ++ entriesOf rev u l) <$> adj !! u.
Proof.
  unfold addLink, entriesOf.
  destruct rev, (directed l); simpl.
  - intros H%(adjPush_lookup _ _ _ _ u). rewrite H.
    destruct (adj !! u); simpl; [|done]. done.
  - destruct (adjPush (source l) _ adj) as [adj1| |] eqn:H1; simpl; try done.
    intros H2%(adjPush_lookup _ _ _ _ u).
    apply (adjPush_lookup _ _ _ _ u) in H1. rewrite H2, H1.
    destruct (adj !! u); simpl; [|done]. by rewrite <- app_assoc.
  - destruct (adjPush (source l) _ adj) as [adj1| |] eqn:H1; simpl; try done.
    intros [= <-]. apply (adjPush_lookup _ _ _ _ u) in H1. rewrite H1.
    destruct (adj !! u); simpl; [|done]. by rewrite app_nil_r.
  - destruct (adjPush (source l) _ adj) as [adj1| |] eqn:H1; simpl; try done.
    intros H2%(adjPush_lookup _ _ _ _ u).
    apply (adjPush_lookup _ _ _ _ u) in H1. rewrite H2, H1.
    destruct (adj !! u); simpl; [|done]. by rewrite <- app_assoc.
Qed.

Lemma addLinks_lookup rev ls :
  ∀ adj adj' u,
    addLinks rev ls adj = Ok adj' →
    adj' !! u = (fun es => es ++ flat_map (entriesOf rev u) ls) <$> adj !! u.
Proof.
  induction ls as [|l ls IH]; intros adj adj' u; simpl.
  - intros [= <-]. destruct (adj !! u); simpl; [by rewrite app_nil_r|done].
  - destruct (addLink rev adj l) as [adj1| |] eqn:H1; simpl; try done.
    intros H2. rewrite (IH _ _ u H2), (addLink_lookup _ _ _ _ u H1).
    destruct (adj !! u); simpl; [|done]. by rewrite <- app_assoc.
Qed.

Lemma addLink_outcome rev adj l :
  match addLink rev adj l with
  | Ok adj' => (∀ k, k ∈ pushedTo rev l → is_Some (adj !! k))
               ∧ ∀ u, is_Some (adj' !! u) ↔ is_Some (adj !! u)
  | Crash => ∃ k, k ∈ pushedTo rev l ∧ adj !! k = None
  | Diverge => False
  end.
Proof.
  assert (Hpush : ∀ k e a,
    match adjPush k e a with
    | Ok a' => is_Some (a !! k) ∧ ∀ u, is_Some (a' !! u) ↔ is_Some (a !! u)
    | Crash => a !! k = None
    | Diverge => False
    end).
  { intros k e a. destruct (adjPush k e a) as [a'| |] eqn:H.
    - apply adjPush_spec in H as (? & ? & _). done.
    - unfold adjPush in H. by destruct (a !! k).
    - unfold adjPush in H. by destruct (a !! k). }
  unfold addLink, pushedTo. destruct rev, (directed l); simpl.
  - pose proof (Hpush (target l) (source l, distance l) adj) as H.
    destruct (adjPush _ _ adj); [|exists (target l); set_solver|done].
    destruct H as [? ?]. split; [|done]. by intros k ->%list_elem_of_singleton.
  - pose proof (Hpush (source l) (target l, distance l) adj) as H1.
    destruct (adjPush (source l) _ adj) as [adj1| |]; simpl;
      [|exists (source l); set_solver|done].
    destruct H1 as [Hs Hd1].
    pose proof (Hpush (target l) (source l, distance l) adj1) as H2.
    destruct (adjPush (target l) _ adj1) as [adj2| |]; simpl; [| |done].
    + destruct H2 as [Ht Hd2]. split.
      * intros k [->| ->%list_elem_of_singleton]%elem_of_cons; [done|].
        by apply Hd1.
      * intros u. by rewrite Hd2, Hd1.
    + exists (target l). split; [set_solver|]. apply eq_None_not_Some.
      rewrite <- Hd1. by rewrite H2; intros [? ?].
  - pose proof (Hpush (source l) (target l, distance l) adj) as H1.
    destruct (adjPush (source l) _ adj) as [adj1| |]; simpl;
      [|exists (source l); set_solver|done].
    destruct H1 as [Hs Hd1]. split; [|done].
    by intros k ->%list_elem_of_singleton.
  - pose proof (Hpush (source l) (target l, distance l) adj) as H1.
    destruct (adjPush (source l) _ adj) as [adj1| |]; simpl;
      [|exists (source l); set_solver|done].
    destruct H1 as [Hs Hd1].
    pose proof (Hpush (target l) (source l, distance l) adj1) as H2.
    destruct (adjPush (target l) _ adj1) as [adj2| |]; simpl; [| |done].
    + destruct H2 as [Ht Hd2]. split.
      * intros k [->| ->%list_elem_of_singleton]%elem_of_cons; [done|].
        by apply Hd1.
      * intros u. by rewrite Hd2, Hd1.
    + exists (target l). split; [set_solver|]. apply eq_None_not_Some.
      rewrite <- Hd1. by rewrite H2; intros [? ?].
Qed.

Lemma addLinks_outcome rev ls :
  ∀ adj,
    match addLinks rev ls adj with
    | Ok adj' => ∀ l k, l ∈ ls → k ∈ pushedTo rev l → is_Some (adj !! k)
    | Crash => ∃ l k, l ∈ ls ∧ k ∈ pushedTo rev l ∧ adj !! k = None
    | Diverge => False
    end.
Proof.
  induction ls as [|l ls IH]; intros adj; simpl.
  - by intros ?? ?%elem_of_nil.
  - pose proof (addLink_outcome rev adj l) as H1.
    destruct (addLink rev adj l) as [adj1| |]; simpl; [| |done].
    + destruct H1 as [Hk Hd]. specialize (IH adj1).
      destruct (addLinks rev ls adj1) as [adj2| |]; [| |done].
      * intros l' k [->|Hl]%elem_of_cons Hin; [by apply Hk|].
        apply Hd. by eapply IH.
      * destruct IH as (l' & k & Hl & Hin & Hnone). exists l', k.
        split; [by right|]. split; [done|]. apply eq_None_not_Some.
        rewrite <- Hd. by rewrite Hnone; intros [? ?].
    + destruct H1 as (k & Hin & Hnone). exists l, k. split; [by left|done].
Qed.

End index_entries.

(** The index of the scenario graph. *)
Definition scenarioIndex : adjacency :=
  match buildAdjacencyList (cities scenarioGraph) (links scenarioGraph) false with
  | Ok adj => adj
  | _ => ∅
  end.

(** X1.  When [buildAdjacencyList] returns, the index has an entry for
    exactly the nodes, an empty one for an isolated node, and the entry of a
    node lists its neighbours in the order of the links: each link adds the
    neighbour it leads to in the traversal mode in force, an undirected link
    both ways (so an undirected link from a node to itself is listed
    twice). *)
Theorem index_in_link_order cs ls rev adj u :
  buildAdjacencyList cs ls rev = Ok adj →
  adj !! u = if decide (u ∈ cs) then Some (flat_map (entriesOf rev u) ls)
             else None.
Proof.
  unfold buildAdjacencyList. intros H. rewrite (addLinks_lookup _ _ _ _ u H).
  rewrite emptyAdjacency_lookup. by destruct (decide (u ∈ cs)).
Qed.

Lemma index_in_link_order_witness :
  scenarioIndex !! "A" = Some [("B", Num 5); ("C", Num 10)].
Proof.
  refine (index_in_link_order (cities scenarioGraph) (links scenarioGraph) false
            scenarioIndex "A" _).
  vm_compute. reflexivity.
Defined.

(** X2.  [buildAdjacencyList] returns exactly when every key it pushes
    under is a node: the source of each link it follows forwards and the
    target of each link it follows backwards.  Otherwise the push on the
    missing entry throws; the builder never runs on. *)
Theorem index_fails_on_dangling_link cs ls rev :
  ((∃ adj, buildAdjacencyList cs ls rev = Ok adj)
   ↔ ∀ l k, l ∈ ls → k ∈ pushedTo rev l → k ∈ cs)
  ∧ (buildAdjacencyList cs ls rev = Crash
     ↔ ∃ l k, l ∈ ls ∧ k ∈ pushedTo rev l ∧ k ∉ cs)
  ∧ buildAdjacencyList cs ls rev ≠ Diverge.
Proof.
  unfold buildAdjacencyList.
  pose proof (addLinks_outcome rev ls (emptyAdjacency cs)) as H.
  assert (Hin : ∀ k, is_Some (emptyAdjacency cs !! k) ↔ k ∈ cs).
  { intros k. rewrite emptyAdjacency_lookup.
    destruct (decide (k ∈ cs)); split; try done; by intros [? ?]. }
  assert (Hnone : ∀ k, emptyAdjacency cs !! k = None ↔ k ∉ cs).
  { intros k. rewrite eq_None_not_Some, Hin. done. }
  destruct (addLinks rev ls (emptyAdjacency cs)) as [adj| |]; [| |done].
  - split; [|split; [|done]].
    + split; [|eauto]. intros _ l k Hl Hk. apply Hin. by eapply H.
    + split; [done|]. intros (l & k & Hl & Hk & Hn). exfalso.
      apply Hn, Hin. by eapply H.
  - destruct H as (l & k & Hl & Hk & Hn%Hnone).
    split; [|split; [|done]].
    + split; [by intros [? ?]|]. intros Hall. exfalso. by eapply Hn, Hall.
    + split; [|done]. intros _. by exists l, k.
Qed.

(** * Reading a path back from a predecessor table *)

Section read_back.
Context (previous : gmap string (option string)).
Local Open Scope nat_scope.

(** [chainLen c n]: following the predecessors from [c] takes [n] non-empty
    ids before it meets a missing, [null] or empty predecessor. *)
Inductive chainLen : string -> nat -> Prop :=
  | chainLen_blank : chainLen "" 0
  | chainLen_first c :
      c ≠ "" -> prevOf previous c = None -> chainLen c 1
  | chainLen_next c u n :
      c ≠ "" -> prevOf previous c = Some u -> chainLen u n ->
      chainLen c (S n).

(** The walk through the predecessors of [c] comes to an end. *)
Definition chainEnds (c : string) : Prop := ∃ n, chainLen c n.

Lemma chainLen_functional c n :
  chainLen c n → ∀ m, chainLen c m → n = m.
Proof.
  induction 1 as [|c Hc Hp|c u n Hc Hp _ IH]; intros m Hm;
    inversion Hm; subst; try done; try congruence.
  f_equal. apply IH. congruence.
Qed.

(** The ids of a chain that have a predecessor are distinct keys of the
    table. *)
Lemma chainLen_keys c n :
  chainLen c n →
  ∃ ks, S (length ks) ≥ n ∧ NoDup ks
        ∧ ∀ x, x ∈ ks → is_Some (previous !! x) ∧ ∃ k, chainLen x k ∧ k ≤ n.
Proof.
  induction 1 as [|c Hc Hp|c u n Hc Hp Hu (ks & Hlen & Hnd & Hks)].
  - exists []. simpl. split; [lia|]. split; [apply NoDup_nil_2|].
    by intros ? ?%elem_of_nil.
  - exists []. simpl. split; [lia|]. split; [apply NoDup_nil_2|].
    by intros ? ?%elem_of_nil.
  - destruct n as [|n].
    { exists []. simpl. split; [lia|]. split; [apply NoDup_nil_2|].
      by intros ? ?%elem_of_nil. }
    exists (c :: ks). simpl. split; [lia|]. split.
    + apply NoDup_cons. split; [|done]. intros Hin.
      destruct (Hks c Hin) as (_ & k & Hk & Hle).
      assert (chainLen c (S (S n))) as Hc' by (by eapply chainLen_next).
      pose proof (chainLen_functional _ _ Hk _ Hc'). lia.
    + intros x [->|Hx]%elem_of_cons.
      * split.
        -- unfold prevOf in Hp. by destruct (previous !! c).
        -- exists (S (S n)). split; [by eapply chainLen_next|lia].
      * destruct (Hks x Hx) as (? & k & ? & ?). split; [done|].
        exists k. split; [done|lia].
Qed.

Lemma chainLen_bound c n : chainLen c n → n ≤ S (size previous).
Proof.
  intros (ks & Hlen & Hnd & Hks)%chainLen_keys.
  assert (length ks ≤ size previous); [|lia].
  rewrite <- size_dom. apply NoDup_length_le_size; [done|].
  intros x Hx. apply elem_of_dom. by apply Hks.
Qed.

Lemma reconstructLoop_ends fuel :
  ∀ c n acc, chainLen c n → n ≤ fuel → 1 ≤ fuel →
  ∃ p, reconstructLoop fuel previous c acc = Ok p.
Proof.
  induction fuel as [|fuel IH]; intros c n acc Hc Hn Hf; [lia|].
  simpl. unfold truthy.
  inversion Hc as [|c' Hne Hp|c' u n' Hne Hp Hu]; subst.
  - rewrite bool_decide_eq_true_2 by done. simpl. eauto.
  - rewrite bool_decide_eq_false_2 by done. simpl. rewrite Hp. eauto.
  - rewrite bool_decide_eq_false_2 by done. simpl. rewrite Hp.
    destruct (decide (u = "")) as [->|Hu'].
    + rewrite bool_decide_eq_true_2 by done. simpl. eauto.
    + rewrite bool_decide_eq_false_2 by done. simpl.
      apply (IH u n'); [done|lia|].
      inversion Hu; subst; try done; lia.
Qed.

(** What the loop has collected when it returns. *)
Lemma reconstructLoop_chain fuel :
  ∀ c acc p,
    reconstructLoop fuel previous c acc = Ok p →
    ∃ q, p = q ++ acc
      ∧ (c = "" → q = [])
      ∧ (c ≠ "" → last q = Some c)
      ∧ ("" ∉ q)
      ∧ chain (fun u v => prevOf previous v = Some u) q
      ∧ (∀ first, head q = Some first →
           prevOf previous first = None ∨ prevOf previous first = Some "")
      ∧ chainLen c (length q).
Proof.
  induction fuel as [|fuel IH]; intros c acc p; [done|]. simpl. unfold truthy.
  destruct (decide (c = "")) as [->|Hc].
  { rewrite bool_decide_eq_true_2 by done. simpl. intros [= <-].
    exists []. split; [done|]. split; [done|]. split; [done|].
    split; [by intros ?%elem_of_nil|]. split; [done|].
    split; [done|apply chainLen_blank]. }
  rewrite bool_decide_eq_false_2 by done. simpl.
  assert (Hone : ∀ p', Ok (c :: acc) = Ok p' →
            prevOf previous c = None ∨ prevOf previous c = Some "" →
            ∃ q, p' = q ++ acc ∧ (c = "" → q = []) ∧ (c ≠ "" → last q = Some c)
              ∧ ("" ∉ q)
              ∧ chain (fun u v => prevOf previous v = Some u) q
              ∧ (∀ first, head q = Some first →
                   prevOf previous first = None
                   ∨ prevOf previous first = Some "")
              ∧ chainLen c (length q)).
  { intros p' [= <-] Hp. exists [c]. split; [done|]. split; [done|].
    split; [done|]. split; [set_solver|]. split; [done|]. split.
    - by intros first [= <-].
    - destruct Hp as [Hp|Hp].
      + by apply chainLen_first.
      + eapply (chainLen_next c "" 0); [done|done|apply chainLen_blank]. }
  destruct (prevOf previous c) as [u|] eqn:Hp; [|intros H; apply Hone; auto].
  destruct (decide (u = "")) as [->|Hu].
  { rewrite bool_decide_eq_true_2 by done. simpl. intros H. apply Hone; auto. }
  rewrite bool_decide_eq_false_2 by done. simpl.
  intros (q & -> & _ & Hl & Hne & Hch & Hfirst & Hlen)%IH.
  specialize (Hl Hu).
  exists (q ++ [c]). split; [by rewrite <- app_assoc|]. split; [done|].
  split; [intros _; apply last_snoc|]. split; [set_solver|]. split.
  - destruct (decide (q = [])) as [->|Hq]; [done|].
    destruct (exists_last Hq) as (q' & y & ->).
    rewrite last_snoc in Hl. injection Hl as ->.
    rewrite <- app_assoc. simpl. by apply chain_snoc.
  - split.
    + intros first Hh. apply Hfirst. destruct q; [done|]. done.
    + rewrite length_app. simpl. rewrite Nat.add_1_r.
      by eapply chainLen_next.
Qed.

End read_back.

Lemma reconstructLoop_no_crash previous fuel :
  ∀ c acc, reconstructLoop fuel previous c acc ≠ Crash.
Proof.
  induction fuel as [|fuel IH]; intros c acc; [done|]. simpl.
  destruct (truthy c); [|done].
  destruct (prevOf previous c) as [u|]; [|done].
  destruct (truthy u); [apply IH|done].
Qed.

(** X3.  [reconstructCurrentPath] never throws.  It returns exactly when
    the walk through the predecessors of [current] comes to an end, and
    runs on forever when the table leads that walk into a cycle.  The path
    it returns is empty for the empty id and otherwise ends in [current];
    it holds no empty id, each of its nodes is the recorded predecessor of
    the next one, and its first node has no predecessor or an empty one. *)
Theorem read_back_path previous current :
  match reconstructCurrentPath previous current with
  | Ok p =>
      chainEnds previous current
      ∧ (current = "" → p = [])
      ∧ (current ≠ "" → last p = Some current)
      ∧ ("" ∉ p)
      ∧ chain (fun u v => prevOf previous v = Some u) p
      ∧ (∀ first, head p = Some first →
           prevOf previous first = None ∨ prevOf previous first = Some "")
  | Crash => False
  | Diverge => ¬ chainEnds previous current
  end.
Proof.
  unfold reconstructCurrentPath.
  destruct (reconstructLoop _ previous current []) as [p| |] eqn:H.
  - apply reconstructLoop_chain in H
      as (q & -> & He & Hl & Hne & Hch & Hf & Hlen).
    rewrite app_nil_r. split; [by eexists|done].
  - by apply reconstructLoop_no_crash in H.
  - intros [n Hn].
    destruct (reconstructLoop_ends previous (S (size previous)) current n [] Hn)
      as [p Hp]; [by apply (chainLen_bound previous current)|lia|].
    congruence.
Qed.

(** * What a search leaves behind *)

(** [u] and [v] are next to each other, in this order, in [p]. *)
Definition consecutive (p : list string) (u v : string) : Prop :=
  ∃ p1 p2, p = p1 ++ u :: v :: p2.

Lemma elem_of_pathEdgeKeys p k :
  k ∈ pathEdgeKeys p
  ↔ ∃ u v, consecutive p u v ∧ (k = edgeKey u v ∨ k = edgeKey v u).
Proof.
  induction p as [|c [|e p] IH].
  - simpl. split; [set_solver|]. intros (u & v & (p1 & p2 & H) & _).
    by destruct p1.
  - simpl. split; [set_solver|]. intros (u & v & (p1 & p2 & H) & _).
    destruct p1 as [|? [|]]; done.
  - change (pathEdgeKeys (c :: e :: p))
      with (bothKeys c e ∪ pathEdgeKeys (e :: p)).
    rewrite elem_of_union, IH. unfold bothKeys. split.
    + intros [Hk|(u & v & (p1 & p2 & Hp) & Hk)].
      * exists c, e. split; [by exists [], p|set_solver].
      * exists u, v. split; [|done]. exists (c :: p1), p2. simpl. by rewrite Hp.
    + intros (u & v & (p1 & p2 & Hp) & Hk). destruct p1 as [|c' p1].
      * injection Hp as -> -> _. left. set_solver.
      * injection Hp as -> Hp. right. exists u, v. split; [by exists p1, p2|done].
Qed.

Lemma findPath_cases s s' :
  findPath s = Ok s' →
  s' = noResult s ∨ ∃ r steps, s' = foundResult s r steps.
Proof.
  assert (Hend : ∀ (o : outcome App),
            (o = Ok (noResult s) ∨ ∃ r steps, o = Ok (foundResult s r steps)) →
            o = Ok s' →
            s' = noResult s ∨ ∃ r steps, s' = foundResult s r steps).
  { intros o [->|(r & steps & ->)] [= <-]; eauto. }
  unfold findPath. destruct (algorithm (selection s)).
  - unfold performDFS. destruct (invalidSelection s); [apply Hend; auto|].
    destruct (buildAdjacencyList _ _ _); cbn [obind]; try done.
    destruct (dfs _ _ _ _ _ _ _) as [[? st]| |]; cbn [obind]; try done.
    destruct (dfs_pathStack st); apply Hend; eauto.
  - unfold performBFS. destruct (invalidSelection s); [apply Hend; auto|].
    destruct (buildAdjacencyList _ _ _); cbn [obind]; try done.
    destruct (while _ _ _) as [[[p steps]|]| |]; cbn [obind]; try done;
      apply Hend; eauto.
  - unfold performDijkstra. destruct (invalidSelection s); [apply Hend; auto|].
    destruct (buildAdjacencyList _ _ _); cbn [obind]; try done.
    destruct (while _ _ _) as [st| |]; cbn [obind]; try done.
    destruct (_ || _); [|apply Hend; auto].
    destruct (reconstructCurrentPath _ _); cbn [obind]; try done.
    apply Hend; eauto.
  - unfold performWave. destruct (invalidSelection s); [apply Hend; auto|].
    destruct (buildAdjacencyList _ _ _); cbn [obind]; try done.
    destruct (while _ _ _) as [st| |]; cbn [obind]; try done.
    destruct (w_foundPath st); [|apply Hend; auto].
    destruct (reconstructCurrentPath _ _); cbn [obind]; try done.
    apply Hend; eauto.
  - unfold performBidirectionalWave.
    destruct (invalidSelection s); [apply Hend; auto|].
    destruct (buildAdjacencyList _ _ _); cbn [obind]; try done.
    destruct (while _ _ _) as [st| |]; cbn [obind]; try done.
    destruct (bi_meetingNode st) as [m|]; [|apply Hend; auto].
    destruct (_ && _); [|apply Hend; auto].
    destruct (reconstructLoop _ _ _ _); cbn [obind]; try done.
    destruct (match prevOf _ m with Some _ => _ | None => _ end);
      cbn [obind]; try done.
    apply Hend; eauto.
Qed.

(** A search reads the graph and the selection only. *)
Lemma findPath_reads s1 s2 :
  graph s1 = graph s2 → selection s1 = selection s2 →
  findPath s1 = findPath s2.
Proof.
  destruct s1 as [g1 sel1 se1 h1], s2 as [g2 sel2 se2 h2]. simpl.
  intros -> ->. reflexivity.
Qed.

(** What a search that returns leaves behind. *)
Lemma findPath_effect s s' :
  findPath s = Ok s' →
  graph s' = graph s ∧ selection s' = selection s
  ∧ currentStepIndex (search s') = -1
  ∧ highlight s' = mkHighlight false None None ∅ ∅ [] false ∅
  ∧ match dfsPath (search s') with
    | Some r =>
        pathNodes (search s') = list_to_set (path r)
        ∧ ∀ k, k ∈ pathEdges (search s')
               ↔ ∃ u v, consecutive (path r) u v
                        ∧ (k = edgeKey u v ∨ k = edgeKey v u)
    | None =>
        pathNodes (search s') = ∅ ∧ pathEdges (search s') = ∅
        ∧ animationSteps (search s') = []
    end.
Proof.
  intros [->|(r & steps & ->)]%findPath_cases; simpl.
  - done.
  - repeat (split; [done|]). apply elem_of_pathEdgeKeys.
Qed.

(** X4.  A search is a function of the graph and the selection alone, and
    it never changes them.  When it returns it has replaced the search and
    highlight state wholesale: the step index is back at -1, the animation
    is stopped and nothing is highlighted; with a result, the path-node set
    holds exactly the nodes of the path and the path-edge set exactly the
    two keys of every pair of consecutive nodes; without one, the sets and
    the trace are empty. *)
Theorem search_bookkeeping s :
  (∀ s2, graph s = graph s2 → selection s = selection s2 →
         findPath s = findPath s2)
  ∧ ∀ s', findPath s = Ok s' →
      graph s' = graph s ∧ selection s' = selection s
      ∧ currentStepIndex (search s') = -1
      ∧ highlight s' = mkHighlight false None None ∅ ∅ [] false ∅
      ∧ match dfsPath (search s') with
        | Some r =>
            pathNodes (search s') = list_to_set (path r)
            ∧ ∀ k, k ∈ pathEdges (search s')
                   ↔ ∃ u v, consecutive (path r) u v
                            ∧ (k = edgeKey u v ∨ k = edgeKey v u)
        | None =>
            pathNodes (search s') = ∅ ∧ pathEdges (search s') = ∅
            ∧ animationSteps (search s') = []
        end.
Proof. split; [apply findPath_reads|apply findPath_effect]. Qed.

(** * Deleting an edge *)

#[global] Instance connects_dec l u v : Decision (connects l u v).
Proof. unfold connects. apply _. Defined.

(** The same test on a connection record. *)
Definition cconnects (c : Connection) (u v : string) : Prop :=
  (city1 c = u ∧ city2 c = v) ∨ (city1 c = v ∧ city2 c = u).

#[global] Instance cconnects_dec c u v : Decision (cconnects c u v).
Proof. unfold cconnects. apply _. Defined.

Lemma deleteEdge_graph a b s :
  graph (deleteEdge a b s)
  = mkGraph (cities (graph s))
      (filter (fun c => ¬ cconnects c a b) (connections (graph s)))
      (nodes (graph s))
      (filter (fun l => ¬ connects l a b) (links (graph s))).
Proof.
  assert (Hg : graph (deleteEdge a b s)
    = mkGraph (cities (graph s))
        (filter (fun conn => ¬ (city1 conn = a ∧ city2 conn = b)
                             ∧ ¬ (city1 conn = b ∧ city2 conn = a))
                (connections (graph s)))
        (nodes (graph s))
        (filter (fun link => ¬ (source link = a ∧ target link = b)
                             ∧ ¬ (source link = b ∧ target link = a))
                (links (graph s)))).
  { unfold deleteEdge. by destruct (decide _). }
  rewrite Hg. f_equal; apply list_filter_iff; intros x;
    unfold connects, cconnects; tauto.
Qed.

Lemma filter_all {A} (P : A → Prop) `{!∀ x, Decision (P x)} (l : list A) :
  (∀ x, x ∈ l → P x) → filter P l = l.
Proof.
  induction l as [|x l IH]; intros Hall; [done|].
  rewrite filter_cons_True by (apply Hall; by left).
  f_equal. apply IH. intros y Hy. apply Hall. by right.
Qed.

Lemma deleteEdge_selection a b s : selection (deleteEdge a b s) = selection s.
Proof. unfold deleteEdge. by destruct (decide _). Qed.

Lemma deleteEdge_unlinked a b s :
  ¬ linked (links (graph (deleteEdge a b s))) a b.
Proof.
  rewrite deleteEdge_graph. simpl.
  intros (l & [Hn _]%list_elem_of_filter & Hc)%Exists_exists. done.
Qed.

(** The result is cleared by membership of a key of the pair in the
    path-edge set. *)
Lemma deleteEdge_search a b s :
  if decide (edgeKey a b ∈ pathEdges (search s)
             ∨ edgeKey b a ∈ pathEdges (search s))
  then search (deleteEdge a b s) = mkSearch None ∅ ∅ [] (-1)
       ∧ highlight (deleteEdge a b s)
         = mkHighlight false None None ∅ ∅ [] false ∅
  else search (deleteEdge a b s) = search s
       ∧ highlight (deleteEdge a b s) = highlight s.
Proof. unfold deleteEdge. by destruct (decide _). Qed.

(** X5.  [deleteEdge] removes every link that joins the two nodes,
    whatever its direction and in whichever order the nodes are given, and
    every connection record likewise; all other links and connections stay,
    in their order, and the nodes and the selection are untouched.  The
    result and the trace are cleared when the path-edge set holds a key of
    the pair, and are left as they were otherwise. *)
Theorem deleteEdge_removes a b s :
  let s' := deleteEdge a b s in
  cities (graph s') = cities (graph s)
  ∧ nodes (graph s') = nodes (graph s)
  ∧ selection s' = selection s
  ∧ links (graph s') = filter (fun l => ¬ connects l a b) (links (graph s))
  ∧ connections (graph s')
    = filter (fun c => ¬ cconnects c a b) (connections (graph s))
  ∧ ¬ linked (links (graph s')) a b
  ∧ ¬ linked (links (graph s')) b a
  ∧ graph (deleteEdge b a s) = graph s'
  ∧ (if decide (edgeKey a b ∈ pathEdges (search s)
               ∨ edgeKey b a ∈ pathEdges (search s))
     then search s' = mkSearch None ∅ ∅ [] (-1)
          ∧ highlight s' = mkHighlight false None None ∅ ∅ [] false ∅
     else search s' = search s ∧ highlight s' = highlight s).
Proof.
  cbv zeta. pose proof (deleteEdge_unlinked a b s) as Hno.
  pose proof (deleteEdge_search a b s) as Hs.
  rewrite !deleteEdge_graph in *. simpl in *.
  split; [done|]. split; [done|].
  split; [apply deleteEdge_selection|].
  split; [done|]. split; [done|]. split; [done|].
  split; [by intros ?%linked_sym|]. split; [|done].
  f_equal; apply list_filter_iff; intros x; unfold connects, cconnects; tauto.
Qed.

(** X6.  Deleting an edge that the path of the current result runs over, in
    either orientation, clears the result, the trace and the path sets
    along with the edge. *)
Theorem delete_path_edge_clears s s' r u v :
  findPath s = Ok s' → dfsPath (search s') = Some r →
  consecutive (path r) u v ∨ consecutive (path r) v u →
  search (deleteEdge u v s') = mkSearch None ∅ ∅ [] (-1)
  ∧ ¬ linked (links (graph (deleteEdge u v s'))) u v.
Proof.
  intros Hrun Hr Hcons.
  destruct (findPath_effect s s' Hrun) as (_ & _ & _ & _ & Hsets). rewrite Hr in Hsets.
  destruct Hsets as [_ Hedges].
  pose proof (deleteEdge_unlinked u v s') as Hno.
  pose proof (deleteEdge_search u v s') as Hs.
  split; [|done].
  destruct (decide _) as [_|Hn]; [apply Hs|]. exfalso. apply Hn.
  destruct Hcons as [Hc|Hc].
  - left. apply Hedges. exists u, v. auto.
  - right. apply Hedges. exists v, u. auto.
Qed.

Lemma delete_path_edge_clears_witness :
  search (deleteEdge "C" "B" (scenarioSearch DFS)) = mkSearch None ∅ ∅ [] (-1)
  ∧ ¬ linked (links (graph (deleteEdge "C" "B" (scenarioSearch DFS)))) "C" "B".
Proof.
  refine (delete_path_edge_clears (request scenarioGraph DFS "A" "C" false)
            (scenarioSearch DFS) (mkPath ["A"; "B"; "C"] (Num 8)) "C" "B" _ _ _).
  - vm_compute. reflexivity.
  - vm_compute. reflexivity.
  - right. by exists ["A"], [].
Defined.

(** * The two copies of the edge list *)

(** How the effect that builds the graph turns a connection record into a
    link. *)
Definition linkOf (c : Connection) : GraphLink :=
  mkLink (city1 c) (city2 c) (cdistance c) (cdirected c).

(** The links are the connection records, one for one and in order. *)
Definition mirrors (g : Graph) : Prop := links g = map linkOf (connections g).

Lemma filter_map_commute {A B} (f : A → B) (P : B → Prop) (Q : A → Prop)
    `{!∀ x, Decision (P x)} `{!∀ x, Decision (Q x)} (l : list A) :
  (∀ x, P (f x) ↔ Q x) → filter P (map f l) = map f (filter Q l).
Proof.
  intros HPQ. induction l as [|x l IH]; [done|]. simpl.
  destruct (decide (Q x)) as [Hq|Hq].
  - rewrite (filter_cons_True P) by (by apply HPQ).
    rewrite (filter_cons_True Q) by done. simpl. by rewrite IH.
  - rewrite (filter_cons_False P) by (by rewrite HPQ).
    by rewrite (filter_cons_False Q).
Qed.

Lemma mirrors_deleteNode n s : mirrors (graph s) → mirrors (graph (deleteNode n s)).
Proof.
  unfold mirrors. intros Hm.
  assert (Hg : links (graph (deleteNode n s))
               = filter (fun l => source l ≠ n ∧ target l ≠ n) (links (graph s))
             ∧ connections (graph (deleteNode n s))
               = filter (fun c => city1 c ≠ n ∧ city2 c ≠ n)
                        (connections (graph s))).
  { unfold deleteNode. by destruct (decide _). }
  destruct Hg as [-> ->]. rewrite Hm. by apply filter_map_commute.
Qed.

Lemma mirrors_deleteEdge a b s :
  mirrors (graph s) → mirrors (graph (deleteEdge a b s)).
Proof.
  unfold mirrors. intros Hm. rewrite deleteEdge_graph. simpl. rewrite Hm.
  by apply filter_map_commute.
Qed.

Lemma mirrors_addNewEdge a b w d s :
  mirrors (graph s) → mirrors (graph (addNewEdge a b w d s)).
Proof.
  unfold mirrors, addNewEdge. intros Hm. simpl.
  destruct (existsb _ _); simpl.
  - rewrite Hm, !map_map. apply map_ext. intros c. simpl.
    by destruct (sameEdge a b d (city1 c) (city2 c)).
  - by rewrite Hm, map_app.
Qed.

(** X8.  The link list and the connection list never drift apart: if the
    links are the connection records one for one, as the effect that builds
    the graph makes them, they still are after [deleteNode], [deleteEdge],
    [addNewNode], [addNewEdge] and an accepted or rejected
    [confirmAddEdge]. *)
Theorem edge_lists_stay_mirrored s :
  mirrors (graph s) →
  (∀ n, mirrors (graph (deleteNode n s)))
  ∧ (∀ a b, mirrors (graph (deleteEdge a b s)))
  ∧ (∀ name pos, mirrors (graph (addNewNode name pos s)))
  ∧ (∀ a b w d, mirrors (graph (addNewEdge a b w d s)))
  ∧ (∀ a b w d, mirrors (graph (confirmAddEdge a b w d s).2)).
Proof.
  intros Hm. split; [intros n; by apply mirrors_deleteNode|].
  split; [intros a b; by apply mirrors_deleteEdge|].
  split; [done|]. split; [intros a b w d; by apply mirrors_addNewEdge|].
  intros a b w d. unfold confirmAddEdge.
  destruct (_ || _); [done|]. by apply mirrors_addNewEdge.
Qed.

Lemma edge_lists_stay_mirrored_witness :
  mirrors (graph (deleteEdge "A" "B" (request scenarioGraph DFS "A" "C" false))).
Proof.
  refine (proj1 (proj2 (edge_lists_stay_mirrored
                          (request scenarioGraph DFS "A" "C" false) _)) "A" "B").
  vm_compute. reflexivity.
Defined.

(** * The controls of the component *)

(** The [onChange] handlers of the selects and of the check box, and the
    buttons that stop and reset the animation. *)
Definition setStartCity (c : string) (s : App) : App :=
  let sel := selection s in
  mkApp (graph s)
        (mkSelection (selectedCity sel) (algorithm sel) c (endCity sel)
                     (reverseTraversal sel))
        (search s) (highlight s).

Definition setEndCity (c : string) (s : App) : App :=
  let sel := selection s in
  mkApp (graph s)
        (mkSelection (selectedCity sel) (algorithm sel) (startCity sel) c
                     (reverseTraversal sel))
        (search s) (highlight s).

Definition setAlgorithm (alg : Algorithm) (s : App) : App :=
  let sel := selection s in
  mkApp (graph s)
        (mkSelection (selectedCity sel) alg (startCity sel) (endCity sel)
                     (reverseTraversal sel))
        (search s) (highlight s).

Definition setReverseTraversal (rev : bool) (s : App) : App :=
  let sel := selection s in
  mkApp (graph s)
        (mkSelection (selectedCity sel) (algorithm sel) (startCity sel)
                     (endCity sel) rev)
        (search s) (highlight s).

Definition stopAnimation (s : App) : App :=
  let h := highlight s in
  mkApp (graph s) (selection s) (search s)
        (mkHighlight false (hlCurrentNode h) (hlCurrentEdge h) (visitedNodes h)
                     (visitedEdges h) (currentPathAnimation h)
                     (isBacktracking h) (edgeToWaveMap h)).

(** The button "Reset" calls [resetAnimationState]. *)
Definition resetAnimation (s : App) : App :=
  mkApp (graph s) (selection s) (search s) (resetAnimationState (highlight s)).

(** What a user can do to the component. *)
Inductive Action :=
  | SetStart (c : string)
  | SetEnd (c : string)
  | SetAlgorithm (alg : Algorithm)
  | SetReverse (rev : bool)
  | FindPath
  | StartAnimation
  | Tick
  | StopAnimation
  | ResetAnimation
  | DeleteNode (nodeId : string)
  | DeleteEdge (a b : string)
  | AddNode (name : string) (pos : Z * Z)
  | AddEdge (a b : string) (w : number) (dir : bool).

(** The handler behind each action. *)
Definition handle (act : Action) (s : App) : outcome App :=
  match act with
  | SetStart c => Ok (setStartCity c s)
  | SetEnd c => Ok (setEndCity c s)
  | SetAlgorithm alg => Ok (setAlgorithm alg s)
  | SetReverse rev => Ok (setReverseTraversal rev s)
  | FindPath => findPath s
  | StartAnimation => Ok (startAnimation s)
  | Tick => animationTick s
  | StopAnimation => Ok (stopAnimation s)
  | ResetAnimation => Ok (resetAnimation s)
  | DeleteNode n => Ok (deleteNode n s)
  | DeleteEdge a b => Ok (deleteEdge a b s)
  | AddNode name pos => Ok (addNewNode name pos s)
  | AddEdge a b w dir => Ok (confirmAddEdge a b w dir s).2
  end.

(** The actions considered: a start or an end chosen among the nodes, as
    the selects list them, and an edge added between two nodes. *)
Definition offered (act : Action) (s : App) : Prop :=
  match act with
  | SetStart c | SetEnd c => c ∈ cities (graph s)
  | AddEdge a b _ _ => a ∈ cities (graph s) ∧ b ∈ cities (graph s)
  | _ => True
  end.

(** The endpoints of the links are nodes, and the start and the end are
    nodes or not chosen. *)
Definition wellFormed (s : App) : Prop :=
  linksClosed (graph s)
  ∧ (startCity (selection s) = "" ∨ startCity (selection s) ∈ cities (graph s))
  ∧ (endCity (selection s) = "" ∨ endCity (selection s) ∈ cities (graph s)).

Lemma wellFormed_ends s s' :
  graph s' = graph s →
  startCity (selection s') = startCity (selection s) →
  endCity (selection s') = endCity (selection s) →
  wellFormed s → wellFormed s'.
Proof. unfold wellFormed. by intros -> -> ->. Qed.

Lemma wellFormed_same s s' :
  graph s' = graph s → selection s' = selection s →
  wellFormed s → wellFormed s'.
Proof. intros Hg Hs. apply wellFormed_ends; [done|by rewrite Hs..]. Qed.

Lemma findPath_wellFormed s :
  wellFormed s → ∃ s', findPath s = Ok s' ∧ wellFormed s'.
Proof.
  intros Hwf.
  assert (∃ s', findPath s = Ok s') as [s' Hs'].
  { destruct (invalidSelection s) eqn:Hsel.
    - rewrite (findPath_invalid s Hsel). eauto.
    - apply invalidSelection_false in Hsel as (Ha & Hb & _).
      destruct Hwf as (Hcl & [?|Hs] & [?|He]); try done.
      by apply findPath_total. }
  exists s'. split; [done|].
  destruct (findPath_effect s s' Hs') as (Hg & Hsel & _).
  by apply (wellFormed_same s).
Qed.

Lemma deleteNode_wellFormed n s : wellFormed s → wellFormed (deleteNode n s).
Proof.
  intros (Hcl & Hs & He).
  assert (Hg : cities (graph (deleteNode n s))
               = filter (fun city => city ≠ n) (cities (graph s))
             ∧ links (graph (deleteNode n s))
               = filter (fun l => source l ≠ n ∧ target l ≠ n) (links (graph s))).
  { unfold deleteNode. by destruct (decide _). }
  destruct Hg as [Hc Hl].
  assert (Hhd : hd "" (filter (fun city => city ≠ n) (cities (graph s))) = ""
                ∨ hd "" (filter (fun city => city ≠ n) (cities (graph s)))
                  ∈ filter (fun city => city ≠ n) (cities (graph s))).
  { destruct (filter _ _); [by left|right; by left]. }
  assert (Hkeep : ∀ c, c = "" ∨ c ∈ cities (graph s) → c ≠ n →
            c = "" ∨ c ∈ filter (fun city => city ≠ n) (cities (graph s))).
  { intros c [?|?] ?; [by left|right]. by apply list_elem_of_filter. }
  split; [|split].
  - intros l. rewrite Hl, Hc.
    intros [[? ?] Hin]%list_elem_of_filter. destruct (Hcl l Hin).
    split; by apply list_elem_of_filter.
  - rewrite Hc. unfold deleteNode.
    destruct (decide (startCity (selection s) = n ∨ endCity (selection s) = n))
      as [Hd|Hd]; simpl.
    + destruct (decide (startCity (selection s) = n)); [done|]. by apply Hkeep.
    + apply Hkeep; [done|]. intros ?. apply Hd. by left.
  - rewrite Hc. unfold deleteNode.
    destruct (decide (startCity (selection s) = n ∨ endCity (selection s) = n))
      as [Hd|Hd]; simpl.
    + destruct (decide (endCity (selection s) = n)); [done|]. by apply Hkeep.
    + apply Hkeep; [done|]. intros ?. apply Hd. by right.
Qed.

Lemma deleteEdge_wellFormed a b s : wellFormed s → wellFormed (deleteEdge a b s).
Proof.
  intros (Hcl & Hs & He).
  unfold wellFormed. rewrite deleteEdge_selection, deleteEdge_graph. simpl.
  split; [|done]. intros l. simpl. intros [_ Hin]%list_elem_of_filter.
  by apply Hcl.
Qed.

Lemma addNewNode_wellFormed name pos s :
  wellFormed s → wellFormed (addNewNode name pos s).
Proof.
  intros (Hcl & Hs & He). unfold wellFormed, addNewNode, linksClosed. simpl.
  split; [|split].
  - intros l Hl. destruct (Hcl l Hl). set_solver.
  - destruct Hs; [by left|right; set_solver].
  - destruct He; [by left|right; set_solver].
Qed.

Lemma addNewEdge_wellFormed a b w d s :
  a ∈ cities (graph s) → b ∈ cities (graph s) →
  wellFormed s → wellFormed (addNewEdge a b w d s).
Proof.
  intros Ha Hb (Hcl & Hs & He). unfold wellFormed, addNewEdge, linksClosed.
  simpl. destruct (existsb _ _); simpl; (split; [|done]).
  - intros l (l0 & Hl0 & Hin)%list_elem_of_In%in_map_iff.
    apply list_elem_of_In in Hin. destruct (Hcl l0 Hin).
    destruct (sameEdge _ _ _ _ _); by subst l.
  - intros l [Hin| ->%list_elem_of_singleton]%elem_of_app; [by apply Hcl|done].
Qed.

Lemma handle_wellFormed act s :
  wellFormed s → offered act s →
  ∃ s', handle act s = Ok s' ∧ wellFormed s'.
Proof.
  intros Hwf Hoff. destruct act; simpl in *.
  - eexists. split; [done|]. destruct Hwf as (? & ? & ?).
    unfold wellFormed. simpl. auto.
  - eexists. split; [done|]. destruct Hwf as (? & ? & ?).
    unfold wellFormed. simpl. auto.
  - eexists. split; [done|]. by apply (wellFormed_ends s).
  - eexists. split; [done|]. by apply (wellFormed_ends s).
  - by apply findPath_wellFormed.
  - eexists. split; [done|]. apply (wellFormed_same s); [| |done];
      unfold startAnimation; by destruct (animationSteps (search s)).
  - unfold animationTick. destruct (_ && _); [|eauto].
    destruct (animationSteps (search s) !! _) as [step|].
    + eexists. split; [done|]. by apply (wellFormed_same s).
    + apply findPath_wellFormed. by apply (wellFormed_same s).
  - eexists. split; [done|]. by apply (wellFormed_same s).
  - eexists. split; [done|]. by apply (wellFormed_same s).
  - eexists. split; [done|]. by apply deleteNode_wellFormed.
  - eexists. split; [done|]. by apply deleteEdge_wellFormed.
  - eexists. split; [done|]. by apply addNewNode_wellFormed.
  - eexists. split; [done|]. unfold confirmAddEdge.
    destruct (_ || _); [done|]. simpl. destruct Hoff.
    by apply addNewEdge_wellFormed.
Qed.

(** * The effect that builds the graph *)

(** The module-level table [CITY_COORDINATES], which [addNewNode] extends. *)
Abbreviation Coordinates := (gmap string (Z * Z)).

(** [cities.map] of the effect.  Destructuring the entry of a city that the
    table lacks throws. *)
Fixpoint cityNodes (coords : Coordinates) (cs : list string)
    : outcome (list GraphNode) :=
  match cs with
  | [] => Ok []
  | city :: rest =>
      match coords !! city with
      | Some (x, y) => ns ←! cityNodes coords rest; Ok (mkNode city x y :: ns)
      | None => Crash
      end
  end.

(** The effect on [cities] and [connections].  Both lists are non-empty
    where the first and the last city are read. *)
Definition buildGraph (coords : Coordinates) (s : App) : outcome App :=
  let g := graph s in
  if bool_decide (length (cities g) = 0%nat)
     || bool_decide (length (connections g) = 0%nat)
  then Ok s
  else
    ns ←! cityNodes coords (cities g);
    let sel := selection s in
    Ok (mkApp (mkGraph (cities g) (connections g) ns
                       (map linkOf (connections g)))
              (mkSelection (selectedCity sel) (algorithm sel)
                 (default "" (cities g !! 0%nat))
                 (default "" (cities g !! (length (cities g) - 1)%nat))
                 (reverseTraversal sel))
              (search s) (highlight s)).

(** The component together with the coordinate table. *)
Record World := mkWorld {
  coordinates : Coordinates;
  component : App;
}.

(** The actions whose handler assigns [cities] or [connections], always to
    a fresh array, so that the effect runs after them. *)
Definition editsGraph (act : Action) (s : App) : bool :=
  match act with
  | DeleteNode _ | DeleteEdge _ _ | AddNode _ _ => true
  | AddEdge a b w dir => negb (confirmAddEdge a b w dir s).1
  | _ => false
  end.

(** An action as the component goes through it: the handler, then the
    effect when the handler has edited the graph. *)
Definition perform (act : Action) (w : World) : outcome World :=
  let coords :=
    match act with
    | AddNode name pos => <[name := pos]> (coordinates w)
    | _ => coordinates w
    end in
  s' ←! handle act (component w);
  s'' ←! (if editsGraph act (component w) then buildGraph coords s'
          else Ok s');
  Ok (mkWorld coords s'').

Fixpoint performAll (acts : list Action) (w : World) : outcome World :=
  match acts with
  | [] => Ok w
  | act :: rest => w' ←! perform act w; performAll rest w'
  end.


(** Every node has coordinates. *)
Definition charted (coords : Coordinates) (g : Graph) : Prop :=
  ∀ c, c ∈ cities g → is_Some (coords !! c).

(** The states the component is in between two actions. *)
Definition settled (w : World) : Prop :=
  wellFormed (component w) ∧ mirrors (graph (component w))
  ∧ charted (coordinates w) (graph (component w)).

Lemma cityNodes_charted coords cs :
  (∀ c, c ∈ cs → is_Some (coords !! c)) →
  ∃ ns, cityNodes coords cs = Ok ns ∧ map id ns = cs.
Proof.
  induction cs as [|c cs IH]; intros Hall; simpl; [eauto|].
  destruct (Hall c) as [[x y] ->]; [by left|].
  destruct IH as (ns & -> & Hns); [intros c' ?; apply Hall; by right|].
  simpl. exists (mkNode c x y :: ns). split; [done|]. simpl. by rewrite Hns.
Qed.

Lemma cityNodes_ids coords cs ns :
  cityNodes coords cs = Ok ns → map id ns = cs.
Proof.
  revert ns. induction cs as [|c cs IH]; intros ns; simpl; [by intros [= <-]|].
  destruct (coords !! c) as [[x y]|]; [|done].
  destruct (cityNodes coords cs) as [ns'| |]; simpl; try done.
  intros [= <-]. simpl. by rewrite (IH ns').
Qed.

Lemma cityNodes_uncharted coords cs c :
  c ∈ cs → coords !! c = None → cityNodes coords cs = Crash.
Proof.
  induction cs as [|c' cs IH]; [by intros ?%elem_of_nil|].
  intros [->|Hin]%elem_of_cons Hc; simpl; [by rewrite Hc|].
  destruct (coords !! c') as [[x y]|]; [|done]. by rewrite IH.
Qed.

Lemma last_index {A} (l : list A) : l !! (length l - 1)%nat = last l.
Proof.
  induction l as [|x [|y l] IH]; [done..|].
  change (last (x :: y :: l)) with (last (y :: l)). rewrite <- IH. simpl.
  by rewrite Nat.sub_0_r.
Qed.

(** What the effect does when it returns. *)
Lemma buildGraph_effect coords s s' :
  buildGraph coords s = Ok s' →
  cities (graph s') = cities (graph s)
  ∧ connections (graph s') = connections (graph s)
  ∧ search s' = search s ∧ highlight s' = highlight s
  ∧ selectedCity (selection s') = selectedCity (selection s)
  ∧ algorithm (selection s') = algorithm (selection s)
  ∧ reverseTraversal (selection s') = reverseTraversal (selection s)
  ∧ (if decide (cities (graph s) = [] ∨ connections (graph s) = [])
     then s' = s
     else links (graph s') = map linkOf (connections (graph s))
          ∧ map id (nodes (graph s')) = cities (graph s)
          ∧ head (cities (graph s)) = Some (startCity (selection s'))
          ∧ last (cities (graph s)) = Some (endCity (selection s'))).
Proof.
  unfold buildGraph.
  destruct (cities (graph s)) as [|c cs] eqn:Hcs.
  { simpl. intros [= <-]. rewrite ?Hcs, ?Hks. by repeat split. }
  destruct (connections (graph s)) as [|k ks] eqn:Hks.
  { simpl. intros [= <-]. rewrite ?Hcs, ?Hks. by repeat split. }
  destruct (decide _) as [[?|?]|_]; [done..|].
  cbn [length bool_decide orb]. rewrite !bool_decide_eq_false_2 by done.
  cbn [orb].
  destruct (cityNodes coords (c :: cs)) as [ns| |] eqn:Hns; cbn [obind]; try done.
  intros [= <-]. cbn [graph cities connections links nodes selection search
    highlight selectedCity algorithm startCity endCity reverseTraversal].
  repeat (split; [done|]). split; [by apply (cityNodes_ids coords)|].
  split; [done|].
  change (length cs - 0)%nat with (length (c :: cs) - 1)%nat.
  rewrite last_index.
  destruct (last (c :: cs)) eqn:Hl; [done|].
  by apply last_None in Hl.
Qed.

Lemma buildGraph_settled coords s :
  wellFormed s → mirrors (graph s) → charted coords (graph s) →
  ∃ s', buildGraph coords s = Ok s' ∧ wellFormed s' ∧ mirrors (graph s')
        ∧ charted coords (graph s').
Proof.
  intros Hwf Hm Hch.
  assert (∃ s', buildGraph coords s = Ok s') as [s' Hs'].
  { unfold buildGraph. destruct (_ || _); [eauto|].
    destruct (cityNodes_charted coords (cities (graph s)) Hch) as (ns & -> & _).
    simpl. eauto. }
  exists s'. split; [done|].
  destruct (buildGraph_effect coords s s' Hs')
    as (Hc & Hk & _ & _ & _ & _ & _ & Hrest).
  destruct (decide _) as [_|Hne]; [by subst s'|].
  destruct Hrest as (Hl & _ & Hhd & Hla).
  assert (Hlinks : links (graph s') = links (graph s)) by by rewrite Hl, Hm.
  destruct Hwf as (Hcl & _ & _).
  split; [|split].
  - split; [|split].
    + intros l. rewrite Hlinks, Hc. apply Hcl.
    + right. rewrite Hc. by apply head_Some_elem_of.
    + right. rewrite Hc. by apply last_Some_elem_of.
  - unfold mirrors. by rewrite Hl, Hk.
  - intros c. rewrite Hc. apply Hch.
Qed.

(** The actions that do not edit the graph leave it alone. *)
Lemma handle_graph act s s' :
  editsGraph act s = false → handle act s = Ok s' → graph s' = graph s.
Proof.
  destruct act; simpl; try done; try (by intros _ [= <-]).
  - intros _ Hs. by destruct (findPath_effect s s' Hs) as [? _].
  - intros _ [= <-]. unfold startAnimation.
    by destruct (animationSteps (search s)).
  - intros _. unfold animationTick. destruct (_ && _); [|by intros [= <-]].
    destruct (animationSteps (search s) !! _) as [step|].
    + by intros [= <-].
    + intros Hs. by destruct (findPath_effect _ s' Hs) as [? _].
  - intros Hrej [= <-]. apply negb_false_iff in Hrej. unfold confirmAddEdge in *.
    by destruct (_ || _).
Qed.

Lemma handle_settled act coords s s' :
  mirrors (graph s) → charted coords (graph s) → handle act s = Ok s' →
  mirrors (graph s')
  ∧ charted
      match act with
      | AddNode name pos => <[name := pos]> coords
      | _ => coords
      end (graph s').
Proof.
  intros Hm Hch Hs.
  destruct (editsGraph act s) eqn:He.
  - destruct act; simpl in He, Hs; try done; injection Hs as <-.
    + split; [by apply mirrors_deleteNode|].
      assert (Hc : cities (graph (deleteNode nodeId s))
                   = filter (fun city => city ≠ nodeId) (cities (graph s))).
      { unfold deleteNode. by destruct (decide _). }
      intros c. rewrite Hc. intros [_ ?]%list_elem_of_filter. by apply Hch.
    + split; [by apply mirrors_deleteEdge|].
      intros c. rewrite deleteEdge_graph. apply Hch.
    + split; [done|]. intros c. unfold addNewNode. cbn [graph cities].
      cbv beta iota.
      intros [Hin| ->%list_elem_of_singleton]%elem_of_app.
      * destruct (decide (c = name)) as [->|Hne].
        -- rewrite lookup_insert_eq. eauto.
        -- rewrite lookup_insert_ne by done. by apply Hch.
      * rewrite lookup_insert_eq. eauto.
    + unfold confirmAddEdge in *. destruct (_ || _); [done|]. simpl.
      split; [by apply mirrors_addNewEdge|].
      intros c Hc. apply Hch. revert Hc. unfold addNewEdge. simpl.
      by destruct (existsb _ _).
  - rewrite (handle_graph act s s' He Hs).
    split; [done|]. by destruct act.
Qed.

Lemma perform_settled act w :
  settled w → offered act (component w) →
  ∃ w', perform act w = Ok w' ∧ settled w'.
Proof.
  intros (Hwf & Hm & Hch) Hoff. unfold perform.
  destruct (handle_wellFormed act (component w) Hwf Hoff) as (s' & Hs' & Hwf').
  destruct (handle_settled act (coordinates w) (component w) s' Hm Hch Hs')
    as [Hm' Hch'].
  rewrite Hs'. cbn [obind].
  destruct (editsGraph act (component w)).
  - destruct (buildGraph_settled _ s' Hwf' Hm' Hch')
      as (s'' & -> & ? & ? & ?).
    cbn [obind]. eexists. split; [done|]. by split; [|split].
  - cbn [obind]. eexists. split; [done|]. split; [done|split; [done|]].
    simpl. by destruct act.
Qed.


(** The coordinates of the scenario graph. *)
Definition scenarioCoordinates : Coordinates :=
  {[ "A" := (0, 0); "B" := (10, 0); "C" := (5, 10) ]}.

Definition scenarioWorld : World :=
  mkWorld scenarioCoordinates (request scenarioGraph DFS "A" "C" false).


(** An action leaves the nodes, the connections, the result and the
    highlight as its handler set them. *)
Lemma perform_edit act w w' :
  perform act w = Ok w' →
  ∃ s1, handle act (component w) = Ok s1
        ∧ cities (graph (component w')) = cities (graph s1)
        ∧ connections (graph (component w')) = connections (graph s1)
        ∧ search (component w') = search s1
        ∧ highlight (component w') = highlight s1
        ∧ (editsGraph act (component w) = true →
           buildGraph (coordinates w') s1 = Ok (component w')).
Proof.
  unfold perform.
  destruct (handle act (component w)) as [s1| |]; cbn [obind]; try done.
  destruct (editsGraph act (component w)).
  - destruct (buildGraph _ s1) as [s2| |] eqn:Hb; cbn [obind]; try done.
    intros [= <-]. exists s1. cbn [component coordinates].
    destruct (buildGraph_effect _ s1 s2 Hb) as (? & ? & ? & ? & _).
    by repeat split.
  - cbn [obind]. intros [= <-]. exists s1. by repeat split.
Qed.

(** X7.  Between two nodes that no link joins, adding an edge with a
    positive weight and then deleting it, each followed by the effect that
    rebuilds the graph, succeeds and gives back the nodes, the connections,
    the links and the coordinate table as they were. *)
Theorem add_then_delete_edge a b dist dir w :
  settled w →
  a ∈ cities (graph (component w)) → b ∈ cities (graph (component w)) →
  num_lt (Num 0) dist = true →
  ¬ linked (links (graph (component w))) a b →
  ∃ w', performAll [AddEdge a b dist dir; DeleteEdge a b] w = Ok w'
        ∧ cities (graph (component w')) = cities (graph (component w))
        ∧ connections (graph (component w'))
          = connections (graph (component w))
        ∧ links (graph (component w')) = links (graph (component w))
        ∧ coordinates w' = coordinates w.
Proof.
  intros Hset Ha Hb Hpos Hno.
  destruct (perform_settled (AddEdge a b dist dir) w Hset) as (w1 & H1 & Hset1);
    [done|].
  destruct (perform_settled (DeleteEdge a b) w1 Hset1) as (w2 & H2 & Hset2);
    [done|].
  exists w2. cbn [performAll]. rewrite H1. cbn [obind]. rewrite H2.
  cbn [obind]. split; [done|].
  destruct (perform_edit _ _ _ H1) as (s1 & Hs1 & Hc1 & Hk1 & _).
  destruct (perform_edit _ _ _ H2) as (s2 & Hs2 & Hc2 & Hk2 & _).
  cbn [handle] in Hs1, Hs2. injection Hs1 as <-. injection Hs2 as <-.
  destruct Hset as (_ & Hm & _), Hset2 as (_ & Hm2 & _).
  assert (Hex : existsb (fun link => sameEdge a b dir (source link) (target link))
                  (links (graph (component w))) = false).
  { apply not_true_is_false. intros (l & Hl & Hmt)%existsb_sameEdge.
    apply Hno, Exists_exists. exists l. split; [done|].
    unfold edgeMatches in Hmt. unfold connects. tauto. }
  assert (Hadd : cities (graph (confirmAddEdge a b dist dir (component w)).2)
                 = cities (graph (component w))
               ∧ connections (graph (confirmAddEdge a b dist dir (component w)).2)
                 = connections (graph (component w)) ++ [mkConn a b dist dir]).
  { unfold confirmAddEdge. rewrite rejected_iff_not_positive, Hpos.
    unfold addNewEdge. simpl. by rewrite Hex. }
  destruct Hadd as [Hca Hka].
  assert (Hk : connections (graph (component w2))
               = connections (graph (component w))).
  { rewrite Hk2, deleteEdge_graph. cbn [connections]. rewrite Hk1, Hka.
    rewrite filter_app, filter_all.
    - rewrite (filter_cons_False _ (mkConn a b dist dir))
        by (intros H; apply H; by left).
      by rewrite filter_nil, app_nil_r.
    - intros c Hc Hcc. apply Hno, Exists_exists. exists (linkOf c).
      split; [|done].
      rewrite Hm. apply list_elem_of_In, in_map. by apply list_elem_of_In. }
  split; [|split; [done|split]].
  - rewrite Hc2, deleteEdge_graph. cbn [cities]. by rewrite Hc1.
  - by rewrite Hm2, Hk, Hm.
  - unfold perform in H1, H2.
    destruct (handle _ (component w)); cbn [obind] in H1; try done.
    destruct (if editsGraph _ _ then _ else _); cbn [obind] in H1; try done.
    injection H1 as <-.
    destruct (handle _ _); cbn [obind] in H2; try done.
    destruct (if editsGraph _ _ then _ else _); cbn [obind] in H2; try done.
    by injection H2 as <-.
Qed.

Lemma add_then_delete_edge_witness :
  ∃ w', performAll [AddEdge "A" "C" (Num 7) true; DeleteEdge "A" "C"]
          (mkWorld scenarioCoordinates
                   (request funnelGraph DFS "A" "C" false)) = Ok w'
        ∧ cities (graph (component w')) = cities funnelGraph
        ∧ connections (graph (component w')) = connections funnelGraph
        ∧ links (graph (component w')) = links funnelGraph
        ∧ coordinates w' = scenarioCoordinates.
Proof.
  refine (add_then_delete_edge "A" "C" (Num 7) true
            (mkWorld scenarioCoordinates
                     (request funnelGraph DFS "A" "C" false)) _ _ _ _ _).
  - split; [|split].
    + split; [|split].
      * apply linksClosed_intro. repeat (apply Forall_cons; split;
          [split; holds_by_evaluation|]). apply Forall_nil_2.
      * right. holds_by_evaluation.
      * right. holds_by_evaluation.
    + reflexivity.
    + intros c Hc. simpl in Hc.
      repeat (apply elem_of_cons in Hc as [->|Hc]; [by eexists|]).
      by apply elem_of_nil in Hc.
  - holds_by_evaluation.
  - holds_by_evaluation.
  - reflexivity.
  - refute_by_evaluation.
Defined.

(** X16.  Every edit of the graph that leaves at least one node and one
    connection resets the start to the first node and the end to the last
    one, whatever was selected and whatever [deleteNode] had picked, and
    rebuilds the links from the connections and the nodes from the list of
    cities; the result and the highlight stay as the handler left them.  An
    edit that leaves no node or no connection keeps the state the handler
    produced. *)
Theorem edit_resets_selection act w w' :
  editsGraph act (component w) = true → perform act w = Ok w' →
  ∃ s1, handle act (component w) = Ok s1
    ∧ search (component w') = search s1
    ∧ highlight (component w') = highlight s1
    ∧ cities (graph (component w')) = cities (graph s1)
    ∧ connections (graph (component w')) = connections (graph s1)
    ∧ if decide (cities (graph s1) = [] ∨ connections (graph s1) = [])
      then component w' = s1
      else head (cities (graph s1)) = Some (startCity (selection (component w')))
           ∧ last (cities (graph s1))
             = Some (endCity (selection (component w')))
           ∧ mirrors (graph (component w'))
           ∧ map id (nodes (graph (component w'))) = cities (graph s1).
Proof.
  intros He Hp.
  destruct (perform_edit act w w' Hp) as (s1 & Hs1 & Hc & Hk & Hse & Hh & Hb).
  exists s1. repeat (split; [done|]).
  destruct (buildGraph_effect _ s1 _ (Hb He)) as (_ & _ & _ & _ & _ & _ & _ & Hr).
  destruct (decide _); [done|]. destruct Hr as (Hl & Hn & Hhd & Hla).
  repeat (split; [done|]). split; [|done].
  unfold mirrors. by rewrite Hl, Hk.
Qed.

(** The scenario after node C has been deleted. *)
Definition scenarioWithoutC : World :=
  match perform (DeleteNode "C") scenarioWorld with
  | Ok w' => w'
  | _ => scenarioWorld
  end.

Lemma edit_resets_selection_witness :
  Some "A" = Some (startCity (selection (component scenarioWithoutC)))
  ∧ Some "B" = Some (endCity (selection (component scenarioWithoutC))).
Proof.
  destruct (edit_resets_selection (DeleteNode "C") scenarioWorld
              scenarioWithoutC eq_refl)
    as (s1 & Hs1 & _ & _ & _ & _ & Hr); [vm_compute; reflexivity|].
  injection Hs1 as <-.
  destruct (decide _) as [[Hd|Hd]|_];
    [vm_compute in Hd; discriminate Hd..|].
  destruct Hr as (Hhd & Hla & _). split; [exact Hhd|exact Hla].
Defined.

(** * Playing the animation *)

(** The animation effect fired [n] times in a row. *)
Fixpoint ticks (n : nat) (s : App) : outcome App :=
  match n with
  | O => Ok s
  | S n' => s' ←! animationTick s; ticks n' s'
  end.

Lemma applyStep_keeps s step :
  graph (applyStep s step) = graph s
  ∧ selection (applyStep s step) = selection s
  ∧ dfsPath (search (applyStep s step)) = dfsPath (search s)
  ∧ animationSteps (search (applyStep s step)) = animationSteps (search s)
  ∧ isAnimating (highlight (applyStep s step)) = isAnimating (highlight s)
  ∧ currentStepIndex (search (applyStep s step))
    = currentStepIndex (search s) + 1.
Proof.
  unfold applyStep.
  destruct (waveNodes step), (waveEdges step); simpl; done.
Qed.

Lemma ticks_play rest :
  ∀ t played,
    animationSteps (search t) = played ++ rest →
    currentStepIndex (search t) = Z.of_nat (length played) →
    isAnimating (highlight t) = true →
    ticks (length rest) t = Ok (foldl applyStep t rest)
    ∧ graph (foldl applyStep t rest) = graph t
    ∧ selection (foldl applyStep t rest) = selection t
    ∧ animationSteps (search (foldl applyStep t rest)) = played ++ rest
    ∧ isAnimating (highlight (foldl applyStep t rest)) = true
    ∧ currentStepIndex (search (foldl applyStep t rest))
      = Z.of_nat (length (played ++ rest)).
Proof.
  induction rest as [|step rest IH]; intros t played Hsteps Hi Ha.
  { simpl. rewrite app_nil_r. rewrite app_nil_r in Hsteps. done. }
  destruct (applyStep_keeps t step) as (Hg & Hsel & _ & Hst & Han & Hidx).
  destruct (IH (applyStep t step) (played ++ [step]))
    as (Hrun & Hg' & Hsel' & Hst' & Han' & Hidx').
  { by rewrite Hst, Hsteps, <- app_assoc. }
  { rewrite Hidx, Hi, length_app. simpl. lia. }
  { by rewrite Han. }
  simpl. unfold animationTick at 1.
  rewrite Ha, Hi, bool_decide_eq_true_2 by lia. simpl.
  rewrite Nat2Z.id, Hsteps, lookup_app_r by done.
  rewrite Nat.sub_diag. simpl. rewrite Hrun.
  split; [done|]. split; [by rewrite Hg'|]. split; [by rewrite Hsel'|].
  rewrite <- app_assoc in Hst', Hidx'. done.
Qed.

(** X10.  After a search that left a trace, [startAnimation] followed by
    as many firings of the animation effect as the trace has steps applies
    the steps in order, and the visited-node set is then the set of nodes
    the steps visit; one more firing stops the animation and searches
    again, which restores exactly the state the search had left.  With an
    empty trace [startAnimation] and the effect do nothing. *)
Theorem animation_round_trip s s' :
  findPath s = Ok s' →
  (animationSteps (search s') ≠ [] →
   ticks (length (animationSteps (search s'))) (startAnimation s')
   = Ok (foldl applyStep (startAnimation s') (animationSteps (search s')))
   ∧ visitedNodes
       (highlight
          (foldl applyStep (startAnimation s') (animationSteps (search s'))))
     = traceVisits (animationSteps (search s'))
   ∧ ticks (S (length (animationSteps (search s')))) (startAnimation s')
     = Ok s')
  ∧ (animationSteps (search s') = [] →
     startAnimation s' = s' ∧ ∀ n, ticks n s' = Ok s').
Proof.
  intros Hrun.
  destruct (findPath_effect s s' Hrun) as (Hg & Hsel & Hidx & Hh & _).
  split.
  - intros Hne.
    destruct (animationSteps (search s')) as [|st0 steps] eqn:Hsteps; [done|].
    set (t := startAnimation s').
    assert (Ht : graph t = graph s' ∧ selection t = selection s'
                 ∧ animationSteps (search t) = st0 :: steps
                 ∧ currentStepIndex (search t) = 0
                 ∧ isAnimating (highlight t) = true
                 ∧ visitedNodes (highlight t) = ∅).
    { unfold t, startAnimation. rewrite Hsteps, Hh. done. }
    destruct Ht as (Htg & Htsel & Htst & Hti & Hta & Htv).
    destruct (ticks_play (st0 :: steps) t [] Htst Hti Hta)
      as (Hplay & Hg' & Hsel' & Hst' & Han' & Hidx').
    split; [done|]. split.
    { rewrite foldl_applyStep_visited, Htv. by rewrite (left_id_L ∅ (∪)). }
    assert (∀ n u, ticks n t = Ok u → animationTick u = Ok s' →
                   ticks (S n) t = Ok s') as Hsnoc.
    { clear. intros n. generalize t. induction n as [|n IH]; intros t0 u.
      - simpl. intros [= <-] ->. done.
      - intros Hn Hu. change (ticks (S (S n)) t0)
          with (x ←! animationTick t0; ticks (S n) x).
        simpl in Hn. destruct (animationTick t0) as [x| |]; cbn [obind] in *;
          try done. by apply (IH x u). }
    apply (Hsnoc _ _ Hplay).
    unfold animationTick. rewrite Han', Hidx', bool_decide_eq_true_2 by lia.
    simpl andb. cbv iota. rewrite Nat2Z.id, Hst'.
    rewrite lookup_ge_None_2 by (simpl; lia).
    rewrite <- Hrun. apply findPath_reads; cbn [graph selection].
    + by rewrite Hg', Htg, Hg.
    + by rewrite Hsel', Htsel, Hsel.
  - intros Hnil.
    assert (startAnimation s' = s') as Hstart.
    { unfold startAnimation. by rewrite Hnil. }
    split; [done|]. intros n. induction n as [|n IH]; [done|]. simpl.
    unfold animationTick. rewrite Hh. simpl. done.
Qed.

Lemma animation_round_trip_witness :
  ticks 5 (startAnimation (scenarioSearch DFS)) = Ok (scenarioSearch DFS).
Proof.
  refine (proj2 (proj2 (proj1 (animation_round_trip
            (request scenarioGraph DFS "A" "C" false) (scenarioSearch DFS) _) _))).
  - vm_compute. reflexivity.
  - vm_compute. discriminate.
Defined.

(** * Results and reachable nodes *)

Lemma invalidSelection_request_false g alg a b rev :
  a ≠ "" → b ≠ "" → a ≠ b → invalidSelection (request g alg a b rev) = false.
Proof.
  intros Ha Hb Hab. unfold invalidSelection, truthy.
  cbn [request selection startCity endCity].
  by rewrite !bool_decide_eq_false_2 by done.
Qed.

Lemma rtc_stepOf_traversable cs ls rev adj u v :
  buildAdjacencyList cs ls rev = Ok adj →
  rtc (stepOf adj) u v ↔ rtc (traversable rev ls) u v.
Proof.
  intros Hadj. split; apply rtc_subrel; intros x y;
    by apply (stepOf_traversable cs ls rev adj).
Qed.

(** X11.  On a graph whose link endpoints are nodes, for a start and an end
    that are chosen and differ: DFS, BFS and the wave return a result
    exactly when the end can be reached from the start along links that can
    be followed in the traversal mode in force.  The bidirectional wave,
    when no node has the empty id, returns a result exactly when some node
    can be reached in that way from the start and from the end alike, which
    in a graph with directed links does not take a way from the start to
    the end. *)
Theorem result_iff_reachable g a b alg rev :
  linksClosed g → a ≠ "" → b ≠ "" → a ≠ b →
  (alg = DFS ∨ alg = BFS ∨ alg = Wave →
   ((∃ r, found (computePath g a b alg rev) r)
    ↔ rtc (traversable rev (links g)) a b))
  ∧ (alg = BidirectionalWave → "" ∉ cities g →
     ((∃ r, found (computePath g a b alg rev) r)
      ↔ ∃ m, rtc (traversable rev (links g)) a m
             ∧ rtc (traversable rev (links g)) b m)).
Proof.
  intros Hcl Ha Hb Hab.
  destruct (buildAdjacencyList_total g rev Hcl) as [adj Hadj].
  pose proof (linksClosed_adjClosed _ _ _ Hcl Hadj) as Hac.
  pose proof (invalidSelection_request_false g alg a b rev Ha Hb Hab) as Hsel.
  pose proof Hadj as [Hdom _]%buildAdjacencyList_spec.
  assert (Hsound : ∀ r, found (computePath g a b alg rev) r →
            alg ≠ Dijkstra →
            ∃ m, rtc (stepOf adj) a m ∧ rtc (stepOf adj) b m
                 ∧ (alg ≠ BidirectionalWave → m = b)).
  { intros r (s' & Hrun & Hr) Hnd.
    destruct (findPath_reach _ s' r Hrun Hr) as (adj' & m & Hadj' & ? & ? & ?);
      [done|].
    rewrite indexOf_request, Hadj in Hadj'. injection Hadj' as <-. eauto. }
  assert (Hcomplete : ∀ m, alg ≠ Dijkstra →
            (alg = BidirectionalWave → "" ∉ cities g) →
            rtc (stepOf adj) a m → rtc (stepOf adj) b m →
            (alg ≠ BidirectionalWave → m = b) →
            ∃ r, found (computePath g a b alg rev) r).
  { intros m Hnd Hempty HrF HrB Hm.
    destruct (findPath_complete (request g alg a b rev) adj m)
      as (s' & r & Hrun & Hr); try done.
    - intros Hbi. apply eq_None_not_Some. rewrite Hdom. by apply Hempty.
    - exists r, s'. done. }
  split.
  - intros Halg.
    assert (alg ≠ Dijkstra ∧ alg ≠ BidirectionalWave) as [Hnd Hnb].
    { by destruct Halg as [->|[->| ->]]. }
    rewrite <- (rtc_stepOf_traversable _ _ _ _ a b Hadj). split.
    + intros [r Hr]. destruct (Hsound r Hr Hnd) as (m & HrF & _ & Hm).
      by rewrite <- (Hm Hnb).
    + intros Hreach. by apply (Hcomplete b).
  - intros -> Hempty. split.
    + intros [r Hr]. destruct (Hsound r Hr) as (m & HrF & HrB & _); [done|].
      exists m. split; by apply (rtc_stepOf_traversable _ _ _ _ _ _ Hadj).
    + intros (m & HrF & HrB).
      apply (rtc_stepOf_traversable _ _ _ _ _ _ Hadj) in HrF.
      apply (rtc_stepOf_traversable _ _ _ _ _ _ Hadj) in HrB.
      by apply (Hcomplete m).
Qed.

Lemma result_iff_reachable_witness :
  (∃ r, found (computePath scenarioGraph "A" "C" DFS false) r)
  ↔ rtc (traversable false (links scenarioGraph)) "A" "C".
Proof.
  refine (proj1 (result_iff_reachable scenarioGraph "A" "C" DFS false _ _ _ _) _).
  - apply linksClosed_intro. repeat (apply Forall_cons; split;
      [split; holds_by_evaluation|]). apply Forall_nil_2.
  - discriminate.
  - discriminate.
  - discriminate.
  - by left.
Defined.



(** * The neighbours of the selected city *)

(** The effect that recomputes [connectedCities] when the selection or the
    links change. *)
Definition connectedCities (selectedCity : option string)
    (ls : list GraphLink) : gset string :=
  match selectedCity with
  | Some c =>
      if truthy c then
        foldl (fun connected link =>
                 if decide (source link = c) then connected ∪ {[target link]}
                 else if decide (target link = c)
                      then connected ∪ {[source link]}
                      else connected)
              ∅ ls
      else ∅
  | None => ∅
  end.

(** [a - b] *)
Definition num_sub (a b : number) : number :=
  match a, b with
  | Num x, Num y => Num (x - y)
  | Infinity, Num _ | Num _, NegInfinity | Infinity, NegInfinity => Infinity
  | NegInfinity, Num _ | Num _, Infinity | NegInfinity, Infinity => NegInfinity
  | _, _ => NaN
  end.

(** The filter callback of [getCityConnections], with its set
    [addedCities]: only the first entry of a city is kept. *)
Fixpoint keepFirst (addedCities : gset string) (l : list (string * number))
    : list (string * number) :=
  match l with
  | [] => []
  | conn :: rest =>
      if decide (conn.1 ∈ addedCities) then keepFirst addedCities rest
      else conn :: keepFirst ({[conn.1]} ∪ addedCities) rest
  end.

(** [sort((a, b) => a.distance - b.distance)].  The sort of an array is
    stable, and for distances that are numbers the comparator orders them,
    so that the result is the one an insertion sort gives: every element
    goes in front of the first one the comparator puts it before.  (With a
    NaN distance the comparator is not an order and the language leaves the
    result to the engine.) *)
Definition comesBefore (a b : string * number) : bool :=
  num_lt (num_sub a.2 b.2) (Num 0).

Fixpoint insertSorted (a : string * number) (l : list (string * number))
    : list (string * number) :=
  match l with
  | [] => [a]
  | b :: rest =>
      if comesBefore a b then a :: b :: rest else b :: insertSorted a rest
  end.

Definition sortByDistance (l : list (string * number))
    : list (string * number) :=
  foldl (fun sorted a => insertSorted a sorted) [] l.

Definition getCityConnections (cityId : string) (ls : list GraphLink)
    : list (string * number) :=
  sortByDistance
    (keepFirst ∅
       (map (fun link =>
               (if decide (source link = cityId) then target link
                else source link,
                distance link))
            (filter (fun link => source link = cityId ∨ target link = cityId)
                    ls))).

Section city_connections.
Implicit Types (l : list (string * number)) (ls : list GraphLink).

Lemma insertSorted_perm a l : insertSorted a l ≡ₚ a :: l.
Proof.
  induction l as [|b l IH]; [done|]. simpl.
  destruct (comesBefore a b); [done|]. rewrite IH. apply Permutation_swap.
Qed.

Lemma sortByDistance_perm l : sortByDistance l ≡ₚ l.
Proof.
  unfold sortByDistance.
  assert (∀ acc, foldl (fun sorted a => insertSorted a sorted) acc l ≡ₚ acc ++ l)
    as H; [|apply (H [])].
  induction l as [|a l IH]; intros acc; simpl; [by rewrite app_nil_r|].
  rewrite IH, insertSorted_perm. simpl. apply Permutation_middle.
Qed.

(** A distance that is a number: not NaN, not [undefined]. *)
Definition isNumber (d : number) : Prop := isNaN d = false.

Definition byDistance (a b : string * number) : Prop := num_le a.2 b.2 = true.

Lemma comesBefore_true a b :
  isNumber a.2 → isNumber b.2 → comesBefore a b = true → byDistance a b.
Proof.
  unfold comesBefore, byDistance, isNumber.
  destruct a as [? [x| | | |]], b as [? [y| | | |]]; simpl; try done.
  rewrite !bool_decide_eq_true. lia.
Qed.

Lemma comesBefore_false a b :
  isNumber a.2 → isNumber b.2 → comesBefore a b = false → byDistance b a.
Proof.
  unfold comesBefore, byDistance, isNumber.
  destruct a as [? [x| | | |]], b as [? [y| | | |]]; simpl; try done.
  rewrite bool_decide_eq_false, bool_decide_eq_true. lia.
Qed.

Lemma insertSorted_sorted a l :
  isNumber a.2 → Forall (fun b => isNumber b.2) l →
  Sorted byDistance l → Sorted byDistance (insertSorted a l).
Proof.
  intros Ha Hl Hs. induction l as [|b l IH]; simpl.
  { by repeat constructor. }
  apply Forall_cons in Hl as [Hb Hl]. apply Sorted_inv in Hs as [Hs Hhd].
  destruct (comesBefore a b) eqn:Hab.
  - constructor; [by constructor|]. constructor. by apply comesBefore_true.
  - constructor; [by apply IH|].
    destruct l as [|c l]; simpl.
    + constructor. by apply comesBefore_false.
    + destruct (comesBefore a c); constructor.
      * by apply comesBefore_false.
      * by apply HdRel_inv in Hhd.
Qed.

Lemma sortByDistance_sorted l :
  Forall (fun b => isNumber b.2) l → Sorted byDistance (sortByDistance l).
Proof.
  unfold sortByDistance.
  assert (∀ acc, Forall (fun b => isNumber b.2) acc → Sorted byDistance acc →
                 Forall (fun b => isNumber b.2) l →
                 Sorted byDistance
                   (foldl (fun sorted a => insertSorted a sorted) acc l)) as H.
  { induction l as [|a l IH]; intros acc Hacc Hs Hl; simpl; [done|].
    apply Forall_cons in Hl as [Ha Hl]. apply IH; [|by apply insertSorted_sorted|done].
    rewrite insertSorted_perm. by constructor. }
  intros Hl. apply H; [done|constructor|done].
Qed.

(** The first entry of a city in a list. *)
Definition firstOf (c : string) l : option number :=
  snd <$> List.find (fun conn => bool_decide (conn.1 = c)) l.

Lemma keepFirst_spec l :
  ∀ seen,
    NoDup (keepFirst seen l).*1
    ∧ (∀ c, c ∈ (keepFirst seen l).*1 ↔ (c ∉ seen) ∧ c ∈ l.*1)
    ∧ (∀ c d, (c, d) ∈ keepFirst seen l → firstOf c l = Some d).
Proof.
  induction l as [|[c0 d0] l IH]; intros seen; simpl.
  { split; [apply NoDup_nil_2|]. split; [set_solver|]. by intros ?? ?%elem_of_nil. }
  destruct (decide (c0 ∈ seen)) as [Hin|Hnin].
  - destruct (IH seen) as (Hnd & Hmem & Hfirst). split; [done|]. split.
    + intros c. rewrite Hmem. set_solver.
    + intros c d Hcd. unfold firstOf. simpl.
      destruct (decide (c0 = c)) as [->|Hne].
      * exfalso. assert (c ∈ (keepFirst seen l).*1) as Hc.
        { apply list_elem_of_fmap. by exists (c, d). }
        apply Hmem in Hc. tauto.
      * rewrite bool_decide_eq_false_2 by done. by apply Hfirst.
  - destruct (IH ({[c0]} ∪ seen)) as (Hnd & Hmem & Hfirst). split; [|split].
    + simpl. apply NoDup_cons. split; [|done]. rewrite Hmem. set_solver.
    + intros c. simpl. rewrite elem_of_cons, Hmem.
      destruct (decide (c = c0)) as [->|Hne]; set_solver.
    + intros c d [[= -> ->]|Hcd]%elem_of_cons; unfold firstOf; simpl.
      * by rewrite bool_decide_eq_true_2.
      * destruct (decide (c0 = c)) as [->|Hne].
        -- exfalso. assert (c ∈ (keepFirst ({[c]} ∪ seen) l).*1) as Hc.
           { apply list_elem_of_fmap. by exists (c, d). }
           apply Hmem in Hc. set_solver.
        -- rewrite bool_decide_eq_false_2 by done. by apply Hfirst.
Qed.

Lemma firstOf_incident c v ls :
  firstOf v
    (map (fun link =>
            (if decide (source link = c) then target link else source link,
             distance link))
         (filter (fun link => source link = c ∨ target link = c) ls))
  = distance <$> findLink ls c v.
Proof.
  unfold firstOf, findLink. induction ls as [|l ls IH]; [done|].
  destruct (decide (source l = c ∨ target l = c)) as [Hinc|Hinc].
  - rewrite filter_cons_True by done. simpl.
    destruct (decide (source l = c)) as [Hs|Hs]; simpl.
    + destruct (decide (target l = v)) as [Ht|Ht].
      * by rewrite !bool_decide_eq_true_2 by done.
      * rewrite (bool_decide_eq_false_2 (target l = v)) by done.
        rewrite (bool_decide_eq_true_2 (source l = c)) by done. simpl.
        destruct (decide (source l = v)) as [Hsv|Hsv].
        -- rewrite (bool_decide_eq_true_2 (source l = v)) by done.
           rewrite (bool_decide_eq_false_2 (target l = c)) by congruence.
           simpl. apply IH.
        -- rewrite (bool_decide_eq_false_2 (source l = v)) by done. simpl.
           apply IH.
    + assert (target l = c) as Ht by tauto.
      rewrite (bool_decide_eq_false_2 (source l = c)) by done.
      rewrite (bool_decide_eq_true_2 (target l = c)) by done. simpl.
      destruct (decide (source l = v)) as [Hsv|Hsv].
      * by rewrite !bool_decide_eq_true_2 by done.
      * rewrite !(bool_decide_eq_false_2 (source l = v)) by done. simpl.
        apply IH.
  - rewrite filter_cons_False by done. simpl.
    rewrite (bool_decide_eq_false_2 (source l = c)) by tauto.
    rewrite (bool_decide_eq_false_2 (target l = c)) by tauto.
    rewrite ?andb_false_r. simpl. apply IH.
Qed.

Lemma incident_cities c v ls :
  v ∈ (map (fun link =>
              (if decide (source link = c) then target link else source link,
               distance link))
           (filter (fun link => source link = c ∨ target link = c) ls)).*1
  ↔ linked ls c v.
Proof.
  unfold linked. rewrite Exists_exists, list_elem_of_fmap. split.
  - intros ([v' d] & -> & Hin). apply list_elem_of_In, in_map_iff in Hin
      as (l & [= <- <-] & [Hinc Hl]%list_elem_of_In%list_elem_of_filter).
    exists l. split; [done|]. unfold connects. simpl.
    destruct (decide (source l = c)); tauto.
  - intros (l & Hl & Hc). exists (v, distance l). split; [done|].
    apply list_elem_of_In, in_map_iff. exists l. split.
    + unfold connects in Hc. destruct (decide (source l = c)) as [Hs|Hs].
      * f_equal. destruct Hc as [[_ ?]|[? ?]]; congruence.
      * f_equal. destruct Hc as [[? _]|[? _]]; congruence.
    + apply list_elem_of_In, list_elem_of_filter. split; [|done].
      unfold connects in Hc. tauto.
Qed.

Lemma connectedCities_spec c ls v :
  c ≠ "" → v ∈ connectedCities (Some c) ls ↔ linked ls c v.
Proof.
  intros Hc. unfold connectedCities, truthy.
  rewrite bool_decide_eq_false_2 by done. simpl.
  assert (H : ∀ acc : gset string,
    v ∈ foldl (fun connected link =>
                 if decide (source link = c) then connected ∪ {[target link]}
                 else if decide (target link = c)
                      then connected ∪ {[source link]}
                      else connected) acc ls
    ↔ v ∈ acc ∨ linked ls c v).
  { unfold linked. induction ls as [|l ls IH]; intros acc; simpl.
    - rewrite Exists_nil. tauto.
    - rewrite IH, Exists_cons. unfold connects.
      destruct (decide (source l = c)) as [Hs|Hs];
        [|destruct (decide (target l = c)) as [Ht|Ht]];
        rewrite ?elem_of_union, ?elem_of_singleton; naive_solver. }
  rewrite H. set_solver.
Qed.

End city_connections.

(** X13.  [getCityConnections] lists every node joined to the city by a
    live link, in either direction, exactly once; for a city with a
    non-empty id these are exactly the nodes the effect puts into
    [connectedCities].  The distance listed for a node is that of the first
    link between the two in the order of the link list, not the smallest
    one; and when all distances are numbers the list is ordered by
    distance. *)
Theorem city_connections_list c ls :
  NoDup (getCityConnections c ls).*1
  ∧ (∀ v, v ∈ (getCityConnections c ls).*1 ↔ linked ls c v)
  ∧ (c ≠ "" →
     list_to_set (getCityConnections c ls).*1 = connectedCities (Some c) ls)
  ∧ (∀ v d, (v, d) ∈ getCityConnections c ls →
       ∃ l, findLink ls c v = Some l ∧ d = distance l)
  ∧ (Forall (fun l => isNumber (distance l)) ls →
     Sorted byDistance (getCityConnections c ls)).
Proof.
  unfold getCityConnections.
  set (L := map (fun link =>
                   (if decide (source link = c) then target link
                    else source link, distance link))
                (filter (fun link => source link = c ∨ target link = c) ls)).
  destruct (keepFirst_spec L ∅) as (Hnd & Hmem & Hfirst).
  pose proof (sortByDistance_perm (keepFirst ∅ L)) as Hperm.
  assert (Hfst : (sortByDistance (keepFirst ∅ L)).*1 ≡ₚ (keepFirst ∅ L).*1)
    by (by rewrite Hperm).
  assert (Hcities : ∀ v, v ∈ (sortByDistance (keepFirst ∅ L)).*1 ↔ linked ls c v).
  { intros v. rewrite Hfst, Hmem. unfold L.
    rewrite (incident_cities c v ls). set_solver. }
  assert (Hdist : ∀ v d, (v, d) ∈ sortByDistance (keepFirst ∅ L) →
            ∃ l, findLink ls c v = Some l ∧ d = distance l).
  { intros v d Hin. rewrite Hperm in Hin. apply Hfirst in Hin.
    unfold L in Hin. rewrite (firstOf_incident c v ls) in Hin.
    destruct (findLink ls c v) as [l|]; [|done]. injection Hin as <-. eauto. }
  split; [by rewrite Hfst|]. split; [done|]. split.
  { intros Hc. apply set_eq. intros v.
    rewrite elem_of_list_to_set, Hcities. by rewrite connectedCities_spec. }
  split; [done|].
  intros Hnum. apply sortByDistance_sorted. apply Forall_forall.
  intros [v d] Hin. simpl.
  destruct (Hdist v d) as (l & Hl & ->); [by rewrite Hperm|].
  apply findLink_some in Hl as [Hl _].
  by apply (proj1 (Forall_forall _ _) Hnum).
Qed.

(** * Clicks on the canvas and the dialogs *)

(** The component state the click handlers and the dialogs add to the
    state of the engine. *)
Record Ui := mkUi {
  app : App;
  isCreatingNode : bool;
  newNodePosition : option (Z * Z);
  isConnectingNodes : bool;
  sourceNodeId : option string;
  isCreatingEdge : bool;
  edgeSource : string;
  edgeTarget : string;
  hoveredEdge : option (string * string);
}.

Definition withApp (ui : Ui) (a : App) : Ui :=
  mkUi a (isCreatingNode ui) (newNodePosition ui) (isConnectingNodes ui)
       (sourceNodeId ui) (isCreatingEdge ui) (edgeSource ui) (edgeTarget ui)
       (hoveredEdge ui).

Definition setSelectedCity (c : option string) (s : App) : App :=
  let sel := selection s in
  mkApp (graph s)
        (mkSelection c (algorithm sel) (startCity sel) (endCity sel)
                     (reverseTraversal sel))
        (search s) (highlight s).

(** [handleCanvasClick].  The node under the pointer, which the handler
    finds by comparing distances on the canvas, is passed as
    [clickedNode]; [button] is [e.button] and [pos] the position of the
    click on the canvas. *)
Definition handleCanvasClick (button : Z) (pos : Z * Z)
    (clickedNode : option string) (ui : Ui) : Ui :=
  let connecting :=
    match sourceNodeId ui, clickedNode with
    | Some src, Some clicked =>
        if isConnectingNodes ui && truthy src
           && negb (bool_decide (src = clicked))
        then Some (src, clicked) else None
    | _, _ => None
    end in
  match connecting, clickedNode with
  | Some (src, clicked), _ =>
      mkUi (app ui) (isCreatingNode ui) (newNodePosition ui) false None
           true src clicked (hoveredEdge ui)
  | None, Some clicked =>
      if bool_decide (button = 0) then
        withApp ui
          (setSelectedCity
             (if decide (Some clicked = selectedCity (selection (app ui)))
              then None else Some clicked)
             (app ui))
      else if bool_decide (button = 2) then
        mkUi (app ui) (isCreatingNode ui) (newNodePosition ui) true
             (Some clicked) (isCreatingEdge ui) (edgeSource ui) (edgeTarget ui)
             (hoveredEdge ui)
      else ui
  | None, None =>
      if bool_decide (button = 0) then
        mkUi (setSelectedCity None (app ui)) true (Some pos)
             (isConnectingNodes ui) (sourceNodeId ui) (isCreatingEdge ui)
             (edgeSource ui) (edgeTarget ui) (hoveredEdge ui)
      else ui
  end.

(** [handleContextMenu]; [confirmed] is the answer to the [confirm]
    dialog, which is asked only on the deleting branches. *)
Definition handleContextMenu (shiftKey : bool) (clickedNode : option string)
    (confirmed : bool) (ui : Ui) : Ui :=
  match clickedNode with
  | Some clicked =>
      if shiftKey then
        if confirmed then withApp ui (deleteNode clicked (app ui)) else ui
      else
        mkUi (app ui) (isCreatingNode ui) (newNodePosition ui) true
             (Some clicked) (isCreatingEdge ui) (edgeSource ui) (edgeTarget ui)
             (hoveredEdge ui)
  | None =>
      match hoveredEdge ui with
      | Some (src, tgt) =>
          if shiftKey && confirmed then withApp ui (deleteEdge src tgt (app ui))
          else ui
      | None => ui
      end
  end.

(** [addNewNode] as the dialog calls it: nothing happens without a pending
    position; otherwise the dialog closes. *)
Definition createNode (name : string) (ui : Ui) : Ui :=
  match newNodePosition ui with
  | None => ui
  | Some pos =>
      mkUi (addNewNode name pos (app ui)) false None (isConnectingNodes ui)
           (sourceNodeId ui) (isCreatingEdge ui) (edgeSource ui) (edgeTarget ui)
           (hoveredEdge ui)
  end.

(** [confirmAddEdge] as the dialog calls it, on the pending source and
    target; the dialog closes when the weight is accepted. *)
Definition createEdge (dist : number) (dir : bool) (ui : Ui) : Ui :=
  let '(rejected, a) :=
    confirmAddEdge (edgeSource ui) (edgeTarget ui) dist dir (app ui) in
  if rejected then ui
  else mkUi a (isCreatingNode ui) (newNodePosition ui) (isConnectingNodes ui)
            (sourceNodeId ui) false (edgeSource ui) (edgeTarget ui)
            (hoveredEdge ui).

(** The button "Cancel" of the connecting pop-up. *)
Definition cancelConnecting (ui : Ui) : Ui :=
  mkUi (app ui) (isCreatingNode ui) (newNodePosition ui) false None
       (isCreatingEdge ui) (edgeSource ui) (edgeTarget ui) (hoveredEdge ui).

(** X14.  A click on the canvas never changes the graph, the start, the
    end or the result.  When it opens the edge dialog, the dialog's target
    is the node clicked and its source the node picked before, the two
    differ (no edge from a node to itself is offered), and connecting mode
    is left. *)
Theorem canvas_click_opens_edge_dialog button pos clickedNode ui :
  let ui' := handleCanvasClick button pos clickedNode ui in
  graph (app ui') = graph (app ui)
  ∧ startCity (selection (app ui')) = startCity (selection (app ui))
  ∧ endCity (selection (app ui')) = endCity (selection (app ui))
  ∧ search (app ui') = search (app ui)
  ∧ (isCreatingEdge ui = false → isCreatingEdge ui' = true →
     isConnectingNodes ui = true
     ∧ sourceNodeId ui = Some (edgeSource ui')
     ∧ clickedNode = Some (edgeTarget ui')
     ∧ edgeSource ui' ≠ edgeTarget ui'
     ∧ edgeSource ui' ≠ ""
     ∧ isConnectingNodes ui' = false
     ∧ sourceNodeId ui' = None).
Proof.
  cbv zeta. unfold handleCanvasClick.
  destruct (sourceNodeId ui) as [src|] eqn:Hsrc,
    clickedNode as [clicked|]; simpl.
  - destruct (isConnectingNodes ui) eqn:Hc; simpl.
    + unfold truthy. destruct (decide (src = "")) as [->|Hne].
      * rewrite bool_decide_eq_true_2 by done. simpl.
        repeat case_bool_decide; simpl; repeat split; try done; congruence.
      * rewrite (bool_decide_eq_false_2 (src = "")) by done. simpl.
        destruct (decide (src = clicked)) as [->|Hd].
        -- rewrite bool_decide_eq_true_2 by done. simpl.
           repeat case_bool_decide; simpl; repeat split; try done; congruence.
        -- rewrite bool_decide_eq_false_2 by done. simpl. done.
    + repeat case_bool_decide; simpl; repeat split; try done; congruence.
  - repeat case_bool_decide; simpl; repeat split; try done; congruence.
  - repeat case_bool_decide; simpl; repeat split; try done; congruence.
  - repeat case_bool_decide; simpl; repeat split; try done; congruence.
Qed.

Lemma buildAdjacencyList_crash cs ls rev l k :
  l ∈ ls → k ∈ pushedTo rev l → k ∉ cs →
  buildAdjacencyList cs ls rev = Crash.
Proof.
  intros Hl Hk Hn. unfold buildAdjacencyList.
  pose proof (addLinks_outcome rev ls (emptyAdjacency cs)) as H.
  destruct (addLinks rev ls (emptyAdjacency cs)) as [adj| |]; [|done|done].
  exfalso. apply Hn. specialize (H l k Hl Hk).
  rewrite emptyAdjacency_lookup in H.
  destruct (decide (k ∈ cs)); [done|by destruct H].
Qed.

Lemma findPath_crash s :
  invalidSelection s = false → indexOf s = Crash → findPath s = Crash.
Proof.
  unfold indexOf. intros Hsel Hidx.
  unfold findPath, performDFS, performBFS, performDijkstra, performWave,
    performBidirectionalWave.
  rewrite Hsel, Hidx. by destruct (algorithm (selection s)).
Qed.

(** A handler's state after the component has rendered again and the
    effect that builds the graph has run. *)
Definition rendered (coords : Coordinates) (ui : Ui) : outcome Ui :=
  a ←! buildGraph coords (app ui); Ok (withApp ui a).

Lemma buildGraph_links coords s s' :
  buildGraph coords s = Ok s' →
  cities (graph s') = cities (graph s)
  ∧ connections (graph s') = connections (graph s)
  ∧ (links (graph s') = links (graph s)
     ∨ links (graph s') = map linkOf (connections (graph s))).
Proof.
  intros Hb.
  destruct (buildGraph_effect coords s s' Hb) as (Hc & Hk & _ & _ & _ & _ & _ & Hr).
  repeat (split; [done|]).
  destruct (decide _); [left; by subst s'|right; by destruct Hr].
Qed.

(** X15.  Deleting a node does not cancel a connection that is being drawn
    from it.  After a right click that picks a node as the source of a new
    edge, a confirmed shift-right-click that deletes that node, a click on
    another node and a positive weight entered in the dialog (the effect
    that rebuilds the graph running after the deletion and after the
    addition), the graph has a link whose source is no longer a node; from
    then on every search with a start and an end chosen throws while it
    builds the index, unless the link is directed and the traversal
    reversed. *)
Theorem deleted_source_survives coords ui A B pos w dir anyAnswer added :
  A ≠ "" → A ≠ B → num_lt (Num 0) w = true →
  (deleted ←! rendered coords
                (handleContextMenu true (Some A) true
                   (handleContextMenu false (Some A) anyAnswer ui));
   rendered coords
     (createEdge w dir (handleCanvasClick 0 pos (Some B) deleted)))
  = Ok added →
  (A ∉ cities (graph (app added)))
  ∧ mkLink A B w dir ∈ links (graph (app added))
  ∧ (invalidSelection (app added) = false →
     reverseTraversal (selection (app added)) = false ∨ dir = false →
     findPath (app added) = Crash).
Proof.
  intros HA HAB Hw.
  set (s1 := deleteNode A (app ui)).
  assert (Hdel :
    handleContextMenu true (Some A) true
      (handleContextMenu false (Some A) anyAnswer ui)
    = mkUi s1 (isCreatingNode ui) (newNodePosition ui) true (Some A)
           (isCreatingEdge ui) (edgeSource ui) (edgeTarget ui) (hoveredEdge ui))
    by done.
  rewrite Hdel. unfold rendered at 1. cbn [app].
  destruct (buildGraph coords s1) as [s2| |] eqn:Hb1; cbn [obind]; try done.
  assert (Hclicked :
    handleCanvasClick 0 pos (Some B)
      (withApp (mkUi s1 (isCreatingNode ui) (newNodePosition ui) true (Some A)
                  (isCreatingEdge ui) (edgeSource ui) (edgeTarget ui)
                  (hoveredEdge ui)) s2)
    = mkUi s2 (isCreatingNode ui) (newNodePosition ui) false None true A B
           (hoveredEdge ui)).
  { unfold handleCanvasClick, withApp, truthy. simpl.
    rewrite !bool_decide_eq_false_2 by done. done. }
  rewrite Hclicked. unfold createEdge, confirmAddEdge. cbn [app edgeSource edgeTarget].
  rewrite rejected_iff_not_positive, Hw. cbn [negb].
  unfold rendered. cbn [app].
  destruct (buildGraph coords (addNewEdge A B w dir s2)) as [s3| |] eqn:Hb2;
    cbn [obind]; try done.
  intros [= <-]. unfold withApp. cbn [app].
  assert (Hc : cities (graph s1) = filter (fun city => city ≠ A)
                                          (cities (graph (app ui)))
             ∧ links (graph s1)
               = filter (fun l => source l ≠ A ∧ target l ≠ A)
                        (links (graph (app ui)))
             ∧ connections (graph s1)
               = filter (fun c => city1 c ≠ A ∧ city2 c ≠ A)
                        (connections (graph (app ui)))).
  { unfold s1, deleteNode. by destruct (decide _). }
  destruct Hc as (Hc1 & Hl1 & Hk1).
  destruct (buildGraph_links coords s1 s2 Hb1) as (Hc2 & Hk2 & Hl2).
  destruct (buildGraph_links coords _ s3 Hb2) as (Hc3 & Hk3 & Hl3).
  assert (Hfree : ∀ l, l ∈ links (graph s2) → source l ≠ A).
  { intros l. destruct Hl2 as [-> | ->].
    - rewrite Hl1. by intros [[? _] _]%list_elem_of_filter.
    - rewrite Hk1. intros (c & <- & Hin)%list_elem_of_In%in_map_iff.
      apply list_elem_of_In, list_elem_of_filter in Hin as [[? _] _]. done. }
  assert (Hfree' : ∀ l, l ∈ links (graph s2) → target l ≠ A).
  { intros l. destruct Hl2 as [-> | ->].
    - rewrite Hl1. by intros [[_ ?] _]%list_elem_of_filter.
    - rewrite Hk1. intros (c & <- & Hin)%list_elem_of_In%in_map_iff.
      apply list_elem_of_In, list_elem_of_filter in Hin as [[_ ?] _]. done. }
  assert (Hex : existsb (fun link => sameEdge A B dir (source link) (target link))
                  (links (graph s2)) = false).
  { apply not_true_is_false. intros (l & Hin & Hm)%existsb_sameEdge.
    specialize (Hfree l Hin). specialize (Hfree' l Hin).
    unfold edgeMatches in Hm. tauto. }
  assert (Hg : graph (addNewEdge A B w dir s2)
               = mkGraph (cities (graph s2))
                   (connections (graph s2) ++ [mkConn A B w dir])
                   (nodes (graph s2)) (links (graph s2) ++ [mkLink A B w dir])).
  { unfold addNewEdge. simpl. by rewrite Hex. }
  rewrite Hg in Hc3, Hk3, Hl3. cbn [cities connections links] in Hc3, Hk3, Hl3.
  assert (HnA : A ∉ cities (graph s3)).
  { rewrite Hc3, Hc2, Hc1. intros [? _]%list_elem_of_filter. done. }
  assert (Hlink : mkLink A B w dir ∈ links (graph s3)).
  { destruct Hl3 as [-> | ->]; [set_solver|].
    rewrite map_app. simpl. set_solver. }
  split; [done|]. split; [done|].
  intros Hsel Hmode. apply findPath_crash; [done|]. unfold indexOf.
  apply (buildAdjacencyList_crash _ _ _ (mkLink A B w dir) A); [done| |done].
  unfold pushedTo. simpl.
  destruct Hmode as [-> | ->]; [set_solver|].
  destruct (reverseTraversal _); set_solver.
Qed.

(** The component as it is first shown for the scenario graph, with A chosen
    as the start and B as the end. *)
Definition scenarioUi : Ui :=
  mkUi (request scenarioGraph DFS "A" "B" false) false None false None false
       "" "" None.

(** The scenario after C has been picked as a source and deleted, B clicked
    and the weight 3 confirmed. *)
Definition scenarioStaleSource : outcome Ui :=
  deleted ←! rendered scenarioCoordinates
               (handleContextMenu true (Some "C") true
                  (handleContextMenu false (Some "C") false scenarioUi));
  rendered scenarioCoordinates
    (createEdge (Num 3) false
       (handleCanvasClick 0 (10, 0) (Some "B") deleted)).

Lemma deleted_source_survives_witness :
  ∃ added, scenarioStaleSource = Ok added ∧ findPath (app added) = Crash.
Proof.
  destruct scenarioStaleSource as [added| |] eqn:Hflow;
    [|vm_compute in Hflow; discriminate Hflow..].
  exists added. split; [done|].
  refine (proj2 (proj2 (deleted_source_survives scenarioCoordinates scenarioUi
                          "C" "B" (10, 0) (Num 3) false false added
                          _ _ _ Hflow)) _ _).
  - done.
  - done.
  - reflexivity.
  - vm_compute in Hflow. injection Hflow as <-. vm_compute. reflexivity.
  - right. reflexivity.
Defined.
